(** * Batched RNN-T hypotheses and alignments buffers

    A shallow embedding of [nemo/collections/asr/parts/utils/rnnt_utils.py]:
    the classes [BatchedHyps] and [BatchedAlignments] and the function
    [batched_hyps_to_hypotheses].

    Modelling conventions.
    - A torch tensor is its shape together with its contiguous row-major
      storage ([tensor]); a one-dimensional tensor is a plain list.
    - Elements of [torch.long] tensors are integers of [Z].  The code only
      adds one to counters that are bounded by the number of stored columns
      and multiplies batch indices by the capacity, so the 64-bit range is
      out of reach and is not written out.
    - Elements of [float_dtype] tensors are an abstract type with a zero and
      an addition ([FloatDtype]); the rationals instantiate it for the
      concrete scenarios, whose values are dyadic.
    - Python exceptions are the [Raise] results of the [result] monad.  The
      state of an object after an exception is not described.
    - Index tensors follow torch's rules: an index [i] with [-n <= i < 0]
      addresses element [i + n], any other index outside [0, n) raises
      [IndexError]; value tensors of one element broadcast.  The bounds
      check is the one of CPU tensors, made on the host; on an accelerator
      an index out of range is a device-side assertion, which is not
      modelled.
    - The classes are first given on tensor values.  Where it matters which
      tensors share their storage (module [Store]) the buffers live in a
      store and an object holds their locations. *)

From Stdlib Require Import QArith.
From stdpp Require Import list numbers strings gmap.

Local Open Scope Z_scope.

(** ** Exceptions *)

Inductive exc : Set :=
  ValueError | IndexError | RuntimeError | TypeError | AttributeError.

Inductive result (A : Type) : Type :=
| Ok (a : A)
| Raise (e : exc).
Arguments Ok {A} a.
Arguments Raise {A} e.

#[global] Instance result_ret : MRet result := λ A a, Ok a.
#[global] Instance result_bind : MBind result := λ A B f m,
  match m with
  | Ok a => f a
  | Raise e => Raise e
  end.
#[global] Instance result_fmap : FMap result := λ A B f m,
  match m with
  | Ok a => Ok (f a)
  | Raise e => Raise e
  end.

Definition is_Ok {A} (m : result A) : Prop := ∃ a, m = Ok a.

(** Runs [f] over a list from left to right and stops at the first
    exception. *)
Fixpoint traverse {A B} (f : A → result B) (l : list A) : result (list B) :=
  match l with
  | [] => Ok []
  | x :: l' => y ← f x; ys ← traverse f l'; Ok (y :: ys)
  end.

(** ** Tensors *)

Class FloatDtype (F : Type) := {
  f_zero : F;
  f_add : F → F → F
}.

Class Scalar (A : Type) := scalar_zero : A.
#[global] Instance Z_scalar : Scalar Z := 0.
#[global] Instance float_scalar {F : Type} {HF : FloatDtype F} : Scalar F := @f_zero F HF.

Record tensor (A : Type) : Type := Tensor {
  shape : list nat;
  data : list A
}.
Arguments Tensor {A} shape data.
Arguments shape {A} t.
Arguments data {A} t.

Definition numel (s : list nat) : nat := foldr Nat.mul 1%nat s.

(** The extent of the last dimension and the number of rows before it. *)
Definition last_dim (s : list nat) : nat := List.last s 1%nat.
Definition lead_numel (s : list nat) : nat := numel (removelast s).

(** [torch.zeros(dims)]: a negative dimension is a [RuntimeError]. *)
Definition torch_zeros {A} `{Scalar A} (dims : list Z) : result (tensor A) :=
  if bool_decide (Forall (λ d, 0 ≤ d) dims)
  then let s := Z.to_nat <$> dims in Ok (Tensor s (replicate (numel s) scalar_zero))
  else Raise RuntimeError.

(** [torch.zeros(n)] and [torch.full((n,), v)] for one-dimensional tensors. *)
Definition torch_zeros1 {A} `{Scalar A} (n : Z) : result (list A) :=
  if bool_decide (0 ≤ n) then Ok (replicate (Z.to_nat n) scalar_zero)
  else Raise RuntimeError.

Definition torch_full1 {A} (n : Z) (v : A) : result (list A) :=
  if bool_decide (0 ≤ n) then Ok (replicate (Z.to_nat n) v)
  else Raise RuntimeError.

Definition torch_zeros_like {A} `{Scalar A} (t : tensor A) : tensor A :=
  Tensor (shape t) (replicate (length (data t)) scalar_zero).

(** Row-major concatenation along the last dimension: each of the [k] rows
    of width [n1] of the first storage is followed by the matching row of
    width [n2] of the second. *)
Fixpoint cat_rows {A} (k n1 n2 : nat) (d1 d2 : list A) : list A :=
  match k with
  | O => []
  | S k' => take n1 d1 ++ take n2 d2 ++ cat_rows k' n1 n2 (drop n1 d1) (drop n2 d2)
  end.

(** [torch.cat((t1, t2), dim=-1)].  Both call sites pass a tensor and the
    [zeros_like] of it, so the leading dimensions agree. *)
Definition torch_cat_last {A} (t1 t2 : tensor A) : tensor A :=
  let s1 := shape t1 in
  let s2 := shape t2 in
  Tensor (removelast s1 ++ [(last_dim s1 + last_dim s2)%nat])
         (cat_rows (lead_numel s1) (last_dim s1) (last_dim s2) (data t1) (data t2)).

(** ** Indexing with index tensors *)

Definition norm_index (n : nat) (i : Z) : result nat :=
  if bool_decide (0 ≤ i < Z.of_nat n) then Ok (Z.to_nat i)
  else if bool_decide (- Z.of_nat n ≤ i < 0) then Ok (Z.to_nat (i + Z.of_nat n))
  else Raise IndexError.

Definition norm_indices (n : nat) (idx : list Z) : result (list nat) :=
  traverse (norm_index n) idx.

(** A value tensor is used as it is when it has the indexed shape and is
    repeated when it has one element. *)
Definition broadcast_to {A} (n : nat) (v : list A) : result (list A) :=
  if bool_decide (length v = n) then Ok v
  else match v with
       | [x] => Ok (replicate n x)
       | _ => Raise RuntimeError
       end.

(** Elementwise binary operation with broadcasting of a one-element side. *)
Definition broadcast2 {A B C} (f : A → B → C) (x : list A) (y : list B)
  : result (list C) :=
  if bool_decide (length x = length y) then Ok (zip_with f x y)
  else match x, y with
       | [a], _ => Ok (f a <$> y)
       | _, [b] => Ok ((λ a, f a b) <$> x)
       | _, _ => Raise RuntimeError
       end.

(** [l[idx]]: gather. *)
Definition item {A} (l : list A) (i : Z) : result A :=
  j ← norm_index (length l) i;
  match l !! j with
  | Some x => Ok x
  | None => Raise IndexError
  end.

Definition index_select {A} (l : list A) (idx : list Z) : result (list A) :=
  traverse (item l) idx.

(** Writes in order, so that the last write to a position wins. *)
Definition scatter {A} (l : list A) (iv : list (nat * A)) : list A :=
  foldl (λ acc p, <[p.1 := p.2]> acc) l iv.

(** [l[idx] = v]: [index_put_]. *)
Definition index_put {A} (l : list A) (idx : list Z) (v : list A)
  : result (list A) :=
  v' ← broadcast_to (length idx) v;
  idx' ← norm_indices (length l) idx;
  Ok (scatter l (zip idx' v')).

(** [t.view(-1)[idx] = v]: the write goes through the view into the
    storage of [t]. *)
Definition view_flat_index_put {A} (t : tensor A) (idx : list Z) (v : list A)
  : result (tensor A) :=
  d ← index_put (data t) idx v;
  Ok (Tensor (shape t) d).

(** [x += y] on a fresh tensor [x]: [y] must broadcast to the shape of [x]. *)
Definition iadd {A} (add : A → A → A) (x y : list A) : result (list A) :=
  y' ← broadcast_to (length x) y;
  Ok (zip_with add x y').

(** [t.max().item()] *)
Definition tensor_max (l : list Z) : result Z :=
  match l with
  | [] => Raise RuntimeError
  | x :: l' => Ok (foldl Z.max x l')
  end.

(** [t[i, :n]] for a two-dimensional tensor, with Python's slice rules: a
    bound beyond the row is clamped, a negative bound counts from the end. *)
Definition slice_bound (cols : nat) (n : Z) : nat :=
  if bool_decide (0 ≤ n) then Nat.min (Z.to_nat n) cols
  else Z.to_nat (Z.max 0 (n + Z.of_nat cols)).

Definition row_slice {A} (t : tensor A) (i : Z) (n : Z) : result (list A) :=
  match shape t with
  | [rows; cols] =>
      r ← norm_index rows i;
      Ok (take (slice_bound cols n) (take cols (drop (r * cols) (data t))))
  | _ => Raise IndexError
  end.

(** [t[i, j]] for a two-dimensional tensor. *)
Definition item2 {A} (t : tensor A) (i j : Z) : result A :=
  match shape t with
  | [rows; cols] =>
      r ← norm_index rows i;
      c ← norm_index cols j;
      match data t !! (r * cols + c)%nat with
      | Some x => Ok x
      | None => Raise IndexError
      end
  | _ => Raise IndexError
  end.

(** [t[i, j]] for a three-dimensional tensor: the vector along the last
    dimension. *)
Definition item2_vec {A} (t : tensor A) (i j : Z) : result (list A) :=
  match shape t with
  | [rows; cols; width] =>
      r ← norm_index rows i;
      c ← norm_index cols j;
      Ok (take width (drop ((r * cols + c) * width) (data t)))
  | _ => Raise IndexError
  end.

(** The rows of a value tensor assigned to [n] indexed rows of width [d]:
    leading dimensions of extent one are dropped, a single row is repeated,
    and a row of one element is stretched. *)
Definition stretch_row {A} (d : nat) (row : list A) : result (list A) :=
  broadcast_to d row.

Fixpoint rows_of {A} (m d : nat) (l : list A) : list (list A) :=
  match m with
  | O => []
  | S m' => take d l :: rows_of m' d (drop d l)
  end.

Fixpoint drop_ones (s : list nat) : list nat :=
  match s with
  | 1%nat :: s' => drop_ones s'
  | _ => s
  end.

Definition broadcast_rows {A} (n d : nat) (v : tensor A) : result (list (list A)) :=
  match drop_ones (shape v) with
  | [] | [_] =>
      row ← stretch_row d (data v);
      Ok (replicate n row)
  | [m; w] =>
      rows ← traverse (stretch_row d) (rows_of m w (data v));
      broadcast_to n rows
  | _ => Raise RuntimeError
  end.

Definition write_row {A} (d : nat) (l : list A) (p : nat * list A) : list A :=
  take (p.1 * d) l ++ p.2 ++ drop (p.1 * d + d) l.

(** [t.view(-1, d)[idx] = v] with [d] the extent of the last dimension of
    [t]; the view is ambiguous, and refused, when [d] is zero. *)
Definition view_rows_index_put {A} (t : tensor A) (idx : list Z) (v : tensor A)
  : result (tensor A) :=
  let d := last_dim (shape t) in
  if bool_decide (d = 0%nat) then Raise RuntimeError
  else
    rows ← broadcast_rows (length idx) d v;
    idx' ← norm_indices (length (data t) `div` d) idx;
    Ok (Tensor (shape t) (foldl (write_row d) (data t) (zip idx' rows))).

(** [range(n)] *)
Definition range (n : Z) : list Z := seqZ 0 n.

(** ** BatchedHyps *)

Module BatchedHyps.
Section with_float.
Context {F : Type} {HF : FloatDtype F}.

Record t : Type := mk {
  _max_length : Z;
  lengths : list Z;
  transcript : tensor Z;
  timesteps : tensor Z;
  scores : list F;
  last_timestep_lasts : list Z;
  last_timestep : list Z
}.

Definition __init__ (batch_size init_length : Z) : result t :=
  if bool_decide (init_length ≤ 0) then Raise ValueError
  else if bool_decide (batch_size ≤ 0) then Raise ValueError
  else
    lengths0 ← torch_zeros1 batch_size;
    transcript0 ← torch_zeros [batch_size; init_length];
    timesteps0 ← torch_zeros [batch_size; init_length];
    scores0 ← torch_zeros1 batch_size;
    lasts0 ← torch_zeros1 batch_size;
    last0 ← torch_full1 batch_size (-1);
    Ok (mk init_length lengths0 transcript0 timesteps0 scores0 lasts0 last0).

Definition _allocate_more (self : t) : t :=
  let transcript' := torch_cat_last (transcript self) (torch_zeros_like (transcript self)) in
  let timesteps' := torch_cat_last (timesteps self) (torch_zeros_like (timesteps self)) in
  mk (_max_length self * 2) (lengths self) transcript' timesteps'
     (scores self) (last_timestep_lasts self) (last_timestep self).

(** [active_indices * self._max_length + self.lengths[active_indices]] *)
Definition indices_to_use (self : t) (active_indices : list Z) : result (list Z) :=
  cur ← index_select (lengths self) active_indices;
  Ok (zip_with (λ a l, a * _max_length self + l) active_indices cur).

(** The object as it is when the scatter writes start: grown when some
    length has reached the capacity. *)
Definition grow_if_full (self : t) : result t :=
  m ← tensor_max (lengths self);
  Ok (if bool_decide (_max_length self ≤ m) then _allocate_more self else self).

Definition add_results_ (self : t)
    (active_indices labels time_indices : list Z) (new_scores : list F)
  : result t :=
  if bool_decide (length active_indices = 0%nat) then Ok self
  else
    self ← grow_if_full self;
    cur ← index_select (scores self) active_indices;
    upd ← iadd f_add cur new_scores;
    scores' ← index_put (scores self) active_indices upd;
    idx ← indices_to_use self active_indices;
    transcript' ← view_flat_index_put (transcript self) idx labels;
    timesteps' ← view_flat_index_put (timesteps self) idx time_indices;
    lt ← index_select (last_timestep self) active_indices;
    same ← broadcast2 (λ a b, bool_decide (a = b)) lt time_indices;
    ltl ← index_select (last_timestep_lasts self) active_indices;
    lasts ← broadcast2 (λ (c : bool) l, if c then l + 1 else 1) same ltl;
    lasts' ← index_put (last_timestep_lasts self) active_indices lasts;
    last' ← index_put (last_timestep self) active_indices time_indices;
    len ← index_select (lengths self) active_indices;
    lengths' ← index_put (lengths self) active_indices ((λ l, l + 1) <$> len);
    Ok (mk (_max_length self) lengths' transcript' timesteps' scores' lasts' last').

End with_float.
Arguments t F : clear implicits.
End BatchedHyps.

(** ** BatchedAlignments *)

(** A one-dimensional tensor argument whose dtype is left to the caller. *)
Inductive any_tensor (F : Type) : Type :=
| LongTensor (v : list Z)
| FloatTensor (v : list F).
Arguments LongTensor {F} v.
Arguments FloatTensor {F} v.

(** [index_put_] refuses a value tensor whose dtype differs from the one of
    the destination. *)
Definition view_flat_index_put_long {F} (t : tensor Z) (idx : list Z) (v : any_tensor F)
  : result (tensor Z) :=
  match v with
  | LongTensor v => view_flat_index_put t idx v
  | FloatTensor _ => Raise RuntimeError
  end.

Module BatchedAlignments.
Section with_float.
Context {F : Type} {HF : FloatDtype F}.

(** [logits] has the dtype [float_dtype]; [labels], [lengths] and
    [frame_confidence] are allocated with [dtype=torch.long]. *)
Record t : Type := mk {
  with_frame_confidence : bool;
  _max_length : Z;
  logits : tensor F;
  labels : tensor Z;
  lengths : list Z;
  frame_confidence : option (tensor Z)
}.

Definition __init__ (batch_size logits_dim init_length : Z) (with_frame_confidence : bool)
  : result t :=
  if bool_decide (init_length ≤ 0) then Raise ValueError
  else if bool_decide (batch_size ≤ 0) then Raise ValueError
  else
    logits0 ← torch_zeros [batch_size; init_length; logits_dim];
    labels0 ← torch_zeros [batch_size; init_length];
    lengths0 ← torch_zeros1 batch_size;
    frame_confidence0 ←
      (if with_frame_confidence
       then c ← torch_zeros [batch_size; init_length]; Ok (Some c)
       else Ok None);
    Ok (mk with_frame_confidence init_length logits0 labels0 lengths0 frame_confidence0).

Definition _allocate_more (self : t) : result t :=
  let logits' := torch_cat_last (logits self) (torch_zeros_like (logits self)) in
  let labels' := torch_cat_last (labels self) (torch_zeros_like (labels self)) in
  frame_confidence' ←
    (if with_frame_confidence self
     then match frame_confidence self with
          | Some c => Ok (Some (torch_cat_last c (torch_zeros_like c)))
          | None => Raise TypeError
          end
     else Ok (frame_confidence self));
  Ok (mk (with_frame_confidence self) (_max_length self * 2) logits' labels'
         (lengths self) frame_confidence').

Definition indices_to_use (self : t) (active_indices : list Z) : result (list Z) :=
  cur ← index_select (lengths self) active_indices;
  Ok (zip_with (λ a l, a * _max_length self + l) active_indices cur).

(** The object as it is when the scatter writes start. *)
Definition grow_if_full (self : t) : result t :=
  m ← tensor_max (lengths self);
  if bool_decide (_max_length self ≤ m) then _allocate_more self else Ok self.

Definition add_results_ (self : t) (active_indices : list Z)
    (new_logits : tensor F) (new_labels : list Z) (confidence : option (any_tensor F))
  : result t :=
  if bool_decide (length active_indices = 0%nat) then Ok self
  else
    self ← grow_if_full self;
    idx ← indices_to_use self active_indices;
    logits' ← view_rows_index_put (logits self) idx new_logits;
    labels' ← view_flat_index_put (labels self) idx new_labels;
    frame_confidence' ←
      (match with_frame_confidence self, confidence with
       | true, Some c =>
           match frame_confidence self with
           | Some buf => buf' ← view_flat_index_put_long buf idx c; Ok (Some buf')
           | None => Raise AttributeError
           end
       | _, _ => Ok (frame_confidence self)
       end);
    len ← index_select (lengths self) active_indices;
    lengths' ← index_put (lengths self) active_indices ((λ l, l + 1) <$> len);
    Ok (mk (with_frame_confidence self) (_max_length self) logits' labels'
           lengths' frame_confidence').

End with_float.
Arguments t F : clear implicits.
End BatchedAlignments.

(** ** Hypothesis and the conversion *)

Section conversion.
Context {F : Type} {HF : FloatDtype F}.

(** The dataclass [Hypothesis] (a reserved word here, hence the underscore),
    with the fields that the conversion sets; the others keep their
    defaults. *)
Record Hypothesis_ : Type := mkHypothesis {
  score : F;
  y_sequence : list Z;
  timestep : list Z;
  alignments : option (list (Z * list F));
  frame_confidence : option (list (list Z));
  dec_state : option (list (tensor F))
}.

(** [l[i]] on a Python list with an index produced by [range]. *)
Definition list_item {A} (l : list A) (i : Z) : result A :=
  item l i.

(** The record built for index [i] by the comprehension. *)
Definition hypothesis_at
    (batched_hyps : BatchedHyps.t F)
    (alignment_lengths : option (list Z))
    (alignment_labels : option (tensor Z))
    (alignment_logits : option (tensor F))
    (frame_confidence : option (tensor Z))
    (i : Z) : result Hypothesis_ :=
  score_i ← item (BatchedHyps.scores batched_hyps) i;
  len_i ← item (BatchedHyps.lengths batched_hyps) i;
  y ← row_slice (BatchedHyps.transcript batched_hyps) i len_i;
  len_i' ← item (BatchedHyps.lengths batched_hyps) i;
  ts ← row_slice (BatchedHyps.timesteps batched_hyps) i len_i';
  al ←
    (match alignment_lengths, alignment_labels, alignment_logits with
     | Some lens, Some labs, Some logs =>
         n ← list_item lens i;
         pairs ← traverse (λ time_i,
                    l ← item2 labs i time_i;
                    v ← item2_vec logs i time_i;
                    Ok (l, v)) (range n);
         Ok (Some pairs)
     | _, _, _ => Ok None
     end);
  fc ←
    (match frame_confidence, alignment_lengths with
     | Some c, Some lens =>
         n ← list_item lens i;
         r ← row_slice c i n;
         Ok (Some [r])
     | _, _ => Ok None
     end);
  Ok (mkHypothesis score_i y ts al fc None).

Definition batched_hyps_to_hypotheses
    (batched_hyps : BatchedHyps.t F) (alignments : option (BatchedAlignments.t F))
  : result (list Hypothesis_) :=
  let alignment_lengths := BatchedAlignments.lengths <$> alignments in
  let alignment_labels := BatchedAlignments.labels <$> alignments in
  let alignment_logits := BatchedAlignments.logits <$> alignments in
  frame_confidence ←
    (match alignments with
     | Some a =>
         if BatchedAlignments.with_frame_confidence a
         then match BatchedAlignments.frame_confidence a with
              | Some c => Ok (Some c)
              | None => Raise AttributeError
              end
         else Ok None
     | None => Ok None
     end);
  traverse
    (hypothesis_at batched_hyps alignment_lengths alignment_labels alignment_logits
       frame_confidence)
    (range (Z.of_nat (length (BatchedHyps.scores batched_hyps)))).

End conversion.
Arguments Hypothesis_ F : clear implicits.

(** ** The rationals as a float dtype *)

#[global] Instance Q_float : FloatDtype Q := {| f_zero := 0%Q; f_add := Qplus |}.

(** ** The decoding loop

    The accumulators are driven by a loop that is not part of the file: it
    calls [add_results_] once per step with the tensors of the step. *)

Section decoding_loop.
Context {F : Type} {HF : FloatDtype F}.

(** The arguments of one call of [add_results_], as the decoding loop
    passes them. *)
Record hyps_call : Type := mkHypsCall {
  c_active : list Z;
  c_labels : list Z;
  c_times : list Z;
  c_scores : list F
}.

Definition apply_call (s : BatchedHyps.t F) (c : hyps_call) : result (BatchedHyps.t F) :=
  BatchedHyps.add_results_ s (c_active c) (c_labels c) (c_times c) (c_scores c).

(** The decoding loop: the calls in order, stopping at the first exception. *)
Fixpoint run (s : BatchedHyps.t F) (cs : list hyps_call) : result (BatchedHyps.t F) :=
  match cs with
  | [] => Ok s
  | c :: cs' => s' ← apply_call s c; run s' cs'
  end.

Record align_call : Type := mkAlignCall {
  a_active : list Z;
  a_logits : tensor F;
  a_labels : list Z;
  a_confidence : option (any_tensor F)
}.

Definition apply_align (s : BatchedAlignments.t F) (c : align_call)
  : result (BatchedAlignments.t F) :=
  BatchedAlignments.add_results_ s (a_active c) (a_logits c) (a_labels c) (a_confidence c).

End decoding_loop.
Arguments hyps_call F : clear implicits.
Arguments align_call F : clear implicits.

(** * Storage and views

    The conversion does not copy the buffers: [transcript[i, :n]] and
    [timesteps[i, :n]] are views, tensors that share the storage of the
    buffer they are sliced from, and so are [alignment_labels[i, t]] and
    [alignment_logits[i, t]] ([.cpu()] returns the tensor itself when it is
    on the CPU and a copy otherwise).  To speak of this the buffers are put
    in a store: an object holds the locations of its buffers, an index
    assignment updates the cell of a buffer in place, and rebinding an
    attribute to the result of [torch.cat] allocates a new cell and leaves
    the old one as it is.  The one-dimensional tensors, of which no view
    escapes, stay values. *)

Module Store.
Section with_float.
Context {F : Type} {HF : FloatDtype F}.

Record store : Type := mkStore {
  longs : gmap nat (tensor Z);
  floats : gmap nat (tensor F)
}.

(** A contiguous view: [v_len] elements of the storage at [v_loc], from
    offset [v_off]. *)
Record view : Type := View {
  v_loc : nat;
  v_off : nat;
  v_len : nat
}.

Definition read_long (h : store) (v : view) : option (list Z) :=
  t ← longs h !! v_loc v; Some (take (v_len v) (drop (v_off v) (data t))).

Definition read_float (h : store) (v : view) : option (list F) :=
  t ← floats h !! v_loc v; Some (take (v_len v) (drop (v_off v) (data t))).

Definition alloc_long (h : store) (t : tensor Z) : store * nat :=
  let l := fresh (dom (longs h)) in
  (mkStore (<[l := t]> (longs h)) (floats h), l).

Definition alloc_float (h : store) (t : tensor F) : store * nat :=
  let l := fresh (dom (floats h)) in
  (mkStore (longs h) (<[l := t]> (floats h)), l).

Definition deref_long (h : store) (l : nat) : result (tensor Z) :=
  match longs h !! l with
  | Some t => Ok t
  | None => Raise RuntimeError
  end.

Definition deref_float (h : store) (l : nat) : result (tensor F) :=
  match floats h !! l with
  | Some t => Ok t
  | None => Raise RuntimeError
  end.

(** [BatchedHyps] with its two buffers in the store. *)
Record hyps_ref : Type := mkHypsRef {
  hr_max_length : Z;
  hr_lengths : list Z;
  hr_transcript : nat;
  hr_timesteps : nat;
  hr_scores : list F;
  hr_last_timestep_lasts : list Z;
  hr_last_timestep : list Z
}.

Definition load_hyps (h : store) (o : hyps_ref) : result (BatchedHyps.t F) :=
  tr ← deref_long h (hr_transcript o);
  ti ← deref_long h (hr_timesteps o);
  Ok (BatchedHyps.mk (hr_max_length o) (hr_lengths o) tr ti (hr_scores o)
        (hr_last_timestep_lasts o) (hr_last_timestep o)).

(** [BatchedHyps(...)]: the two buffers are fresh cells. *)
Definition __init__ (h : store) (batch_size init_length : Z) : result (store * hyps_ref) :=
  v ← BatchedHyps.__init__ batch_size init_length;
  let '(h1, ltr) := alloc_long h (BatchedHyps.transcript v) in
  let '(h2, lti) := alloc_long h1 (BatchedHyps.timesteps v) in
  Ok (h2, mkHypsRef (BatchedHyps._max_length v) (BatchedHyps.lengths v) ltr lti
            (BatchedHyps.scores v) (BatchedHyps.last_timestep_lasts v)
            (BatchedHyps.last_timestep v)).

(** [add_results_]: when [_allocate_more] runs, [self.transcript] and
    [self.timesteps] are rebound to new tensors, which then receive the
    writes; otherwise the writes go to the cells that the object had. *)
Definition add_results_ (h : store) (o : hyps_ref) (c : hyps_call F)
  : result (store * hyps_ref) :=
  v ← load_hyps h o;
  if bool_decide (length (c_active c) = 0%nat) then Ok (h, o)
  else
    m ← tensor_max (BatchedHyps.lengths v);
    v' ← apply_call v c;
    let '(h2, ltr, lti) :=
      if bool_decide (BatchedHyps._max_length v ≤ m)
      then let '(h1, ltr) := alloc_long h (BatchedHyps.transcript v') in
           let '(h2, lti) := alloc_long h1 (BatchedHyps.timesteps v') in
           (h2, ltr, lti)
      else (mkStore (<[hr_timesteps o := BatchedHyps.timesteps v']>
                       (<[hr_transcript o := BatchedHyps.transcript v']> (longs h)))
                    (floats h),
            hr_transcript o, hr_timesteps o) in
    Ok (h2, mkHypsRef (BatchedHyps._max_length v') (BatchedHyps.lengths v') ltr lti
              (BatchedHyps.scores v') (BatchedHyps.last_timestep_lasts v')
              (BatchedHyps.last_timestep v')).

(** [t[i, j] = x] on the tensor at [l]: an in-place write. *)
Definition setitem2 (h : store) (l : nat) (i j : Z) (x : Z) : result store :=
  t ← deref_long h l;
  match shape t with
  | [rows; cols] =>
      r ← norm_index rows i;
      c ← norm_index cols j;
      Ok (mkStore (<[l := Tensor (shape t) (<[(r * cols + c)%nat := x]> (data t))]> (longs h))
                  (floats h))
  | _ => Raise IndexError
  end.

Inductive device : Set := CPU | CUDA.

(** [BatchedAlignments] with its buffers in the store. *)
Record align_ref : Type := mkAlignRef {
  ar_device : device;
  ar_with_frame_confidence : bool;
  ar_max_length : Z;
  ar_logits : nat;
  ar_labels : nat;
  ar_lengths : list Z;
  ar_frame_confidence : option nat
}.

(** [t.cpu()] *)
Definition cpu_long (h : store) (d : device) (l : nat) : result (store * nat) :=
  match d with
  | CPU => Ok (h, l)
  | CUDA => t ← deref_long h l; Ok (alloc_long h t)
  end.

Definition cpu_float (h : store) (d : device) (l : nat) : result (store * nat) :=
  match d with
  | CPU => Ok (h, l)
  | CUDA => t ← deref_float h l; Ok (alloc_float h t)
  end.

(** The views [t[i, :n]], [t[i, j]] on a matrix and [t[i, j]] on a
    three-dimensional tensor. *)
Definition row_view (t : tensor Z) (l : nat) (i n : Z) : result view :=
  match shape t with
  | [rows; cols] =>
      r ← norm_index rows i;
      Ok (View l (r * cols) (slice_bound cols n))
  | _ => Raise IndexError
  end.

Definition item2_view (t : tensor Z) (l : nat) (i j : Z) : result view :=
  match shape t with
  | [rows; cols] =>
      r ← norm_index rows i;
      c ← norm_index cols j;
      Ok (View l (r * cols + c) 1)
  | _ => Raise IndexError
  end.

Definition item2_vec_view (t : tensor F) (l : nat) (i j : Z) : result view :=
  match shape t with
  | [rows; cols; width] =>
      r ← norm_index rows i;
      c ← norm_index cols j;
      Ok (View l ((r * cols + c) * width) width)
  | _ => Raise IndexError
  end.

(** [Hypothesis] as the conversion returns it: the score is a Python float
    and the frame confidence a Python list, the other payloads are views. *)
Record hypothesis_ref : Type := mkHypothesisRef {
  h_score : F;
  h_y_sequence : view;
  h_timestep : view;
  h_alignments : option (list (view * view));
  h_frame_confidence : option (list (list Z))
}.

(** The local variables [alignment_lengths], [alignment_labels],
    [alignment_logits] and [frame_confidence] of the conversion. *)
Record align_locals : Type := mkAlignLocals {
  alignment_lengths : list Z;
  alignment_labels : nat;
  alignment_logits : nat;
  frame_confidence : option nat
}.

Definition hypothesis_ref_at (h : store) (o : hyps_ref) (al : option align_locals)
    (i : Z) : result hypothesis_ref :=
  score_i ← item (hr_scores o) i;
  len_i ← item (hr_lengths o) i;
  tr ← deref_long h (hr_transcript o);
  y ← row_view tr (hr_transcript o) i len_i;
  len_i' ← item (hr_lengths o) i;
  ti ← deref_long h (hr_timesteps o);
  ts ← row_view ti (hr_timesteps o) i len_i';
  als ←
    (match al with
     | Some a =>
         n ← list_item (alignment_lengths a) i;
         labs ← deref_long h (alignment_labels a);
         logs ← deref_float h (alignment_logits a);
         pairs ← traverse (λ time_i,
                    l ← item2_view labs (alignment_labels a) i time_i;
                    v ← item2_vec_view logs (alignment_logits a) i time_i;
                    Ok (l, v)) (range n);
         Ok (Some pairs)
     | None => Ok None
     end);
  fc ←
    (match al with
     | Some a =>
         match frame_confidence a with
         | Some lc =>
             n ← list_item (alignment_lengths a) i;
             c ← deref_long h lc;
             r ← row_slice c i n;
             Ok (Some [r])
         | None => Ok None
         end
     | None => Ok None
     end);
  Ok (mkHypothesisRef score_i y ts als fc).

Definition batched_hyps_to_hypotheses (h : store) (o : hyps_ref) (al : option align_ref)
  : result (store * list hypothesis_ref) :=
  '(h', locals) ←
    (match al with
     | Some a =>
         '(h1, labs) ← cpu_long h (ar_device a) (ar_labels a);
         '(h2, logs) ← cpu_float h1 (ar_device a) (ar_logits a);
         '(h3, fc) ←
           (if ar_with_frame_confidence a
            then match ar_frame_confidence a with
                 | Some lc => '(h3, lc') ← cpu_long h2 (ar_device a) lc; Ok (h3, Some lc')
                 | None => Raise AttributeError
                 end
            else Ok (h2, None));
         Ok (h3, Some (mkAlignLocals (ar_lengths a) labs logs fc))
     | None => Ok (h, None)
     end);
  recs ← traverse (hypothesis_ref_at h' o locals)
            (range (Z.of_nat (length (hr_scores o))));
  Ok (h', recs).

(** [BatchedAlignments] with its buffers in the store, as the object is
    read by value. *)
Definition load_align (h : store) (a : align_ref) : result (BatchedAlignments.t F) :=
  lg ← deref_float h (ar_logits a);
  lb ← deref_long h (ar_labels a);
  fc ← (match ar_frame_confidence a with
        | Some l => c ← deref_long h l; Ok (Some c)
        | None => Ok None
        end);
  Ok (BatchedAlignments.mk (ar_with_frame_confidence a) (ar_max_length a) lg lb
        (ar_lengths a) fc).

(** [BatchedAlignments.add_results_]: as for [BatchedHyps], when
    [_allocate_more] runs the attributes are rebound to new tensors (the
    confidence buffer only with [with_frame_confidence]), which then receive
    the writes; otherwise the writes go to the cells that the object had. *)
Definition align_add_results_ (h : store) (a : align_ref) (c : align_call F)
  : result (store * align_ref) :=
  v ← load_align h a;
  if bool_decide (length (a_active c) = 0%nat) then Ok (h, a)
  else
    m ← tensor_max (BatchedAlignments.lengths v);
    v' ← apply_align v c;
    if bool_decide (BatchedAlignments._max_length v ≤ m)
    then
      let '(h1, llg) := alloc_float h (BatchedAlignments.logits v') in
      let '(h2, llb) := alloc_long h1 (BatchedAlignments.labels v') in
      let '(h3, lfc) :=
        if ar_with_frame_confidence a
        then match BatchedAlignments.frame_confidence v' with
             | Some t => let '(h3, l) := alloc_long h2 t in (h3, Some l)
             | None => (h2, None)
             end
        else (h2, ar_frame_confidence a) in
      Ok (h3, mkAlignRef (ar_device a) (ar_with_frame_confidence a)
                (BatchedAlignments._max_length v') llg llb
                (BatchedAlignments.lengths v') lfc)
    else
      let longs1 := <[ar_labels a := BatchedAlignments.labels v']> (longs h) in
      let longs2 :=
        match ar_frame_confidence a, BatchedAlignments.frame_confidence v' with
        | Some l, Some t => <[l := t]> longs1
        | _, _ => longs1
        end in
      Ok (mkStore longs2 (<[ar_logits a := BatchedAlignments.logits v']> (floats h)),
          mkAlignRef (ar_device a) (ar_with_frame_confidence a)
            (BatchedAlignments._max_length v') (ar_logits a) (ar_labels a)
            (BatchedAlignments.lengths v') (ar_frame_confidence a)).

End with_float.
Arguments store F : clear implicits.
Arguments hyps_ref F : clear implicits.
Arguments hypothesis_ref F : clear implicits.
End Store.

(** * Vocabulary of the properties *)

Definition in_range (n : nat) (i : Z) : Prop := 0 ≤ i < Z.of_nat n.

#[global] Instance in_range_dec n i : Decision (in_range n i).
Proof. unfold in_range. apply _. Defined.

(** [l'] is [l] with [g x v] in place of [x] at each index of [idx], for the
    value [v] aligned with the index, and nothing else changed. *)
Definition pointwise_update {A V} (l l' : list A) (idx : list Z) (vs : list V)
    (g : A → V → A) : Prop :=
  length l' = length l
  ∧ (∀ k i v, idx !! k = Some i → vs !! k = Some v →
       ∃ x, l !! Z.to_nat i = Some x ∧ l' !! Z.to_nat i = Some (g x v))
  ∧ (∀ j, Z.of_nat j ∉ idx → l' !! j = l !! j).

Definition wf_matrix {A} (rows cols : nat) (t : tensor A) : Prop :=
  shape t = [rows; cols] ∧ length (data t) = (rows * cols)%nat.

(** The element [t[b, j]] and the row prefix [t[b, :n]] of the storage. *)
Definition elem {A} (t : tensor A) (b j : nat) : option A :=
  data t !! (b * last_dim (shape t) + j)%nat.

Definition row_prefix {A} (t : tensor A) (b n : nat) : list A :=
  take n (take (last_dim (shape t)) (drop (b * last_dim (shape t)) (data t))).

(** The number of leading entries of [l] equal to [x], and the number of
    trailing entries of [l] equal to its last one. *)
Fixpoint head_run (x : Z) (l : list Z) : nat :=
  match l with
  | y :: l' => if bool_decide (y = x) then S (head_run x l') else O
  | [] => O
  end.

Definition trailing_run (l : list Z) : nat :=
  match reverse l with
  | [] => O
  | x :: r => S (head_run x r)
  end.

Definition nondecreasing (l : list Z) : Prop :=
  ∀ i x y, l !! i = Some x → l !! S i = Some y → x ≤ y.

Section vocabulary.
Context {F : Type} {HF : FloatDtype F}.

(** The caller contract: distinct indices within the batch and aligned
    argument tensors. *)
Definition valid_call (B : nat) (c : hyps_call F) : Prop :=
  NoDup (c_active c)
  ∧ Forall (in_range B) (c_active c)
  ∧ length (c_labels c) = length (c_active c)
  ∧ length (c_times c) = length (c_active c)
  ∧ length (c_scores c) = length (c_active c).

#[global] Instance valid_call_dec B c : Decision (valid_call B c).
Proof. unfold valid_call. apply _. Defined.

(** The shape invariant of the object for a batch of [B] items. *)
Record wf (B : nat) (s : BatchedHyps.t F) : Prop := mk_wf {
  wf_batch : (0 < B)%nat;
  wf_max : 0 < BatchedHyps._max_length s;
  wf_lengths : length (BatchedHyps.lengths s) = B;
  wf_scores : length (BatchedHyps.scores s) = B;
  wf_lasts : length (BatchedHyps.last_timestep_lasts s) = B;
  wf_last : length (BatchedHyps.last_timestep s) = B;
  wf_transcript :
    wf_matrix B (Z.to_nat (BatchedHyps._max_length s)) (BatchedHyps.transcript s);
  wf_timesteps :
    wf_matrix B (Z.to_nat (BatchedHyps._max_length s)) (BatchedHyps.timesteps s);
  wf_bound :
    Forall (λ l, 0 ≤ l ≤ BatchedHyps._max_length s) (BatchedHyps.lengths s)
}.

(** What the scatter writes of one valid call do to the object [s1] that
    the growth step left. *)
Record step_post (B : nat) (s1 s' : BatchedHyps.t F) (c : hyps_call F) : Prop := mk_step_post {
  sp_max : BatchedHyps._max_length s' = BatchedHyps._max_length s1;
  sp_scores :
    pointwise_update (BatchedHyps.scores s1) (BatchedHyps.scores s')
      (c_active c) (c_scores c) f_add;
  sp_lengths :
    pointwise_update (BatchedHyps.lengths s1) (BatchedHyps.lengths s')
      (c_active c) (c_active c) (λ l _, l + 1);
  sp_last :
    pointwise_update (BatchedHyps.last_timestep s1) (BatchedHyps.last_timestep s')
      (c_active c) (c_times c) (λ _ t, t);
  sp_lasts_length :
    length (BatchedHyps.last_timestep_lasts s') = length (BatchedHyps.last_timestep_lasts s1);
  sp_lasts_active : ∀ k a t, c_active c !! k = Some a → c_times c !! k = Some t →
    ∃ lt ltl, BatchedHyps.last_timestep s1 !! Z.to_nat a = Some lt
      ∧ BatchedHyps.last_timestep_lasts s1 !! Z.to_nat a = Some ltl
      ∧ BatchedHyps.last_timestep_lasts s' !! Z.to_nat a
        = Some (if bool_decide (lt = t) then ltl + 1 else 1);
  sp_lasts_other : ∀ j, Z.of_nat j ∉ c_active c →
    BatchedHyps.last_timestep_lasts s' !! j = BatchedHyps.last_timestep_lasts s1 !! j;
  sp_written : ∀ k a len, c_active c !! k = Some a →
    BatchedHyps.lengths s1 !! Z.to_nat a = Some len →
    elem (BatchedHyps.transcript s') (Z.to_nat a) (Z.to_nat len) = c_labels c !! k
    ∧ elem (BatchedHyps.timesteps s') (Z.to_nat a) (Z.to_nat len) = c_times c !! k;
  sp_kept : ∀ b j len, BatchedHyps.lengths s1 !! b = Some len →
    (j < Z.to_nat (BatchedHyps._max_length s1))%nat →
    Z.of_nat j ≠ len ∨ Z.of_nat b ∉ c_active c →
    elem (BatchedHyps.transcript s') b j = elem (BatchedHyps.transcript s1) b j
    ∧ elem (BatchedHyps.timesteps s') b j = elem (BatchedHyps.timesteps s1) b j
}.

(** The valid part of row [b]: [transcript[b, :lengths[b]]] and
    [timesteps[b, :lengths[b]]]. *)
Definition labels_of (s : BatchedHyps.t F) (b : nat) : list Z :=
  match BatchedHyps.lengths s !! b with
  | Some len => row_prefix (BatchedHyps.transcript s) b (Z.to_nat len)
  | None => []
  end.

Definition times_of (s : BatchedHyps.t F) (b : nat) : list Z :=
  match BatchedHyps.lengths s !! b with
  | Some len => row_prefix (BatchedHyps.timesteps s) b (Z.to_nat len)
  | None => []
  end.

(** The effect of a call on the item at position [k] of the call. *)
Inductive item_post (s s' : BatchedHyps.t F) (b : nat) (label t : Z) (d : F) : Prop :=
| mk_item_post (len : Z) (sc : F) (lt ltl : Z)
    (ip_len_old : BatchedHyps.lengths s !! b = Some len)
    (ip_score_old : BatchedHyps.scores s !! b = Some sc)
    (ip_last_old : BatchedHyps.last_timestep s !! b = Some lt)
    (ip_lasts_old : BatchedHyps.last_timestep_lasts s !! b = Some ltl)
    (ip_score_new : BatchedHyps.scores s' !! b = Some (f_add sc d))
    (ip_label_new : elem (BatchedHyps.transcript s') b (Z.to_nat len) = Some label)
    (ip_time_new : elem (BatchedHyps.timesteps s') b (Z.to_nat len) = Some t)
    (ip_lasts_new :
       BatchedHyps.last_timestep_lasts s' !! b
       = Some (if bool_decide (lt = t) then ltl + 1 else 1))
    (ip_last_new : BatchedHyps.last_timestep s' !! b = Some t)
    (ip_len_new : BatchedHyps.lengths s' !! b = Some (len + 1))
    (ip_labels : labels_of s' b = labels_of s b ++ [label])
    (ip_times : times_of s' b = times_of s b ++ [t]).

(** The items that a call does not name keep everything. *)
Record other_post (s s' : BatchedHyps.t F) (b : nat) : Prop := mk_other_post {
  op_len : BatchedHyps.lengths s' !! b = BatchedHyps.lengths s !! b;
  op_score : BatchedHyps.scores s' !! b = BatchedHyps.scores s !! b;
  op_last : BatchedHyps.last_timestep s' !! b = BatchedHyps.last_timestep s !! b;
  op_lasts :
    BatchedHyps.last_timestep_lasts s' !! b = BatchedHyps.last_timestep_lasts s !! b;
  op_labels : labels_of s' b = labels_of s b;
  op_times : times_of s' b = times_of s b
}.

(** The invariant that ties [last_timestep] and [last_timestep_lasts] to
    the stored time indices of item [b]. *)
Definition repeat_inv (s : BatchedHyps.t F) (b : nat) : Prop :=
  ∀ lt ltl, BatchedHyps.last_timestep s !! b = Some lt →
    BatchedHyps.last_timestep_lasts s !! b = Some ltl →
    ltl = Z.of_nat (trailing_run (times_of s b))
    ∧ (times_of s b ≠ [] → last (times_of s b) = Some lt).

(** The caller passes, for every item that already has an entry, a time
    index that is not before the last one of the item. *)
Definition time_ordered (s : BatchedHyps.t F) (c : hyps_call F) : bool :=
  forallb (λ p : Z * Z,
    match BatchedHyps.lengths s !! Z.to_nat p.1,
          BatchedHyps.last_timestep s !! Z.to_nat p.1 with
    | Some len, Some lt => bool_decide (len ≤ 0 ∨ lt ≤ p.2)
    | _, _ => true
    end) (zip (c_active c) (c_times c)).

Fixpoint ordered_run (s : BatchedHyps.t F) (cs : list (hyps_call F)) : bool :=
  match cs with
  | [] => true
  | c :: cs' =>
      time_ordered s c
      && match apply_call s c with
         | Ok s' => ordered_run s' cs'
         | Raise _ => true
         end
  end.

(** The objects that the decoding loop can hold: built by the constructor
    and updated by calls that respect the caller contract. *)
Definition reachable (B : nat) (s : BatchedHyps.t F) : Prop :=
  ∃ batch_size init_length s0 cs,
    B = Z.to_nat batch_size
    ∧ BatchedHyps.__init__ batch_size init_length = Ok s0
    ∧ Forall (valid_call B) cs
    ∧ run s0 cs = Ok s.

(** A session built without confidence tracking never has a confidence
    buffer, whatever is passed as confidence. *)
Definition untracked (s : BatchedAlignments.t F) : Prop :=
  BatchedAlignments.with_frame_confidence s = false
  ∧ BatchedAlignments.frame_confidence s = None.

(** Every cell of [h] is in [h'] with the same content. *)
Definition extends (h h' : Store.store F) : Prop :=
  (∀ l t, Store.longs h !! l = Some t → Store.longs h' !! l = Some t)
  ∧ (∀ l t, Store.floats h !! l = Some t → Store.floats h' !! l = Some t).

End vocabulary.

(** * Scenarios

    The calls of [test_add_results] and [test_add_multiple_results], and the
    concrete objects that the statements below are instantiated with. *)

(** [test_add_results] and [test_add_multiple_results]: a batch of two with
    initial length one; a label for the first item, then a label for each. *)
Definition call1 : hyps_call Q := mkHypsCall [0] [5] [1] [(1#2)%Q].

Definition call2 : hyps_call Q := mkHypsCall [0; 1] [2; 4] [1; 2] [1%Q; 1%Q].

Definition scenario (cs : list (hyps_call Q)) : result (BatchedHyps.t Q) :=
  s0 ← BatchedHyps.__init__ 2 1; run s0 cs.

(** A batch of two after the first call of the tests, with its buffers at
    the locations 0 and 1 of the store. *)
Definition store_ex : Store.store Q :=
  Store.mkStore (<[1%nat := Tensor [2; 1]%nat [1; 0]]> (<[0%nat := Tensor [2; 1]%nat [5; 0]]> ∅)) ∅.

Definition hyps_ex : Store.hyps_ref Q :=
  Store.mkHypsRef 1 [1; 0] 0 1 [(1 # 2)%Q; 0%Q] [1; 0] [1; -1].

(** Convert, then assign [transcript[0, 0] = 99] in place, and read the
    [y_sequence] of the first record before and after the assignment. *)
Definition aliasing_scenario : result (option (list Z) * option (list Z)) :=
  '(h0, o0) ← Store.__init__ (Store.mkStore ∅ ∅) 2 1;
  '(h1, o1) ← Store.add_results_ h0 o0 call1;
  '(h2, recs) ← Store.batched_hyps_to_hypotheses h1 o1 None;
  match recs !! 0%nat with
  | Some r =>
      h3 ← Store.setitem2 h2 (Store.hr_transcript o1) 0 0 99;
      Ok (Store.read_long h2 (Store.h_y_sequence r),
          Store.read_long h3 (Store.h_y_sequence r))
  | None => Raise IndexError
  end.

(** The object of the scenario when it is built, after the first call and
    after the second call. *)
Definition fresh_hyps : BatchedHyps.t Q :=
  BatchedHyps.mk 1 [0; 0] (Tensor [2; 1]%nat [0; 0]) (Tensor [2; 1]%nat [0; 0])
    [0%Q; 0%Q] [0; 0] [-1; -1].

Definition after_call1 : BatchedHyps.t Q :=
  BatchedHyps.mk 1 [1; 0] (Tensor [2; 1]%nat [5; 0]) (Tensor [2; 1]%nat [1; 0])
    [(1 # 2)%Q; 0%Q] [1; 0] [1; -1].

Definition after_call2 : BatchedHyps.t Q :=
  BatchedHyps.mk 2 [2; 1] (Tensor [2; 2]%nat [5; 2; 4; 0]) (Tensor [2; 2]%nat [1; 1; 2; 0])
    [(3 # 2)%Q; 1%Q] [2; 1] [1; 2].

(** The records that the conversion gives for [after_call2]. *)
Definition records_after_call2 : list (Hypothesis_ Q) :=
  [mkHypothesis (3 # 2)%Q [5; 2] [1; 1] None None None;
   mkHypothesis 1%Q [4] [2] None None None].

Definition records_ex : list (Store.hypothesis_ref Q) :=
  [Store.mkHypothesisRef (1 # 2)%Q (Store.View 0 0 1) (Store.View 1 0 1) None None;
   Store.mkHypothesisRef 0%Q (Store.View 0 1 0) (Store.View 1 1 0) None None].

(** One output vector of width two for the only item of a batch. *)
Definition align_call1 : align_call Q :=
  mkAlignCall [0] (Tensor [1; 2]%nat [1%Q; 2%Q]) [3] None.

(** Alignments for a batch of two with output vectors of width one and an
    initial length of one: the object after one call for item 0 and after a
    second call for item 0. *)
Definition align_call2 : align_call Q :=
  mkAlignCall [0] (Tensor [1; 1]%nat [1%Q]) [7] None.

Definition align_after1 : BatchedAlignments.t Q :=
  BatchedAlignments.mk false 1 (Tensor [2; 1; 1]%nat [1%Q; 0%Q]) (Tensor [2; 1]%nat [7; 0])
    [1; 0] None.

Definition align_after2 : BatchedAlignments.t Q :=
  BatchedAlignments.mk false 2 (Tensor [2; 1; 2]%nat [1%Q; 0%Q; 1%Q; 1%Q])
    (Tensor [2; 2]%nat [7; 7; 0; 0]) [2; 0] None.

(** * The other functions of the file *)

(** ** is_prefix *)

(** The loop [for i in range(len(pref))] of [is_prefix]; it is entered only
    when [pref] is shorter than [x], so both subscripts are within bounds. *)
Fixpoint is_prefix_loop (x pref : list Z) (indices : list nat) : bool :=
  match indices with
  | [] => true
  | i :: rest =>
      if bool_decide (pref !! i ≠ x !! i) then false
      else is_prefix_loop x pref rest
  end.

Definition is_prefix (x pref : list Z) : bool :=
  if bool_decide (length x ≤ length pref)%nat then false
  else is_prefix_loop x pref (seq 0 (length pref)).

(** ** Hypothesis.non_blank_frame_confidence *)

(** [KeyError] is raised by the subscript of a dict only, the other
    exceptions are those of the tensor code. *)
Inductive outcome (A : Type) : Type :=
| Returns (a : A)
| Raises (e : exc)
| RaisesKeyError.
Arguments Returns {A} a.
Arguments Raises {A} e.
Arguments RaisesKeyError {A}.

Definition of_result {A} (r : result A) : outcome A :=
  match r with
  | Ok a => Returns a
  | Raise e => Raises e
  end.

(** The field [timestep] is a list of time indices or, for RNNT, a dict
    that holds the list under the key ['timestep']; an entry of the field
    [frame_confidence] is a float or a list of floats. *)
Inductive timestep_field : Type :=
| TimestepList (l : list Z)
| TimestepDict (d : gmap string (list Z)).

Inductive confidence_entry (F : Type) : Type :=
| FrameFloat (x : F)
| FrameList (l : list F).
Arguments FrameFloat {F} x.
Arguments FrameList {F} l.

Section frame_confidence.
Context {F : Type}.

Definition py_len (t : timestep_field) : nat :=
  match t with
  | TimestepList l => length l
  | TimestepDict d => size d
  end.

Definition is_list (e : confidence_entry F) : bool :=
  match e with
  | FrameList _ => true
  | FrameFloat _ => false
  end.

(** The loop of the RNNT branch from the state [(t_prev, offset)];
    [frame_confidence[t][offset]] is a [TypeError] when the entry is a
    float. *)
Fixpoint rnnt_loop (frame_confidence : list (confidence_entry F)) (t_prev offset : Z)
    (timestep : list Z) : result (list (confidence_entry F)) :=
  match timestep with
  | [] => Ok []
  | t :: rest =>
      let '(t_prev, offset) :=
        if bool_decide (t ≠ t_prev) then (t, 0) else (t_prev, offset + 1) in
      e ← item frame_confidence t;
      x ← (match e with
           | FrameList row => item row offset
           | FrameFloat _ => Raise TypeError
           end);
      r ← rnnt_loop frame_confidence t_prev offset rest;
      Ok (FrameFloat x :: r)
  end.

Definition non_blank_frame_confidence (self_timestep : timestep_field)
    (self_frame_confidence : option (list (confidence_entry F)))
  : outcome (list (confidence_entry F)) :=
  match (match self_timestep with
         | TimestepDict d => d !! "timestep"
         | TimestepList l => Some l
         end) with
  | None => RaisesKeyError
  | Some timestep =>
      match self_frame_confidence with
      | Some frame_confidence =>
          if bool_decide (py_len self_timestep ≠ 0%nat) then
            if existsb is_list frame_confidence
            then of_result (rnnt_loop frame_confidence (-1) 0 timestep)
            else of_result (traverse (item frame_confidence) timestep)
          else Returns []
      | None => Returns []
      end
  end.

(** The list of time indices that the field holds. *)
Definition time_indices (self_timestep : timestep_field) : option (list Z) :=
  match self_timestep with
  | TimestepDict d => d !! "timestep"
  | TimestepList l => Some l
  end.

End frame_confidence.

(** ** select_k_expansions *)

(** The subtraction and the comparisons [<=] and [<] of Python floats. *)
Class FloatOrder (F : Type) := {
  f_sub : F → F → F;
  f_leb : F → F → bool;
  f_ltb : F → F → bool
}.

#[global] Instance Q_order : FloatOrder Q := {|
  f_sub := Qminus;
  f_leb := Qle_bool;
  f_ltb := λ x y, negb (Qle_bool y x)
|}.

Section expansions.
Context {F : Type} {HF : FloatDtype F} {HO : FloatOrder F}.

(** [max(l, key=lambda x: x[1])]: the first element whose score no later
    element exceeds; [ValueError] on an empty list. *)
Definition max_by_score (l : list (Z * F)) : result (Z * F) :=
  match l with
  | [] => Raise ValueError
  | x :: l' => Ok (foldl (λ best y, if f_ltb best.2 y.2 then y else best) x l')
  end.

(** [sorted(l, key=lambda x: x[1])]: the sort is stable and compares with
    [<]; each element is put behind the elements that are not above it. *)
Fixpoint insert_by_score (x : Z * F) (l : list (Z * F)) : list (Z * F) :=
  match l with
  | [] => [x]
  | y :: l' => if f_ltb x.2 y.2 then x :: y :: l' else y :: insert_by_score x l'
  end.

Definition sorted_by_score (l : list (Z * F)) : list (Z * F) :=
  foldl (λ acc x, insert_by_score x acc) [] l.

(** [t[i]] for a two-dimensional tensor given by its rows, with [i] from
    [enumerate]. *)
Definition tensor_row {A} (t : list (list A)) (i : nat) : result (list A) :=
  match t !! i with
  | Some r => Ok r
  | None => Raise IndexError
  end.

(** [[(int(k), hyp.score + float(v)) for k, v in zip(idxs, logps)]] *)
Definition scored_candidates (hyp : Hypothesis_ F) (idxs : list Z) (logps : list F)
  : list (Z * F) :=
  (λ kv : Z * F, (kv.1, f_add (score hyp) kv.2)) <$> zip idxs logps.

(** The body of the loop for the hypothesis [hyp] at position [i]. *)
Definition expansions_of (topk_idxs : list (list Z)) (topk_logps : list (list F))
    (gamma : F) (i : nat) (hyp : Hypothesis_ F) : result (list (Z * F)) :=
  idxs ← tensor_row topk_idxs i;
  logps ← tensor_row topk_logps i;
  let hyp_i := scored_candidates hyp idxs logps in
  k_best_exp_val ← max_by_score hyp_i;
  let k_best_exp_idx := k_best_exp_val.1 in
  let k_best_exp := k_best_exp_val.2 in
  let expansions :=
    sorted_by_score (List.filter (λ x, f_leb (f_sub k_best_exp gamma) x.2) hyp_i) in
  if bool_decide (0 < length expansions)%nat then Ok expansions
  else Ok [(k_best_exp_idx, k_best_exp)].

Definition select_k_expansions (hyps : list (Hypothesis_ F))
    (topk_idxs : list (list Z)) (topk_logps : list (list F)) (gamma : F) (beta : Z)
  : result (list (list (Z * F))) :=
  traverse (λ p, expansions_of topk_idxs topk_logps gamma p.1 p.2)
           (imap (λ i hyp, (i, hyp)) hyps).

End expansions.

(** * Vocabulary of the further properties *)

(** Floats without NaN: [<=] is a total preorder and [<] its strict part. *)
Class FloatOrderLaws (F : Type) {HO : FloatOrder F} : Prop := {
  f_leb_total x y : f_leb x y = true ∨ f_leb y x = true;
  f_leb_trans x y z : f_leb x y = true → f_leb y z = true → f_leb x z = true;
  f_ltb_leb x y : f_ltb x y = negb (f_leb y x)
}.

(** The margin of the pruning is not negative. *)
Definition nonneg_margin {F} {HO : FloatOrder F} (gamma : F) : Prop :=
  ∀ x, f_leb (f_sub x gamma) x = true.

(** Nothing in [l] scores above [b], and [l] is ascending by score. *)
Definition score_bound {F} {HO : FloatOrder F} (b : Z * F) (l : list (Z * F)) : Prop :=
  ∀ x, x ∈ l → f_leb x.2 b.2 = true.

Definition ascending {F} {HO : FloatOrder F} (l : list (Z * F)) : Prop :=
  ∀ i j x y, (i ≤ j)%nat → l !! i = Some x → l !! j = Some y → f_leb x.2 y.2 = true.


(** The values of [vs] that a call passes for item [b]: those aligned with
    an occurrence of [b] in the index tensor. *)
Definition passed {V} (b : Z) (idx : list Z) (vs : list V) : list V :=
  (filter (λ p, p.1 = b) (zip idx vs)).*2.

Section passed_by_calls.
Context {F : Type} {HF : FloatDtype F}.

(** The labels, time indices and scores that a sequence of calls passes for
    item [b], in the order of the calls. *)
Definition passed_labels (b : Z) (cs : list (hyps_call F)) : list Z :=
  concat ((λ c, passed b (c_active c) (c_labels c)) <$> cs).

Definition passed_times (b : Z) (cs : list (hyps_call F)) : list Z :=
  concat ((λ c, passed b (c_active c) (c_times c)) <$> cs).

Definition passed_scores (b : Z) (cs : list (hyps_call F)) : list F :=
  concat ((λ c, passed b (c_active c) (c_scores c)) <$> cs).

(** The object holds, for every item, what the calls [cs] passed for it. *)
Definition stored_as_passed (B : nat) (s : BatchedHyps.t F) (cs : list (hyps_call F)) : Prop :=
  ∀ b, (b < B)%nat →
    labels_of s b = passed_labels (Z.of_nat b) cs
    ∧ times_of s b = passed_times (Z.of_nat b) cs
    ∧ BatchedHyps.lengths s !! b = Some (Z.of_nat (length (passed_labels (Z.of_nat b) cs)))
    ∧ BatchedHyps.scores s !! b
      = Some (foldl f_add f_zero (passed_scores (Z.of_nat b) cs)).

(** The capacity after some doublings of [init_length]: it is the initial
    one, or at most twice the length of some item. *)
Definition capacity_tight (init_length : Z) (s : BatchedHyps.t F) : Prop :=
  (∃ k : nat, BatchedHyps._max_length s = init_length * 2 ^ Z.of_nat k)
  ∧ (BatchedHyps._max_length s = init_length
     ∨ ∃ l, l ∈ BatchedHyps.lengths s ∧ BatchedHyps._max_length s ≤ 2 * l).

(** The index that is used for [a] in a dimension of extent [n]: a
    negative index counts from the end. *)
Definition wrap_index (n : nat) (a : Z) : Z :=
  if bool_decide (a < 0) then a + Z.of_nat n else a.

Definition wrap_call (B : nat) (c : hyps_call F) : hyps_call F :=
  mkHypsCall (wrap_index B <$> c_active c) (c_labels c) (c_times c) (c_scores c).

Definition in_signed_range (n : nat) (a : Z) : Prop := - Z.of_nat n ≤ a < Z.of_nat n.

#[global] Instance in_signed_range_dec n a : Decision (in_signed_range n a).
Proof. unfold in_signed_range. apply _. Defined.

End passed_by_calls.

(** Row [r] of the storage [l] seen as rows of width [d]. *)
Definition row_at {A} (d : nat) (l : list A) (r : nat) : list A :=
  take d (drop (r * d) l).

Section alignments_vocabulary.
Context {F : Type} {HF : FloatDtype F}.

(** The calls of a decoding loop on the alignments, in order. *)
Fixpoint run_align (s : BatchedAlignments.t F) (cs : list (align_call F))
  : result (BatchedAlignments.t F) :=
  match cs with
  | [] => Ok s
  | c :: cs' => s' ← apply_align s c; run_align s' cs'
  end.

(** The shape invariant of the alignments for a batch of [B] items and
    output vectors of width [D], as long as the capacity has not grown. *)
Record awf (B D : nat) (s : BatchedAlignments.t F) : Prop := mk_awf {
  awf_batch : (0 < B)%nat;
  awf_dim : (0 < D)%nat;
  awf_max : 0 < BatchedAlignments._max_length s;
  awf_lengths : length (BatchedAlignments.lengths s) = B;
  awf_bound :
    Forall (λ l, 0 ≤ l ≤ BatchedAlignments._max_length s) (BatchedAlignments.lengths s);
  awf_logits_shape :
    shape (BatchedAlignments.logits s)
    = [B; Z.to_nat (BatchedAlignments._max_length s); D];
  awf_logits_data :
    length (data (BatchedAlignments.logits s))
    = (B * Z.to_nat (BatchedAlignments._max_length s) * D)%nat;
  awf_labels :
    wf_matrix B (Z.to_nat (BatchedAlignments._max_length s)) (BatchedAlignments.labels s);
  awf_confidence :
    match BatchedAlignments.frame_confidence s with
    | Some buf => wf_matrix B (Z.to_nat (BatchedAlignments._max_length s)) buf
    | None => BatchedAlignments.with_frame_confidence s = false
    end
}.

(** No item has filled its row, so that the next call does not grow the
    buffers; otherwise the next call starts by growing them. *)
Definition has_room (s : BatchedAlignments.t F) : Prop :=
  Forall (λ l, l < BatchedAlignments._max_length s) (BatchedAlignments.lengths s).

(** The caller contract for the alignments: distinct indices within the
    batch, one output vector of width [D] and one label per index, and a
    confidence, if any, of the dtype of the buffer. *)
Definition valid_align (B D : nat) (c : align_call F) : Prop :=
  NoDup (a_active c)
  ∧ Forall (in_range B) (a_active c)
  ∧ shape (a_logits c) = [length (a_active c); D]
  ∧ length (data (a_logits c)) = (length (a_active c) * D)%nat
  ∧ length (a_labels c) = length (a_active c)
  ∧ match a_confidence c with
    | Some (LongTensor v) => length v = length (a_active c)
    | Some (FloatTensor _) => False
    | None => True
    end.

#[global] Instance valid_align_dec B D c : Decision (valid_align B D c).
Proof. unfold valid_align. destruct (a_confidence c) as [[v|v]|]; apply _. Defined.

#[global] Instance has_room_dec s : Decision (has_room s).
Proof. unfold has_room. apply _. Defined.

Definition row_full (s : BatchedAlignments.t F) : Prop :=
  Exists (λ l, BatchedAlignments._max_length s ≤ l) (BatchedAlignments.lengths s).

#[global] Instance row_full_dec s : Decision (row_full s).
Proof. unfold row_full. apply _. Defined.

(** The pairs of a label and an output vector that the calls pass for
    item [b], in the order of the calls. *)
Definition passed_pairs (b : Z) (cs : list (align_call F)) : list (Z * list F) :=
  concat ((λ c, passed b (a_active c)
                  (zip (a_labels c)
                       (rows_of (length (a_active c))
                                (last_dim (shape (a_logits c))) (data (a_logits c))))) <$> cs).

(** The alignments hold, for every item, the pairs that the calls [cs]
    passed for it, at the positions that the conversion reads. *)
Definition stored_pairs (B : nat) (s : BatchedAlignments.t F) (cs : list (align_call F))
  : Prop :=
  ∀ b, (b < B)%nat →
    BatchedAlignments.lengths s !! b
    = Some (Z.of_nat (length (passed_pairs (Z.of_nat b) cs)))
    ∧ ∀ j p, passed_pairs (Z.of_nat b) cs !! j = Some p →
        item2 (BatchedAlignments.labels s) (Z.of_nat b) (Z.of_nat j) = Ok p.1
        ∧ item2_vec (BatchedAlignments.logits s) (Z.of_nat b) (Z.of_nat j) = Ok p.2.

End alignments_vocabulary.

(** A call that names item 2 of a batch of two, and a call that names the
    two items of the batch from the end. *)
Definition call_outside : hyps_call Q := mkHypsCall [2] [5] [1] [1%Q].

Definition call_from_end : hyps_call Q := mkHypsCall [-2; -1] [2; 4] [1; 2] [1%Q; 1%Q].

(** Two hypotheses with three candidates each, and the expansions kept for
    them with a margin of one. *)
Definition beam_ex : list (Hypothesis_ Q) :=
  [mkHypothesis 0%Q [] [] None None None; mkHypothesis (-1)%Q [4] [0] None None None].

Definition topk_idxs_ex : list (list Z) := [[3; 7; 9]; [1; 2; 8]].

Definition topk_logps_ex : list (list Q) := [[-3; -1; -2]%Q; [-1; -5; -1]%Q].

(** A fresh session of alignments for one item, output vectors of width
    two and room for one step. *)
Definition fresh_align : BatchedAlignments.t Q :=
  BatchedAlignments.mk false 1 (Tensor [1; 1; 2]%nat [0%Q; 0%Q]) (Tensor [1; 1]%nat [0])
    [0] None.

(** A session of alignments built with [logits_dim = 0] for a batch of two. *)
Definition zero_width_align : BatchedAlignments.t Q :=
  BatchedAlignments.mk false 1 (Tensor [2; 1; 0]%nat []) (Tensor [2; 1]%nat [0; 0])
    [0; 0] None.

(** The session [fresh_align] after the call [align_call1]: the row of its
    only item is full. *)
Definition full_align : BatchedAlignments.t Q :=
  BatchedAlignments.mk false 1 (Tensor [1; 1; 2]%nat [1%Q; 2%Q]) (Tensor [1; 1]%nat [3])
    [1] None.

(** A fresh batch of one item. *)
Definition fresh_one : BatchedHyps.t Q :=
  BatchedHyps.mk 1 [0] (Tensor [1; 1]%nat [0]) (Tensor [1; 1]%nat [0]) [0%Q] [0] [-1].

(** Three tokens, the last two emitted at the same frame, with the
    confidences of the frames 0 and 1. *)
Definition frames_ex : list (confidence_entry Q) :=
  [FrameList [(1 # 2)%Q]; FrameList [(1 # 3)%Q; (1 # 4)%Q]].

Definition k_expansions_ex : list (list (Z * Q)) :=
  [[(9, (-2 # 1)%Q); (7, (-1 # 1)%Q)]; [(1, (-2 # 1)%Q); (8, (-2 # 1)%Q)]].

(** ** The records in the store and the calls that follow the conversion *)

Section views_vocabulary.
Context {F : Type} {HF : FloatDtype F}.

(** What a record gives when its payloads are read in the store [h]: a
    view of one element of the labels is a label. *)
Definition read_label (h : Store.store F) (v : Store.view) : option Z :=
  match Store.read_long h v with
  | Some [x] => Some x
  | _ => None
  end.

Definition read_pair (h : Store.store F) (p : Store.view * Store.view)
  : option (Z * list F) :=
  x ← read_label h p.1; row ← Store.read_float h p.2; Some (x, row).

Definition read_record (h : Store.store F) (r : Store.hypothesis_ref F)
  : option (Hypothesis_ F) :=
  y ← Store.read_long h (Store.h_y_sequence r);
  ts ← Store.read_long h (Store.h_timestep r);
  al ← (match Store.h_alignments r with
        | Some pairs => ps ← mapM (read_pair h) pairs; Some (Some ps)
        | None => Some None
        end);
  Some (mkHypothesis (Store.h_score r) y ts al (Store.h_frame_confidence r) None).

(** The alignments passed to the conversion, if any, are backed by the
    store and have the shapes of alignments that have not grown. *)
Definition align_loaded (B D : nat) (h : Store.store F) (al : option Store.align_ref)
    (av : option (BatchedAlignments.t F)) : Prop :=
  match al, av with
  | Some a, Some v => Store.load_align h a = Ok v ∧ awf B D v
  | None, None => True
  | _, _ => False
  end.

(** The local variables of the conversion hold what the alignments hold. *)
Definition locals_match (h : Store.store F) (locals : option Store.align_locals)
    (av : option (BatchedAlignments.t F)) (fcv : option (tensor Z)) : Prop :=
  match locals, av with
  | Some lc, Some v =>
      Store.alignment_lengths lc = BatchedAlignments.lengths v
      ∧ Store.longs h !! Store.alignment_labels lc = Some (BatchedAlignments.labels v)
      ∧ Store.floats h !! Store.alignment_logits lc = Some (BatchedAlignments.logits v)
      ∧ match Store.frame_confidence lc, fcv with
        | Some l, Some c => Store.longs h !! l = Some c
        | None, None => True
        | _, _ => False
        end
  | None, None => fcv = None
  | _, _ => False
  end.

(** The cells of [torch.long] buffers that the two accumulators hold. *)
Definition align_cells (al : option Store.align_ref) : list nat :=
  match al with
  | Some a => Store.ar_labels a :: option_list (Store.ar_frame_confidence a)
  | None => []
  end.

Definition long_cells (o : Store.hyps_ref F) (al : option Store.align_ref) : list nat :=
  [Store.hr_transcript o; Store.hr_timesteps o] ++ align_cells al.

(** The states that later calls of [add_results_] on the two accumulators,
    in any order, lead to from the state [(h, o, al)]: each call respects
    the caller contract and returns. *)
Inductive later (B D : nat) (h : Store.store F) (o : Store.hyps_ref F)
    (al : option Store.align_ref)
  : Store.store F → Store.hyps_ref F → option Store.align_ref → Prop :=
| later_now : later B D h o al h o al
| later_hyps h1 o1 al1 c h2 o2 :
    later B D h o al h1 o1 al1 →
    valid_call B c →
    Store.add_results_ h1 o1 c = Ok (h2, o2) →
    later B D h o al h2 o2 al1
| later_align h1 o1 a1 c h2 a2 :
    later B D h o al h1 o1 (Some a1) →
    valid_align B D c →
    Store.align_add_results_ h1 a1 c = Ok (h2, a2) →
    later B D h o al h2 o1 (Some a2).

(** The views that the record for item [b] holds: the valid prefixes of
    row [b] of the two buffers of the hypotheses and, with alignments, one
    element of the labels and one output vector for each stored step of
    item [b]. *)
Definition label_view (lc : Store.align_locals) (a0 : BatchedAlignments.t F)
    (b j : nat) : Store.view :=
  Store.View (Store.alignment_labels lc)
    (b * Z.to_nat (BatchedAlignments._max_length a0) + j) 1.

Definition logits_view (D : nat) (lc : Store.align_locals) (a0 : BatchedAlignments.t F)
    (b j : nat) : Store.view :=
  Store.View (Store.alignment_logits lc)
    ((b * Z.to_nat (BatchedAlignments._max_length a0) + j) * D) D.

Definition transcript_view (o : Store.hyps_ref F) (v : BatchedHyps.t F) (b : nat) (len : Z)
  : Store.view :=
  Store.View (Store.hr_transcript o) (b * Z.to_nat (BatchedHyps._max_length v))
    (Z.to_nat len).

Definition timesteps_view (o : Store.hyps_ref F) (v : BatchedHyps.t F) (b : nat) (len : Z)
  : Store.view :=
  Store.View (Store.hr_timesteps o) (b * Z.to_nat (BatchedHyps._max_length v))
    (Z.to_nat len).

Definition record_views (D : nat) (o : Store.hyps_ref F) (v : BatchedHyps.t F)
    (lc : option Store.align_locals) (av : option (BatchedAlignments.t F))
    (b : nat) (r : Store.hypothesis_ref F) : Prop :=
  ∃ len, BatchedHyps.lengths v !! b = Some len
    ∧ Store.h_y_sequence r = transcript_view o v b len
    ∧ Store.h_timestep r = timesteps_view o v b len
    ∧ match lc, av with
      | Some x, Some a0 =>
          ∃ n pairs, BatchedAlignments.lengths a0 !! b = Some n
            ∧ Store.h_alignments r = Some pairs
            ∧ length pairs = Z.to_nat n
            ∧ ∀ j p, pairs !! j = Some p →
                (j < Z.to_nat n)%nat
                ∧ p = (label_view x a0 b j, logits_view D x a0 b j)
      | _, _ => Store.h_alignments r = None
      end.

(** What is kept in a later state [(h2, o2, al2)] of the views taken in the
    store [h1]: they read the same, and each accumulator either still has
    the buffers that the views are on, with the same capacity and lengths
    that have not shrunk, or has other buffers. *)
Record kept (B D : nat) (h1 : Store.store F) (o : Store.hyps_ref F)
    (v : BatchedHyps.t F) (lc : option Store.align_locals)
    (av : option (BatchedAlignments.t F))
    (h2 : Store.store F) (o2 : Store.hyps_ref F) (al2 : option Store.align_ref)
  : Prop := mk_kept {
  k_nodup : NoDup (long_cells o2 al2);
  k_dom :
    Store.hr_transcript o ∈ dom (Store.longs h2)
    ∧ Store.hr_timesteps o ∈ dom (Store.longs h2);
  k_hyps_views : ∀ b len, BatchedHyps.lengths v !! b = Some len →
    Store.read_long h2 (transcript_view o v b len)
    = Store.read_long h1 (transcript_view o v b len)
    ∧ Store.read_long h2 (timesteps_view o v b len)
      = Store.read_long h1 (timesteps_view o v b len);
  k_hyps : ∃ v2, Store.load_hyps h2 o2 = Ok v2 ∧ wf B v2
    ∧ ((Store.hr_transcript o2 = Store.hr_transcript o
        ∧ Store.hr_timesteps o2 = Store.hr_timesteps o
        ∧ BatchedHyps._max_length v2 = BatchedHyps._max_length v
        ∧ ∀ b len, BatchedHyps.lengths v !! b = Some len →
            ∃ len2, BatchedHyps.lengths v2 !! b = Some len2 ∧ len ≤ len2)
       ∨ (Store.hr_transcript o2 ≠ Store.hr_transcript o
          ∧ Store.hr_transcript o2 ≠ Store.hr_timesteps o
          ∧ Store.hr_timesteps o2 ≠ Store.hr_transcript o
          ∧ Store.hr_timesteps o2 ≠ Store.hr_timesteps o));
  k_apart : ∀ a2, al2 = Some a2 →
    Store.ar_labels a2 ≠ Store.hr_transcript o
    ∧ Store.ar_labels a2 ≠ Store.hr_timesteps o
    ∧ Store.ar_frame_confidence a2 ≠ Some (Store.hr_transcript o)
    ∧ Store.ar_frame_confidence a2 ≠ Some (Store.hr_timesteps o)
    ∧ Store.ar_labels a2 ∈ dom (Store.longs h2)
    ∧ (∀ l, Store.ar_frame_confidence a2 = Some l → l ∈ dom (Store.longs h2));
  k_align :
    match lc, av with
    | Some x, Some a0 =>
        Store.alignment_labels x ∈ dom (Store.longs h2)
        ∧ Store.alignment_logits x ∈ dom (Store.floats h2)
        ∧ Store.alignment_labels x ≠ Store.hr_transcript o2
        ∧ Store.alignment_labels x ≠ Store.hr_timesteps o2
        ∧ (∀ b n j, BatchedAlignments.lengths a0 !! b = Some n → (j < Z.to_nat n)%nat →
             Store.read_long h2 (label_view x a0 b j)
             = Store.read_long h1 (label_view x a0 b j)
             ∧ Store.read_float h2 (logits_view D x a0 b j)
               = Store.read_float h1 (logits_view D x a0 b j))
        ∧ ∃ a2, al2 = Some a2
            ∧ Store.ar_frame_confidence a2 ≠ Some (Store.alignment_labels x)
            ∧ ((Store.ar_labels a2 = Store.alignment_labels x
                ∧ Store.ar_logits a2 = Store.alignment_logits x
                ∧ ∃ av2, Store.load_align h2 a2 = Ok av2
                    ∧ awf B D av2
                    ∧ BatchedAlignments._max_length av2 = BatchedAlignments._max_length a0
                    ∧ ∀ b n, BatchedAlignments.lengths a0 !! b = Some n →
                        ∃ n2, BatchedAlignments.lengths av2 !! b = Some n2 ∧ n ≤ n2)
               ∨ (Store.ar_labels a2 ≠ Store.alignment_labels x
                  ∧ Store.ar_logits a2 ≠ Store.alignment_logits x))
    | None, None => al2 = None
    | _, _ => False
    end
}.

End views_vocabulary.

(** Alignments for the same batch of two, with output vectors of width
    one and an initial length of two, after one call for item 0; and the
    store of [store_ex] with, in addition, their buffers, on the CPU: the
    labels at the location 2 of the [torch.long] cells and the output
    vectors at the location 0 of the float cells. *)
Definition align_room : BatchedAlignments.t Q :=
  BatchedAlignments.mk false 2 (Tensor [2; 2; 1]%nat [1%Q; 0%Q; 0%Q; 0%Q])
    (Tensor [2; 2]%nat [7; 0; 0; 0]) [1; 0] None.

Definition store_align_ex : Store.store Q :=
  Store.mkStore (<[2%nat := BatchedAlignments.labels align_room]> (Store.longs store_ex))
    (<[0%nat := BatchedAlignments.logits align_room]> ∅).

Definition align_ex : Store.align_ref :=
  Store.mkAlignRef Store.CPU false 2 0 2 [1; 0] None.

(** The records that the conversion gives for [hyps_ex] and [align_ex]. *)
Definition records_align_ex : list (Store.hypothesis_ref Q) :=
  [Store.mkHypothesisRef (1 # 2)%Q (Store.View 0 0 1) (Store.View 1 0 1)
     (Some [(Store.View 2 0 1, Store.View 0 0 1)]) None;
   Store.mkHypothesisRef 0%Q (Store.View 0 1 0) (Store.View 1 1 0) (Some []) None].

(** After the conversion: a call on the hypotheses, which grow, a call on
    the alignments, which write in place, and a second call on the
    alignments, which grow. *)
Definition later_calls_ex
  : result (Store.store Q * Store.hyps_ref Q * Store.align_ref) :=
  '(h1, o1) ← Store.add_results_ store_align_ex hyps_ex call2;
  '(h2, a2) ← Store.align_add_results_ h1 align_ex align_call2;
  '(h3, a3) ← Store.align_add_results_ h2 a2 align_call2;
  Ok (h3, o1, a3).

(** Fresh alignments for a batch of two, with output vectors of width one
    and an initial length of one, in the store of [store_ex]; a call for
    item 1, a call for item 0, for which the buffers grow, the conversion,
    and a second call for item 0: the first alignment entry of the record of
    item 1, read before and after that call. *)
Definition store_fresh_align_ex : Store.store Q :=
  Store.mkStore (<[2%nat := Tensor [2; 1]%nat [0; 0]]> (Store.longs store_ex))
    (<[0%nat := Tensor [2; 1; 1]%nat [0%Q; 0%Q]]> ∅).

Definition fresh_align_ex : Store.align_ref :=
  Store.mkAlignRef Store.CPU false 1 0 2 [0; 0] None.

Definition align_call3 : align_call Q :=
  mkAlignCall [1] (Tensor [1; 1]%nat [2%Q]) [8] None.

Definition align_call4 : align_call Q :=
  mkAlignCall [0] (Tensor [1; 1]%nat [5%Q]) [9] None.

Definition grown_alignments_scenario
  : result (option (Z * list Q) * option (Z * list Q)) :=
  '(h1, a1) ← Store.align_add_results_ store_fresh_align_ex fresh_align_ex align_call3;
  '(h2, a2) ← Store.align_add_results_ h1 a1 align_call2;
  '(h3, recs) ← Store.batched_hyps_to_hypotheses h2 hyps_ex (Some a2);
  '(h4, a4) ← Store.align_add_results_ h3 a2 align_call4;
  match recs !! 1%nat with
  | Some r =>
      match Store.h_alignments r with
      | Some (p :: _) => Ok (read_pair h3 p, read_pair h4 p)
      | _ => Raise IndexError
      end
  | None => Raise IndexError
  end.

(** * Properties *)

(** ** The result monad and index tensors *)

Lemma traverse_Forall2 {A B} (f : A → result B) (l : list A) (ys : list B) :
  traverse f l = Ok ys ↔ Forall2 (λ x y, f x = Ok y) l ys.
Proof.
  revert ys. induction l as [|x l IH]; intros ys; simpl.
  - split.
    + intros [= <-]. constructor.
    + intros Hf. inversion Hf. reflexivity.
  - split.
    + destruct (f x) as [y|e] eqn:Hx; simpl; [|discriminate].
      destruct (traverse f l) as [ys'|e] eqn:Hl; simpl; [|discriminate].
      intros [= <-]. constructor; [assumption|]. apply IH. reflexivity.
    + intros Hf. inversion Hf as [|? y ? ys' Hx Hl]; subst.
      rewrite Hx. simpl. apply IH in Hl. rewrite Hl. reflexivity.
Qed.

Lemma traverse_total {A B} (f : A → result B) (g : A → B) (l : list A) :
  Forall (λ x, f x = Ok (g x)) l → traverse f l = Ok (g <$> l).
Proof.
  induction 1 as [|x l Hx _ IH]; simpl; [reflexivity|].
  rewrite Hx, IH. reflexivity.
Qed.

Lemma norm_index_in_range (n : nat) (i : Z) :
  in_range n i → norm_index n i = Ok (Z.to_nat i).
Proof.
  intros Hi. unfold norm_index. rewrite bool_decide_eq_true_2; done.
Qed.

Lemma norm_indices_in_range (n : nat) (idx : list Z) :
  Forall (in_range n) idx → norm_indices n idx = Ok (Z.to_nat <$> idx).
Proof.
  intros Hr. apply traverse_total.
  eapply Forall_impl; [exact Hr|]. apply norm_index_in_range.
Qed.

Lemma item_in_range {A} (l : list A) (i : Z) (x : A) :
  0 ≤ i → l !! Z.to_nat i = Some x → item l i = Ok x.
Proof.
  intros Hi Hx. unfold item.
  rewrite norm_index_in_range.
  - simpl. rewrite Hx. reflexivity.
  - apply lookup_lt_Some in Hx. unfold in_range. lia.
Qed.

Lemma index_select_in_range {A} (l : list A) (idx : list Z) :
  Forall (in_range (length l)) idx →
  ∃ cur, index_select l idx = Ok cur
         ∧ Forall2 (λ i x, l !! Z.to_nat i = Some x) idx cur.
Proof.
  induction 1 as [|i idx Hi _ (cur & Hcur & Hall)].
  - exists []. split; [reflexivity|constructor].
  - destruct (lookup_lt_is_Some_2 l (Z.to_nat i)) as [x Hx].
    { unfold in_range in Hi. lia. }
    exists (x :: cur). split.
    + unfold index_select in *. simpl.
      rewrite (item_in_range l i x); [|unfold in_range in Hi; lia|done].
      simpl. rewrite Hcur. reflexivity.
    + constructor; done.
Qed.

Lemma broadcast_to_same {A} (n : nat) (v : list A) :
  length v = n → broadcast_to n v = Ok v.
Proof. intros Hn. unfold broadcast_to. rewrite bool_decide_eq_true_2; done. Qed.

Lemma broadcast2_same {A B C} (f : A → B → C) (x : list A) (y : list B) :
  length x = length y → broadcast2 f x y = Ok (zip_with f x y).
Proof. intros Hn. unfold broadcast2. rewrite bool_decide_eq_true_2; done. Qed.

Lemma index_put_in_range {A} (l : list A) (idx : list Z) (v : list A) :
  Forall (in_range (length l)) idx → length v = length idx →
  index_put l idx v = Ok (scatter l (zip (Z.to_nat <$> idx) v)).
Proof.
  intros Hr Hn. unfold index_put.
  rewrite broadcast_to_same by done. simpl.
  rewrite norm_indices_in_range by done. reflexivity.
Qed.

(** ** Scatter *)

Lemma scatter_length {A} (l : list A) (iv : list (nat * A)) :
  length (scatter l iv) = length l.
Proof.
  revert l. induction iv as [|p iv IH]; intros l; simpl; [reflexivity|].
  unfold scatter in *. simpl. rewrite IH. apply length_insert.
Qed.

Lemma scatter_lookup_notin {A} (l : list A) (iv : list (nat * A)) (j : nat) :
  j ∉ iv.*1 → scatter l iv !! j = l !! j.
Proof.
  revert l. induction iv as [|[i x] iv IH]; intros l Hj; [reflexivity|].
  rewrite fmap_cons, not_elem_of_cons in Hj. destruct Hj as [Hne Hj].
  unfold scatter in *. simpl. rewrite IH by done.
  apply list_lookup_insert_ne. simpl in Hne. congruence.
Qed.

Lemma scatter_lookup_in {A} (l : list A) (ix : list nat) (vs : list A)
    (k j : nat) (v : A) :
  NoDup ix → ix !! k = Some j → vs !! k = Some v → (j < length l)%nat →
  scatter l (zip ix vs) !! j = Some v.
Proof.
  revert l vs k. induction ix as [|i ix IH]; intros l vs k Hnd Hk Hv Hj.
  - rewrite lookup_nil in Hk. discriminate.
  - apply NoDup_cons in Hnd as [Hi Hnd].
    destruct vs as [|v0 vs]; [rewrite lookup_nil in Hv; discriminate|].
    destruct k as [|k]; simpl in Hk, Hv.
    + injection Hk as ->. injection Hv as ->.
      change (scatter (<[j:=v]> l) (zip ix vs) !! j = Some v).
      rewrite scatter_lookup_notin.
      * apply list_lookup_insert_eq. done.
      * intros Hin. apply Hi.
        apply list_elem_of_fmap in Hin as ([i' x'] & -> & Hin).
        apply elem_of_zip_l in Hin. done.
    + change (scatter (<[i:=v0]> l) (zip ix vs) !! j = Some v).
      apply (IH _ _ k); try done. rewrite length_insert. done.
Qed.

Lemma scatter_lookup_notin_zip {A} (l : list A) (ix : list nat) (vs : list A) (j : nat) :
  j ∉ ix → scatter l (zip ix vs) !! j = l !! j.
Proof.
  intros Hj. apply scatter_lookup_notin. intros Hin. apply Hj.
  apply list_elem_of_fmap in Hin as ([i' x'] & -> & Hin).
  apply elem_of_zip_l in Hin. done.
Qed.

(** ** Gather, modify, scatter *)

Lemma NoDup_to_nat (n : nat) (idx : list Z) :
  NoDup idx → Forall (in_range n) idx → NoDup (Z.to_nat <$> idx).
Proof.
  intros Hnd Hr. apply NoDup_fmap_2_strong; [|done].
  intros x y Hx Hy Hxy. rewrite Forall_forall in Hr.
  pose proof (Hr x Hx). pose proof (Hr y Hy). unfold in_range in *. lia.
Qed.

Lemma not_elem_of_to_nat (n : nat) (idx : list Z) (j : nat) :
  Forall (in_range n) idx → Z.of_nat j ∉ idx → j ∉ Z.to_nat <$> idx.
Proof.
  intros Hr Hj Hin. apply Hj.
  apply list_elem_of_fmap in Hin as (i & -> & Hin).
  rewrite Forall_forall in Hr. pose proof (Hr i Hin) as Hi. unfold in_range in Hi.
  rewrite Z2Nat.id by lia. done.
Qed.

Lemma gather_modify_scatter {A V} (l : list A) (idx : list Z) (vs : list V)
    (g : A → V → A) (cur : list A) :
  NoDup idx → Forall (in_range (length l)) idx → length vs = length idx →
  Forall2 (λ i x, l !! Z.to_nat i = Some x) idx cur →
  ∃ l', index_put l idx (zip_with g cur vs) = Ok l' ∧ pointwise_update l l' idx vs g.
Proof.
  intros Hnd Hr Hlen Hcur.
  pose proof (Forall2_length _ _ _ Hcur) as Hlc.
  eexists. split.
  - apply index_put_in_range; [done|].
    rewrite length_zip_with. lia.
  - split; [apply scatter_length|]. split.
    + intros k i v Hk Hv.
      destruct (Forall2_lookup_l _ _ _ _ _ Hcur Hk) as (x & Hx & Hlx).
      exists x. split; [done|].
      apply (scatter_lookup_in _ _ _ k).
      * by eapply NoDup_to_nat.
      * rewrite list_lookup_fmap, Hk. done.
      * rewrite lookup_zip_with, Hx. simpl. rewrite Hv. done.
      * by eapply lookup_lt_Some.
    + intros j Hj. apply scatter_lookup_notin_zip.
      by eapply not_elem_of_to_nat.
Qed.

(** Writing through the flat view at [a * M + lens[a]] for distinct rows
    [a] whose lengths are below the row width [M]. *)
Lemma flat_write {A} (B M : nat) (d : list A) (lens active : list Z)
    (vals : list A) (cur : list Z) :
  length d = (B * M)%nat → length lens = B →
  Forall (λ l, 0 ≤ l < Z.of_nat M) lens →
  NoDup active → Forall (in_range B) active → length vals = length active →
  Forall2 (λ i x, lens !! Z.to_nat i = Some x) active cur →
  ∃ d', index_put d (zip_with (λ a l, a * Z.of_nat M + l) active cur) vals = Ok d'
    ∧ length d' = length d
    ∧ (∀ k a len, active !! k = Some a → lens !! Z.to_nat a = Some len →
         d' !! (Z.to_nat a * M + Z.to_nat len)%nat = vals !! k)
    ∧ (∀ b j len, lens !! b = Some len → (j < M)%nat →
         Z.of_nat j ≠ len ∨ Z.of_nat b ∉ active →
         d' !! (b * M + j)%nat = d !! (b * M + j)%nat).
Proof.
  intros Hd Hl Hlt Hnd Hr Hv Hcur.
  pose proof (Forall2_length _ _ _ Hcur) as Hlc.
  set (idx := zip_with (λ a l, a * Z.of_nat M + l) active cur).
  assert (Hlen_idx : length idx = length active).
  { unfold idx. rewrite length_zip_with. lia. }
  assert (Hidx : ∀ k x, idx !! k = Some x →
            ∃ a len, active !! k = Some a ∧ lens !! Z.to_nat a = Some len
                     ∧ x = a * Z.of_nat M + len ∧ in_range B a ∧ 0 ≤ len < Z.of_nat M).
  { intros k x Hk. unfold idx in Hk. rewrite lookup_zip_with in Hk.
    destruct (active !! k) as [a|] eqn:Ha; [|discriminate]. simpl in Hk.
    destruct (cur !! k) as [len|] eqn:Hc; [|discriminate]. simpl in Hk.
    injection Hk as <-.
    destruct (Forall2_lookup_l _ _ _ _ _ Hcur Ha) as (len' & Hc' & Hlen).
    assert (len' = len) as -> by congruence.
    exists a, len. do 3 (split; [done|]). split.
    - rewrite Forall_forall in Hr. apply Hr. by eapply list_elem_of_lookup_2.
    - rewrite Forall_forall in Hlt. apply (Hlt len). by eapply list_elem_of_lookup_2. }
  assert (Hin : Forall (in_range (length d)) idx).
  { apply Forall_lookup. intros k x Hk.
    destruct (Hidx k x Hk) as (a & len & _ & _ & -> & Ha & Hlen).
    unfold in_range in *. rewrite Hd. nia. }
  assert (Hndi : NoDup idx).
  { apply NoDup_alt. intros k1 k2 x H1 H2.
    destruct (Hidx k1 x H1) as (a1 & l1 & Ha1 & Hl1 & E1 & R1 & B1).
    destruct (Hidx k2 x H2) as (a2 & l2 & Ha2 & Hl2 & E2 & R2 & B2).
    assert (a1 = a2) as <-. { unfold in_range in *. nia. }
    eapply NoDup_lookup; eauto. }
  eexists. split; [apply index_put_in_range; [done|lia]|].
  split; [apply scatter_length|]. split.
  - intros k a len Ha Hlen.
    destruct (lookup_lt_is_Some_2 idx k) as [x Hx].
    { rewrite Hlen_idx. by eapply lookup_lt_Some. }
    destruct (Hidx k x Hx) as (a' & len' & Ha' & Hl' & -> & R & Bd).
    assert (a' = a) as -> by congruence.
    assert (len' = len) as -> by congruence.
    destruct (vals !! k) as [v|] eqn:Hvk.
    + apply (scatter_lookup_in _ _ _ k).
      * by eapply NoDup_to_nat.
      * rewrite list_lookup_fmap, Hx. simpl. f_equal. unfold in_range in R. nia.
      * done.
      * rewrite Hd. unfold in_range in R. nia.
    + apply lookup_ge_None in Hvk. apply lookup_lt_Some in Ha. lia.
  - intros b j len Hb Hj Hne.
    apply scatter_lookup_notin_zip.
    intros Hmem. apply list_elem_of_fmap in Hmem as (x & Hx & Hmem).
    apply list_elem_of_lookup in Hmem as [k Hk].
    destruct (Hidx k x Hk) as (a & len' & Ha & Hl' & -> & R & Bd).
    unfold in_range in R.
    assert (Z.of_nat b * Z.of_nat M + Z.of_nat j = a * Z.of_nat M + len') as Heq by lia.
    assert (Z.of_nat b = a) as Hba by nia.
    assert (Z.of_nat j = len') as Hjl by nia.
    assert (b = Z.to_nat a) as -> by lia.
    assert (j = Z.to_nat len') as -> by lia.
    assert (len' = len) as -> by congruence.
    destruct Hne as [Hne|Hne].
    + lia.
    + apply Hne. rewrite Z2Nat.id by lia. by eapply list_elem_of_lookup_2.
Qed.

(** ** Matrices: growth along the last dimension *)

Lemma cat_rows_length {A} (k n1 n2 : nat) (d1 d2 : list A) :
  length d1 = (k * n1)%nat → length d2 = (k * n2)%nat →
  length (cat_rows k n1 n2 d1 d2) = (k * (n1 + n2))%nat.
Proof.
  revert d1 d2. induction k as [|k IH]; intros d1 d2 H1 H2; simpl; [reflexivity|].
  rewrite !length_app, !length_take, IH.
  - lia.
  - rewrite length_drop. lia.
  - rewrite length_drop. lia.
Qed.

Lemma cat_rows_lookup {A} (k n1 n2 : nat) (d1 d2 : list A) (b j : nat) :
  length d1 = (k * n1)%nat → length d2 = (k * n2)%nat →
  (b < k)%nat → (j < n1 + n2)%nat →
  cat_rows k n1 n2 d1 d2 !! (b * (n1 + n2) + j)%nat
  = if decide (j < n1)%nat then d1 !! (b * n1 + j)%nat
    else d2 !! (b * n2 + (j - n1))%nat.
Proof.
  revert d1 d2 b. induction k as [|k IH]; intros d1 d2 b H1 H2 Hb Hj; [lia|].
  simpl.
  assert (length (take n1 d1) = n1) as Ht1 by (rewrite length_take; lia).
  assert (length (take n2 d2) = n2) as Ht2 by (rewrite length_take; lia).
  destruct b as [|b].
  - simpl. destruct (decide (j < n1)%nat) as [Hlt|Hge].
    + rewrite lookup_app_l by lia. apply lookup_take_lt. done.
    + rewrite lookup_app_r by lia. rewrite Ht1.
      rewrite lookup_app_l by lia. apply lookup_take_lt. lia.
  - rewrite lookup_app_r by lia. rewrite Ht1.
    rewrite lookup_app_r by lia. rewrite Ht2.
    replace (S b * (n1 + n2) + j - n1 - n2)%nat with (b * (n1 + n2) + j)%nat by lia.
    rewrite IH; [|rewrite length_drop; lia|rewrite length_drop; lia|lia|done].
    rewrite !lookup_drop.
    replace (n1 + (b * n1 + j))%nat with (S b * n1 + j)%nat by lia.
    replace (n2 + (b * n2 + (j - n1)))%nat with (S b * n2 + (j - n1))%nat by lia.
    done.
Qed.

(** Doubling a matrix with zero columns keeps every element and puts zeros
    in the new columns. *)
Lemma cat_zeros_matrix (rows cols : nat) (t : tensor Z) :
  wf_matrix rows cols t →
  let t' := torch_cat_last t (torch_zeros_like t) in
  wf_matrix rows (cols + cols) t'
  ∧ (∀ b j, (b < rows)%nat → (j < cols)%nat → elem t' b j = elem t b j)
  ∧ (∀ b j, (b < rows)%nat → (cols ≤ j < cols + cols)%nat → elem t' b j = Some 0).
Proof.
  intros [Hs Hd]. simpl.
  unfold torch_cat_last, torch_zeros_like, elem, wf_matrix. simpl.
  rewrite Hs. unfold last_dim, lead_numel. simpl.
  replace (rows * 1)%nat with rows by lia.
  assert (Hz : length (replicate (length (data t)) (scalar_zero : Z)) = (rows * cols)%nat)
    by (rewrite length_replicate; done).
  split; [split; [done|]|split].
  - rewrite cat_rows_length by done. lia.
  - intros b j Hb Hj. rewrite cat_rows_lookup by (done || lia).
    rewrite decide_True by done. done.
  - intros b j Hb Hj. rewrite cat_rows_lookup by (done || lia).
    rewrite decide_False by lia.
    apply lookup_replicate_2. rewrite Hd. nia.
Qed.

Lemma row_prefix_length {A} (rows cols : nat) (t : tensor A) (b n : nat) :
  wf_matrix rows cols t → (b < rows)%nat → (n ≤ cols)%nat →
  length (row_prefix t b n) = n.
Proof.
  intros [Hs Hd] Hb Hn. unfold row_prefix. rewrite Hs. unfold last_dim. simpl.
  rewrite !length_take, length_drop, Hd. nia.
Qed.

Lemma row_prefix_lookup {A} (rows cols : nat) (t : tensor A) (b n j : nat) :
  wf_matrix rows cols t → (j < n)%nat → (n ≤ cols)%nat →
  row_prefix t b n !! j = elem t b j.
Proof.
  intros [Hs Hd] Hj Hn. unfold row_prefix, elem.
  rewrite lookup_take_lt by done. rewrite Hs. unfold last_dim. simpl.
  rewrite lookup_take_lt by lia. apply lookup_drop.
Qed.

Lemma row_prefix_ext {A} (rows cols cols' : nat) (t t' : tensor A) (b n : nat) :
  wf_matrix rows cols t → wf_matrix rows cols' t' → (b < rows)%nat →
  (n ≤ cols)%nat → (n ≤ cols')%nat →
  (∀ j, (j < n)%nat → elem t' b j = elem t b j) →
  row_prefix t' b n = row_prefix t b n.
Proof.
  intros Ht Ht' Hb Hn Hn' Hel. apply list_eq. intros j.
  destruct (decide (j < n)%nat) as [Hj|Hj].
  - rewrite (row_prefix_lookup rows cols') by done.
    rewrite (row_prefix_lookup rows cols) by done. by apply Hel.
  - rewrite !lookup_ge_None_2; [done| |].
    + rewrite (row_prefix_length rows cols) by done. lia.
    + rewrite (row_prefix_length rows cols') by done. lia.
Qed.

Lemma row_prefix_snoc {A} (rows cols cols' : nat) (t t' : tensor A) (b n : nat) (x : A) :
  wf_matrix rows cols t → wf_matrix rows cols' t' → (b < rows)%nat →
  (n ≤ cols)%nat → (n < cols')%nat →
  (∀ j, (j < n)%nat → elem t' b j = elem t b j) →
  elem t' b n = Some x →
  row_prefix t' b (S n) = row_prefix t b n ++ [x].
Proof.
  intros Ht Ht' Hb Hn Hn' Hel Hx. apply list_eq. intros j.
  destruct (decide (j < n)%nat) as [Hj|Hj].
  - rewrite lookup_app_l by (rewrite (row_prefix_length rows cols) by (done || lia); done).
    rewrite (row_prefix_lookup rows cols') by (done || lia).
    rewrite (row_prefix_lookup rows cols) by (done || lia). by apply Hel.
  - destruct (decide (j = n)) as [->|Hne].
    + rewrite (row_prefix_lookup rows cols') by (done || lia).
      rewrite lookup_app_r by (rewrite (row_prefix_length rows cols) by (done || lia); done).
      rewrite (row_prefix_length rows cols) by (done || lia).
      rewrite Nat.sub_diag. done.
    + rewrite !lookup_ge_None_2; [done| |].
      * rewrite length_app, (row_prefix_length rows cols) by (done || lia). simpl. lia.
      * rewrite (row_prefix_length rows cols') by (done || lia). lia.
Qed.

Lemma row_slice_prefix {A} (rows cols : nat) (t : tensor A) (b n : Z) :
  wf_matrix rows cols t → in_range rows b → 0 ≤ n ≤ Z.of_nat cols →
  row_slice t b n = Ok (row_prefix t (Z.to_nat b) (Z.to_nat n)).
Proof.
  intros [Hs Hd] Hb Hn. unfold row_slice, row_prefix. rewrite Hs.
  rewrite norm_index_in_range by done. simpl.
  unfold slice_bound. rewrite bool_decide_eq_true_2 by lia.
  unfold last_dim. simpl. do 2 f_equal. lia.
Qed.

(** ** The maximum of a tensor *)

Lemma foldl_max_ge (x : Z) (l : list Z) :
  x ≤ foldl Z.max x l ∧ Forall (λ y, y ≤ foldl Z.max x l) l.
Proof.
  revert x. induction l as [|y l IH]; intros x; simpl; [split; [lia|constructor]|].
  destruct (IH (Z.max x y)) as [H1 H2]. split; [lia|].
  constructor; [lia|done].
Qed.

Lemma foldl_max_elem (x : Z) (l : list Z) :
  foldl Z.max x l = x ∨ foldl Z.max x l ∈ l.
Proof.
  revert x. induction l as [|y l IH]; intros x; simpl; [by left|].
  destruct (IH (Z.max x y)) as [H1|H1].
  - rewrite H1. destruct (Z.max_spec x y) as [[_ ->]|[_ ->]].
    + right. left.
    + by left.
  - right. by right.
Qed.

Lemma tensor_max_spec (l : list Z) (m : Z) :
  tensor_max l = Ok m → Forall (λ y, y ≤ m) l ∧ m ∈ l.
Proof.
  destruct l as [|x l]; simpl; [discriminate|]. intros [= <-].
  destruct (foldl_max_ge x l) as [H1 H2]. split.
  - constructor; done.
  - destruct (foldl_max_elem x l) as [->|Hin]; [left|by right].
Qed.

Lemma tensor_max_nonempty (l : list Z) :
  l ≠ [] → ∃ m, tensor_max l = Ok m.
Proof. destruct l; [done|]. intros _. eexists. reflexivity. Qed.

Lemma index_put_spec {A} (l : list A) (idx : list Z) (new : list A) :
  NoDup idx → Forall (in_range (length l)) idx → length new = length idx →
  ∃ l', index_put l idx new = Ok l'
    ∧ length l' = length l
    ∧ (∀ k i, idx !! k = Some i → l' !! Z.to_nat i = new !! k)
    ∧ (∀ j, Z.of_nat j ∉ idx → l' !! j = l !! j).
Proof.
  intros Hnd Hr Hlen. eexists. split; [by apply index_put_in_range|].
  split; [apply scatter_length|]. split.
  - intros k i Hk.
    destruct (lookup_lt_is_Some_2 new k) as [v Hv].
    { rewrite Hlen. by eapply lookup_lt_Some. }
    rewrite Hv. apply (scatter_lookup_in _ _ _ k); try done.
    + by eapply NoDup_to_nat.
    + rewrite list_lookup_fmap, Hk. done.
    + rewrite Forall_forall in Hr.
      assert (in_range (length l) i) as Hi by (apply Hr; by eapply list_elem_of_lookup_2).
      unfold in_range in Hi. lia.
  - intros j Hj. apply scatter_lookup_notin_zip. by eapply not_elem_of_to_nat.
Qed.

(** ** BatchedHyps: one call of [add_results_] *)

Section hyps_props.
Context {F : Type} {HF : FloatDtype F}.

Lemma init_Ok (batch_size init_length : Z) :
  0 < batch_size → 0 < init_length →
  BatchedHyps.__init__ batch_size init_length
  = Ok (BatchedHyps.mk init_length
          (replicate (Z.to_nat batch_size) 0)
          (Tensor [Z.to_nat batch_size; Z.to_nat init_length]
             (replicate (Z.to_nat batch_size * (Z.to_nat init_length * 1)) 0))
          (Tensor [Z.to_nat batch_size; Z.to_nat init_length]
             (replicate (Z.to_nat batch_size * (Z.to_nat init_length * 1)) 0))
          (replicate (Z.to_nat batch_size) f_zero)
          (replicate (Z.to_nat batch_size) 0)
          (replicate (Z.to_nat batch_size) (-1))).
Proof.
  intros HB HL. unfold BatchedHyps.__init__.
  rewrite !bool_decide_eq_false_2 by lia.
  unfold torch_zeros1, torch_full1, torch_zeros.
  assert (Forall (λ d, 0 ≤ d) [batch_size; init_length]) as Hdims
    by (repeat constructor; lia).
  rewrite (bool_decide_eq_true_2 _ Hdims).
  rewrite (bool_decide_eq_true_2 (0 ≤ batch_size)) by lia.
  reflexivity.
Qed.

Lemma init_wf (batch_size init_length : Z) (s : BatchedHyps.t F) :
  BatchedHyps.__init__ batch_size init_length = Ok s →
  wf (Z.to_nat batch_size) s.
Proof.
  intros Hs.
  assert (0 < batch_size ∧ 0 < init_length) as [HB HL].
  { unfold BatchedHyps.__init__ in Hs. repeat case_bool_decide; try discriminate. lia. }
  rewrite init_Ok in Hs by done. injection Hs as <-.
  split; simpl; rewrite ?length_replicate; try done; try lia.
  - split; [done|]. simpl. rewrite length_replicate. lia.
  - split; [done|]. simpl. rewrite length_replicate. lia.
  - apply Forall_replicate. lia.
Qed.

(** The growth step of a call. *)
Lemma grow_if_full_spec (B : nat) (s : BatchedHyps.t F) :
  wf B s →
  ∃ m s1, tensor_max (BatchedHyps.lengths s) = Ok m
    ∧ BatchedHyps.grow_if_full s = Ok s1
    ∧ wf B s1
    ∧ BatchedHyps._max_length s1
      = (if bool_decide (BatchedHyps._max_length s ≤ m)
         then BatchedHyps._max_length s * 2 else BatchedHyps._max_length s)
    ∧ BatchedHyps.lengths s1 = BatchedHyps.lengths s
    ∧ BatchedHyps.scores s1 = BatchedHyps.scores s
    ∧ BatchedHyps.last_timestep_lasts s1 = BatchedHyps.last_timestep_lasts s
    ∧ BatchedHyps.last_timestep s1 = BatchedHyps.last_timestep s
    ∧ Forall (λ l, 0 ≤ l < BatchedHyps._max_length s1) (BatchedHyps.lengths s1)
    ∧ (∀ b j, (b < B)%nat → (j < Z.to_nat (BatchedHyps._max_length s))%nat →
         elem (BatchedHyps.transcript s1) b j = elem (BatchedHyps.transcript s) b j
         ∧ elem (BatchedHyps.timesteps s1) b j = elem (BatchedHyps.timesteps s) b j)
    ∧ (∀ b j, (b < B)%nat →
         (Z.to_nat (BatchedHyps._max_length s) ≤ j < Z.to_nat (BatchedHyps._max_length s1))%nat →
         elem (BatchedHyps.transcript s1) b j = Some 0
         ∧ elem (BatchedHyps.timesteps s1) b j = Some 0).
Proof.
  intros Hwf. destruct Hwf as [HB HM Hl Hs Hls Hlt Htr Hti Hbd].
  destruct (tensor_max_nonempty (BatchedHyps.lengths s)) as [m Hm].
  { intros Hnil. rewrite Hnil in Hl. simpl in Hl. lia. }
  destruct (tensor_max_spec _ _ Hm) as [Hle Hin].
  exists m. unfold BatchedHyps.grow_if_full. rewrite Hm. simpl.
  case_bool_decide as Hfull.
  - eexists. split; [done|]. split; [reflexivity|].
    destruct (cat_zeros_matrix _ _ _ Htr) as (Htr' & Htr1 & Htr2).
    destruct (cat_zeros_matrix _ _ _ Hti) as (Hti' & Hti1 & Hti2).
    assert (Z.to_nat (BatchedHyps._max_length s * 2)
            = (Z.to_nat (BatchedHyps._max_length s) + Z.to_nat (BatchedHyps._max_length s))%nat)
      as Hdbl by lia.
    simpl. split; [|split; [done|]]; [split; simpl; try done; try lia| ].
    + rewrite Hdbl. done.
    + rewrite Hdbl. done.
    + eapply Forall_impl; [exact Hbd|]. simpl. lia.
    + do 4 (split; [done|]). split; [|split].
      * rewrite Forall_forall in Hbd, Hle. apply Forall_forall. intros l Hlin.
        pose proof (Hbd l Hlin). pose proof (Hbd m Hin). lia.
      * intros b j Hb Hj. split; [by apply Htr1|by apply Hti1].
      * intros b j Hb Hj. rewrite Hdbl in Hj. split; [by apply Htr2|by apply Hti2].
  - exists s. split; [done|]. split; [done|]. split; [by split|].
    do 5 (split; [done|]). split; [|split].
    + rewrite Forall_forall in Hbd, Hle. apply Forall_forall. intros l Hlin.
      pose proof (Hbd l Hlin). pose proof (Hle l Hlin). lia.
    + done.
    + intros b j Hb Hj. lia.
Qed.

Lemma bind_Ok {A B} (a : A) (f : A → result B) : (Ok a ≫= f) = f a.
Proof. reflexivity. Qed.

Ltac ok_step := repeat (rewrite bind_Ok; cbn beta).

Lemma pointwise_update_bound (l l' : list Z) (idx : list Z) (M : Z) :
  pointwise_update l l' idx idx (λ x _, x + 1) →
  Forall (λ x, 0 ≤ x < M) l → Forall (λ x, 0 ≤ x ≤ M) l'.
Proof.
  intros (Hlen & Hin & Hout) Hl. apply Forall_lookup. intros j x' Hj.
  rewrite Forall_lookup in Hl.
  destruct (decide (Z.of_nat j ∈ idx)) as [Hmem|Hmem].
  - apply list_elem_of_lookup in Hmem as [k Hk].
    destruct (Hin k _ _ Hk Hk) as (x & Hx & Hx').
    rewrite Nat2Z.id in Hx, Hx'. rewrite Hj in Hx'. injection Hx' as ->.
    pose proof (Hl _ _ Hx). lia.
  - rewrite (Hout _ Hmem) in Hj. pose proof (Hl _ _ Hj). lia.
Qed.

(** A valid call succeeds from a well-formed object, keeps it well formed
    and has the effects of [step_post]. *)
Lemma add_results_spec (B : nat) (s : BatchedHyps.t F) (c : hyps_call F) :
  wf B s → valid_call B c → c_active c ≠ [] →
  ∃ s1 s', BatchedHyps.grow_if_full s = Ok s1
    ∧ apply_call s c = Ok s'
    ∧ wf B s'
    ∧ step_post B s1 s' c.
Proof.
  intros Hwf (Hnd & Hr & Hlab & Htim & Hsc) Hne.
  destruct (grow_if_full_spec B s Hwf)
    as (m & s1 & _ & Hgrow & Hwf1 & _ & _ & _ & _ & _ & Hlt & _).
  exists s1. unfold apply_call, BatchedHyps.add_results_.
  rewrite bool_decide_eq_false_2
    by (destruct (c_active c); [done|simpl; lia]).
  rewrite Hgrow; ok_step.
  destruct Hwf1 as [HB HM Hl Hs Hls Hlast Htr Hti Hbd].
  destruct Htr as [Htr_s Htr_d]. destruct Hti as [Hti_s Hti_d].
  set (M := Z.to_nat (BatchedHyps._max_length s1)) in *.
  (* scores *)
  destruct (index_select_in_range (BatchedHyps.scores s1) (c_active c))
    as (cur & Hcur & Hcur2); [by rewrite Hs|].
  rewrite Hcur; ok_step. unfold iadd.
  rewrite broadcast_to_same
    by (rewrite <- (Forall2_length _ _ _ Hcur2); done).
  ok_step.
  destruct (gather_modify_scatter (BatchedHyps.scores s1) (c_active c) (c_scores c)
              f_add cur) as (scores' & Hscores & Hscores2); [done|by rewrite Hs|done|done|].
  rewrite Hscores; ok_step.
  (* indices to use *)
  destruct (index_select_in_range (BatchedHyps.lengths s1) (c_active c))
    as (lens & Hlens & Hlens2); [by rewrite Hl|].
  unfold BatchedHyps.indices_to_use. rewrite Hlens; ok_step.
  assert (HltM : Forall (λ l, 0 ≤ l < Z.of_nat M) (BatchedHyps.lengths s1)).
  { eapply Forall_impl; [exact Hlt|]. simpl. intros l. unfold M. lia. }
  assert (HMZ : BatchedHyps._max_length s1 = Z.of_nat M) by (unfold M; lia).
  rewrite HMZ.
  destruct (flat_write B M (data (BatchedHyps.transcript s1)) (BatchedHyps.lengths s1)
              (c_active c) (c_labels c) lens)
    as (tr' & Htr' & Htr'_len & Htr'_in & Htr'_out); try done.
  destruct (flat_write B M (data (BatchedHyps.timesteps s1)) (BatchedHyps.lengths s1)
              (c_active c) (c_times c) lens)
    as (ti' & Hti' & Hti'_len & Hti'_in & Hti'_out); try done.
  unfold view_flat_index_put. rewrite Htr'; ok_step. rewrite Hti'; ok_step.
  (* last time step and its repeat count *)
  destruct (index_select_in_range (BatchedHyps.last_timestep s1) (c_active c))
    as (lt & Hlt_sel & Hlt2); [by rewrite Hlast|].
  rewrite Hlt_sel; ok_step.
  rewrite broadcast2_same
    by (rewrite <- (Forall2_length _ _ _ Hlt2); done).
  ok_step.
  destruct (index_select_in_range (BatchedHyps.last_timestep_lasts s1) (c_active c))
    as (ltl & Hltl_sel & Hltl2); [by rewrite Hls|].
  rewrite Hltl_sel; ok_step.
  rewrite broadcast2_same
    by (rewrite length_zip_with, <- (Forall2_length _ _ _ Hlt2),
          <- (Forall2_length _ _ _ Hltl2); lia).
  ok_step.
  destruct (index_put_spec (BatchedHyps.last_timestep_lasts s1) (c_active c)
              (zip_with (λ (c0 : bool) l, if c0 then l + 1 else 1)
                 (zip_with (λ a b, bool_decide (a = b)) lt (c_times c)) ltl))
    as (lasts' & Hlasts & Hlasts_len & Hlasts_in & Hlasts_out); [done|by rewrite Hls| |].
  { rewrite !length_zip_with, <- (Forall2_length _ _ _ Hlt2),
      <- (Forall2_length _ _ _ Hltl2). lia. }
  rewrite Hlasts; ok_step.
  destruct (gather_modify_scatter (BatchedHyps.last_timestep s1) (c_active c) (c_times c)
              (λ _ t, t) lt) as (last' & Hlast' & Hlast2); [done|by rewrite Hlast|done|done|].
  assert (zip_with (λ (_ : Z) t, t) lt (c_times c) = c_times c) as Hzip.
  { apply list_eq. intros k. rewrite lookup_zip_with.
    destruct (c_times c !! k) as [t|] eqn:Ht.
    - destruct (lookup_lt_is_Some_2 lt k) as [x Hx].
      { rewrite <- (Forall2_length _ _ _ Hlt2), <- Htim. by eapply lookup_lt_Some. }
      rewrite Hx. done.
    - destruct (lt !! k); done. }
  rewrite Hzip in Hlast'. rewrite Hlast'; ok_step.
  (* lengths *)
  destruct (gather_modify_scatter (BatchedHyps.lengths s1) (c_active c) (c_active c)
              (λ l _, l + 1) lens) as (len' & Hlen' & Hlen2); [done|by rewrite Hl|done|done|].
  assert (zip_with (λ l (_ : Z), l + 1) lens (c_active c) = (λ l, l + 1) <$> lens) as Hzip2.
  { apply list_eq. intros k. rewrite lookup_zip_with, list_lookup_fmap.
    destruct (lens !! k) as [x|] eqn:Hx; [|done]. simpl.
    destruct (lookup_lt_is_Some_2 (c_active c) k) as [a Ha].
    { rewrite (Forall2_length _ _ _ Hlens2). by eapply lookup_lt_Some. }
    rewrite Ha. done. }
  rewrite Hzip2 in Hlen'. rewrite Hlen'; ok_step.
  eexists. split; [done|]. split; [reflexivity|].
  split.
  - apply mk_wf; simpl; rewrite ?Nat2Z.id.
    + done.
    + lia.
    + destruct Hlen2 as [-> _]. done.
    + destruct Hscores2 as [-> _]. done.
    + congruence.
    + destruct Hlast2 as [-> _]. done.
    + split; simpl; [done|]. congruence.
    + split; simpl; [done|]. congruence.
    + eapply pointwise_update_bound; [exact Hlen2|]. done.
  - apply mk_step_post; simpl; try done.
    + intros k a t Ha Ht.
      destruct (Forall2_lookup_l _ _ _ _ _ Hlt2 Ha) as (x & Hx & Hx2).
      destruct (Forall2_lookup_l _ _ _ _ _ Hltl2 Ha) as (y & Hy & Hy2).
      exists x, y. split; [done|]. split; [done|].
      rewrite (Hlasts_in _ _ Ha). rewrite !lookup_zip_with, Hx, Hy. simpl.
      rewrite Ht. done.
    + intros k a len Ha Hlen. unfold elem. simpl.
      rewrite Htr_s, Hti_s. unfold last_dim. simpl. fold M.
      split; [by eapply Htr'_in|by eapply Hti'_in].
    + intros b j len Hb Hj Hne'. unfold elem. simpl.
      rewrite Htr_s, Hti_s. unfold last_dim. simpl. fold M.
      split; [by eapply Htr'_out|by eapply Hti'_out].
Qed.

(** ** BatchedHyps: the stored sequences *)

Lemma apply_call_empty (s : BatchedHyps.t F) (c : hyps_call F) :
  c_active c = [] → apply_call s c = Ok s.
Proof. intros Hc. unfold apply_call, BatchedHyps.add_results_. rewrite Hc. done. Qed.

Lemma apply_call_history (B : nat) (s : BatchedHyps.t F) (c : hyps_call F) :
  wf B s → valid_call B c →
  ∃ s', apply_call s c = Ok s'
    ∧ wf B s'
    ∧ (∀ k b label t d, c_active c !! k = Some b → c_labels c !! k = Some label →
         c_times c !! k = Some t → c_scores c !! k = Some d →
         item_post s s' (Z.to_nat b) label t d)
    ∧ (∀ b, (b < B)%nat → Z.of_nat b ∉ c_active c → other_post s s' b).
Proof.
  intros Hwf Hv.
  destruct (decide (c_active c = [])) as [Hnil|Hne].
  { exists s. split; [by apply apply_call_empty|]. split; [done|]. split.
    - intros k b ? ? ? Hk. rewrite Hnil, lookup_nil in Hk. done.
    - intros b _ _. by split. }
  destruct (add_results_spec B s c Hwf Hv Hne) as (s1 & s' & Hgrow & Hs' & Hwf' & Hpost).
  destruct (grow_if_full_spec B s Hwf)
    as (m & s1' & _ & Hgrow' & Hwf1 & HM1 & Hl1 & Hsc1 & Hls1 & Hlt1 & Hbd1 & Hkeep & _).
  assert (s1' = s1) as -> by congruence.
  destruct Hpost as [Hmax Hscores Hlens Hlast Hlasts_len Hlasts_in Hlasts_out Hwr Hkp].
  destruct Hv as (Hnd & Hr & Hlab & Htim & Hsco).
  pose proof (wf_bound B s Hwf) as Hbd.
  pose proof (wf_max B s Hwf) as HM.
  assert (HMle : BatchedHyps._max_length s ≤ BatchedHyps._max_length s1)
    by (rewrite HM1; case_bool_decide; lia).
  exists s'. split; [done|]. split; [done|]. split.
  - intros k b label t d Hk Hlabel Ht Hd.
    assert (in_range B b) as Hb.
    { rewrite Forall_forall in Hr. apply Hr. by eapply list_elem_of_lookup_2. }
    unfold in_range in Hb.
    destruct Hscores as (_ & Hsc_in & _). destruct (Hsc_in _ _ _ Hk Hd) as (sc & Hsc & Hsc').
    destruct Hlens as (_ & Hl_in & _). destruct (Hl_in _ _ _ Hk Hk) as (len & Hlen & Hlen').
    destruct Hlast as (_ & Hla_in & _). destruct (Hla_in _ _ _ Hk Ht) as (lt0 & _ & Hla').
    destruct (Hlasts_in _ _ _ Hk Ht) as (lt & ltl & Hlt & Hltl & Hltl').
    destruct (Hwr _ _ _ Hk Hlen) as [Hw1 Hw2]. rewrite Hlabel in Hw1. rewrite Ht in Hw2.
    assert (0 ≤ len < BatchedHyps._max_length s1) as Hlen1.
    { rewrite Forall_forall in Hbd1. apply Hbd1. by eapply list_elem_of_lookup_2. }
    assert (0 ≤ len ≤ BatchedHyps._max_length s) as Hlen0.
    { rewrite Forall_forall in Hbd. apply Hbd. rewrite <- Hl1. by eapply list_elem_of_lookup_2. }
    assert (Hprefix : ∀ j, (j < Z.to_nat len)%nat →
              elem (BatchedHyps.transcript s') (Z.to_nat b) j
              = elem (BatchedHyps.transcript s) (Z.to_nat b) j
              ∧ elem (BatchedHyps.timesteps s') (Z.to_nat b) j
                = elem (BatchedHyps.timesteps s) (Z.to_nat b) j).
    { intros j Hj.
      destruct (Hkp (Z.to_nat b) j len Hlen) as [E1 E2]; [lia|left; lia|].
      destruct (Hkeep (Z.to_nat b) j) as [E3 E4]; [lia|lia|].
      split; congruence. }
    rewrite Hl1 in Hlen. rewrite Hsc1 in Hsc. rewrite Hlt1 in Hlt. rewrite Hls1 in Hltl.
    eapply (mk_item_post s s' (Z.to_nat b) label t d len sc lt ltl); try done.
    + unfold labels_of. rewrite Hlen, Hlen'.
      replace (Z.to_nat (len + 1)) with (S (Z.to_nat len)) by lia.
      eapply (row_prefix_snoc B); [apply (wf_transcript B s Hwf)|apply (wf_transcript B s' Hwf')
                                  |lia|lia|rewrite Hmax; lia| |done].
      intros j Hj. by apply Hprefix.
    + unfold times_of. rewrite Hlen, Hlen'.
      replace (Z.to_nat (len + 1)) with (S (Z.to_nat len)) by lia.
      eapply (row_prefix_snoc B); [apply (wf_timesteps B s Hwf)|apply (wf_timesteps B s' Hwf')
                                  |lia|lia|rewrite Hmax; lia| |done].
      intros j Hj. by apply Hprefix.
  - intros b Hb Hnotin.
    destruct Hscores as (_ & _ & Hsc_out). destruct Hlens as (_ & _ & Hl_out).
    destruct Hlast as (_ & _ & Hla_out).
    assert (BatchedHyps.lengths s' !! b = BatchedHyps.lengths s !! b) as Hlen_eq
      by (rewrite Hl_out, Hl1; done).
    destruct (lookup_lt_is_Some_2 (BatchedHyps.lengths s) b) as [len Hlen].
    { rewrite (wf_lengths B s Hwf). done. }
    assert (0 ≤ len ≤ BatchedHyps._max_length s) as Hlen0.
    { rewrite Forall_forall in Hbd. apply Hbd. by eapply list_elem_of_lookup_2. }
    assert (Hprefix : ∀ j, (j < Z.to_nat len)%nat →
              elem (BatchedHyps.transcript s') b j = elem (BatchedHyps.transcript s) b j
              ∧ elem (BatchedHyps.timesteps s') b j = elem (BatchedHyps.timesteps s) b j).
    { intros j Hj.
      destruct (Hkp b j len) as [E1 E2]; [by rewrite Hl1|lia|by right|].
      destruct (Hkeep b j) as [E3 E4]; [lia|lia|].
      split; congruence. }
    apply mk_other_post.
    + done.
    + rewrite Hsc_out, Hsc1; done.
    + rewrite Hla_out, Hlt1; done.
    + rewrite Hlasts_out, Hls1; done.
    + unfold labels_of. rewrite Hlen_eq, Hlen.
      eapply (row_prefix_ext B); [apply (wf_transcript B s Hwf)|apply (wf_transcript B s' Hwf')
                                 |lia|lia|rewrite Hmax; lia|].
      intros j Hj. by apply Hprefix.
    + unfold times_of. rewrite Hlen_eq, Hlen.
      eapply (row_prefix_ext B); [apply (wf_timesteps B s Hwf)|apply (wf_timesteps B s' Hwf')
                                 |lia|lia|rewrite Hmax; lia|].
      intros j Hj. by apply Hprefix.
Qed.

(** ** BatchedHyps: sequences of calls *)

Lemma run_app (s : BatchedHyps.t F) (cs1 cs2 : list (hyps_call F)) :
  run s (cs1 ++ cs2) = (s' ← run s cs1; run s' cs2).
Proof.
  revert s. induction cs1 as [|c cs1 IH]; intros s; simpl; [reflexivity|].
  destruct (apply_call s c) as [s'|e]; simpl; [apply IH|reflexivity].
Qed.

Lemma run_wf (B : nat) (s : BatchedHyps.t F) (cs : list (hyps_call F)) :
  wf B s → Forall (valid_call B) cs → ∃ s', run s cs = Ok s' ∧ wf B s'.
Proof.
  intros Hwf Hcs. revert s Hwf. induction Hcs as [|c cs Hc _ IH]; intros s Hwf.
  - exists s. done.
  - destruct (apply_call_history B s c Hwf Hc) as (s1 & Hs1 & Hwf1 & _).
    destruct (IH s1 Hwf1) as (s' & Hs' & Hwf').
    exists s'. simpl. rewrite Hs1. done.
Qed.

(** Every property that the constructor establishes and that a valid call
    keeps holds after a sequence of valid calls. *)
Lemma run_invariant (B : nat) (P : BatchedHyps.t F → Prop) (s : BatchedHyps.t F)
    (cs : list (hyps_call F)) :
  (∀ s c s', wf B s → P s → valid_call B c → apply_call s c = Ok s' → P s') →
  wf B s → P s → Forall (valid_call B) cs →
  ∃ s', run s cs = Ok s' ∧ wf B s' ∧ P s'.
Proof.
  intros Hstep Hwf HP Hcs. revert s Hwf HP.
  induction Hcs as [|c cs Hc _ IH]; intros s Hwf HP.
  - exists s. done.
  - destruct (apply_call_history B s c Hwf Hc) as (s1 & Hs1 & Hwf1 & _).
    destruct (IH s1 Hwf1 (Hstep _ _ _ Hwf HP Hc Hs1)) as (s' & Hs' & Hwf' & HP').
    exists s'. simpl. rewrite Hs1. done.
Qed.

(** ** The repeat count *)

Lemma trailing_run_snoc (p : list Z) (t : Z) :
  trailing_run (p ++ [t])
  = if bool_decide (last p = Some t) then S (trailing_run p) else 1%nat.
Proof.
  unfold trailing_run. rewrite reverse_snoc.
  destruct p as [|x p _] using rev_ind.
  - reflexivity.
  - rewrite last_snoc, reverse_snoc. simpl.
    destruct (decide (x = t)) as [->|Hne].
    + rewrite !bool_decide_eq_true_2 by done. reflexivity.
    + rewrite !bool_decide_eq_false_2 by congruence. reflexivity.
Qed.

Lemma trailing_run_le (p : list Z) : (trailing_run p ≤ length p)%nat.
Proof.
  induction p as [|t p IH] using rev_ind; [done|].
  rewrite trailing_run_snoc, length_app. simpl. case_bool_decide; lia.
Qed.

(** The last [trailing_run p] entries of [p] all equal the last one. *)
Lemma trailing_run_block (p : list Z) (x : Z) :
  last p = Some x → Forall (λ y, y = x) (drop (length p - trailing_run p) p).
Proof.
  revert x. induction p as [|t p IH] using rev_ind; intros x; [done|].
  rewrite last_snoc. intros [= ->].
  rewrite trailing_run_snoc, length_app. simpl.
  pose proof (trailing_run_le p) as Hle.
  case_bool_decide as Hlast.
  - replace (length p + 1 - S (trailing_run p))%nat
      with (length p - trailing_run p)%nat by lia.
    rewrite drop_app_le by lia. apply Forall_app. split; [by apply IH|].
    repeat constructor.
  - replace (length p + 1 - 1)%nat with (length p) by lia.
    rewrite drop_app_length. repeat constructor.
Qed.

(** The block is maximal: the entry before it, when there is one, differs. *)
Lemma trailing_run_maximal (p : list Z) (x y : Z) (j : nat) :
  last p = Some x → S j = (length p - trailing_run p)%nat → p !! j = Some y → y ≠ x.
Proof.
  revert x y j. induction p as [|t p IH] using rev_ind; intros x y j; [done|].
  rewrite last_snoc. intros [= ->].
  rewrite trailing_run_snoc, length_app. simpl.
  pose proof (trailing_run_le p) as Hle.
  case_bool_decide as Hlast.
  - intros Hj Hy. rewrite lookup_app_l in Hy by lia.
    eapply IH; [done| |done]. lia.
  - intros Hj Hy. assert (j = pred (length p)) as -> by lia.
    rewrite lookup_app_l in Hy by lia.
    rewrite <- last_lookup in Hy. congruence.
Qed.

Lemma init_times_of (batch_size init_length : Z) (s : BatchedHyps.t F) (b : nat) :
  BatchedHyps.__init__ batch_size init_length = Ok s →
  times_of s b = [] ∧ labels_of s b = [].
Proof.
  intros Hs.
  assert (0 < batch_size ∧ 0 < init_length) as [HB HL].
  { unfold BatchedHyps.__init__ in Hs. repeat case_bool_decide; try discriminate. lia. }
  rewrite init_Ok in Hs by done. injection Hs as <-.
  unfold times_of, labels_of. simpl.
  destruct (replicate (Z.to_nat batch_size) 0 !! b) as [len|] eqn:Hlen; [|done].
  apply lookup_replicate in Hlen as [-> _]. done.
Qed.

Lemma init_repeat_inv (batch_size init_length : Z) (s : BatchedHyps.t F) (b : nat) :
  BatchedHyps.__init__ batch_size init_length = Ok s → repeat_inv s b.
Proof.
  intros Hs lt ltl Hlt Hltl.
  destruct (init_times_of _ _ _ b Hs) as [-> _].
  assert (0 < batch_size ∧ 0 < init_length) as [HB HL].
  { unfold BatchedHyps.__init__ in Hs. repeat case_bool_decide; try discriminate. lia. }
  rewrite init_Ok in Hs by done. injection Hs as <-. simpl in *.
  apply lookup_replicate in Hltl as [-> _]. done.
Qed.

Lemma step_repeat_inv (B : nat) (s s' : BatchedHyps.t F) (c : hyps_call F) :
  wf B s → (∀ b, (b < B)%nat → repeat_inv s b) →
  valid_call B c → apply_call s c = Ok s' →
  ∀ b, (b < B)%nat → repeat_inv s' b.
Proof.
  intros Hwf Hinv Hc Hs' b Hb.
  destruct (apply_call_history B s c Hwf Hc) as (s'' & Hs'' & Hwf' & Hact & Hoth).
  assert (s'' = s') as -> by congruence.
  destruct (decide (Z.of_nat b ∈ c_active c)) as [Hin|Hout].
  - apply list_elem_of_lookup in Hin as [k Hk].
    destruct Hc as (_ & _ & Hlab & Htim & Hsco).
    pose proof (lookup_lt_Some _ _ _ Hk) as Hklt.
    destruct (lookup_lt_is_Some_2 (c_labels c) k) as [label Hlabel]; [lia|].
    destruct (lookup_lt_is_Some_2 (c_times c) k) as [t Ht]; [lia|].
    destruct (lookup_lt_is_Some_2 (c_scores c) k) as [d Hd]; [lia|].
    pose proof (Hact _ _ _ _ _ Hk Hlabel Ht Hd) as Hip. rewrite Nat2Z.id in Hip.
    destruct Hip as [len sc lt ltl ? ? Hlt Hltl ? ? ? Hltl' Hlt' ? ? Htimes].
    intros lt' ltl' Hlt'' Hltl''.
    assert (lt' = t) as -> by congruence.
    rewrite Hltl' in Hltl''. injection Hltl'' as <-.
    destruct (Hinv b Hb lt ltl Hlt Hltl) as [-> Hlast].
    rewrite Htimes, trailing_run_snoc, last_snoc. split.
    + destruct (decide (times_of s b = [])) as [Hnil|Hne].
      * rewrite Hnil. simpl. case_bool_decide; done.
      * rewrite (Hlast Hne).
        destruct (decide (lt = t)) as [->|Hneq].
        -- rewrite !bool_decide_eq_true_2 by done. lia.
        -- rewrite !bool_decide_eq_false_2 by congruence. done.
    + done.
  - destruct (Hoth b Hb Hout) as [_ _ Hlt Hltl _ Htimes].
    intros lt ltl Hlt' Hltl'. rewrite Htimes.
    apply Hinv; [done|congruence|congruence].
Qed.

(** ** Time indices in order *)

Lemma nondecreasing_snoc (p : list Z) (t : Z) :
  nondecreasing p → (∀ x, last p = Some x → x ≤ t) → nondecreasing (p ++ [t]).
Proof.
  intros Hp Hlast i x y Hx Hy.
  destruct (decide (S i < length p)%nat) as [Hlt|Hge].
  - rewrite lookup_app_l in Hx by lia. rewrite lookup_app_l in Hy by lia.
    by eapply Hp.
  - pose proof (lookup_lt_Some _ _ _ Hy) as Hlen. rewrite length_app in Hlen. simpl in Hlen.
    assert (S i = length p) as Hi by lia.
    rewrite lookup_app_l in Hx by lia.
    rewrite lookup_app_r in Hy by lia.
    rewrite Hi, Nat.sub_diag in Hy. injection Hy as <-.
    apply Hlast. rewrite last_lookup. rewrite <- Hi. done.
Qed.

Lemma time_ordered_lookup (s : BatchedHyps.t F) (c : hyps_call F) (k : nat) (b t len lt : Z) :
  time_ordered s c = true →
  c_active c !! k = Some b → c_times c !! k = Some t →
  BatchedHyps.lengths s !! Z.to_nat b = Some len →
  BatchedHyps.last_timestep s !! Z.to_nat b = Some lt →
  len ≤ 0 ∨ lt ≤ t.
Proof.
  unfold time_ordered. rewrite forallb_forall. intros Hall Hb Ht Hlen Hlt.
  assert (In (b, t) (zip (c_active c) (c_times c))) as Hin.
  { apply list_elem_of_In. apply list_elem_of_lookup. exists k.
    rewrite lookup_zip_with, Hb. simpl. rewrite Ht. done. }
  specialize (Hall (b, t) Hin). simpl in Hall. rewrite Hlen, Hlt in Hall.
  by apply bool_decide_eq_true in Hall.
Qed.

Lemma times_of_length (B : nat) (s : BatchedHyps.t F) (b : nat) (len : Z) :
  wf B s → BatchedHyps.lengths s !! b = Some len →
  length (times_of s b) = Z.to_nat len ∧ length (labels_of s b) = Z.to_nat len.
Proof.
  intros Hwf Hlen. unfold times_of, labels_of. rewrite Hlen.
  pose proof (lookup_lt_Some _ _ _ Hlen) as Hb. rewrite (wf_lengths B s Hwf) in Hb.
  pose proof (wf_bound B s Hwf) as Hbd. rewrite Forall_forall in Hbd.
  assert (0 ≤ len ≤ BatchedHyps._max_length s) by (apply Hbd; by eapply list_elem_of_lookup_2).
  split.
  - apply (row_prefix_length B (Z.to_nat (BatchedHyps._max_length s)));
      [apply (wf_timesteps B s Hwf)|done|lia].
  - apply (row_prefix_length B (Z.to_nat (BatchedHyps._max_length s)));
      [apply (wf_transcript B s Hwf)|done|lia].
Qed.

Lemma step_nondecreasing (B : nat) (s s' : BatchedHyps.t F) (c : hyps_call F) :
  wf B s → (∀ b, (b < B)%nat → repeat_inv s b) →
  (∀ b, (b < B)%nat → nondecreasing (times_of s b)) →
  valid_call B c → time_ordered s c = true → apply_call s c = Ok s' →
  ∀ b, (b < B)%nat → nondecreasing (times_of s' b).
Proof.
  intros Hwf Hinv Hmono Hc Hord Hs' b Hb.
  destruct (apply_call_history B s c Hwf Hc) as (s'' & Hs'' & Hwf' & Hact & Hoth).
  assert (s'' = s') as -> by congruence.
  destruct (decide (Z.of_nat b ∈ c_active c)) as [Hin|Hout].
  - apply list_elem_of_lookup in Hin as [k Hk].
    destruct Hc as (_ & _ & Hlab & Htim & Hsco).
    pose proof (lookup_lt_Some _ _ _ Hk) as Hklt.
    destruct (lookup_lt_is_Some_2 (c_labels c) k) as [label Hlabel]; [lia|].
    destruct (lookup_lt_is_Some_2 (c_times c) k) as [t Ht]; [lia|].
    destruct (lookup_lt_is_Some_2 (c_scores c) k) as [d Hd]; [lia|].
    pose proof (Hact _ _ _ _ _ Hk Hlabel Ht Hd) as Hip. rewrite Nat2Z.id in Hip.
    destruct Hip as [len sc lt ltl Hlen ? Hlt Hltl ? ? ? ? ? ? ? Htimes].
    rewrite Htimes. apply nondecreasing_snoc; [by apply Hmono|].
    intros x Hx.
    destruct (Hinv b Hb lt ltl Hlt Hltl) as [_ Hlast].
    assert (times_of s b ≠ []) as Hne by (intros E; rewrite E in Hx; done).
    rewrite (Hlast Hne) in Hx. injection Hx as <-.
    destruct (times_of_length B s b len Hwf Hlen) as [Hl _].
    assert (0 < len).
    { destruct (times_of s b); [done|]. simpl in Hl. lia. }
    pose proof (time_ordered_lookup s c k (Z.of_nat b) t len lt Hord Hk Ht) as Ho.
    rewrite Nat2Z.id in Ho. destruct (Ho Hlen Hlt); lia.
  - destruct (Hoth b Hb Hout) as [_ _ _ _ _ Htimes]. rewrite Htimes. by apply Hmono.
Qed.

Lemma run_nondecreasing (B : nat) (s : BatchedHyps.t F) (cs : list (hyps_call F)) :
  wf B s → (∀ b, (b < B)%nat → repeat_inv s b) →
  (∀ b, (b < B)%nat → nondecreasing (times_of s b)) →
  Forall (valid_call B) cs → ordered_run s cs = true →
  ∃ s', run s cs = Ok s' ∧ ∀ b, (b < B)%nat → nondecreasing (times_of s' b).
Proof.
  intros Hwf Hinv Hmono Hcs. revert s Hwf Hinv Hmono.
  induction Hcs as [|c cs Hc _ IH]; intros s Hwf Hinv Hmono Hord.
  - exists s. done.
  - simpl in Hord. apply andb_true_iff in Hord as [Hord1 Hord2].
    destruct (apply_call_history B s c Hwf Hc) as (s1 & Hs1 & Hwf1 & _).
    rewrite Hs1 in Hord2.
    destruct (IH s1 Hwf1) as (s' & Hs' & Hmono'); try done.
    + by apply (step_repeat_inv B s s1 c).
    + by apply (step_nondecreasing B s s1 c).
    + exists s'. simpl. rewrite Hs1. done.
Qed.

(** ** The conversion reads the valid prefixes *)

Lemma bind_Ok_inv {A B} (m : result A) (f : A → result B) (b : B) :
  m ≫= f = Ok b → ∃ a, m = Ok a ∧ f a = Ok b.
Proof. destruct m as [a|e]; [|discriminate]. intros Hf. exists a. done. Qed.

Lemma hypothesis_at_fields (B : nat) (s : BatchedHyps.t F)
    (lens : option (list Z)) (labs : option (tensor Z)) (logs : option (tensor F))
    (fc : option (tensor Z)) (i : Z) (r : Hypothesis_ F) :
  wf B s → in_range B i →
  hypothesis_at s lens labs logs fc i = Ok r →
  BatchedHyps.scores s !! Z.to_nat i = Some (score r)
  ∧ y_sequence r = labels_of s (Z.to_nat i)
  ∧ timestep r = times_of s (Z.to_nat i)
  ∧ dec_state r = None.
Proof.
  intros Hwf Hi. unfold hypothesis_at.
  destruct (lookup_lt_is_Some_2 (BatchedHyps.scores s) (Z.to_nat i)) as [sc Hsc].
  { rewrite (wf_scores B s Hwf). unfold in_range in Hi. lia. }
  destruct (lookup_lt_is_Some_2 (BatchedHyps.lengths s) (Z.to_nat i)) as [len Hlen].
  { rewrite (wf_lengths B s Hwf). unfold in_range in Hi. lia. }
  assert (0 ≤ len ≤ BatchedHyps._max_length s) as Hbd.
  { pose proof (wf_bound B s Hwf) as Hb. rewrite Forall_forall in Hb.
    apply Hb. by eapply list_elem_of_lookup_2. }
  rewrite (item_in_range _ i sc) by (done || apply Hi). ok_step.
  rewrite (item_in_range _ i len) by (done || apply Hi). ok_step.
  rewrite (row_slice_prefix B (Z.to_nat (BatchedHyps._max_length s))
             (BatchedHyps.transcript s))
    by (done || lia || apply (wf_transcript B s Hwf)). ok_step.
  rewrite (row_slice_prefix B (Z.to_nat (BatchedHyps._max_length s))
             (BatchedHyps.timesteps s))
    by (done || lia || apply (wf_timesteps B s Hwf)). ok_step.
  intros Hr.
  apply bind_Ok_inv in Hr as (al & _ & Hr).
  apply bind_Ok_inv in Hr as (fcv & _ & Hr).
  injection Hr as <-. simpl. unfold labels_of, times_of. rewrite Hlen. done.
Qed.

Lemma hypothesis_at_None (B : nat) (s : BatchedHyps.t F) (i : Z) :
  wf B s → in_range B i → is_Ok (hypothesis_at s None None None None i).
Proof.
  intros Hwf Hi. unfold hypothesis_at.
  destruct (lookup_lt_is_Some_2 (BatchedHyps.scores s) (Z.to_nat i)) as [sc Hsc].
  { rewrite (wf_scores B s Hwf). unfold in_range in Hi. lia. }
  destruct (lookup_lt_is_Some_2 (BatchedHyps.lengths s) (Z.to_nat i)) as [len Hlen].
  { rewrite (wf_lengths B s Hwf). unfold in_range in Hi. lia. }
  assert (0 ≤ len ≤ BatchedHyps._max_length s) as Hbd.
  { pose proof (wf_bound B s Hwf) as Hb. rewrite Forall_forall in Hb.
    apply Hb. by eapply list_elem_of_lookup_2. }
  rewrite (item_in_range _ i sc) by (done || apply Hi). ok_step.
  rewrite (item_in_range _ i len) by (done || apply Hi). ok_step.
  rewrite (row_slice_prefix B (Z.to_nat (BatchedHyps._max_length s))
             (BatchedHyps.transcript s))
    by (done || lia || apply (wf_transcript B s Hwf)). ok_step.
  rewrite (row_slice_prefix B (Z.to_nat (BatchedHyps._max_length s))
             (BatchedHyps.timesteps s))
    by (done || lia || apply (wf_timesteps B s Hwf)). ok_step.
  eexists. reflexivity.
Qed.

Lemma traverse_is_Ok {A B} (f : A → result B) (l : list A) :
  Forall (λ x, is_Ok (f x)) l → is_Ok (traverse f l).
Proof.
  induction 1 as [|x l [y Hy] _ [ys Hys]]; simpl.
  - by eexists.
  - rewrite Hy, Hys. by eexists.
Qed.

(** Whatever the optional alignments are, a conversion that returns gives
    one record per batch index, in order, made of the valid prefixes. *)
Lemma convert_records (B : nat) (s : BatchedHyps.t F)
    (al : option (BatchedAlignments.t F)) (recs : list (Hypothesis_ F)) :
  wf B s → batched_hyps_to_hypotheses s al = Ok recs →
  length recs = B
  ∧ ∀ b r, recs !! b = Some r →
      BatchedHyps.scores s !! b = Some (score r)
      ∧ y_sequence r = labels_of s b
      ∧ timestep r = times_of s b
      ∧ dec_state r = None.
Proof.
  intros Hwf. unfold batched_hyps_to_hypotheses.
  intros Hr. apply bind_Ok_inv in Hr as (fc & _ & Hr).
  apply traverse_Forall2 in Hr.
  pose proof (Forall2_length _ _ _ Hr) as Hlen.
  unfold range in Hlen. rewrite length_seqZ, (wf_scores B s Hwf), Nat2Z.id in Hlen.
  split; [done|]. intros b r Hb.
  destruct (Forall2_lookup_r _ _ _ _ _ Hr Hb) as (i & Hi & Hat).
  unfold range in Hi. apply lookup_seqZ in Hi as [-> Hlt].
  rewrite (wf_scores B s Hwf) in Hlt.
  eapply hypothesis_at_fields in Hat; [|done|unfold in_range; lia].
  rewrite Z.add_0_l, Nat2Z.id in Hat. done.
Qed.

Lemma convert_hyps_Ok (B : nat) (s : BatchedHyps.t F) :
  wf B s → is_Ok (batched_hyps_to_hypotheses s None).
Proof.
  intros Hwf. unfold batched_hyps_to_hypotheses. simpl.
  apply traverse_is_Ok. apply Forall_forall. intros i Hi.
  unfold range in Hi. apply elem_of_seqZ in Hi.
  rewrite (wf_scores B s Hwf) in Hi.
  apply (hypothesis_at_None B); [done|unfold in_range; lia].
Qed.

(** ** Where the scatter writes land *)

Lemma indices_in_row (B : nat) (s : BatchedHyps.t F) (c : hyps_call F) :
  wf B s → valid_call B c →
  ∃ s1 idx, BatchedHyps.grow_if_full s = Ok s1
    ∧ BatchedHyps.indices_to_use s1 (c_active c) = Ok idx
    ∧ length (data (BatchedHyps.transcript s1))
      = (B * Z.to_nat (BatchedHyps._max_length s1))%nat
    ∧ length (data (BatchedHyps.timesteps s1))
      = (B * Z.to_nat (BatchedHyps._max_length s1))%nat
    ∧ length idx = length (c_active c)
    ∧ ∀ k b i, c_active c !! k = Some b → idx !! k = Some i →
        b * BatchedHyps._max_length s1 ≤ i < (b + 1) * BatchedHyps._max_length s1
        ∧ 0 ≤ i < Z.of_nat B * BatchedHyps._max_length s1.
Proof.
  intros Hwf (Hnd & Hr & _).
  destruct (grow_if_full_spec B s Hwf)
    as (m & s1 & _ & Hgrow & Hwf1 & _ & _ & _ & _ & _ & Hlt & _).
  exists s1.
  destruct (index_select_in_range (BatchedHyps.lengths s1) (c_active c))
    as (lens & Hlens & Hlens2); [by rewrite (wf_lengths B s1 Hwf1)|].
  unfold BatchedHyps.indices_to_use. rewrite Hlens. ok_step.
  eexists. split; [done|]. split; [reflexivity|].
  destruct (wf_transcript B s1 Hwf1) as [_ Htr]. destruct (wf_timesteps B s1 Hwf1) as [_ Hti].
  do 2 (split; [done|]).
  split; [rewrite length_zip_with, <- (Forall2_length _ _ _ Hlens2); lia|].
  intros k b i Hb Hi. rewrite lookup_zip_with, Hb in Hi. simpl in Hi.
  destruct (lens !! k) as [len|] eqn:Hlen; [|done]. injection Hi as <-.
  destruct (Forall2_lookup_l _ _ _ _ _ Hlens2 Hb) as (len' & Hlen' & Hl).
  assert (len' = len) as -> by congruence.
  assert (0 ≤ len < BatchedHyps._max_length s1).
  { rewrite Forall_forall in Hlt. apply Hlt. by eapply list_elem_of_lookup_2. }
  assert (in_range B b) as Hbr.
  { rewrite Forall_forall in Hr. apply Hr. by eapply list_elem_of_lookup_2. }
  unfold in_range in Hbr. split; nia.
Qed.

(** ** When the capacity grows *)

Ltac inv_bind H :=
  let x := fresh "x" in
  let Hx := fresh "Hx" in
  apply bind_Ok_inv in H as (x & Hx & H).

Lemma add_results_capacity (s s' : BatchedHyps.t F) (c : hyps_call F) :
  c_active c ≠ [] → apply_call s c = Ok s' →
  ∃ m, tensor_max (BatchedHyps.lengths s) = Ok m
    ∧ BatchedHyps._max_length s'
      = (if bool_decide (BatchedHyps._max_length s ≤ m)
         then BatchedHyps._max_length s * 2 else BatchedHyps._max_length s).
Proof.
  intros Hne. unfold apply_call, BatchedHyps.add_results_.
  rewrite bool_decide_eq_false_2 by (destruct (c_active c); [done|simpl; lia]).
  intros H. inv_bind H. unfold BatchedHyps.grow_if_full in Hx.
  apply bind_Ok_inv in Hx as (m & Hm & Hx). injection Hx as <-.
  exists m. split; [done|].
  do 14 inv_bind H. injection H as <-. simpl.
  case_bool_decide; done.
Qed.

(** ** Reachable objects *)

Lemma reachable_inv (B : nat) (s : BatchedHyps.t F) :
  reachable B s → wf B s ∧ ∀ b, (b < B)%nat → repeat_inv s b.
Proof.
  intros (batch_size & init_length & s0 & cs & -> & Hinit & Hcs & Hrun).
  destruct (run_invariant (Z.to_nat batch_size)
              (λ s, ∀ b, (b < Z.to_nat batch_size)%nat → repeat_inv s b) s0 cs)
    as (s' & Hs' & Hwf & Hinv); try done.
  - intros s1 c s2 Hwf1 Hinv1 Hc Hs2. by apply (step_repeat_inv _ s1 s2 c).
  - by eapply init_wf.
  - intros b _. by eapply init_repeat_inv.
  - assert (s' = s) as -> by congruence. done.
Qed.

Lemma reachable_step (B : nat) (s s' : BatchedHyps.t F) (c : hyps_call F) :
  reachable B s → valid_call B c → apply_call s c = Ok s' → reachable B s'.
Proof.
  intros (batch_size & init_length & s0 & cs & -> & Hinit & Hcs & Hrun) Hc Hs'.
  exists batch_size, init_length, s0, (cs ++ [c]). split; [done|]. split; [done|].
  split; [apply Forall_app; split; [done|by constructor]|].
  rewrite run_app, Hrun. simpl. rewrite Hs'. done.
Qed.

End hyps_props.

(** ** BatchedAlignments *)

Section align_props.
Context {F : Type} {HF : FloatDtype F}.

Lemma align_init_eq (batch_size logits_dim init_length : Z) (track : bool) :
  BatchedAlignments.__init__ batch_size logits_dim init_length track
  = if bool_decide (batch_size ≤ 0 ∨ init_length ≤ 0) then Raise ValueError
    else if bool_decide (logits_dim < 0) then Raise RuntimeError
    else Ok (BatchedAlignments.mk track init_length
               (Tensor (Z.to_nat <$> [batch_size; init_length; logits_dim])
                  (replicate (numel (Z.to_nat <$> [batch_size; init_length; logits_dim])) f_zero))
               (Tensor (Z.to_nat <$> [batch_size; init_length])
                  (replicate (numel (Z.to_nat <$> [batch_size; init_length])) 0))
               (replicate (Z.to_nat batch_size) 0)
               (if track
                then Some (Tensor (Z.to_nat <$> [batch_size; init_length])
                             (replicate (numel (Z.to_nat <$> [batch_size; init_length])) 0))
                else None)).
Proof.
  unfold BatchedAlignments.__init__.
  destruct (decide (init_length ≤ 0)) as [HL|HL].
  { rewrite (bool_decide_eq_true_2 (init_length ≤ 0)) by done.
    rewrite bool_decide_eq_true_2 by (by right). done. }
  rewrite (bool_decide_eq_false_2 (init_length ≤ 0)) by done.
  destruct (decide (batch_size ≤ 0)) as [HB|HB].
  { rewrite (bool_decide_eq_true_2 (batch_size ≤ 0)) by done.
    rewrite bool_decide_eq_true_2 by (by left). done. }
  rewrite (bool_decide_eq_false_2 (batch_size ≤ 0)) by done.
  rewrite (bool_decide_eq_false_2 (batch_size ≤ 0 ∨ init_length ≤ 0)) by lia.
  unfold torch_zeros, torch_zeros1.
  assert (Forall (λ d, 0 ≤ d) [batch_size; init_length]) as Hdims
    by (repeat constructor; lia).
  destruct (decide (logits_dim < 0)) as [HD|HD].
  - rewrite (bool_decide_eq_true_2 (logits_dim < 0)) by done.
    assert (¬ Forall (λ d, 0 ≤ d) [batch_size; init_length; logits_dim]) as Hneg.
    { intros Hall. inversion Hall as [|? ? _ Hall2]. inversion Hall2 as [|? ? _ Hall3].
      inversion Hall3. lia. }
    rewrite (bool_decide_eq_false_2 _ Hneg). reflexivity.
  - rewrite (bool_decide_eq_false_2 (logits_dim < 0)) by done.
    rewrite (bool_decide_eq_true_2 (Forall _ [batch_size; init_length; logits_dim]))
      by (repeat constructor; lia).
    rewrite (bool_decide_eq_true_2 _ Hdims).
    rewrite (bool_decide_eq_true_2 (0 ≤ batch_size)) by lia.
    destruct track; reflexivity.
Qed.

Lemma align_capacity (s s' : BatchedAlignments.t F) (c : align_call F) :
  a_active c ≠ [] → apply_align s c = Ok s' →
  ∃ m, tensor_max (BatchedAlignments.lengths s) = Ok m
    ∧ BatchedAlignments._max_length s'
      = (if bool_decide (BatchedAlignments._max_length s ≤ m)
         then BatchedAlignments._max_length s * 2 else BatchedAlignments._max_length s).
Proof.
  intros Hne. unfold apply_align, BatchedAlignments.add_results_.
  rewrite bool_decide_eq_false_2 by (destruct (a_active c); [done|simpl; lia]).
  intros H. apply bind_Ok_inv in H as (s1 & Hs1 & H).
  unfold BatchedAlignments.grow_if_full in Hs1.
  apply bind_Ok_inv in Hs1 as (m & Hm & Hs1).
  exists m. split; [done|].
  do 6 (let x := fresh "x" in let Hx := fresh "Hx" in
        apply bind_Ok_inv in H as (x & Hx & H)).
  injection H as <-. simpl.
  case_bool_decide.
  - unfold BatchedAlignments._allocate_more in Hs1.
    apply bind_Ok_inv in Hs1 as (fc & _ & Hs1). injection Hs1 as <-. done.
  - injection Hs1 as <-. done.
Qed.

Lemma align_init_untracked (batch_size logits_dim init_length : Z) (s : BatchedAlignments.t F) :
  BatchedAlignments.__init__ batch_size logits_dim init_length false = Ok s →
  untracked s.
Proof.
  rewrite align_init_eq. repeat case_bool_decide; try discriminate.
  intros [= <-]. done.
Qed.

Lemma align_step_untracked (s s' : BatchedAlignments.t F) (c : align_call F) :
  untracked s → apply_align s c = Ok s' → untracked s'.
Proof.
  intros [Hw Hf]. unfold apply_align, BatchedAlignments.add_results_.
  case_bool_decide as Hemp; [intros [= <-]; done|].
  intros H. apply bind_Ok_inv in H as (s1 & Hs1 & H).
  assert (untracked s1) as [Hw1 Hf1].
  { unfold BatchedAlignments.grow_if_full in Hs1.
    apply bind_Ok_inv in Hs1 as (m & Hm & Hs1).
    case_bool_decide as Hfull.
    - unfold BatchedAlignments._allocate_more in Hs1. rewrite Hw in Hs1.
      simpl in Hs1. injection Hs1 as <-. done.
    - injection Hs1 as <-. done. }
  do 3 (let x := fresh "x" in let Hx := fresh "Hx" in
        apply bind_Ok_inv in H as (x & Hx & H)).
  rewrite Hw1 in H. simpl in H.
  do 2 (let x := fresh "x" in let Hx := fresh "Hx" in
        apply bind_Ok_inv in H as (x & Hx & H)).
  injection H as <-. done.
Qed.

End align_props.

(** ** BatchedAlignments before the capacity grows *)

Lemma write_row_length {A} (d : nat) (l : list A) (r : nat) (row : list A) :
  (r * d + d ≤ length l)%nat → length row = d →
  length (write_row d l (r, row)) = length l.
Proof.
  intros Hr Hrow. unfold write_row. simpl.
  rewrite !length_app, length_take, length_drop. lia.
Qed.

Lemma row_at_write_same {A} (d : nat) (l : list A) (r : nat) (row : list A) :
  (r * d + d ≤ length l)%nat → length row = d →
  row_at d (write_row d l (r, row)) r = row.
Proof.
  intros Hr Hrow. unfold row_at, write_row. simpl.
  rewrite drop_app_length' by (rewrite length_take; lia).
  by rewrite take_app_length'.
Qed.

Lemma write_row_lookup_out {A} (d : nat) (l : list A) (r : nat) (row : list A) (i : nat) :
  (r * d + d ≤ length l)%nat → length row = d →
  (i < r * d ∨ r * d + d ≤ i)%nat →
  write_row d l (r, row) !! i = l !! i.
Proof.
  intros Hr Hrow Hi. unfold write_row. simpl.
  destruct Hi as [Hi|Hi].
  - rewrite lookup_app_l by (rewrite length_take; lia).
    by rewrite lookup_take_lt.
  - rewrite lookup_app_r by (rewrite length_take; lia).
    rewrite lookup_app_r by (rewrite length_take; lia).
    rewrite lookup_drop, length_take. f_equal. lia.
Qed.

Lemma row_at_lookup {A} (d : nat) (l : list A) (r j : nat) :
  row_at d l r !! j = if bool_decide (j < d)%nat then l !! (r * d + j)%nat else None.
Proof.
  unfold row_at. case_bool_decide as Hj.
  - by rewrite lookup_take_lt, lookup_drop.
  - apply lookup_take_ge. lia.
Qed.

Lemma row_at_write_other {A} (d : nat) (l : list A) (r r' : nat) (row : list A) :
  (r * d + d ≤ length l)%nat → length row = d → r' ≠ r →
  row_at d (write_row d l (r, row)) r' = row_at d l r'.
Proof.
  intros Hr Hrow Hne. apply list_eq. intros j. rewrite !row_at_lookup.
  case_bool_decide as Hj; [|done].
  apply write_row_lookup_out; [done..|]. nia.
Qed.

Lemma write_rows_spec {A} (d : nat) (rs : list nat) (rows : list (list A)) (l : list A) :
  NoDup rs → length rows = length rs →
  Forall (λ r, r * d + d ≤ length l)%nat rs →
  Forall (λ row, length row = d) rows →
  length (foldl (write_row d) l (zip rs rows)) = length l
  ∧ (∀ k r row, rs !! k = Some r → rows !! k = Some row →
       row_at d (foldl (write_row d) l (zip rs rows)) r = row)
  ∧ (∀ r, r ∉ rs → row_at d (foldl (write_row d) l (zip rs rows)) r = row_at d l r).
Proof.
  intros Hnd. revert rows l.
  induction Hnd as [|r0 rs Hr0 Hnd IH]; intros rows l Hlen Hrs Hrows.
  { simpl. split; [done|]. split; [|done]. intros k r row Hk. done. }
  destruct rows as [|row0 rows]; [done|]. simpl in Hlen.
  apply Forall_cons in Hrs as [Hr0l Hrs]. apply Forall_cons in Hrows as [Hrow0 Hrows].
  simpl.
  pose proof (write_row_length d l r0 row0 Hr0l Hrow0) as Hl1.
  destruct (IH rows (write_row d l (r0, row0))) as (IH1 & IH2 & IH3);
    [lia|by rewrite Hl1|done|].
  split; [by rewrite IH1|]. split.
  - intros [|k] r row Hk Hrow; simpl in Hk, Hrow.
    + injection Hk as <-. injection Hrow as <-.
      rewrite IH3 by done. by apply row_at_write_same.
    + by apply (IH2 k).
  - intros r Hr. apply not_elem_of_cons in Hr as [Hne Hr].
    rewrite IH3 by done. by apply row_at_write_other.
Qed.

Lemma rows_of_length {A} (m d : nat) (l : list A) : length (rows_of m d l) = m.
Proof. revert l. induction m as [|m IH]; intros l; simpl; [done|]. by rewrite IH. Qed.

Lemma rows_of_lookup {A} (m d : nat) (l : list A) (k : nat) :
  (k < m)%nat → rows_of m d l !! k = Some (row_at d l k).
Proof.
  revert l k. induction m as [|m IH]; intros l k Hk; [lia|].
  destruct k as [|k]; simpl.
  - unfold row_at. simpl. done.
  - rewrite IH by lia. unfold row_at. rewrite drop_drop.
    replace (d + k * d)%nat with (S k * d)%nat by lia. done.
Qed.

Lemma rows_of_widths {A} (m d : nat) (l : list A) :
  length l = (m * d)%nat → Forall (λ row, length row = d) (rows_of m d l).
Proof.
  intros Hl. apply Forall_lookup. intros k row Hk.
  pose proof (lookup_lt_Some _ _ _ Hk) as Hlt. rewrite rows_of_length in Hlt.
  rewrite rows_of_lookup in Hk by done. injection Hk as <-.
  unfold row_at. rewrite length_take, length_drop. nia.
Qed.

Lemma rows_of_one {A} (d : nat) (l : list A) :
  length l = d → rows_of 1 d l = [l].
Proof. intros Hl. simpl. by rewrite take_ge by lia. Qed.

Lemma broadcast_rows_exact {A} (n D : nat) (v : tensor A) :
  (0 < n)%nat → (0 < D)%nat → shape v = [n; D] → length (data v) = (n * D)%nat →
  broadcast_rows n D v = Ok (rows_of n D (data v)).
Proof.
  intros Hn HD Hs Hl. unfold broadcast_rows. rewrite Hs.
  assert (traverse (stretch_row D) (rows_of n D (data v)) = Ok (rows_of n D (data v)))
    as Htr.
  { rewrite (traverse_total _ id).
    - by rewrite list_fmap_id.
    - eapply Forall_impl; [by apply rows_of_widths|].
      intros row Hrow. simpl in Hrow. by apply broadcast_to_same. }
  destruct (decide (n = 1%nat)) as [->|Hn1].
  - rewrite rows_of_one by lia.
    destruct (decide (D = 1%nat)) as [->|HD1].
    + simpl. unfold stretch_row. rewrite broadcast_to_same by lia. done.
    + assert (drop_ones [1%nat; D] = [D]) as ->.
      { simpl. destruct D as [|[|D]]; done. }
      unfold stretch_row. rewrite broadcast_to_same by lia. done.
  - assert (drop_ones [n; D] = [n; D]) as ->.
    { simpl. destruct n as [|[|n]]; done. }
    rewrite Htr. simpl. apply broadcast_to_same, rows_of_length.
Qed.

Lemma flat_indices (B M : nat) (lens active cur : list Z) :
  length lens = B →
  Forall (λ l, 0 ≤ l < Z.of_nat M) lens →
  NoDup active → Forall (in_range B) active →
  Forall2 (λ i x, lens !! Z.to_nat i = Some x) active cur →
  let idx := zip_with (λ a l, a * Z.of_nat M + l) active cur in
  length idx = length active
  ∧ Forall (in_range (B * M)) idx
  ∧ NoDup (Z.to_nat <$> idx)
  ∧ (∀ k a len, active !! k = Some a → lens !! Z.to_nat a = Some len →
       (Z.to_nat <$> idx) !! k = Some (Z.to_nat a * M + Z.to_nat len)%nat)
  ∧ (∀ b j len, lens !! b = Some len → (j < M)%nat →
       Z.of_nat j ≠ len ∨ Z.of_nat b ∉ active →
       (b * M + j)%nat ∉ Z.to_nat <$> idx).
Proof.
  intros Hl Hlt Hnd Hr Hcur idx.
  pose proof (Forall2_length _ _ _ Hcur) as Hlc.
  assert (Hlen_idx : length idx = length active).
  { unfold idx. rewrite length_zip_with. lia. }
  assert (Hidx : ∀ k x, idx !! k = Some x →
            ∃ a len, active !! k = Some a ∧ lens !! Z.to_nat a = Some len
                     ∧ x = a * Z.of_nat M + len ∧ in_range B a ∧ 0 ≤ len < Z.of_nat M).
  { intros k x Hk. unfold idx in Hk. rewrite lookup_zip_with in Hk.
    destruct (active !! k) as [a|] eqn:Ha; [|discriminate]. simpl in Hk.
    destruct (cur !! k) as [len|] eqn:Hc; [|discriminate]. simpl in Hk.
    injection Hk as <-.
    destruct (Forall2_lookup_l _ _ _ _ _ Hcur Ha) as (len' & Hc' & Hlen).
    assert (len' = len) as -> by congruence.
    exists a, len. do 3 (split; [done|]). split.
    - rewrite Forall_forall in Hr. apply Hr. by eapply list_elem_of_lookup_2.
    - rewrite Forall_forall in Hlt. apply (Hlt len). by eapply list_elem_of_lookup_2. }
  assert (Hin : Forall (in_range (B * M)) idx).
  { apply Forall_lookup. intros k x Hk.
    destruct (Hidx k x Hk) as (a & len & _ & _ & -> & Ha & Hlen).
    unfold in_range in *. nia. }
  assert (Hndi : NoDup idx).
  { apply NoDup_alt. intros k1 k2 x H1 H2.
    destruct (Hidx k1 x H1) as (a1 & l1 & Ha1 & Hl1 & E1 & R1 & B1).
    destruct (Hidx k2 x H2) as (a2 & l2 & Ha2 & Hl2 & E2 & R2 & B2).
    assert (a1 = a2) as <-. { unfold in_range in *. nia. }
    eapply NoDup_lookup; eauto. }
  split; [done|]. split; [done|]. split; [by eapply NoDup_to_nat|]. split.
  - intros k a len Ha Hlen.
    destruct (lookup_lt_is_Some_2 idx k) as [x Hx].
    { rewrite Hlen_idx. by eapply lookup_lt_Some. }
    destruct (Hidx k x Hx) as (a' & len' & Ha' & Hl' & -> & R & Bd).
    assert (a' = a) as -> by congruence.
    assert (len' = len) as -> by congruence.
    rewrite list_lookup_fmap, Hx. simpl. f_equal. unfold in_range in R. nia.
  - intros b j len Hb Hj Hne Hmem.
    apply list_elem_of_fmap in Hmem as (x & Hx & Hmem).
    apply list_elem_of_lookup in Hmem as [k Hk].
    destruct (Hidx k x Hk) as (a & len' & Ha & Hl' & -> & R & Bd).
    unfold in_range in R.
    assert (Z.of_nat b * Z.of_nat M + Z.of_nat j = a * Z.of_nat M + len') as Heq by lia.
    assert (Z.of_nat b = a) as Hba by nia.
    assert (Z.of_nat j = len') as Hjl by nia.
    assert (b = Z.to_nat a) as -> by lia.
    assert (len' = len) as -> by congruence.
    destruct Hne as [Hne|Hne]; [lia|].
    apply Hne. rewrite Hba. by eapply list_elem_of_lookup_2.
Qed.

Ltac ok_steps := repeat (rewrite bind_Ok; cbn beta).

Lemma item2_elem {A} (rows cols : nat) (t : tensor A) (i j : Z) :
  wf_matrix rows cols t → in_range rows i → in_range cols j →
  item2 t i j
  = match data t !! (Z.to_nat i * cols + Z.to_nat j)%nat with
    | Some x => Ok x
    | None => Raise IndexError
    end.
Proof.
  intros [Hs Hd] Hi Hj. unfold item2. rewrite Hs.
  rewrite !norm_index_in_range by done. done.
Qed.

Lemma item2_vec_row {A} (B M D : nat) (t : tensor A) (i j : Z) :
  shape t = [B; M; D] → in_range B i → in_range M j →
  item2_vec t i j = Ok (row_at D (data t) (Z.to_nat i * M + Z.to_nat j)).
Proof.
  intros Hs Hi Hj. unfold item2_vec. rewrite Hs.
  rewrite !norm_index_in_range by done. done.
Qed.

Section alignments_props.
Context {F : Type} {HF : FloatDtype F}.

Lemma apply_align_empty (s : BatchedAlignments.t F) (c : align_call F) :
  a_active c = [] → apply_align s c = Ok s.
Proof.
  intros Hc. unfold apply_align, BatchedAlignments.add_results_. rewrite Hc. done.
Qed.

Lemma align_step (B D : nat) (s : BatchedAlignments.t F) (c : align_call F) :
  awf B D s → has_room s → valid_align B D c →
  ∃ s', apply_align s c = Ok s'
    ∧ awf B D s'
    ∧ BatchedAlignments._max_length s' = BatchedAlignments._max_length s
    ∧ (∀ k a, a_active c !! k = Some a →
         ∃ len label,
           BatchedAlignments.lengths s !! Z.to_nat a = Some len
           ∧ a_labels c !! k = Some label
           ∧ BatchedAlignments.lengths s' !! Z.to_nat a = Some (len + 1)
           ∧ item2 (BatchedAlignments.labels s') a len = Ok label
           ∧ item2_vec (BatchedAlignments.logits s') a len
             = Ok (row_at D (data (a_logits c)) k))
    ∧ (∀ b, Z.of_nat b ∉ a_active c →
         BatchedAlignments.lengths s' !! b = BatchedAlignments.lengths s !! b)
    ∧ (∀ b j len, BatchedAlignments.lengths s !! b = Some len →
         (j < Z.to_nat (BatchedAlignments._max_length s))%nat →
         Z.of_nat j ≠ len ∨ Z.of_nat b ∉ a_active c →
         item2 (BatchedAlignments.labels s') (Z.of_nat b) (Z.of_nat j)
         = item2 (BatchedAlignments.labels s) (Z.of_nat b) (Z.of_nat j)
         ∧ item2_vec (BatchedAlignments.logits s') (Z.of_nat b) (Z.of_nat j)
           = item2_vec (BatchedAlignments.logits s) (Z.of_nat b) (Z.of_nat j)).
Proof.
  intros Hwf Hroom (Hnd & Hr & Hvs & Hvd & Hlab & Hconf).
  destruct (decide (a_active c = [])) as [Hnil|Hne].
  { exists s. rewrite apply_align_empty by done. split; [done|]. split; [done|].
    split; [done|]. split; [|done]. intros k a Hk. by rewrite Hnil in Hk. }
  pose proof Hwf as [HB HD HM Hl Hbd Hls Hld [Hlab_s Hlab_d] Hfc].
  set (M := Z.to_nat (BatchedAlignments._max_length s)) in *.
  assert (HMZ : BatchedAlignments._max_length s = Z.of_nat M) by (unfold M; lia).
  unfold apply_align, BatchedAlignments.add_results_.
  rewrite bool_decide_eq_false_2
    by (destruct (a_active c); [done|simpl; lia]).
  (* no growth *)
  destruct (tensor_max_nonempty (BatchedAlignments.lengths s)) as [m Hm].
  { intros Hnil. rewrite Hnil in Hl. simpl in Hl. lia. }
  unfold BatchedAlignments.grow_if_full. rewrite Hm; ok_steps.
  destruct (tensor_max_spec _ _ Hm) as [_ Hmin].
  unfold has_room in Hroom. rewrite Forall_forall in Hroom.
  rewrite bool_decide_eq_false_2 by (specialize (Hroom m Hmin); lia).
  ok_steps.
  assert (HltM : Forall (λ l, 0 ≤ l < Z.of_nat M) (BatchedAlignments.lengths s)).
  { apply Forall_forall. intros x Hx. rewrite Forall_forall in Hbd.
    specialize (Hbd x Hx). specialize (Hroom x Hx). lia. }
  (* indices to use *)
  destruct (index_select_in_range (BatchedAlignments.lengths s) (a_active c))
    as (lens & Hlens & Hlens2); [by rewrite Hl|].
  unfold BatchedAlignments.indices_to_use. rewrite Hlens; ok_steps. rewrite HMZ.
  destruct (flat_indices B M (BatchedAlignments.lengths s) (a_active c) lens)
    as (Hidx_len & Hidx_in & Hidx_nd & Hidx_at & Hidx_out); try done.
  set (idx := zip_with (λ a l, a * Z.of_nat M + l) (a_active c) lens) in *.
  (* logits *)
  assert (0 < length (a_active c))%nat as Hn.
  { destruct (a_active c); [done|simpl; lia]. }
  unfold view_rows_index_put. rewrite Hls.
  assert (last_dim [B; M; D] = D) as -> by done.
  rewrite bool_decide_eq_false_2 by lia.
  rewrite Hidx_len, broadcast_rows_exact by done. ok_steps.
  assert (length (data (BatchedAlignments.logits s)) `div` D = B * M)%nat as ->.
  { rewrite Hld. apply Nat.div_mul. lia. }
  rewrite norm_indices_in_range by done. ok_steps.
  destruct (write_rows_spec D (Z.to_nat <$> idx)
              (rows_of (length (a_active c)) D (data (a_logits c)))
              (data (BatchedAlignments.logits s)))
    as (Hlg_len & Hlg_in & Hlg_out).
  { done. }
  { by rewrite rows_of_length, length_fmap. }
  { apply Forall_fmap. eapply Forall_impl; [exact Hidx_in|].
    intros x Hx. simpl. unfold in_range in Hx. rewrite Hld. nia. }
  { by apply rows_of_widths. }
  set (lg' := foldl (write_row D) _ _) in *.
  (* labels *)
  destruct (flat_write B M (data (BatchedAlignments.labels s)) (BatchedAlignments.lengths s)
              (a_active c) (a_labels c) lens)
    as (lb' & Hlb' & Hlb'_len & Hlb'_in & Hlb'_out); try done.
  fold idx in Hlb'. unfold view_flat_index_put. rewrite Hlb'; ok_steps.
  (* frame confidence *)
  assert (∃ fc', (match BatchedAlignments.with_frame_confidence s, a_confidence c with
                  | true, Some c0 =>
                      match BatchedAlignments.frame_confidence s with
                      | Some buf =>
                          buf' ← view_flat_index_put_long buf idx c0; Ok (Some buf')
                      | None => Raise AttributeError
                      end
                  | _, _ => Ok (BatchedAlignments.frame_confidence s)
                  end) = Ok fc'
                 ∧ match fc' with
                   | Some buf => wf_matrix B M buf
                   | None => BatchedAlignments.with_frame_confidence s = false
                   end) as (fc' & Hfc' & Hfc'_wf).
  { destruct (BatchedAlignments.with_frame_confidence s) eqn:Htrack;
      [|by exists (BatchedAlignments.frame_confidence s)].
    destruct (a_confidence c) as [[v|v]|];
      [| done |by exists (BatchedAlignments.frame_confidence s)].
    destruct (BatchedAlignments.frame_confidence s) as [buf|]; [|done].
    destruct Hfc as [Hbuf_s Hbuf_d].
    destruct (flat_write B M (data buf) (BatchedAlignments.lengths s)
                (a_active c) v lens) as (b' & Hb' & Hb'_len & _ & _); try done.
    fold idx in Hb'. exists (Some (Tensor (shape buf) b')). simpl.
    unfold view_flat_index_put. rewrite Hb'. split; [done|].
    split; simpl; [done|congruence]. }
  unfold view_flat_index_put in Hfc'. rewrite Hfc'; ok_steps.
  (* lengths *)
  destruct (gather_modify_scatter (BatchedAlignments.lengths s) (a_active c) (a_active c)
              (λ l _, l + 1) lens) as (len' & Hlen' & Hlen2); [done|by rewrite Hl|done|done|].
  assert (zip_with (λ l (_ : Z), l + 1) lens (a_active c) = (λ l, l + 1) <$> lens) as Hzip2.
  { apply list_eq. intros k. rewrite lookup_zip_with, list_lookup_fmap.
    destruct (lens !! k) as [x|] eqn:Hx; [|done]. simpl.
    destruct (lookup_lt_is_Some_2 (a_active c) k) as [a Ha].
    { rewrite (Forall2_length _ _ _ Hlens2). by eapply lookup_lt_Some. }
    rewrite Ha. done. }
  rewrite Hzip2 in Hlen'. rewrite Hlen'; ok_steps.
  eexists. split; [reflexivity|].
  destruct Hlen2 as (Hlen2_len & Hlen2_in & Hlen2_out).
  split; [|split; [done|]; split; [|split]]; simpl.
  - apply mk_awf; simpl; rewrite ?Nat2Z.id.
    + done.
    + done.
    + lia.
    + congruence.
    + eapply pointwise_update_bound; [by split|]. done.
    + done.
    + congruence.
    + split; simpl; [done|congruence].
    + done.
  - intros k a Ha.
    assert (in_range B a) as Hra.
    { rewrite Forall_forall in Hr. apply Hr. by eapply list_elem_of_lookup_2. }
    destruct (Hlen2_in k a a Ha Ha) as (len & Hlen & Hlen_new).
    destruct (lookup_lt_is_Some_2 (a_labels c) k) as [label Hlabel].
    { rewrite Hlab. by eapply lookup_lt_Some. }
    exists len, label. do 3 (split; [done|]).
    assert (0 ≤ len < Z.of_nat M) as Hlen_bd.
    { rewrite Forall_forall in HltM. apply HltM. by eapply list_elem_of_lookup_2. }
    split.
    + rewrite (item2_elem B M); [|split; simpl; [done|congruence]|done|done]. simpl.
      rewrite (Hlb'_in k a len Ha Hlen), Hlabel. done.
    + rewrite (item2_vec_row B M D); [|done..]. simpl. f_equal.
      apply (Hlg_in k).
      * by apply Hidx_at.
      * apply rows_of_lookup. by eapply lookup_lt_Some.
  - intros b Hb. by apply Hlen2_out.
  - intros b j len Hb Hj Hneq.
    assert (b < B)%nat as HbB by (rewrite <- Hl; by eapply lookup_lt_Some).
    assert (in_range B (Z.of_nat b)) as Hrb by (unfold in_range; lia).
    assert (in_range M (Z.of_nat j)) as Hrj by (unfold in_range; lia).
    split.
    + rewrite (item2_elem B M _ _ _ (conj Hlab_s Hlab_d) Hrb Hrj).
      rewrite (item2_elem B M (Tensor (shape (BatchedAlignments.labels s)) lb'));
        [|split; simpl; [done|congruence]|done|done].
      simpl. rewrite !Nat2Z.id. by rewrite (Hlb'_out b j len).
    + rewrite (item2_vec_row B M D _ _ _ Hls Hrb Hrj).
      rewrite (item2_vec_row B M D (Tensor [B; M; D] lg')); [|done..].
      simpl. rewrite !Nat2Z.id. f_equal.
      apply Hlg_out. by apply (Hidx_out b j len).
Qed.

Lemma align_init_awf (batch_size logits_dim init_length : Z) (track : bool)
    (s : BatchedAlignments.t F) :
  0 < logits_dim →
  BatchedAlignments.__init__ batch_size logits_dim init_length track = Ok s →
  awf (Z.to_nat batch_size) (Z.to_nat logits_dim) s
  ∧ BatchedAlignments._max_length s = init_length
  ∧ BatchedAlignments.lengths s = replicate (Z.to_nat batch_size) 0.
Proof.
  intros HD. rewrite align_init_eq.
  case_bool_decide as Hsz; [done|].
  rewrite bool_decide_eq_false_2 by lia. intros [= <-]. simpl.
  split; [|done].
  apply mk_awf; simpl.
  - lia.
  - lia.
  - lia.
  - by rewrite length_replicate.
  - apply Forall_replicate. lia.
  - done.
  - rewrite length_replicate. lia.
  - split; simpl; [done|]. rewrite length_replicate. lia.
  - destruct track; [|done]. split; simpl; [done|]. rewrite length_replicate. lia.
Qed.

End alignments_props.

(** ** Views and the store *)

Section store_props.
Context {F : Type} {HF : FloatDtype F}.

Lemma extends_refl (h : Store.store F) : extends h h.
Proof. by split. Qed.

Lemma extends_trans (h1 h2 h3 : Store.store F) :
  extends h1 h2 → extends h2 h3 → extends h1 h3.
Proof. intros [H1 H2] [H3 H4]. split; eauto. Qed.

Lemma alloc_long_fresh (h : Store.store F) (t : tensor Z) :
  Store.longs h !! (Store.alloc_long h t).2 = None.
Proof. simpl. apply not_elem_of_dom. apply is_fresh. Qed.

Lemma alloc_long_extends (h : Store.store F) (t : tensor Z) :
  extends h (Store.alloc_long h t).1.
Proof.
  split; simpl; [|done]. intros l t' Hl.
  rewrite lookup_insert_ne; [done|].
  intros <-. pose proof (alloc_long_fresh h t) as Hf. simpl in Hf. congruence.
Qed.

Lemma alloc_float_extends (h : Store.store F) (t : tensor F) :
  extends h (Store.alloc_float h t).1.
Proof.
  split; simpl; [done|]. intros l t' Hl.
  rewrite lookup_insert_ne; [done|].
  intros <-. assert (Store.floats h !! fresh (dom (Store.floats h)) = None) as Hf
    by (apply not_elem_of_dom, is_fresh).
  congruence.
Qed.

Lemma cpu_long_extends (h h' : Store.store F) (d : Store.device) (l l' : nat) :
  Store.cpu_long h d l = Ok (h', l') → extends h h'.
Proof.
  destruct d; simpl.
  - intros [= <- <-]. apply extends_refl.
  - intros Hc. apply bind_Ok_inv in Hc as (t & _ & Hc). injection Hc as <- <-.
    apply alloc_long_extends.
Qed.

Lemma cpu_float_extends (h h' : Store.store F) (d : Store.device) (l l' : nat) :
  Store.cpu_float h d l = Ok (h', l') → extends h h'.
Proof.
  destruct d; simpl.
  - intros [= <- <-]. apply extends_refl.
  - intros Hc. apply bind_Ok_inv in Hc as (t & _ & Hc). injection Hc as <- <-.
    apply alloc_float_extends.
Qed.

(** The conversion leaves every existing cell as it is. *)
Lemma convert_extends (h h' : Store.store F) (o : Store.hyps_ref F)
    (al : option Store.align_ref) (recs : list (Store.hypothesis_ref F)) :
  Store.batched_hyps_to_hypotheses h o al = Ok (h', recs) → extends h h'.
Proof.
  unfold Store.batched_hyps_to_hypotheses. intros Hc.
  apply bind_Ok_inv in Hc as ([h1 locals] & Hloc & Hc).
  apply bind_Ok_inv in Hc as (recs' & _ & Hc). injection Hc as <- <-.
  destruct al as [a|]; [|injection Hloc as <- <-; apply extends_refl].
  apply bind_Ok_inv in Hloc as ([h2 labs] & Hlabs & Hloc).
  apply bind_Ok_inv in Hloc as ([h3 logs] & Hlogs & Hloc).
  apply bind_Ok_inv in Hloc as ([h4 fc] & Hfc & Hloc). injection Hloc as <- <-.
  apply cpu_long_extends in Hlabs. apply cpu_float_extends in Hlogs.
  eapply extends_trans; [exact Hlabs|]. eapply extends_trans; [exact Hlogs|].
  destruct (Store.ar_with_frame_confidence a).
  - destruct (Store.ar_frame_confidence a) as [lc|]; [|discriminate].
    apply bind_Ok_inv in Hfc as ([h5 lc'] & Hlc & Hfc). injection Hfc as <- <-.
    by eapply cpu_long_extends.
  - injection Hfc as <- <-. apply extends_refl.
Qed.

Lemma load_hyps_inv (h : Store.store F) (o : Store.hyps_ref F) (v : BatchedHyps.t F) :
  Store.load_hyps h o = Ok v →
  Store.longs h !! Store.hr_transcript o = Some (BatchedHyps.transcript v)
  ∧ Store.longs h !! Store.hr_timesteps o = Some (BatchedHyps.timesteps v)
  ∧ BatchedHyps._max_length v = Store.hr_max_length o
  ∧ BatchedHyps.lengths v = Store.hr_lengths o
  ∧ BatchedHyps.scores v = Store.hr_scores o.
Proof.
  unfold Store.load_hyps, Store.deref_long.
  destruct (Store.longs h !! Store.hr_transcript o) as [tr|]; [|discriminate].
  destruct (Store.longs h !! Store.hr_timesteps o) as [ti|]; [|discriminate].
  simpl. intros [= <-]. done.
Qed.

Lemma load_hyps_extends (h h' : Store.store F) (o : Store.hyps_ref F) (v : BatchedHyps.t F) :
  extends h h' → Store.load_hyps h o = Ok v → Store.load_hyps h' o = Ok v.
Proof.
  intros [Hext _] Hv. pose proof (load_hyps_inv h o v Hv) as (Htr & Hti & _).
  unfold Store.load_hyps, Store.deref_long in *.
  rewrite (Hext _ _ Htr), (Hext _ _ Hti). rewrite Htr, Hti in Hv. done.
Qed.

(** The views of the record built for index [i]. *)
Lemma hypothesis_ref_at_views (B : nat) (h : Store.store F) (o : Store.hyps_ref F)
    (v : BatchedHyps.t F) (al : option Store.align_locals) (i : Z)
    (r : Store.hypothesis_ref F) :
  Store.load_hyps h o = Ok v → wf B v → in_range B i →
  Store.hypothesis_ref_at h o al i = Ok r →
  ∃ len, BatchedHyps.lengths v !! Z.to_nat i = Some len
    ∧ 0 ≤ len ≤ BatchedHyps._max_length v
    ∧ BatchedHyps.scores v !! Z.to_nat i = Some (Store.h_score r)
    ∧ Store.h_y_sequence r
      = Store.View (Store.hr_transcript o)
          (Z.to_nat i * Z.to_nat (BatchedHyps._max_length v)) (Z.to_nat len)
    ∧ Store.h_timestep r
      = Store.View (Store.hr_timesteps o)
          (Z.to_nat i * Z.to_nat (BatchedHyps._max_length v)) (Z.to_nat len).
Proof.
  intros Hv Hwf Hi.
  pose proof (load_hyps_inv h o v Hv) as (Htr & Hti & HM & Hl & Hs).
  unfold Store.hypothesis_ref_at.
  destruct (lookup_lt_is_Some_2 (BatchedHyps.scores v) (Z.to_nat i)) as [sc Hsc].
  { rewrite (wf_scores B v Hwf). unfold in_range in Hi. lia. }
  destruct (lookup_lt_is_Some_2 (BatchedHyps.lengths v) (Z.to_nat i)) as [len Hlen].
  { rewrite (wf_lengths B v Hwf). unfold in_range in Hi. lia. }
  assert (0 ≤ len ≤ BatchedHyps._max_length v) as Hbd.
  { pose proof (wf_bound B v Hwf) as Hb. rewrite Forall_forall in Hb.
    apply Hb. by eapply list_elem_of_lookup_2. }
  rewrite <- Hs, <- Hl.
  rewrite (item_in_range _ i sc) by (done || apply Hi).
  rewrite bind_Ok; cbn beta.
  rewrite (item_in_range _ i len) by (done || apply Hi).
  rewrite !bind_Ok; cbn beta.
  destruct (wf_transcript B v Hwf) as [Htrs _]. destruct (wf_timesteps B v Hwf) as [Htis _].
  unfold Store.deref_long, Store.row_view. rewrite Htr.
  rewrite !bind_Ok; cbn beta. rewrite Htrs.
  rewrite norm_index_in_range by done.
  rewrite !bind_Ok; cbn beta. rewrite Hti.
  rewrite !bind_Ok; cbn beta. rewrite Htis.
  rewrite norm_index_in_range by done.
  rewrite !bind_Ok; cbn beta.
  intros Hr.
  apply bind_Ok_inv in Hr as (als & _ & Hr).
  apply bind_Ok_inv in Hr as (fc & _ & Hr).
  injection Hr as <-. simpl. exists len.
  unfold slice_bound. rewrite bool_decide_eq_true_2 by lia.
  replace (Z.to_nat len `min` Z.to_nat (BatchedHyps._max_length v))%nat
    with (Z.to_nat len) by lia.
  done.
Qed.

(** Reading a row view gives the prefix of the row. *)
Lemma read_row_view (B M : nat) (h : Store.store F) (l : nat) (t : tensor Z) (b n : nat) :
  Store.longs h !! l = Some t → wf_matrix B M t → (n ≤ M)%nat →
  Store.read_long h (Store.View l (b * M) n) = Some (row_prefix t b n).
Proof.
  intros Hl [Hs _] Hn. unfold Store.read_long. simpl. rewrite Hl. simpl.
  unfold row_prefix. rewrite Hs. unfold last_dim. simpl.
  rewrite take_take. f_equal. f_equal. lia.
Qed.

(** A call never changes what is below the lengths it found. *)
Lemma apply_call_prefix_kept (B : nat) (s s' : BatchedHyps.t F) (c : hyps_call F)
    (b : nat) (len : Z) :
  wf B s → valid_call B c → apply_call s c = Ok s' →
  BatchedHyps.lengths s !! b = Some len →
  row_prefix (BatchedHyps.transcript s') b (Z.to_nat len) = labels_of s b
  ∧ row_prefix (BatchedHyps.timesteps s') b (Z.to_nat len) = times_of s b.
Proof.
  intros Hwf Hc Hs' Hlen.
  destruct (apply_call_history B s c Hwf Hc) as (s'' & Hs'' & Hwf' & Hact & Hoth).
  assert (s'' = s') as -> by congruence.
  pose proof (lookup_lt_Some _ _ _ Hlen) as Hb. rewrite (wf_lengths B s Hwf) in Hb.
  destruct (times_of_length B s b len Hwf Hlen) as [Hlt Hll].
  destruct (decide (Z.of_nat b ∈ c_active c)) as [Hin|Hout].
  - apply list_elem_of_lookup in Hin as [k Hk].
    destruct Hc as (_ & _ & Hlab & Htim & Hsco).
    pose proof (lookup_lt_Some _ _ _ Hk) as Hklt.
    destruct (lookup_lt_is_Some_2 (c_labels c) k) as [label Hlabel]; [lia|].
    destruct (lookup_lt_is_Some_2 (c_times c) k) as [t Ht]; [lia|].
    destruct (lookup_lt_is_Some_2 (c_scores c) k) as [d Hd]; [lia|].
    pose proof (Hact _ _ _ _ _ Hk Hlabel Ht Hd) as Hip. rewrite Nat2Z.id in Hip.
    destruct Hip as [len0 sc lt ltl Hlen0 ? ? ? ? ? ? ? ? Hlen' Hlabels Htimes].
    assert (len0 = len) as -> by congruence.
    unfold labels_of in Hlabels at 1. unfold times_of in Htimes at 1.
    rewrite Hlen' in Hlabels, Htimes.
    replace (Z.to_nat (len + 1)) with (S (Z.to_nat len)) in Hlabels, Htimes
      by (assert (0 ≤ len); [|lia];
          pose proof (wf_bound B s Hwf) as Hbd; rewrite Forall_forall in Hbd;
          apply Hbd; by eapply list_elem_of_lookup_2).
    split.
    + transitivity (take (Z.to_nat len) (row_prefix (BatchedHyps.transcript s') b
                                           (S (Z.to_nat len)))).
      { unfold row_prefix. rewrite !take_take. f_equal. lia. }
      rewrite Hlabels, <- Hll. apply take_app_length.
    + transitivity (take (Z.to_nat len) (row_prefix (BatchedHyps.timesteps s') b
                                           (S (Z.to_nat len)))).
      { unfold row_prefix. rewrite !take_take. f_equal. lia. }
      rewrite Htimes, <- Hlt. apply take_app_length.
  - destruct (Hoth b Hb Hout) as [Hl' _ _ _ Hlabels Htimes].
    unfold labels_of in Hlabels at 1. unfold times_of in Htimes at 1.
    rewrite Hl', Hlen in Hlabels, Htimes. done.
Qed.

End store_props.

(** ** The records of the conversion, read in the store *)

Section record_props.
Context {F : Type} {HF : FloatDtype F}.

Lemma norm_index_lt (n : nat) (i : Z) (r : nat) :
  norm_index n i = Ok r → (r < n)%nat.
Proof.
  unfold norm_index. repeat case_bool_decide; intros [= <-]; lia.
Qed.

Lemma slice_bound_le (cols : nat) (n : Z) : (slice_bound cols n ≤ cols)%nat.
Proof. unfold slice_bound. case_bool_decide; lia. Qed.

(** A view of a row reads what the slice of the row is. *)
Lemma row_view_reads (h : Store.store F) (t : tensor Z) (l : nat) (i n : Z)
    (vw : Store.view) :
  Store.longs h !! l = Some t → Store.row_view t l i n = Ok vw →
  ∃ ys, row_slice t i n = Ok ys ∧ Store.read_long h vw = Some ys.
Proof.
  intros Hl. unfold Store.row_view, row_slice.
  destruct (shape t) as [|rows [|cols [|? ?]]]; try done.
  destruct (norm_index rows i) as [r|]; [|done]. simpl. intros [= <-].
  eexists. split; [done|]. unfold Store.read_long. simpl. rewrite Hl. simpl.
  rewrite take_take. do 2 f_equal. pose proof (slice_bound_le cols n). lia.
Qed.

Lemma item2_view_reads (R C : nat) (h : Store.store F) (t : tensor Z) (l : nat)
    (i j : Z) (vw : Store.view) :
  Store.longs h !! l = Some t → wf_matrix R C t →
  Store.item2_view t l i j = Ok vw →
  ∃ x, item2 t i j = Ok x ∧ read_label h vw = Some x.
Proof.
  intros Hl [Hs Hd]. unfold Store.item2_view, item2. rewrite Hs.
  destruct (norm_index R i) as [r|] eqn:Hr; [|done].
  destruct (norm_index C j) as [c|] eqn:Hc; [|done]. simpl. intros [= <-].
  apply norm_index_lt in Hr, Hc.
  destruct (lookup_lt_is_Some_2 (data t) (r * C + c)) as [x Hx]; [rewrite Hd; nia|].
  exists x. rewrite Hx. split; [done|].
  unfold read_label, Store.read_long. simpl. rewrite Hl. simpl.
  rewrite (take_S_r _ _ x) by (by rewrite lookup_drop, Nat.add_0_r). done.
Qed.

Lemma item2_vec_view_reads (h : Store.store F) (t : tensor F) (l : nat)
    (i j : Z) (vw : Store.view) :
  Store.floats h !! l = Some t →
  Store.item2_vec_view t l i j = Ok vw →
  ∃ row, item2_vec t i j = Ok row ∧ Store.read_float h vw = Some row.
Proof.
  intros Hl. unfold Store.item2_vec_view, item2_vec.
  destruct (shape t) as [|rows [|cols [|width [|? ?]]]]; try done.
  destruct (norm_index rows i) as [r|]; [|done].
  destruct (norm_index cols j) as [c|]; [|done]. simpl. intros [= <-].
  eexists. split; [done|]. unfold Store.read_float. simpl. by rewrite Hl.
Qed.

Lemma traverse_refine {A B C} (f : A → result B) (g : A → result C)
    (P : B → C → Prop) (l : list A) (ys : list B) :
  (∀ x y, x ∈ l → f x = Ok y → ∃ z, g x = Ok z ∧ P y z) →
  traverse f l = Ok ys →
  ∃ zs, traverse g l = Ok zs ∧ Forall2 P ys zs.
Proof.
  revert ys. induction l as [|x l IH]; intros ys Hfg; simpl.
  - intros [= <-]. by exists [].
  - intros Hys. apply bind_Ok_inv in Hys as (y & Hy & Hys).
    apply bind_Ok_inv in Hys as (ys' & Hys' & Hys). injection Hys as <-.
    destruct (Hfg x y) as (z & Hz & HP); [left|done|].
    destruct (IH ys') as (zs & Hzs & Hall); [|done|].
    { intros x' y' Hx'. apply Hfg. by right. }
    exists (z :: zs). rewrite Hz, Hzs. split; [done|]. by constructor.
Qed.

Lemma mapM_Forall2_Some {A B} (f : A → option B) (l : list A) (k : list B) :
  Forall2 (λ x y, f x = Some y) l k → mapM f l = Some k.
Proof. intros H. by apply mapM_Some. Qed.

Lemma hypothesis_ref_at_reads (B D : nat) (h : Store.store F) (o : Store.hyps_ref F)
    (v : BatchedHyps.t F) (locals : option Store.align_locals)
    (av : option (BatchedAlignments.t F)) (fcv : option (tensor Z)) (i : Z)
    (r : Store.hypothesis_ref F) :
  Store.load_hyps h o = Ok v →
  locals_match h locals av fcv →
  (∀ a, av = Some a → awf B D a) →
  Store.hypothesis_ref_at h o locals i = Ok r →
  ∃ vr, hypothesis_at v (BatchedAlignments.lengths <$> av)
          (BatchedAlignments.labels <$> av) (BatchedAlignments.logits <$> av) fcv i
        = Ok vr
    ∧ read_record h r = Some vr.
Proof.
  intros Hv Hloc Hawf.
  pose proof (load_hyps_inv h o v Hv) as (Htr & Hti & HM & Hl & Hs).
  unfold Store.hypothesis_ref_at, hypothesis_at. rewrite <- Hs, <- Hl.
  unfold Store.deref_long. rewrite Htr, Hti.
  intros Hr.
  apply bind_Ok_inv in Hr as (sc & Hsc & Hr). rewrite Hsc. ok_steps.
  apply bind_Ok_inv in Hr as (len & Hlen & Hr). rewrite Hlen. ok_steps.
  rewrite bind_Ok in Hr. cbn beta in Hr.
  apply bind_Ok_inv in Hr as (y & Hy & Hr).
  destruct (row_view_reads h _ _ _ _ _ Htr Hy) as (ys & Hys' & Hys). rewrite Hys'. ok_steps.
  rewrite Hlen in Hr. rewrite !bind_Ok in Hr. cbn beta in Hr.
  apply bind_Ok_inv in Hr as (ts & Hts & Hr).
  destruct (row_view_reads h _ _ _ _ _ Hti Hts) as (tss & Htss' & Htss). rewrite Htss'.
  ok_steps.
  apply bind_Ok_inv in Hr as (als & Hals & Hr).
  apply bind_Ok_inv in Hr as (fc & Hfc & Hr). injection Hr as <-.
  unfold read_record. simpl. rewrite Hys, Htss. simpl.
  destruct locals as [lc|], av as [a|]; simpl in Hloc; try done.
  - destruct Hloc as (Hlens & Hlabs & Hlogs & Hconf). simpl.
    pose proof (awf_labels B D a (Hawf a eq_refl)) as Hwfl.
    unfold Store.deref_long, Store.deref_float in Hals. rewrite Hlabs, Hlogs in Hals.
    rewrite Hlens in Hals, Hfc.
    apply bind_Ok_inv in Hals as (n & Hn & Hals). rewrite Hn. ok_steps.
    rewrite !bind_Ok in Hals. cbn beta in Hals.
    apply bind_Ok_inv in Hals as (pairs & Hpairs & Hals). injection Hals as <-.
    destruct (traverse_refine
                (λ time_i, l ← Store.item2_view (BatchedAlignments.labels a)
                                 (Store.alignment_labels lc) i time_i;
                           v0 ← Store.item2_vec_view (BatchedAlignments.logits a)
                                  (Store.alignment_logits lc) i time_i;
                           Ok (l, v0))
                (λ time_i, l ← item2 (BatchedAlignments.labels a) i time_i;
                           v0 ← item2_vec (BatchedAlignments.logits a) i time_i;
                           Ok (l, v0))
                (λ p q, read_pair h p = Some q) (range n) pairs)
      as (vpairs & Hvp & Hall); [|exact Hpairs|].
    { intros t p _ Hp.
      apply bind_Ok_inv in Hp as (lv & Hlv & Hp).
      apply bind_Ok_inv in Hp as (gv & Hgv & Hp). injection Hp as <-.
      destruct (item2_view_reads _ _ h _ _ _ _ _ Hlabs Hwfl Hlv) as (x & Ex & Hx).
      destruct (item2_vec_view_reads h _ _ _ _ _ Hlogs Hgv) as (row & Erow & Hrow).
      rewrite Ex, Erow. eexists. split; [done|]. unfold read_pair. simpl.
      rewrite Hx. simpl. rewrite Hrow. done. }
    unfold list_item. rewrite Hvp.
    ok_steps. rewrite (mapM_Forall2_Some _ _ _ Hall). simpl.
    destruct (Store.frame_confidence lc) as [l|], fcv as [c|]; try done.
    + unfold Store.deref_long in Hfc. rewrite Hconf, Hn in Hfc.
      rewrite !bind_Ok in Hfc. cbn beta in Hfc.
      apply bind_Ok_inv in Hfc as (row & -> & Hfc). injection Hfc as <-.
      ok_steps. by eexists.
    + injection Hfc as <-. ok_steps. by eexists.
  - subst fcv. injection Hals as <-. injection Hfc as <-. simpl. ok_steps. by eexists.
Qed.

Lemma load_align_inv (h : Store.store F) (a : Store.align_ref)
    (av : BatchedAlignments.t F) :
  Store.load_align h a = Ok av →
  Store.floats h !! Store.ar_logits a = Some (BatchedAlignments.logits av)
  ∧ Store.longs h !! Store.ar_labels a = Some (BatchedAlignments.labels av)
  ∧ match Store.ar_frame_confidence a with
    | Some l => ∃ c, BatchedAlignments.frame_confidence av = Some c
                     ∧ Store.longs h !! l = Some c
    | None => BatchedAlignments.frame_confidence av = None
    end
  ∧ BatchedAlignments.with_frame_confidence av = Store.ar_with_frame_confidence a
  ∧ BatchedAlignments._max_length av = Store.ar_max_length a
  ∧ BatchedAlignments.lengths av = Store.ar_lengths a.
Proof.
  unfold Store.load_align, Store.deref_float, Store.deref_long.
  destruct (Store.floats h !! Store.ar_logits a) as [lg|]; [|done].
  destruct (Store.longs h !! Store.ar_labels a) as [lb|]; [|done]. simpl.
  destruct (Store.ar_frame_confidence a) as [l|].
  - destruct (Store.longs h !! l) as [cf|]; [|done]. simpl. intros [= <-]. simpl.
    split; [done|]. split; [done|]. split; [by exists cf|done].
  - simpl. intros [= <-]. done.
Qed.

Lemma load_align_intro (h : Store.store F) (a : Store.align_ref)
    (av : BatchedAlignments.t F) :
  Store.floats h !! Store.ar_logits a = Some (BatchedAlignments.logits av) →
  Store.longs h !! Store.ar_labels a = Some (BatchedAlignments.labels av) →
  match Store.ar_frame_confidence a with
  | Some l => ∃ c, BatchedAlignments.frame_confidence av = Some c
                   ∧ Store.longs h !! l = Some c
  | None => BatchedAlignments.frame_confidence av = None
  end →
  BatchedAlignments.with_frame_confidence av = Store.ar_with_frame_confidence a →
  BatchedAlignments._max_length av = Store.ar_max_length a →
  BatchedAlignments.lengths av = Store.ar_lengths a →
  Store.load_align h a = Ok av.
Proof.
  intros Hlg Hlb Hfc Hw HM Hl.
  unfold Store.load_align, Store.deref_float, Store.deref_long.
  rewrite Hlg, Hlb. simpl. destruct av as [w M lg lb lens fc]. simpl in *.
  destruct (Store.ar_frame_confidence a) as [l|].
  - destruct Hfc as (cf & -> & ->). simpl. by subst.
  - simpl. by subst.
Qed.

Lemma cpu_long_copy (h h1 : Store.store F) (d : Store.device) (l l1 : nat)
    (t : tensor Z) :
  Store.longs h !! l = Some t → Store.cpu_long h d l = Ok (h1, l1) →
  extends h h1
  ∧ Store.longs h1 !! l1 = Some t
  ∧ Store.floats h1 = Store.floats h
  ∧ match d with
    | Store.CPU => l1 = l ∧ h1 = h
    | Store.CUDA => l1 ∉ dom (Store.longs h)
    end.
Proof.
  intros Hl Hc. split; [by eapply cpu_long_extends|]. destruct d; simpl in Hc.
  - injection Hc as <- <-. done.
  - unfold Store.deref_long in Hc. rewrite Hl in Hc. simpl in Hc.
    injection Hc as <- <-. simpl. split; [by rewrite lookup_insert_eq|].
    split; [done|]. apply is_fresh.
Qed.

Lemma cpu_float_copy (h h1 : Store.store F) (d : Store.device) (l l1 : nat)
    (t : tensor F) :
  Store.floats h !! l = Some t → Store.cpu_float h d l = Ok (h1, l1) →
  extends h h1
  ∧ Store.floats h1 !! l1 = Some t
  ∧ Store.longs h1 = Store.longs h
  ∧ match d with
    | Store.CPU => l1 = l ∧ h1 = h
    | Store.CUDA => l1 ∉ dom (Store.floats h)
    end.
Proof.
  intros Hl Hc. split; [by eapply cpu_float_extends|]. destruct d; simpl in Hc.
  - injection Hc as <- <-. done.
  - unfold Store.deref_float in Hc. rewrite Hl in Hc. simpl in Hc.
    injection Hc as <- <-. simpl. split; [by rewrite lookup_insert_eq|].
    split; [done|]. apply is_fresh.
Qed.

(** The local variables that the conversion computes from the alignments:
    the buffers themselves on the CPU, copies of them in new cells
    otherwise. *)
Lemma convert_locals (B D : nat) (h h' : Store.store F) (o : Store.hyps_ref F)
    (v : BatchedHyps.t F) (al : option Store.align_ref)
    (av : option (BatchedAlignments.t F)) (recs : list (Store.hypothesis_ref F)) :
  align_loaded B D h al av →
  Store.batched_hyps_to_hypotheses h o al = Ok (h', recs) →
  ∃ lc fcv,
    traverse (Store.hypothesis_ref_at h' o lc)
      (range (Z.of_nat (length (Store.hr_scores o)))) = Ok recs
    ∧ locals_match h' lc av fcv
    ∧ batched_hyps_to_hypotheses v av
      = traverse (hypothesis_at v (BatchedAlignments.lengths <$> av)
                    (BatchedAlignments.labels <$> av) (BatchedAlignments.logits <$> av) fcv)
          (range (Z.of_nat (length (BatchedHyps.scores v))))
    ∧ fcv = match av with
            | Some a0 =>
                if BatchedAlignments.with_frame_confidence a0
                then BatchedAlignments.frame_confidence a0
                else None
            | None => None
            end
    ∧ match lc, al with
      | Some x, Some a =>
          match Store.ar_device a with
          | Store.CPU =>
              Store.alignment_labels x = Store.ar_labels a
              ∧ Store.alignment_logits x = Store.ar_logits a
              ∧ h' = h
          | Store.CUDA =>
              (Store.alignment_labels x ∉ dom (Store.longs h))
              ∧ (Store.alignment_logits x ∉ dom (Store.floats h))
          end
      | None, None => h' = h
      | _, _ => False
      end.
Proof.
  intros Hload. unfold Store.batched_hyps_to_hypotheses. intros Hc.
  apply bind_Ok_inv in Hc as ([h1 locals] & Hloc & Hc).
  apply bind_Ok_inv in Hc as (recs' & Hrecs & Hc). injection Hc as <- <-.
  exists locals.
  destruct al as [a|], av as [a0|]; simpl in Hload; try done.
  2:{ injection Hloc as <- <-. exists None. done. }
  destruct Hload as [Hav Hawf].
  pose proof (load_align_inv h a a0 Hav) as (Hlg & Hlb & Hfc & Hw & HM & Hl).
  apply bind_Ok_inv in Hloc as ([h2 labs] & Hlabs & Hloc).
  apply bind_Ok_inv in Hloc as ([h3 logs] & Hlogs & Hloc).
  apply bind_Ok_inv in Hloc as ([h4 fc] & Hfcl & Hloc). injection Hloc as <- <-.
  destruct (cpu_long_copy _ _ _ _ _ _ Hlb Hlabs) as ([E1 E1'] & Clb & Fl & Dlb).
  assert (Store.floats h2 !! Store.ar_logits a = Some (BatchedAlignments.logits a0)) as Hlg2
    by (by apply E1').
  destruct (cpu_float_copy _ _ _ _ _ _ Hlg2 Hlogs) as ([E2 E2'] & Clg & Ll & Dlg).
  unfold batched_hyps_to_hypotheses. rewrite Hw. simpl.
  destruct (Store.ar_with_frame_confidence a) eqn:Hflag.
  - destruct (Store.ar_frame_confidence a) as [lcf|] eqn:Ecf; [|done].
    destruct Hfc as (cf & Hcf & Hlc).
    apply bind_Ok_inv in Hfcl as ([h5 lc'] & Hcp & Hfcl). injection Hfcl as <- <-.
    assert (Store.longs h3 !! lcf = Some cf) as Hlc3 by (apply E2, E1; done).
    destruct (cpu_long_copy _ _ _ _ _ _ Hlc3 Hcp) as ([E3 E3'] & Ccf & Fl3 & Dcf).
    exists (Some cf). rewrite Hcf. simpl.
    split; [done|]. split.
    { split; [done|]. split; [apply E3, E2; done|]. split; [by apply E3'|]. done. }
    split; [done|]. split; [done|].
    destruct (Store.ar_device a).
    + destruct Dlb as [-> ->], Dlg as [-> ->], Dcf as [-> ->]. done.
    + split; [done|]. by rewrite <- Fl.
  - injection Hfcl as <- <-. exists None. simpl.
    split; [done|]. split.
    { split; [done|]. split; [apply E2; done|]. done. }
    split; [done|]. split; [done|].
    destruct (Store.ar_device a).
    + destruct Dlb as [-> ->], Dlg as [-> ->]. done.
    + split; [done|]. by rewrite <- Fl.
Qed.

End record_props.

(** ** Later calls and the cells of the store *)

Section frame_props.
Context {F : Type} {HF : FloatDtype F}.

Lemma read_long_cell (h1 h2 : Store.store F) (vw : Store.view) :
  Store.longs h2 !! Store.v_loc vw = Store.longs h1 !! Store.v_loc vw →
  Store.read_long h2 vw = Store.read_long h1 vw.
Proof. intros E. unfold Store.read_long. by rewrite E. Qed.

Lemma read_float_cell (h1 h2 : Store.store F) (vw : Store.view) :
  Store.floats h2 !! Store.v_loc vw = Store.floats h1 !! Store.v_loc vw →
  Store.read_float h2 vw = Store.read_float h1 vw.
Proof. intros E. unfold Store.read_float. by rewrite E. Qed.

Lemma row_prefix_take {A} (t : tensor A) (b n m : nat) :
  (n ≤ m)%nat → row_prefix t b n = take n (row_prefix t b m).
Proof.
  intros Hnm. unfold row_prefix.
  rewrite (take_take _ n m). f_equal. lia.
Qed.

(** A call on the hypotheses in the store: it returns; it writes into the
    two cells of the object, below no length that it found, or leaves them
    and gives the object two new cells; every other cell is as it was. *)
Lemma store_add_frame (B : nat) (h : Store.store F) (o : Store.hyps_ref F)
    (v : BatchedHyps.t F) (c : hyps_call F) :
  Store.load_hyps h o = Ok v → wf B v → valid_call B c →
  Store.hr_transcript o ≠ Store.hr_timesteps o →
  ∃ h2 o2 v2, Store.add_results_ h o c = Ok (h2, o2)
    ∧ Store.load_hyps h2 o2 = Ok v2
    ∧ wf B v2
    ∧ Store.hr_transcript o2 ≠ Store.hr_timesteps o2
    ∧ Store.floats h2 = Store.floats h
    ∧ dom (Store.longs h) ⊆ dom (Store.longs h2)
    ∧ (∀ l, l ≠ Store.hr_transcript o → l ≠ Store.hr_timesteps o →
         l ∈ dom (Store.longs h) → Store.longs h2 !! l = Store.longs h !! l)
    ∧ ((Store.hr_transcript o2 = Store.hr_transcript o
        ∧ Store.hr_timesteps o2 = Store.hr_timesteps o
        ∧ BatchedHyps._max_length v2 = BatchedHyps._max_length v
        ∧ ∀ b len, BatchedHyps.lengths v !! b = Some len →
            (∃ len2, BatchedHyps.lengths v2 !! b = Some len2 ∧ len ≤ len2)
            ∧ row_prefix (BatchedHyps.transcript v2) b (Z.to_nat len)
              = row_prefix (BatchedHyps.transcript v) b (Z.to_nat len)
            ∧ row_prefix (BatchedHyps.timesteps v2) b (Z.to_nat len)
              = row_prefix (BatchedHyps.timesteps v) b (Z.to_nat len))
       ∨ ((Store.hr_transcript o2 ∉ dom (Store.longs h))
          ∧ (Store.hr_timesteps o2 ∉ dom (Store.longs h))
          ∧ Store.longs h2 !! Store.hr_transcript o = Store.longs h !! Store.hr_transcript o
          ∧ Store.longs h2 !! Store.hr_timesteps o = Store.longs h !! Store.hr_timesteps o)).
Proof.
  intros Hv Hwf Hc Hne.
  pose proof (load_hyps_inv h o v Hv) as (Htr & Hti & HM & Hl & Hs).
  destruct (apply_call_history B v c Hwf Hc) as (v' & Hv' & Hwf' & Hact & Hoth).
  assert (Hmono : ∀ b len, BatchedHyps.lengths v !! b = Some len →
            (∃ len2, BatchedHyps.lengths v' !! b = Some len2 ∧ len ≤ len2)
            ∧ row_prefix (BatchedHyps.transcript v') b (Z.to_nat len)
              = row_prefix (BatchedHyps.transcript v) b (Z.to_nat len)
            ∧ row_prefix (BatchedHyps.timesteps v') b (Z.to_nat len)
              = row_prefix (BatchedHyps.timesteps v) b (Z.to_nat len)).
  { intros b len Hlen.
    destruct (apply_call_prefix_kept B v v' c b len Hwf Hc Hv' Hlen) as [E1 E2].
    unfold labels_of in E1. unfold times_of in E2. rewrite Hlen in E1, E2.
    split; [|done].
    pose proof (lookup_lt_Some _ _ _ Hlen) as Hb. rewrite (wf_lengths B v Hwf) in Hb.
    destruct (decide (Z.of_nat b ∈ c_active c)) as [Hin|Hout].
    - apply list_elem_of_lookup in Hin as [k Hk].
      destruct Hc as (_ & _ & Hlab & Htim & Hsco).
      pose proof (lookup_lt_Some _ _ _ Hk) as Hklt.
      destruct (lookup_lt_is_Some_2 (c_labels c) k) as [label Hlabel]; [lia|].
      destruct (lookup_lt_is_Some_2 (c_times c) k) as [t Ht]; [lia|].
      destruct (lookup_lt_is_Some_2 (c_scores c) k) as [d Hd]; [lia|].
      pose proof (Hact _ _ _ _ _ Hk Hlabel Ht Hd) as Hip. rewrite Nat2Z.id in Hip.
      destruct Hip as [len0 sc lt ltl Hlen0 ? ? ? ? ? ? ? ? Hlen' _ _].
      exists (len0 + 1). split; [done|]. assert (len0 = len) by congruence. lia.
    - destruct (Hoth b Hb Hout) as [Hl' _ _ _ _ _].
      exists len. split; [congruence|lia]. }
  unfold Store.add_results_. rewrite Hv. rewrite bind_Ok; cbn beta.
  case_bool_decide as Hemp.
  { assert (c_active c = []) as Hnil by (destruct (c_active c); [done|simpl in Hemp; lia]).
    rewrite (apply_call_empty v c Hnil) in Hv'. injection Hv' as <-.
    exists h, o, v. do 7 (split; [done|]). left. done. }
  assert (c_active c ≠ []) as Hnn by (intros E; rewrite E in Hemp; done).
  destruct (add_results_capacity v v' c Hnn Hv') as (m & Hm & Hcap).
  rewrite Hm, Hv'. rewrite !bind_Ok; cbn beta.
  assert (Store.hr_transcript o ∈ dom (Store.longs h)) as Dtr by (by apply elem_of_dom).
  assert (Store.hr_timesteps o ∈ dom (Store.longs h)) as Dti by (by apply elem_of_dom).
  case_bool_decide as Hfull.
  - (* grown: the writes went to new cells *)
    set (l1 := fresh (dom (Store.longs h))).
    set (h1 := <[l1 := BatchedHyps.transcript v']> (Store.longs h)).
    set (l2 := fresh (dom h1)).
    assert (l1 ∉ dom (Store.longs h)) as Hl1 by apply is_fresh.
    assert (l2 ∉ dom h1) as Hl2 by apply is_fresh.
    assert ((l2 ∉ dom (Store.longs h)) ∧ l1 ≠ l2) as [Hl2' Hl12].
    { unfold h1 in Hl2. rewrite dom_insert in Hl2.
      apply not_elem_of_union in Hl2 as [Ha Hb].
      apply not_elem_of_singleton in Ha. split; [done|congruence]. }
    simpl. fold l1. fold h1. fold l2.
    eexists _, _, v'. split; [reflexivity|]. simpl.
    assert (∀ l, l ∈ dom (Store.longs h) →
              <[l2:=BatchedHyps.timesteps v']> h1 !! l = Store.longs h !! l) as Hsame.
    { intros l Dl.
      assert (l2 ≠ l) as N2 by (intros E; rewrite E in Hl2'; done).
      assert (l1 ≠ l) as N1 by (intros E; rewrite E in Hl1; done).
      rewrite lookup_insert_ne by done.
      unfold h1. rewrite lookup_insert_ne by done. done. }
    split; [|split; [done|split; [done|split; [done|split; [|split]]]]].
    + assert (<[l2:=BatchedHyps.timesteps v']> h1 !! l1 = Some (BatchedHyps.transcript v'))
        as E1 by (rewrite lookup_insert_ne by congruence; apply lookup_insert_eq).
      assert (<[l2:=BatchedHyps.timesteps v']> h1 !! l2 = Some (BatchedHyps.timesteps v'))
        as E2 by apply lookup_insert_eq.
      unfold Store.load_hyps, Store.deref_long. simpl. rewrite E1, E2.
      destruct v'; done.
    + etrans; [|apply dom_insert_subseteq]. apply dom_insert_subseteq.
    + intros l _ _ Dl. by apply Hsame.
    + right. split; [done|]. split; [done|]. split; by apply Hsame.
  - (* not grown: the writes went through to the cells of the object *)
    simpl.
    eexists _, _, v'. split; [reflexivity|]. simpl.
    split; [|split; [done|split; [done|split; [done|split; [|split]]]]].
    + unfold Store.load_hyps, Store.deref_long. simpl.
      rewrite (lookup_insert_ne _ (Store.hr_timesteps o) (Store.hr_transcript o))
        by congruence.
      rewrite !lookup_insert_eq. destruct v'; done.
    + etrans; [|apply dom_insert_subseteq]. apply dom_insert_subseteq.
    + intros l N1 N2 _. rewrite !lookup_insert_ne by congruence. done.
    + left. done.
Qed.

Lemma apply_align_keeps_flag (s s' : BatchedAlignments.t F) (c : align_call F) :
  apply_align s c = Ok s' →
  BatchedAlignments.with_frame_confidence s' = BatchedAlignments.with_frame_confidence s
  ∧ (is_Some (BatchedAlignments.frame_confidence s')
     ↔ is_Some (BatchedAlignments.frame_confidence s)).
Proof.
  unfold apply_align, BatchedAlignments.add_results_.
  case_bool_decide as Hemp; [intros [= <-]; done|].
  intros H. apply bind_Ok_inv in H as (s1 & Hs1 & H).
  assert (BatchedAlignments.with_frame_confidence s1
          = BatchedAlignments.with_frame_confidence s
          ∧ (is_Some (BatchedAlignments.frame_confidence s1)
             ↔ is_Some (BatchedAlignments.frame_confidence s))) as [Hw1 Hf1].
  { unfold BatchedAlignments.grow_if_full in Hs1.
    apply bind_Ok_inv in Hs1 as (m & Hm & Hs1).
    case_bool_decide as Hfull; [|injection Hs1 as <-; done].
    unfold BatchedAlignments._allocate_more in Hs1.
    apply bind_Ok_inv in Hs1 as (fc & Hfc & Hs1). injection Hs1 as <-. simpl.
    split; [done|].
    destruct (BatchedAlignments.with_frame_confidence s); [|by injection Hfc as <-].
    destruct (BatchedAlignments.frame_confidence s); [|done].
    injection Hfc as <-. split; by eexists. }
  do 3 (let x := fresh "x" in let Hx := fresh "Hx" in
        apply bind_Ok_inv in H as (x & Hx & H)).
  apply bind_Ok_inv in H as (fc & Hfc & H).
  do 2 (let x := fresh "x" in let Hx := fresh "Hx" in
        apply bind_Ok_inv in H as (x & Hx & H)).
  injection H as <-. simpl. split; [done|]. rewrite <- Hf1.
  destruct (BatchedAlignments.with_frame_confidence s1); [|by injection Hfc as <-].
  destruct (a_confidence c); [|by injection Hfc as <-].
  destruct (BatchedAlignments.frame_confidence s1); [|done].
  apply bind_Ok_inv in Hfc as (buf' & _ & Hfc). injection Hfc as <-.
  split; by eexists.
Qed.

(** A call on the alignments in the store that returns: it writes into the
    cells of the object, or leaves them and gives the object new cells; every
    other cell is as it was. *)
Lemma store_align_frame (h h2 : Store.store F) (a a2 : Store.align_ref)
    (av : BatchedAlignments.t F) (c : align_call F) :
  Store.load_align h a = Ok av →
  Store.ar_frame_confidence a ≠ Some (Store.ar_labels a) →
  Store.align_add_results_ h a c = Ok (h2, a2) →
  dom (Store.longs h) ⊆ dom (Store.longs h2)
  ∧ dom (Store.floats h) ⊆ dom (Store.floats h2)
  ∧ (∀ l, l ≠ Store.ar_labels a → Store.ar_frame_confidence a ≠ Some l →
       l ∈ dom (Store.longs h) → Store.longs h2 !! l = Store.longs h !! l)
  ∧ (∀ l, l ≠ Store.ar_logits a → l ∈ dom (Store.floats h) →
       Store.floats h2 !! l = Store.floats h !! l)
  ∧ Store.ar_labels a2 ∈ dom (Store.longs h2)
  ∧ (∀ l, Store.ar_frame_confidence a2 = Some l → l ∈ dom (Store.longs h2))
  ∧ Store.ar_frame_confidence a2 ≠ Some (Store.ar_labels a2)
  ∧ ((Store.ar_labels a2 = Store.ar_labels a
      ∧ Store.ar_logits a2 = Store.ar_logits a
      ∧ Store.ar_frame_confidence a2 = Store.ar_frame_confidence a
      ∧ ∃ av2, Store.load_align h2 a2 = Ok av2
          ∧ ((a_active c = [] ∧ av2 = av)
             ∨ (a_active c ≠ [] ∧ apply_align av c = Ok av2
                ∧ ∃ m, tensor_max (BatchedAlignments.lengths av) = Ok m
                    ∧ m < BatchedAlignments._max_length av)))
     ∨ ((Store.ar_labels a2 ∉ dom (Store.longs h))
        ∧ (Store.ar_logits a2 ∉ dom (Store.floats h))
        ∧ (Store.ar_frame_confidence a2 = Store.ar_frame_confidence a
           ∨ ∃ l, Store.ar_frame_confidence a2 = Some l ∧ l ∉ dom (Store.longs h))
        ∧ (∀ l, l ∈ dom (Store.longs h) → Store.longs h2 !! l = Store.longs h !! l)
        ∧ (∀ l, l ∈ dom (Store.floats h) → Store.floats h2 !! l = Store.floats h !! l))).
Proof.
  intros Hav Hcl.
  pose proof (load_align_inv h a av Hav) as (Hlg & Hlb & Hfc & Hw & HM & Hl).
  assert (Store.ar_labels a ∈ dom (Store.longs h)) as Dlb by (by apply elem_of_dom).
  assert (Store.ar_logits a ∈ dom (Store.floats h)) as Dlg by (by apply elem_of_dom).
  assert (∀ l, Store.ar_frame_confidence a = Some l → l ∈ dom (Store.longs h)) as Dfc.
  { intros l E. rewrite E in Hfc. destruct Hfc as (cf & _ & Hcf). by apply elem_of_dom. }
  unfold Store.align_add_results_. rewrite Hav. rewrite bind_Ok; cbn beta.
  case_bool_decide as Hemp.
  { intros [= <- <-]. do 4 (split; [done|]). split; [done|]. split; [done|].
    split; [done|]. left. do 3 (split; [done|]). exists av. split; [done|]. left.
    split; [|done]. destruct (a_active c); [done|simpl in Hemp; lia]. }
  assert (a_active c ≠ []) as Hnn by (intros E; rewrite E in Hemp; done).
  intros H. apply bind_Ok_inv in H as (m & Hm & H).
  apply bind_Ok_inv in H as (v' & Hv' & H).
  destruct (apply_align_keeps_flag av v' c Hv') as [Hw' Hf'].
  case_bool_decide as Hfull.
  - (* grown: new cells *)
    set (lg := fresh (dom (Store.floats h))) in *.
    set (lb := fresh (dom (Store.longs h))) in *.
    assert (lg ∉ dom (Store.floats h)) as Hlg' by apply is_fresh.
    assert (lb ∉ dom (Store.longs h)) as Hlb' by apply is_fresh.
    simpl in H. fold lg lb in H.
    assert (∀ l, l ∈ dom (Store.floats h) →
              <[lg:=BatchedAlignments.logits v']> (Store.floats h) !! l
              = Store.floats h !! l) as Hsf.
    { intros l Dl. rewrite lookup_insert_ne; [done|]. intros E. by rewrite E in Hlg'. }
    assert (∀ l, l ∈ dom (Store.longs h) →
              <[lb:=BatchedAlignments.labels v']> (Store.longs h) !! l
              = Store.longs h !! l) as Hsl.
    { intros l Dl. rewrite lookup_insert_ne; [done|]. intros E. by rewrite E in Hlb'. }
    destruct (Store.ar_with_frame_confidence a) eqn:Hflag.
    + destruct (BatchedAlignments.frame_confidence v') as [t|] eqn:Hfcv.
      * set (lc := fresh (dom (<[lb:=BatchedAlignments.labels v']> (Store.longs h)))) in *.
        assert (lc ∉ dom (<[lb:=BatchedAlignments.labels v']> (Store.longs h))) as Hlc'
          by apply is_fresh.
        rewrite dom_insert in Hlc'. apply not_elem_of_union in Hlc' as [Hc1 Hc2].
        apply not_elem_of_singleton in Hc1.
        simpl in H. fold lc in H. injection H as <- <-. simpl.
        split; [etrans; [|apply dom_insert_subseteq]; apply dom_insert_subseteq|].
        split; [apply dom_insert_subseteq|].
        split.
        { intros l _ _ Dl. rewrite lookup_insert_ne by (intros E; by rewrite E in Hc2).
          by apply Hsl. }
        split; [intros l _ Dl; by apply Hsf|].
        split.
        { apply elem_of_dom. rewrite lookup_insert_ne by done.
          rewrite lookup_insert_eq. by eexists. }
        split.
        { intros l [= <-]. apply elem_of_dom. rewrite lookup_insert_eq. by eexists. }
        split; [congruence|].
        right. split; [done|]. split; [done|]. split; [right; by exists lc|].
        split; [|done]. intros l Dl.
        rewrite lookup_insert_ne by (intros E; by rewrite E in Hc2). by apply Hsl.
      * injection H as <- <-. simpl.
        split; [apply dom_insert_subseteq|]. split; [apply dom_insert_subseteq|].
        split; [intros l _ _ Dl; by apply Hsl|].
        split; [intros l _ Dl; by apply Hsf|].
        split; [apply elem_of_dom; rewrite lookup_insert_eq; by eexists|].
        split; [done|]. split; [done|].
        right. split; [done|]. split; [done|]. split; [|done].
        destruct (Store.ar_frame_confidence a) as [l|] eqn:Ea; [|by left].
        exfalso. destruct Hfc as (cf & Hcf & _).
        destruct (proj2 Hf') as [x Hx]; [by eexists|]. congruence.
    + injection H as <- <-. simpl.
      split; [apply dom_insert_subseteq|]. split; [apply dom_insert_subseteq|].
      split; [intros l _ _ Dl; by apply Hsl|].
      split; [intros l _ Dl; by apply Hsf|].
      split; [apply elem_of_dom; rewrite lookup_insert_eq; by eexists|].
      split.
      { intros l E. apply elem_of_dom. rewrite Hsl by (by apply Dfc).
        apply elem_of_dom. by apply Dfc. }
      split.
      { intros E. apply Dfc in E. done. }
      right. split; [done|]. split; [done|]. split; [by left|]. done.
  - (* not grown: the writes went through to the cells of the object *)
    injection H as <- <-. simpl.
    set (longs1 := <[Store.ar_labels a:=BatchedAlignments.labels v']> (Store.longs h)).
    set (longs2 := match Store.ar_frame_confidence a with
                   | Some l => match BatchedAlignments.frame_confidence v' with
                               | Some t => <[l:=t]> longs1
                               | None => longs1
                               end
                   | None => longs1
                   end).
    assert (∀ l, longs2 !! l
              = if decide (Store.ar_frame_confidence a = Some l)
                then BatchedAlignments.frame_confidence v'
                else if decide (l = Store.ar_labels a)
                     then Some (BatchedAlignments.labels v')
                     else Store.longs h !! l) as Hlongs2.
    { intros l. unfold longs2, longs1.
      destruct (Store.ar_frame_confidence a) as [lc|] eqn:Ea.
      - destruct Hfc as (cf & Hcf & Hlc).
        destruct (proj2 Hf') as [t Ht]; [by eexists|]. rewrite Ht.
        destruct (decide (Some lc = Some l)) as [[= ->]|Hd].
        + by rewrite lookup_insert_eq.
        + rewrite lookup_insert_ne by congruence.
          destruct (decide (l = Store.ar_labels a)) as [->|Hd2].
          * by rewrite lookup_insert_eq.
          * by rewrite lookup_insert_ne.
      - destruct (decide (None = Some l)); [done|].
        destruct (decide (l = Store.ar_labels a)) as [->|Hd2].
        + by rewrite lookup_insert_eq.
        + by rewrite lookup_insert_ne. }
    assert (dom (Store.longs h) ⊆ dom longs2) as Hdom.
    { intros l Dl. apply elem_of_dom. rewrite Hlongs2.
      destruct (decide (Store.ar_frame_confidence a = Some l)) as [E|_].
      - rewrite E in Hfc. destruct Hfc as (cf & Hcf & _). apply Hf'. by eexists.
      - destruct (decide (l = Store.ar_labels a)); [by eexists|]. by apply elem_of_dom. }
    split; [done|]. split; [apply dom_insert_subseteq|].
    split.
    { intros l N1 N2 _. rewrite Hlongs2.
      destruct (decide (Store.ar_frame_confidence a = Some l)); [done|].
      destruct (decide (l = Store.ar_labels a)); done. }
    split; [intros l N1 _; by rewrite lookup_insert_ne|].
    split; [by apply Hdom|].
    split; [intros l E; apply Hdom; by apply Dfc|].
    split; [done|].
    left. do 3 (split; [done|]). exists v'. split.
    + apply load_align_intro; simpl.
      * by rewrite lookup_insert_eq.
      * rewrite Hlongs2.
        destruct (decide (Store.ar_frame_confidence a = Some (Store.ar_labels a)));
          [done|].
        destruct (decide (Store.ar_labels a = Store.ar_labels a)); done.
      * destruct (Store.ar_frame_confidence a) as [lc|] eqn:Ea.
        -- destruct Hfc as (cf & Hcf & _).
           destruct (proj2 Hf') as [t Ht]; [by eexists|].
           exists t. split; [done|]. rewrite Hlongs2.
           destruct (decide (Some lc = Some lc)); done.
        -- destruct (BatchedAlignments.frame_confidence v') as [t|] eqn:Ht; [|done].
           destruct (proj1 Hf') as [x Hx]; [by eexists|]. congruence.
      * congruence.
      * done.
      * done.
    + right. split; [done|]. split; [done|]. exists m. split; [done|]. lia.
Qed.

End frame_props.

(** ** The views of the records and later calls *)

Section views_props.
Context {F : Type} {HF : FloatDtype F}.

Lemma read_label_view (R C : nat) (h : Store.store F) (t : tensor Z) (l b j : nat) :
  Store.longs h !! l = Some t → wf_matrix R C t → (b < R)%nat → (j < C)%nat →
  ∃ x, item2 t (Z.of_nat b) (Z.of_nat j) = Ok x
    ∧ Store.read_long h (Store.View l (b * C + j) 1) = Some [x].
Proof.
  intros Hl Hwf Hb Hj. pose proof Hwf as [Hs Hd].
  rewrite (item2_elem R C) by (done || unfold in_range; lia).
  rewrite !Nat2Z.id.
  destruct (lookup_lt_is_Some_2 (data t) (b * C + j)) as [x Hx]; [rewrite Hd; nia|].
  exists x. rewrite Hx. split; [done|].
  unfold Store.read_long. simpl. rewrite Hl. simpl.
  rewrite (take_S_r _ _ x) by (by rewrite lookup_drop, Nat.add_0_r). done.
Qed.

Lemma read_vec_view (B M D : nat) (h : Store.store F) (t : tensor F) (l b j : nat) :
  Store.floats h !! l = Some t → shape t = [B; M; D] → (b < B)%nat → (j < M)%nat →
  item2_vec t (Z.of_nat b) (Z.of_nat j) = Ok (row_at D (data t) (b * M + j))
  ∧ Store.read_float h (Store.View l ((b * M + j) * D) D)
    = Some (row_at D (data t) (b * M + j)).
Proof.
  intros Hl Hs Hb Hj.
  rewrite (item2_vec_row B M D) by (done || unfold in_range; lia).
  rewrite !Nat2Z.id. split; [done|].
  unfold Store.read_float. simpl. rewrite Hl. done.
Qed.

(** Equal entries of two buffers are read equal through the views. *)
Lemma label_view_same (B M : nat) (h1 h2 : Store.store F) (t1 t2 : tensor Z)
    (l b j : nat) :
  Store.longs h1 !! l = Some t1 → Store.longs h2 !! l = Some t2 →
  wf_matrix B M t1 → wf_matrix B M t2 → (b < B)%nat → (j < M)%nat →
  item2 t2 (Z.of_nat b) (Z.of_nat j) = item2 t1 (Z.of_nat b) (Z.of_nat j) →
  Store.read_long h2 (Store.View l (b * M + j) 1)
  = Store.read_long h1 (Store.View l (b * M + j) 1).
Proof.
  intros H1 H2 W1 W2 Hb Hj E.
  destruct (read_label_view B M h1 t1 l b j H1 W1 Hb Hj) as (x1 & I1 & ->).
  destruct (read_label_view B M h2 t2 l b j H2 W2 Hb Hj) as (x2 & I2 & ->).
  congruence.
Qed.

Lemma vec_view_same (B M D : nat) (h1 h2 : Store.store F) (t1 t2 : tensor F)
    (l b j : nat) :
  Store.floats h1 !! l = Some t1 → Store.floats h2 !! l = Some t2 →
  shape t1 = [B; M; D] → shape t2 = [B; M; D] → (b < B)%nat → (j < M)%nat →
  item2_vec t2 (Z.of_nat b) (Z.of_nat j) = item2_vec t1 (Z.of_nat b) (Z.of_nat j) →
  Store.read_float h2 (Store.View l ((b * M + j) * D) D)
  = Store.read_float h1 (Store.View l ((b * M + j) * D) D).
Proof.
  intros H1 H2 W1 W2 Hb Hj E.
  destruct (read_vec_view B M D h1 t1 l b j H1 W1 Hb Hj) as (I1 & ->).
  destruct (read_vec_view B M D h2 t2 l b j H2 W2 Hb Hj) as (I2 & ->).
  congruence.
Qed.

Lemma load_align_fun (h : Store.store F) (a : Store.align_ref)
    (v1 v2 : BatchedAlignments.t F) :
  Store.load_align h a = Ok v1 → Store.load_align h a = Ok v2 → v1 = v2.
Proof. congruence. Qed.

(** Loading only looks at the cells of the object. *)
Lemma load_hyps_cells (h h2 : Store.store F) (o : Store.hyps_ref F) :
  Store.longs h2 !! Store.hr_transcript o = Store.longs h !! Store.hr_transcript o →
  Store.longs h2 !! Store.hr_timesteps o = Store.longs h !! Store.hr_timesteps o →
  Store.load_hyps h2 o = Store.load_hyps h o.
Proof.
  intros E1 E2. unfold Store.load_hyps, Store.deref_long. by rewrite E1, E2.
Qed.

Lemma load_align_cells (h h2 : Store.store F) (a : Store.align_ref) :
  Store.longs h2 !! Store.ar_labels a = Store.longs h !! Store.ar_labels a →
  Store.floats h2 !! Store.ar_logits a = Store.floats h !! Store.ar_logits a →
  (∀ l, Store.ar_frame_confidence a = Some l →
     Store.longs h2 !! l = Store.longs h !! l) →
  Store.load_align h2 a = Store.load_align h a.
Proof.
  intros E1 E2 E3. unfold Store.load_align, Store.deref_long, Store.deref_float.
  rewrite E1, E2. destruct (Store.ar_frame_confidence a) as [l|]; [|done].
  by rewrite (E3 l).
Qed.

Lemma load_align_extends (h h' : Store.store F) (a : Store.align_ref)
    (v : BatchedAlignments.t F) :
  extends h h' → Store.load_align h a = Ok v → Store.load_align h' a = Ok v.
Proof.
  intros [E1 E2] Hv.
  pose proof (load_align_inv h a v Hv) as (Hlg & Hlb & Hfc & Hw & HM & Hl).
  apply load_align_intro; try done; [by apply E2|by apply E1|].
  destruct (Store.ar_frame_confidence a) as [l|]; [|done].
  destruct Hfc as (c & Hc & Hlc). exists c. split; [done|by apply E1].
Qed.

Lemma long_cells_nodup (o : Store.hyps_ref F) (a : Store.align_ref) :
  NoDup (long_cells o (Some a)) →
  Store.hr_transcript o ≠ Store.hr_timesteps o
  ∧ Store.ar_labels a ≠ Store.hr_transcript o
  ∧ Store.ar_labels a ≠ Store.hr_timesteps o
  ∧ Store.ar_frame_confidence a ≠ Some (Store.hr_transcript o)
  ∧ Store.ar_frame_confidence a ≠ Some (Store.hr_timesteps o)
  ∧ Store.ar_frame_confidence a ≠ Some (Store.ar_labels a).
Proof.
  unfold long_cells. simpl. destruct (Store.ar_frame_confidence a) as [l|]; simpl.
  - rewrite !NoDup_cons. rewrite !elem_of_cons. rewrite !elem_of_nil.
    intros (H1 & H2 & H3 & _).
    repeat split; naive_solver.
  - rewrite !NoDup_cons. rewrite !elem_of_cons. rewrite !elem_of_nil.
    intros (H1 & H2 & _).
    repeat split; naive_solver.
Qed.

Lemma long_cells_nodup_hyps (o : Store.hyps_ref F) (al : option Store.align_ref) :
  NoDup (long_cells o al) → Store.hr_transcript o ≠ Store.hr_timesteps o.
Proof.
  unfold long_cells. simpl. rewrite !NoDup_cons. rewrite !elem_of_cons.
  intros (H1 & _) E. apply H1. by left.
Qed.

Lemma kept_init (B D : nat) (h h' : Store.store F) (o : Store.hyps_ref F)
    (v : BatchedHyps.t F) (al : option Store.align_ref)
    (av : option (BatchedAlignments.t F)) (lc : option Store.align_locals)
    (fcv : option (tensor Z)) :
  Store.load_hyps h o = Ok v → wf B v →
  align_loaded B D h al av → NoDup (long_cells o al) →
  extends h h' → locals_match h' lc av fcv →
  match lc, al with
  | Some x, Some a =>
      match Store.ar_device a with
      | Store.CPU =>
          Store.alignment_labels x = Store.ar_labels a
          ∧ Store.alignment_logits x = Store.ar_logits a
          ∧ h' = h
      | Store.CUDA =>
          (Store.alignment_labels x ∉ dom (Store.longs h))
          ∧ (Store.alignment_logits x ∉ dom (Store.floats h))
      end
  | None, None => h' = h
  | _, _ => False
  end →
  kept B D h' o v lc av h' o al.
Proof.
  intros Hv Hwf Hload Hnd Hext Hloc Hwhere.
  pose proof (load_hyps_extends h h' o v Hext Hv) as Hv'.
  pose proof (load_hyps_inv h o v Hv) as (Htr0 & Hti0 & _).
  pose proof (load_hyps_inv h' o v Hv') as (Htr & Hti & HM & Hl & Hs).
  assert (Store.hr_transcript o ∈ dom (Store.longs h')) as Dtr by (by apply elem_of_dom).
  assert (Store.hr_timesteps o ∈ dom (Store.longs h')) as Dti by (by apply elem_of_dom).
  assert (Store.hr_transcript o ∈ dom (Store.longs h)) as Dtr0 by (by apply elem_of_dom).
  assert (Store.hr_timesteps o ∈ dom (Store.longs h)) as Dti0 by (by apply elem_of_dom).
  split.
  - done.
  - done.
  - done.
  - exists v. split; [done|]. split; [done|]. left. do 3 (split; [done|]).
    intros b len Hb. exists len. split; [done|lia].
  - intros a2 ->. destruct av as [a0|]; [|done]. destruct Hload as [Ha Hawf].
    pose proof (load_align_extends h h' a2 a0 Hext Ha) as Ha'.
    pose proof (load_align_inv h' a2 a0 Ha') as (Hlg & Hlb & Hfc & _).
    destruct (long_cells_nodup o a2 Hnd) as (N1 & N2 & N3 & N4 & N5 & N6).
    do 4 (split; [done|]). split; [by apply elem_of_dom|].
    intros l El. rewrite El in Hfc. destruct Hfc as (c & _ & Hc). by apply elem_of_dom.
  - destruct lc as [x|], al as [a|], av as [a0|]; simpl in Hload, Hloc; try done.
    destruct Hload as [Ha Hawf]. destruct Hloc as (Hlen & Hlab & Hlog & Hconf).
    pose proof (load_align_extends h h' a a0 Hext Ha) as Ha'.
    pose proof (load_align_inv h a a0 Ha) as (Hlg0 & Hlb0 & Hfc0 & _).
    destruct (long_cells_nodup o a Hnd) as (N1 & N2 & N3 & N4 & N5 & N6).
    assert (Store.ar_labels a ∈ dom (Store.longs h)) as Dlb by (by apply elem_of_dom).
    assert (Store.ar_logits a ∈ dom (Store.floats h)) as Dlg by (by apply elem_of_dom).
    split; [by apply elem_of_dom|]. split; [by apply elem_of_dom|].
    destruct (Store.ar_device a).
    + destruct Hwhere as (E1 & E2 & ->). rewrite E1, E2.
      split; [done|]. split; [done|]. split; [done|].
      exists a. split; [done|]. split; [done|]. left. do 2 (split; [done|]).
      exists a0. split; [done|]. split; [done|]. split; [done|].
      intros b n Hb. exists n. split; [done|lia].
    + destruct Hwhere as (E1 & E2).
      split; [intros E; rewrite E in E1; done|].
      split; [intros E; rewrite E in E1; done|].
      split; [done|].
      exists a. split; [done|]. split.
      { intros E. rewrite E in Hfc0. destruct Hfc0 as (c & _ & Hc).
        apply E1. by apply elem_of_dom. }
      right. split; intros E; [rewrite E in Dlb|rewrite E in Dlg]; done.
Qed.

Lemma align_cells_dom (h : Store.store F) (al : option Store.align_ref) (l : nat) :
  (∀ a, al = Some a →
     Store.ar_labels a ∈ dom (Store.longs h)
     ∧ (∀ l, Store.ar_frame_confidence a = Some l → l ∈ dom (Store.longs h))) →
  l ∈ align_cells al → l ∈ dom (Store.longs h).
Proof.
  intros Hd. unfold align_cells. destruct al as [a|]; [|by rewrite elem_of_nil].
  destruct (Hd a eq_refl) as [D1 D2].
  rewrite elem_of_cons. intros [->|Hl]; [done|].
  destruct (Store.ar_frame_confidence a) as [l'|]; simpl in Hl.
  - apply list_elem_of_singleton in Hl as ->. by apply D2.
  - by rewrite elem_of_nil in Hl.
Qed.

Lemma long_cells_fresh (h : Store.store F) (o o3 : Store.hyps_ref F)
    (al : option Store.align_ref) :
  NoDup (long_cells o al) →
  (∀ l, l ∈ align_cells al → l ∈ dom (Store.longs h)) →
  Store.hr_transcript o3 ≠ Store.hr_timesteps o3 →
  Store.hr_transcript o3 ∉ dom (Store.longs h) →
  Store.hr_timesteps o3 ∉ dom (Store.longs h) →
  NoDup (long_cells o3 al).
Proof.
  unfold long_cells. simpl. intros Hnd Hd Hne F1 F2.
  apply NoDup_cons in Hnd as [_ Hnd]. apply NoDup_cons in Hnd as [_ Hnd].
  apply NoDup_cons. split.
  { rewrite elem_of_cons. intros [E|E]; [done|]. apply F1, Hd, E. }
  apply NoDup_cons. split; [|done]. intros E. apply F2, Hd, E.
Qed.

(** A later call on the hypotheses keeps the views. *)
Lemma kept_hyps_step (B D : nat) (h1 : Store.store F) (o : Store.hyps_ref F)
    (v : BatchedHyps.t F) (lc : option Store.align_locals)
    (av : option (BatchedAlignments.t F))
    (h2 : Store.store F) (o2 : Store.hyps_ref F) (al2 : option Store.align_ref)
    (c : hyps_call F) :
  kept B D h1 o v lc av h2 o2 al2 → valid_call B c →
  ∃ h3 o3, Store.add_results_ h2 o2 c = Ok (h3, o3)
    ∧ kept B D h1 o v lc av h3 o3 al2.
Proof.
  intros [Hnd [Dtr Dti] Hviews (v2 & Hv2 & Hwf2 & Hatt) Hapart Halign] Hc.
  pose proof (long_cells_nodup_hyps o2 al2 Hnd) as Hne.
  destruct (store_add_frame B h2 o2 v2 c Hv2 Hwf2 Hc Hne)
    as (h3 & o3 & v3 & Hadd & Hv3 & Hwf3 & Hne3 & Hfl & Hdom & Hoth & Hcase).
  exists h3, o3. split; [done|].
  pose proof (load_hyps_inv h2 o2 v2 Hv2) as (Htr2 & Hti2 & HM2 & Hl2 & Hs2).
  pose proof (load_hyps_inv h3 o3 v3 Hv3) as (Htr3 & Hti3 & HM3 & Hl3 & Hs3).
  assert (Store.hr_transcript o2 ∈ dom (Store.longs h2)) as Dtr2 by (by apply elem_of_dom).
  assert (Store.hr_timesteps o2 ∈ dom (Store.longs h2)) as Dti2 by (by apply elem_of_dom).
  assert (Hcells : ∀ l, l ∈ align_cells al2 → l ∈ dom (Store.longs h2)).
  { intros l. apply align_cells_dom. intros a Ea.
    destruct (Hapart a Ea) as (_ & _ & _ & _ & D1 & D2). done. }
  assert (Hal : ∀ a2, al2 = Some a2 →
            Store.longs h3 !! Store.ar_labels a2 = Store.longs h2 !! Store.ar_labels a2
            ∧ ∀ l, Store.ar_frame_confidence a2 = Some l →
                Store.longs h3 !! l = Store.longs h2 !! l).
  { intros a2 ->. destruct (long_cells_nodup o2 a2 Hnd) as (_ & N2 & N3 & N4 & N5 & N6).
    destruct (Hapart a2 eq_refl) as (_ & _ & _ & _ & Dlb & Dfc).
    split; [by apply Hoth|]. intros l El. rewrite El in N4, N5.
    apply Hoth; [congruence|congruence|by apply Dfc]. }
  (* the viewed cells of the hypotheses *)
  assert (Hread : ∀ b len, BatchedHyps.lengths v !! b = Some len →
            Store.read_long h3 (transcript_view o v b len)
            = Store.read_long h2 (transcript_view o v b len)
            ∧ Store.read_long h3 (timesteps_view o v b len)
              = Store.read_long h2 (timesteps_view o v b len)).
  { intros b len Hb.
    destruct Hatt as [(E1 & E2 & EM & Hmono)|(N1 & N2 & N3 & N4)].
    - destruct Hcase as [(E1' & E2' & EM' & Hpre)|(F1 & F2 & K1 & K2)].
      + destruct (Hmono b len Hb) as (len2 & Hlen2 & Hle).
        destruct (Hpre b len2 Hlen2) as ((len3 & Hlen3 & Hle3) & P1 & P2).
        assert (0 ≤ len2 ≤ BatchedHyps._max_length v2) as Hbd2.
        { pose proof (wf_bound B v2 Hwf2) as Hb2. rewrite Forall_forall in Hb2.
          apply Hb2. by eapply list_elem_of_lookup_2. }
        unfold transcript_view, timesteps_view. rewrite <- E1, <- E2, <- EM.
        rewrite <- E1' at 1. rewrite <- E2' at 1.
        rewrite (read_row_view B _ h2 _ _ b _ Htr2 (wf_transcript B v2 Hwf2)) by lia.
        rewrite (read_row_view B _ h2 _ _ b _ Hti2 (wf_timesteps B v2 Hwf2)) by lia.
        rewrite <- EM'.
        rewrite (read_row_view B _ h3 _ _ b _ Htr3 (wf_transcript B v3 Hwf3)) by lia.
        rewrite (read_row_view B _ h3 _ _ b _ Hti3 (wf_timesteps B v3 Hwf3)) by lia.
        rewrite (row_prefix_take (BatchedHyps.transcript v3) b _ (Z.to_nat len2)) by lia.
        rewrite (row_prefix_take (BatchedHyps.timesteps v3) b _ (Z.to_nat len2)) by lia.
        rewrite P1, P2.
        rewrite <- (row_prefix_take (BatchedHyps.transcript v2) b _ (Z.to_nat len2)) by lia.
        rewrite <- (row_prefix_take (BatchedHyps.timesteps v2) b _ (Z.to_nat len2)) by lia.
        done.
      + split; apply read_long_cell; simpl; congruence.
    - split; apply read_long_cell; simpl; apply Hoth; done. }
  split.
  - destruct Hcase as [(E1' & E2' & _)|(F1 & F2 & _)].
    + unfold long_cells in *. rewrite E1', E2'. done.
    + by apply (long_cells_fresh h2 o2).
  - split; by apply Hdom.
  - intros b len Hb. destruct (Hread b len Hb) as [-> ->]. by apply Hviews.
  - exists v3. split; [done|]. split; [done|].
    destruct Hcase as [(E1' & E2' & EM' & Hpre)|(F1 & F2 & K1 & K2)].
    + destruct Hatt as [(E1 & E2 & EM & Hmono)|(N1 & N2 & N3 & N4)].
      * left. split; [congruence|]. split; [congruence|]. split; [congruence|].
        intros b len Hb. destruct (Hmono b len Hb) as (len2 & Hlen2 & Hle).
        destruct (Hpre b len2 Hlen2) as ((len3 & Hlen3 & Hle3) & _).
        exists len3. split; [done|lia].
      * right. rewrite E1', E2'. done.
    + right. repeat split; intros E; (rewrite E in F1 || rewrite E in F2); done.
  - intros a2 Ea. destruct (Hapart a2 Ea) as (A1 & A2 & A3 & A4 & A5 & A6).
    do 4 (split; [done|]). split; [by apply Hdom|]. intros l El. by apply Hdom, A6.
  - destruct lc as [x|], av as [a0|]; try done.
    destruct Halign as (Dlab & Dlog & Nl1 & Nl2 & Hvw & a2 & Ea & Ncf & Hcs).
    split; [by apply Hdom|]. split; [by rewrite Hfl|].
    assert (Store.alignment_labels x ≠ Store.hr_transcript o3
            ∧ Store.alignment_labels x ≠ Store.hr_timesteps o3) as [Nl1' Nl2'].
    { destruct Hcase as [(E1' & E2' & _)|(F1 & F2 & _)].
      - rewrite E1', E2'. done.
      - split; intros E; (rewrite <- E in F1 || rewrite <- E in F2); done. }
    split; [done|]. split; [done|]. split.
    { intros b n j Hb Hj. destruct (Hvw b n j Hb Hj) as [<- <-]. split.
      - apply read_long_cell. simpl. by apply Hoth.
      - apply read_float_cell. simpl. by rewrite Hfl. }
    exists a2. split; [done|]. split; [done|].
    destruct Hcs as [(C1 & C2 & av2 & Hav2 & Hawf2 & HMa & Hmono)|Hdet]; [|by right].
    left. split; [done|]. split; [done|]. exists av2. split; [|done].
    rewrite <- Hav2. destruct (Hal a2 Ea) as [L1 L2].
    apply load_align_cells; [done|by rewrite Hfl|done].
Qed.

Lemma long_cells_align_fresh (h : Store.store F) (o : Store.hyps_ref F)
    (a2 a3 : Store.align_ref) :
  NoDup (long_cells o (Some a2)) →
  Store.hr_transcript o ∈ dom (Store.longs h) →
  Store.hr_timesteps o ∈ dom (Store.longs h) →
  (∀ l, Store.ar_frame_confidence a2 = Some l → l ∈ dom (Store.longs h)) →
  Store.ar_labels a3 ∉ dom (Store.longs h) →
  Store.ar_frame_confidence a3 ≠ Some (Store.ar_labels a3) →
  (Store.ar_frame_confidence a3 = Store.ar_frame_confidence a2
   ∨ ∃ l, Store.ar_frame_confidence a3 = Some l ∧ l ∉ dom (Store.longs h)) →
  NoDup (long_cells o (Some a3)).
Proof.
  intros Hnd D1 D2 D3 F1 N Hcf.
  destruct (long_cells_nodup o a2 Hnd) as (N1 & N2 & N3 & N4 & N5 & N6).
  assert (Store.hr_transcript o ≠ Store.ar_labels a3) as M1 by (intros E; by rewrite E in D1).
  assert (Store.hr_timesteps o ≠ Store.ar_labels a3) as M2 by (intros E; by rewrite E in D2).
  assert (Store.ar_frame_confidence a3 ≠ Some (Store.hr_transcript o)) as M3.
  { destruct Hcf as [->|(l & -> & Hl)]; [done|]. intros [= ->]. done. }
  assert (Store.ar_frame_confidence a3 ≠ Some (Store.hr_timesteps o)) as M4.
  { destruct Hcf as [->|(l & -> & Hl)]; [done|]. intros [= ->]. done. }
  unfold long_cells, align_cells. simpl.
  destruct (Store.ar_frame_confidence a3) as [l|]; simpl;
    rewrite !NoDup_cons, !elem_of_cons, !elem_of_nil;
    repeat split; try apply NoDup_nil_2; try tauto; intros E;
    repeat (destruct E as [E|E]); try done; congruence.
Qed.

(** A later call on the alignments that returns keeps the views. *)
Lemma kept_align_step (B D : nat) (h1 : Store.store F) (o : Store.hyps_ref F)
    (v : BatchedHyps.t F) (lc : option Store.align_locals)
    (av : option (BatchedAlignments.t F))
    (h2 : Store.store F) (o2 : Store.hyps_ref F) (a2 : Store.align_ref)
    (c : align_call F) (h3 : Store.store F) (a3 : Store.align_ref) :
  kept B D h1 o v lc av h2 o2 (Some a2) → valid_align B D c →
  Store.align_add_results_ h2 a2 c = Ok (h3, a3) →
  kept B D h1 o v lc av h3 o2 (Some a3).
Proof.
  intros [Hnd [Dtr Dti] Hviews (v2 & Hv2 & Hwf2 & Hatt) Hapart Halign] Hc Hadd.
  assert (∃ avc, Store.load_align h2 a2 = Ok avc) as [avc Havc].
  { pose proof Hadd as H. unfold Store.align_add_results_ in H.
    apply bind_Ok_inv in H as (avc & H & _). by exists avc. }
  destruct (long_cells_nodup o2 a2 Hnd) as (N1 & N2 & N3 & N4 & N5 & N6).
  destruct (store_align_frame h2 h3 a2 a3 avc c Havc N6 Hadd)
    as (Hdl & Hdf & Hol & Hof & Dlb3 & Dfc3 & N63 & Hcase).
  destruct (Hapart a2 eq_refl) as (A1 & A2 & A3 & A4 & A5 & A6).
  pose proof (load_hyps_inv h2 o2 v2 Hv2) as (Htr2 & Hti2 & HM2 & Hl2 & Hs2).
  assert (Store.hr_transcript o2 ∈ dom (Store.longs h2)) as Dtr2 by (by apply elem_of_dom).
  assert (Store.hr_timesteps o2 ∈ dom (Store.longs h2)) as Dti2 by (by apply elem_of_dom).
  assert (Store.longs h3 !! Store.hr_transcript o = Store.longs h2 !! Store.hr_transcript o)
    as Ktr by (apply Hol; done || congruence).
  assert (Store.longs h3 !! Store.hr_timesteps o = Store.longs h2 !! Store.hr_timesteps o)
    as Kti by (apply Hol; done || congruence).
  assert (Store.longs h3 !! Store.hr_transcript o2 = Store.longs h2 !! Store.hr_transcript o2)
    as Ktr2 by (apply Hol; done || congruence).
  assert (Store.longs h3 !! Store.hr_timesteps o2 = Store.longs h2 !! Store.hr_timesteps o2)
    as Kti2 by (apply Hol; done || congruence).
  split.
  - destruct Hcase as [(E1 & E2 & E3 & _)|(F1 & F2 & Hcf & _)].
    + unfold long_cells, align_cells in *. rewrite E1, E3. done.
    + by apply (long_cells_align_fresh h2 o2 a2 a3).
  - split; by apply Hdl.
  - intros b len Hb. destruct (Hviews b len Hb) as [<- <-].
    split; apply read_long_cell; done.
  - exists v2. split; [|done]. rewrite <- Hv2. by apply load_hyps_cells.
  - intros a Ea. injection Ea as <-.
    destruct Hcase as [(E1 & E2 & E3 & _)|(F1 & F2 & Hcf & _)].
    + rewrite E1, E3. do 4 (split; [done|]). rewrite <- E1, <- E3. done.
    + split; [intros E; by rewrite E in F1|]. split; [intros E; by rewrite E in F1|].
      split.
      { destruct Hcf as [->|(l & -> & Hl)]; [done|]. intros [= ->]. done. }
      split; [|done].
      destruct Hcf as [->|(l & -> & Hl)]; [done|]. intros [= ->]. done.
  - destruct lc as [x|], av as [a0|]; try done.
    destruct Halign as (Dlab & Dlog & Nl1 & Nl2 & Hvw & a2' & Ea & Ncf & Hcs).
    injection Ea as <-.
    split; [by apply Hdl|]. split; [by apply Hdf|]. split; [done|]. split; [done|].
    assert (Store.ar_frame_confidence a3 ≠ Some (Store.alignment_labels x)) as Ncf3.
    { destruct Hcase as [(E1 & E2 & E3 & _)|(F1 & F2 & Hcf & _)].
      - by rewrite E3.
      - destruct Hcf as [->|(l & -> & Hl)]; [done|]. intros [= ->]. done. }
    destruct Hcs as [(C1 & C2 & av2 & Hav2 & Hawf2 & HMa & Hmono)|(C1 & C2)].
    + (* the object still has the viewed buffers *)
      assert (avc = av2) as -> by congruence.
      destruct Hcase as [(E1 & E2 & E3 & av3 & Hav3 & Hstep)|(F1 & F2 & Hcf & Kl & Kf)].
      * pose proof (load_align_inv h2 a2 av2 Hav2) as (Hlg2 & Hlb2 & _).
        pose proof (load_align_inv h3 a3 av3 Hav3) as (Hlg3 & Hlb3 & _).
        rewrite E1, C1 in Hlb3. rewrite E2, C2 in Hlg3.
        rewrite C1 in Hlb2. rewrite C2 in Hlg2.
        destruct Hstep as [[Hnil ->]|(Hnn & Hap & m & Hm & Hlt)].
        { split.
          - intros b n j Hb Hj. destruct (Hvw b n j Hb Hj) as [<- <-]. split.
            + apply read_long_cell. simpl. congruence.
            + apply read_float_cell. simpl. congruence.
          - exists a3. split; [done|]. split; [done|]. left.
            split; [congruence|]. split; [congruence|]. by exists av2. }
        assert (has_room av2) as Hroom.
        { unfold has_room. destruct (tensor_max_spec _ _ Hm) as [Hle _].
          eapply Forall_impl; [exact Hle|]. simpl. intros y Hy. lia. }
        destruct (align_step B D av2 c Hawf2 Hroom Hc)
          as (s' & Hs' & Hawf3 & HM3 & Hact & Hothers & Hkeep).
        assert (s' = av3) as -> by congruence.
        split.
        { intros b n j Hb Hj. destruct (Hvw b n j Hb Hj) as [<- <-].
          destruct (Hmono b n Hb) as (n2 & Hn2 & Hle).
          assert (0 ≤ n2 ≤ BatchedAlignments._max_length av2) as Hbd.
          { pose proof (awf_bound B D av2 Hawf2) as Hb2. rewrite Forall_forall in Hb2.
            apply Hb2. by eapply list_elem_of_lookup_2. }
          assert (b < B)%nat as HbB.
          { rewrite <- (awf_lengths B D av2 Hawf2). by eapply lookup_lt_Some. }
          assert (j < Z.to_nat (BatchedAlignments._max_length av2))%nat as HjM by lia.
          destruct (Hkeep b j n2 Hn2 HjM) as [K1 K2]; [left; lia|].
          unfold label_view, logits_view. rewrite <- HMa. split.
          - apply (label_view_same B _ h2 h3 (BatchedAlignments.labels av2)
                     (BatchedAlignments.labels av3)); try done.
            + apply (awf_labels B D av2 Hawf2).
            + rewrite <- HM3. apply (awf_labels B D av3 Hawf3).
          - apply (vec_view_same B _ D h2 h3 (BatchedAlignments.logits av2)
                     (BatchedAlignments.logits av3)); try done.
            + apply (awf_logits_shape B D av2 Hawf2).
            + rewrite <- HM3. apply (awf_logits_shape B D av3 Hawf3). }
        exists a3. split; [done|]. split; [done|]. left.
        split; [congruence|]. split; [congruence|]. exists av3.
        split; [done|]. split; [done|]. split; [congruence|].
        intros b n Hb. destruct (Hmono b n Hb) as (n2 & Hn2 & Hle).
        destruct (decide (Z.of_nat b ∈ a_active c)) as [Hin|Hout].
        -- apply list_elem_of_lookup in Hin as [k Hk].
           destruct (Hact k _ Hk) as (len & label & Hlen & _ & Hlen' & _).
           rewrite Nat2Z.id in Hlen, Hlen'. exists (len + 1). split; [done|].
           assert (len = n2) by congruence. lia.
        -- exists n2. rewrite (Hothers b Hout). done.
      * split.
        { intros b n j Hb Hj. destruct (Hvw b n j Hb Hj) as [<- <-]. split.
          - apply read_long_cell. simpl. by apply Kl.
          - apply read_float_cell. simpl. by apply Kf. }
        exists a3. split; [done|]. split; [done|]. right.
        split; intros E; [rewrite E in F1|rewrite E in F2]; done.
    + (* the object has other buffers *)
      split.
      { intros b n j Hb Hj. destruct (Hvw b n j Hb Hj) as [<- <-]. split.
        - apply read_long_cell. simpl. apply Hol; done || congruence.
        - apply read_float_cell. simpl. apply Hof; done || congruence. }
      exists a3. split; [done|]. split; [done|]. right.
      destruct Hcase as [(E1 & E2 & _)|(F1 & F2 & _)].
      * rewrite E1, E2. done.
      * split; intros E; [rewrite E in F1|rewrite E in F2]; done.
Qed.

Lemma later_kept (B D : nat) (h1 : Store.store F) (o : Store.hyps_ref F)
    (v : BatchedHyps.t F) (lc : option Store.align_locals)
    (av : option (BatchedAlignments.t F))
    (ha : Store.store F) (oa : Store.hyps_ref F) (ala : option Store.align_ref)
    (h2 : Store.store F) (o2 : Store.hyps_ref F) (al2 : option Store.align_ref) :
  kept B D h1 o v lc av ha oa ala → later B D ha oa ala h2 o2 al2 →
  kept B D h1 o v lc av h2 o2 al2.
Proof.
  intros Hk Hl. induction Hl as [|hx ox alx c hy oy _ IH Hc Hadd|hx ox ax c hy ay _ IH Hc Hadd].
  - done.
  - destruct (kept_hyps_step B D h1 o v lc av hx ox alx c IH Hc) as (h3 & o3 & Hadd' & Hk').
    rewrite Hadd in Hadd'. by injection Hadd' as <- <-.
  - by apply (kept_align_step B D h1 o v lc av hx ox ax c hy ay).
Qed.

(** The views of the record that the conversion builds for index [i]. *)
Lemma hypothesis_ref_at_record_views (B D : nat) (h : Store.store F)
    (o : Store.hyps_ref F) (v : BatchedHyps.t F) (lc : option Store.align_locals)
    (av : option (BatchedAlignments.t F)) (fcv : option (tensor Z)) (i : Z)
    (r : Store.hypothesis_ref F) :
  Store.load_hyps h o = Ok v → wf B v →
  locals_match h lc av fcv → (∀ a, av = Some a → awf B D a) →
  in_range B i →
  Store.hypothesis_ref_at h o lc i = Ok r →
  record_views D o v lc av (Z.to_nat i) r.
Proof.
  intros Hv Hwf Hloc Hawf Hi Hr.
  destruct (hypothesis_ref_at_views B h o v lc i r Hv Hwf Hi Hr)
    as (len & Hlen & _ & _ & Hy & Ht).
  exists len. split; [done|]. split; [done|]. split; [done|].
  unfold Store.hypothesis_ref_at in Hr.
  apply bind_Ok_inv in Hr as (sc & _ & Hr).
  apply bind_Ok_inv in Hr as (len1 & _ & Hr).
  apply bind_Ok_inv in Hr as (tr & _ & Hr).
  apply bind_Ok_inv in Hr as (y & _ & Hr).
  apply bind_Ok_inv in Hr as (len2 & _ & Hr).
  apply bind_Ok_inv in Hr as (ti & _ & Hr).
  apply bind_Ok_inv in Hr as (ts & _ & Hr).
  apply bind_Ok_inv in Hr as (als & Hals & Hr).
  apply bind_Ok_inv in Hr as (fc & _ & Hr). injection Hr as <-. simpl.
  destruct lc as [x|], av as [a0|]; simpl in Hloc; try done.
  2:{ by injection Hals as <-. }
  destruct Hloc as (Hlens & Hlabs & Hlogs & _).
  pose proof (Hawf a0 eq_refl) as Ha.
  destruct (awf_labels B D a0 Ha) as [Hls _].
  pose proof (awf_logits_shape B D a0 Ha) as Hgs.
  unfold Store.deref_long, Store.deref_float in Hals. rewrite Hlabs, Hlogs, Hlens in Hals.
  apply bind_Ok_inv in Hals as (n & Hn & Hals).
  rewrite !bind_Ok in Hals. cbn beta in Hals.
  apply bind_Ok_inv in Hals as (pairs & Hpairs & Hals). injection Hals as <-.
  exists n, pairs. split.
  { unfold list_item, item in Hn. rewrite (awf_lengths B D a0 Ha) in Hn.
    rewrite norm_index_in_range in Hn by done. rewrite bind_Ok in Hn.
    destruct (BatchedAlignments.lengths a0 !! Z.to_nat i); [|done]. by injection Hn as ->. }
  split; [done|].
  apply traverse_Forall2 in Hpairs. split.
  { apply Forall2_length in Hpairs. unfold range in Hpairs.
    by rewrite length_seqZ in Hpairs. }
  intros j p Hj.
  destruct (Forall2_lookup_r _ _ _ _ _ Hpairs Hj) as (t & Ht' & Hp).
  unfold range in Ht'. apply lookup_seqZ in Ht' as [-> Hjn].
  split; [lia|].
  apply bind_Ok_inv in Hp as (lv & Hlv & Hp).
  apply bind_Ok_inv in Hp as (gv & Hgv & Hp). injection Hp as <-.
  unfold Store.item2_view in Hlv. rewrite Hls in Hlv.
  rewrite (norm_index_in_range B i Hi) in Hlv. rewrite bind_Ok in Hlv.
  unfold Store.item2_vec_view in Hgv. rewrite Hgs in Hgv.
  rewrite (norm_index_in_range B i Hi) in Hgv. rewrite bind_Ok in Hgv.
  rewrite Z.add_0_l in Hlv, Hgv.
  destruct (norm_index (Z.to_nat (BatchedAlignments._max_length a0)) (Z.of_nat j))
    as [jj|] eqn:Hjj; [|done].
  unfold norm_index in Hjj. case_bool_decide as Hin.
  - injection Hjj as <-. rewrite Nat2Z.id in Hlv, Hgv.
    injection Hlv as <-. injection Hgv as <-. done.
  - case_bool_decide; [lia|done].
Qed.

(** Read in a later state, a record is what it was. *)
Lemma kept_read_record (B D : nat) (h1 : Store.store F) (o : Store.hyps_ref F)
    (v : BatchedHyps.t F) (lc : option Store.align_locals)
    (av : option (BatchedAlignments.t F))
    (h2 : Store.store F) (o2 : Store.hyps_ref F) (al2 : option Store.align_ref)
    (b : nat) (r : Store.hypothesis_ref F) :
  kept B D h1 o v lc av h2 o2 al2 → record_views D o v lc av b r →
  read_record h2 r = read_record h1 r.
Proof.
  intros Hk (len & Hlen & Hy & Ht & Hal).
  destruct (k_hyps_views _ _ _ _ _ _ _ _ _ _ Hk b len Hlen) as [E1 E2].
  unfold read_record. rewrite Hy, Ht, E1, E2.
  pose proof (k_align _ _ _ _ _ _ _ _ _ _ Hk) as Halign.
  destruct lc as [x|], av as [a0|]; try (by rewrite Hal).
  destruct Hal as (n & pairs & Hn & -> & _ & Hpairs).
  destruct Halign as (_ & _ & _ & _ & Hvw & _).
  assert (mapM (read_pair h2) pairs = mapM (read_pair h1) pairs) as ->; [|done].
  apply Forall_mapM_ext. apply Forall_lookup. intros j p Hj.
  destruct (Hpairs j p Hj) as [Hjn ->].
  destruct (Hvw b n j Hn Hjn) as [L1 L2].
  unfold read_pair, read_label. simpl. by rewrite L1, L2.
Qed.

(** The frame confidence of the record that the conversion builds for
    index [i]: a list, not a view. *)
Lemma hypothesis_ref_at_confidence (B D : nat) (h : Store.store F)
    (o : Store.hyps_ref F) (lc : option Store.align_locals)
    (av : option (BatchedAlignments.t F)) (fcv : option (tensor Z)) (i : Z)
    (r : Store.hypothesis_ref F) :
  locals_match h lc av fcv → (∀ a, av = Some a → awf B D a) →
  in_range B i →
  Store.hypothesis_ref_at h o lc i = Ok r →
  match av, fcv with
  | Some a0, Some c =>
      ∃ n row, BatchedAlignments.lengths a0 !! Z.to_nat i = Some n
        ∧ row_slice c i n = Ok row
        ∧ Store.h_frame_confidence r = Some [row]
  | _, _ => Store.h_frame_confidence r = None
  end.
Proof.
  intros Hloc Hawf Hi Hr.
  unfold Store.hypothesis_ref_at in Hr.
  apply bind_Ok_inv in Hr as (sc & _ & Hr).
  apply bind_Ok_inv in Hr as (len1 & _ & Hr).
  apply bind_Ok_inv in Hr as (tr & _ & Hr).
  apply bind_Ok_inv in Hr as (y & _ & Hr).
  apply bind_Ok_inv in Hr as (len2 & _ & Hr).
  apply bind_Ok_inv in Hr as (ti & _ & Hr).
  apply bind_Ok_inv in Hr as (ts & _ & Hr).
  apply bind_Ok_inv in Hr as (als & _ & Hr).
  apply bind_Ok_inv in Hr as (fc & Hfc & Hr). injection Hr as <-. simpl.
  destruct lc as [x|], av as [a0|]; simpl in Hloc; try done.
  2:{ subst fcv. by injection Hfc as <-. }
  destruct Hloc as (Hlens & _ & _ & Hconf).
  pose proof (Hawf a0 eq_refl) as Ha.
  destruct (Store.frame_confidence x) as [l|], fcv as [c|]; try done.
  2:{ by injection Hfc as <-. }
  unfold Store.deref_long in Hfc. rewrite Hconf, Hlens in Hfc.
  apply bind_Ok_inv in Hfc as (n & Hn & Hfc).
  rewrite bind_Ok in Hfc. cbn beta in Hfc.
  apply bind_Ok_inv in Hfc as (row & Hrow & Hfc). injection Hfc as <-.
  exists n, row. split; [|done].
  unfold list_item, item in Hn. rewrite (awf_lengths B D a0 Ha) in Hn.
  rewrite norm_index_in_range in Hn by done. rewrite bind_Ok in Hn.
  destruct (BatchedAlignments.lengths a0 !! Z.to_nat i); [|done]. by injection Hn as ->.
Qed.

End views_props.

(** * The claims *)

(** ** The scenarios *)

Lemma valid_call1 : valid_call (F:=Q) 2 call1.
Proof. exact (bool_decide_unpack (valid_call 2 call1) I). Defined.

Lemma valid_call2 : valid_call (F:=Q) 2 call2.
Proof. exact (bool_decide_unpack (valid_call 2 call2) I). Defined.

Lemma scenario1_reachable : reachable 2 after_call1.
Proof.
  exists 2, 1, fresh_hyps, [call1].
  split; [reflexivity|]. split; [reflexivity|].
  split; [constructor; [exact valid_call1|constructor]|reflexivity].
Defined.

Lemma scenario2_reachable : reachable 2 after_call2.
Proof.
  exists 2, 1, fresh_hyps, [call1; call2].
  split; [reflexivity|]. split; [reflexivity|].
  split; [|reflexivity].
  constructor; [exact valid_call1|]. constructor; [exact valid_call2|constructor].
Defined.

Lemma valid_align_call2 : valid_align (F:=Q) 2 1 align_call2.
Proof. exact (bool_decide_unpack (valid_align 2 1 align_call2) I). Defined.

(** The calls of [later_calls_ex] return and respect the caller contract. *)
Lemma later_calls_ex_later :
  ∃ h3 o3 a3, later_calls_ex = Ok (h3, o3, a3)
    ∧ later 2 1 store_align_ex hyps_ex (Some align_ex) h3 o3 (Some a3).
Proof.
  eexists _, _, _. split; [vm_compute; reflexivity|].
  eapply later_align;
    [eapply later_align;
       [eapply later_hyps; [apply later_now|exact valid_call2|vm_compute; reflexivity]
       |exact valid_align_call2|vm_compute; reflexivity]
    |exact valid_align_call2|vm_compute; reflexivity].
Qed.

(** Without alignments the conversion of [hyps_ex] gives [records_ex]. *)
Lemma convert_store_ex :
  Store.batched_hyps_to_hypotheses store_ex hyps_ex None = Ok (store_ex, records_ex).
Proof. vm_compute. reflexivity. Qed.

(** ** Growth and the stored content *)

(** Doubling the buffers of [BatchedHyps] keeps what was written and fills
    the new columns with zeros. *)
Lemma hyps_allocate_more_keeps (F : Type) (HF : FloatDtype F) (B : nat)
    (s : BatchedHyps.t F) :
  wf B s →
  let s' := BatchedHyps._allocate_more s in
  let M := Z.to_nat (BatchedHyps._max_length s) in
  BatchedHyps._max_length s' = BatchedHyps._max_length s * 2
  ∧ wf_matrix B (M + M) (BatchedHyps.transcript s')
  ∧ wf_matrix B (M + M) (BatchedHyps.timesteps s')
  ∧ (∀ b j, (b < B)%nat → (j < M)%nat →
       elem (BatchedHyps.transcript s') b j = elem (BatchedHyps.transcript s) b j
       ∧ elem (BatchedHyps.timesteps s') b j = elem (BatchedHyps.timesteps s) b j)
  ∧ (∀ b j, (b < B)%nat → (M ≤ j < M + M)%nat →
       elem (BatchedHyps.transcript s') b j = Some 0
       ∧ elem (BatchedHyps.timesteps s') b j = Some 0).
Proof.
  intros Hwf. simpl.
  destruct (cat_zeros_matrix _ _ _ (wf_transcript B s Hwf)) as (H1 & H2 & H3).
  destruct (cat_zeros_matrix _ _ _ (wf_timesteps B s Hwf)) as (H4 & H5 & H6).
  split; [done|]. split; [done|]. split; [done|]. split.
  - intros b j Hb Hj. split; [by apply H2|by apply H5].
  - intros b j Hb Hj. split; [by apply H3|by apply H6].
Qed.

(** The labels and the frame confidence of [BatchedAlignments] grow in the
    same way. *)
Lemma align_allocate_more_keeps (F : Type) (HF : FloatDtype F) (B M : nat)
    (s s' : BatchedAlignments.t F) :
  wf_matrix B M (BatchedAlignments.labels s) →
  BatchedAlignments._allocate_more s = Ok s' →
  BatchedAlignments._max_length s' = BatchedAlignments._max_length s * 2
  ∧ wf_matrix B (M + M) (BatchedAlignments.labels s')
  ∧ (∀ b j, (b < B)%nat → (j < M)%nat →
       elem (BatchedAlignments.labels s') b j = elem (BatchedAlignments.labels s) b j)
  ∧ (∀ b j, (b < B)%nat → (M ≤ j < M + M)%nat →
       elem (BatchedAlignments.labels s') b j = Some 0).
Proof.
  intros Hlab Hs'. unfold BatchedAlignments._allocate_more in Hs'.
  apply bind_Ok_inv in Hs' as (fc & _ & Hs'). injection Hs' as <-. simpl.
  destruct (cat_zeros_matrix _ _ _ Hlab) as (H1 & H2 & H3). done.
Qed.

(** C1: the code departs from the claim for the logits.  [_allocate_more]
    concatenates along [dim=-1], which is the time axis of the labels but the
    [logits_dim] axis of the three-dimensional logits: after growth the
    capacity is two, the labels have two columns, and the logits still have
    one column, of vectors twice as wide.  The stored vector [[1, 2]] reads
    as [[1, 2, 0, 0]], there is no second column, and the call that caused
    the growth raises. *)
Theorem logits_grow_along_wrong_axis :
  ∃ a a' : BatchedAlignments.t Q,
    (a0 ← BatchedAlignments.__init__ 1 2 1 false; apply_align a0 align_call1) = Ok a
    ∧ BatchedAlignments._max_length a = 1
    ∧ BatchedAlignments.lengths a = [1]
    ∧ shape (BatchedAlignments.logits a) = [1; 1; 2]%nat
    ∧ item2_vec (BatchedAlignments.logits a) 0 0 = Ok [1%Q; 2%Q]
    ∧ BatchedAlignments._allocate_more a = Ok a'
    ∧ BatchedAlignments._max_length a' = 2
    ∧ shape (BatchedAlignments.labels a') = [1; 2]%nat
    ∧ shape (BatchedAlignments.logits a') = [1; 1; 4]%nat
    ∧ item2_vec (BatchedAlignments.logits a') 0 0 = Ok [1%Q; 2%Q; 0%Q; 0%Q]
    ∧ item2_vec (BatchedAlignments.logits a') 0 1 = Raise IndexError
    ∧ apply_align a align_call1 = Raise RuntimeError.
Proof. do 2 eexists. repeat split; reflexivity. Qed.

(** ** Ownership of the converted records *)

(** C2, as stated, fails: the [y_sequence] of a record is a view of the
    transcript buffer, so an in-place write to the buffer changes it. *)
Lemma in_place_write_shows_through :
  aliasing_scenario = Ok (Some [5], Some [99]).
Proof. vm_compute. reflexivity. Qed.

(** The records are not independent of the alignments either once the
    buffers of these have grown: the buffer of the output vectors has grown
    in width, and a later call for item 0, which respects the caller
    contract, writes into the output vector that the record of item 1
    views. *)
Lemma later_call_changes_grown_alignments :
  (valid_align 2 1 align_call3 ∧ valid_align 2 1 align_call2 ∧ valid_align 2 1 align_call4)
  ∧ grown_alignments_scenario = Ok (Some (8, [2%Q; 0%Q]), Some (8, [5%Q; 5%Q])).
Proof.
  split; [|vm_compute; reflexivity].
  split; [exact (bool_decide_unpack (valid_align 2 1 align_call3) I)|].
  split; [exact valid_align_call2|].
  exact (bool_decide_unpack (valid_align 2 1 align_call4) I).
Qed.

(** C2 (as amended).  Take a [BatchedHyps] that calls respecting the caller
    contract have led to and, if alignments are passed, a
    [BatchedAlignments] whose buffers have not grown, the buffers of the two
    objects being distinct tensors.  The conversion changes no buffer of its
    inputs (on an accelerator it adds the copies that [.cpu()] makes).  Read
    in the store, the records are the records of the conversion on the
    values: the score and the frame confidence of a record are copies (a
    Python float, and the Python list of
    [frame_confidence[b, :alignment_lengths[b]]]), while [y_sequence] and
    [timestep] are views on the transcript and timesteps buffers, which read
    [transcript[b, :lengths[b]]] and [timesteps[b, :lengths[b]]], and the
    alignment entry [t] of item [b], for [t < alignment_lengths[b]], is a
    pair of views that read [labels[b, t]] and [logits[b, t]], on the buffers
    of the alignments themselves when these are on the CPU, on the copies
    otherwise.  After any sequence of later calls of [add_results_] on the
    [BatchedHyps] and on the [BatchedAlignments], in any order, that respect
    the caller contract and return, every record reads as it did: its four
    payloads are unchanged, and a further call on the [BatchedHyps] returns.
    A direct write into a buffer at a position that a record views is seen
    through the record, as [aliasing_scenario] shows. *)
Theorem conversion_returns_views (F : Type) (HF : FloatDtype F) (B D : nat)
    (h h' : Store.store F) (o : Store.hyps_ref F) (v : BatchedHyps.t F)
    (al : option Store.align_ref) (av : option (BatchedAlignments.t F))
    (recs : list (Store.hypothesis_ref F)) :
  Store.load_hyps h o = Ok v → reachable B v →
  align_loaded B D h al av →
  NoDup (long_cells o al) →
  Store.batched_hyps_to_hypotheses h o al = Ok (h', recs) →
  extends h h'
  ∧ Store.load_hyps h' o = Ok v
  ∧ align_loaded B D h' al av
  ∧ length recs = B
  ∧ (∀ b r, recs !! b = Some r →
       BatchedHyps.scores v !! b = Some (Store.h_score r)
       ∧ Store.read_long h' (Store.h_y_sequence r) = Some (labels_of v b)
       ∧ Store.read_long h' (Store.h_timestep r) = Some (times_of v b)
       ∧ Store.v_loc (Store.h_y_sequence r) = Store.hr_transcript o
       ∧ Store.v_loc (Store.h_timestep r) = Store.hr_timesteps o
       ∧ ∀ a pairs p, al = Some a → Store.h_alignments r = Some pairs → p ∈ pairs →
           match Store.ar_device a with
           | Store.CPU =>
               Store.v_loc p.1 = Store.ar_labels a ∧ Store.v_loc p.2 = Store.ar_logits a
           | Store.CUDA =>
               (Store.v_loc p.1 ∉ dom (Store.longs h))
               ∧ (Store.v_loc p.2 ∉ dom (Store.floats h))
           end)
  ∧ (∀ b r, recs !! b = Some r →
       match av with
       | Some a0 =>
           ∃ n pairs, BatchedAlignments.lengths a0 !! b = Some n
             ∧ Store.h_alignments r = Some pairs
             ∧ length pairs = Z.to_nat n
             ∧ (∀ j p, pairs !! j = Some p →
                  ∃ x row,
                    item2 (BatchedAlignments.labels a0) (Z.of_nat b) (Z.of_nat j) = Ok x
                    ∧ item2_vec (BatchedAlignments.logits a0) (Z.of_nat b) (Z.of_nat j)
                      = Ok row
                    ∧ read_pair h' p = Some (x, row))
             ∧ match (if BatchedAlignments.with_frame_confidence a0
                      then BatchedAlignments.frame_confidence a0 else None) with
               | Some c =>
                   ∃ row, row_slice c (Z.of_nat b) n = Ok row
                     ∧ Store.h_frame_confidence r = Some [row]
               | None => Store.h_frame_confidence r = None
               end
       | None => Store.h_alignments r = None ∧ Store.h_frame_confidence r = None
       end)
  ∧ (∃ vrecs, batched_hyps_to_hypotheses v av = Ok vrecs
       ∧ Forall2 (λ r vr, read_record h' r = Some vr) recs vrecs)
  ∧ ∀ h'' o'' al'', later B D h' o al h'' o'' al'' →
      (∀ r, r ∈ recs → read_record h'' r = read_record h' r)
      ∧ ∀ c, valid_call B c → ∃ h3 o3, Store.add_results_ h'' o'' c = Ok (h3, o3).
Proof.
  intros Hv Hreach Hload Hnd Hconv.
  destruct (reachable_inv B v Hreach) as [Hwf _].
  pose proof (convert_extends h h' o al recs Hconv) as Hext.
  pose proof (load_hyps_extends h h' o v Hext Hv) as Hv'.
  pose proof (load_hyps_inv h' o v Hv') as (Htr & Hti & HM & Hl & Hs).
  destruct (convert_locals B D h h' o v al av recs Hload Hconv)
    as (lc & fcv & Hrecs & Hmatch & Hval & Hfcv & Hwhere).
  pose proof (kept_init B D h h' o v al av lc fcv Hv Hwf Hload Hnd Hext Hmatch Hwhere)
    as Hk0.
  assert (Hawf : ∀ a, av = Some a → awf B D a).
  { intros a ->. destruct al; simpl in Hload; [apply Hload|done]. }
  assert (Hat : ∀ b r, recs !! b = Some r →
            (b < B)%nat ∧ Store.hypothesis_ref_at h' o lc (Z.of_nat b) = Ok r).
  { intros b r Hb. pose proof Hrecs as Hall. apply traverse_Forall2 in Hall.
    destruct (Forall2_lookup_r _ _ _ _ _ Hall Hb) as (i & Hi & Hat).
    unfold range in Hi. apply lookup_seqZ in Hi as [-> Hlt].
    rewrite <- Hs, (wf_scores B v Hwf) in Hlt. rewrite Z.add_0_l in Hat.
    split; [lia|done]. }
  assert (Hrv : ∀ b r, recs !! b = Some r → record_views D o v lc av b r).
  { intros b r Hb. destruct (Hat b r Hb) as [HbB Hr].
    rewrite <- (Nat2Z.id b).
    apply (hypothesis_ref_at_record_views B D h' o v lc av fcv); try done.
    unfold in_range. lia. }
  split; [done|]. split; [done|]. split.
  { destruct al as [a|], av as [a0|]; simpl in Hload |- *; try done.
    destruct Hload as [Ha Hw]. split; [|done]. by apply (load_align_extends h h'). }
  split.
  { apply traverse_Forall2, Forall2_length in Hrecs.
    unfold range in Hrecs. rewrite length_seqZ, Nat2Z.id in Hrecs.
    rewrite <- Hrecs, <- Hs. apply (wf_scores B v Hwf). }
  split.
  { intros b r Hb. destruct (Hat b r Hb) as [HbB Hr].
    destruct (hypothesis_ref_at_views B h' o v lc (Z.of_nat b) r Hv' Hwf) as
      (len & Hlen & Hbd & Hsc & Hy & Ht); [unfold in_range; lia|done|].
    rewrite Nat2Z.id in Hlen, Hsc, Hy, Ht.
    split; [done|]. unfold labels_of, times_of. rewrite Hlen, Hy, Ht.
    split; [apply (read_row_view B); [done|apply (wf_transcript B v Hwf)|lia]|].
    split; [apply (read_row_view B); [done|apply (wf_timesteps B v Hwf)|lia]|].
    split; [done|]. split; [done|].
    intros a pairs p -> Hpairs Hp.
    destruct (Hrv b r Hb) as (_ & _ & _ & _ & Hal).
    destruct lc as [x|]; [|done]. destruct av as [a0|]; [|done].
    destruct Hal as (n & pairs' & _ & Hpairs' & _ & Hall).
    assert (pairs' = pairs) as -> by congruence.
    apply list_elem_of_lookup in Hp as [j Hj].
    destruct (Hall j p Hj) as [_ ->]. simpl.
    destruct (Store.ar_device a); [|done].
    destruct Hwhere as (E1 & E2 & _). done. }
  split.
  { intros b r Hb. destruct (Hat b r Hb) as [HbB Hr].
    destruct (Hrv b r Hb) as (_ & _ & _ & _ & Hal).
    pose proof (hypothesis_ref_at_confidence B D h' o lc av fcv (Z.of_nat b) r Hmatch Hawf)
      as Hcf.
    rewrite Nat2Z.id in Hcf. specialize (Hcf ltac:(unfold in_range; lia) Hr).
    destruct av as [a0|].
    2:{ destruct lc; [done|]. simpl in Hmatch. subst fcv. done. }
    destruct lc as [x|]; [|done].
    destruct Hal as (n & pairs & Hn & Hpairs & Hlen & Hall).
    pose proof Hmatch as (_ & Hlabs & Hlogs & _).
    pose proof (Hawf a0 eq_refl) as Ha.
    exists n, pairs. do 3 (split; [done|]). split.
    2:{ rewrite <- Hfcv. destruct fcv as [c|]; [|done].
        destruct Hcf as (n' & row & Hn' & Hrow & Hfc).
        assert (n' = n) as -> by congruence. by exists row. }
    intros j p Hj.
    destruct (Hall j p Hj) as [Hjn ->].
    assert (0 ≤ n ≤ BatchedAlignments._max_length a0) as Hbd.
    { pose proof (awf_bound B D a0 Ha) as Hb2. rewrite Forall_forall in Hb2.
      apply Hb2. by eapply list_elem_of_lookup_2. }
    destruct (read_label_view B _ h' _ _ b j Hlabs (awf_labels B D a0 Ha) HbB)
      as (y & Hy & Hry); [lia|].
    destruct (read_vec_view B _ D h' _ _ b j Hlogs (awf_logits_shape B D a0 Ha) HbB)
      as (Hrow & Hrr); [lia|].
    eexists y, _. split; [done|]. split; [done|].
    unfold read_pair, read_label, label_view, logits_view. simpl.
    rewrite Hry. simpl. rewrite Hrr. done. }
  split.
  { rewrite Hval, Hs.
    apply (traverse_refine (Store.hypothesis_ref_at h' o lc)); [|done].
    intros i r _ Hr.
    apply (hypothesis_ref_at_reads B D h' o v lc av fcv i r); done. }
  intros h'' o'' al'' Hlater.
  pose proof (later_kept B D h' o v lc av h' o al h'' o'' al'' Hk0 Hlater) as Hk.
  split.
  - intros r Hr. apply list_elem_of_lookup in Hr as [b Hb].
    apply (kept_read_record B D h' o v lc av h'' o'' al'' b); [done|by apply Hrv].
  - intros c Hc.
    destruct (kept_hyps_step B D h' o v lc av h'' o'' al'' c Hk Hc) as (h3 & o3 & Hadd & _).
    by exists h3, o3.
Qed.

Lemma conversion_returns_views_witness :
  (Store.load_hyps store_align_ex hyps_ex = Ok after_call1
   ∧ reachable 2 after_call1
   ∧ align_loaded 2 1 store_align_ex (Some align_ex) (Some align_room)
   ∧ NoDup (long_cells hyps_ex (Some align_ex))
   ∧ Store.batched_hyps_to_hypotheses store_align_ex hyps_ex (Some align_ex)
     = Ok (store_align_ex, records_align_ex))
  ∧ extends store_align_ex store_align_ex
  ∧ Store.load_hyps store_align_ex hyps_ex = Ok after_call1
  ∧ align_loaded 2 1 store_align_ex (Some align_ex) (Some align_room)
  ∧ length records_align_ex = 2%nat
  ∧ (∀ b r, records_align_ex !! b = Some r →
       BatchedHyps.scores after_call1 !! b = Some (Store.h_score r)
       ∧ Store.read_long store_align_ex (Store.h_y_sequence r)
         = Some (labels_of after_call1 b)
       ∧ Store.read_long store_align_ex (Store.h_timestep r)
         = Some (times_of after_call1 b)
       ∧ Store.v_loc (Store.h_y_sequence r) = Store.hr_transcript hyps_ex
       ∧ Store.v_loc (Store.h_timestep r) = Store.hr_timesteps hyps_ex
       ∧ ∀ a pairs p, Some align_ex = Some a → Store.h_alignments r = Some pairs →
           p ∈ pairs →
           match Store.ar_device a with
           | Store.CPU =>
               Store.v_loc p.1 = Store.ar_labels a ∧ Store.v_loc p.2 = Store.ar_logits a
           | Store.CUDA =>
               (Store.v_loc p.1 ∉ dom (Store.longs store_align_ex))
               ∧ (Store.v_loc p.2 ∉ dom (Store.floats store_align_ex))
           end)
  ∧ (∀ b r, records_align_ex !! b = Some r →
       ∃ n pairs, BatchedAlignments.lengths align_room !! b = Some n
         ∧ Store.h_alignments r = Some pairs
         ∧ length pairs = Z.to_nat n
         ∧ (∀ j p, pairs !! j = Some p →
              ∃ x row,
                item2 (BatchedAlignments.labels align_room) (Z.of_nat b) (Z.of_nat j)
                = Ok x
                ∧ item2_vec (BatchedAlignments.logits align_room) (Z.of_nat b)
                    (Z.of_nat j) = Ok row
                ∧ read_pair store_align_ex p = Some (x, row))
         ∧ Store.h_frame_confidence r = None)
  ∧ (∃ vrecs, batched_hyps_to_hypotheses after_call1 (Some align_room) = Ok vrecs
       ∧ Forall2 (λ r vr, read_record store_align_ex r = Some vr) records_align_ex vrecs)
  ∧ ∀ h'' o'' al'',
      later 2 1 store_align_ex hyps_ex (Some align_ex) h'' o'' al'' →
      (∀ r, r ∈ records_align_ex →
         read_record h'' r = read_record store_align_ex r)
      ∧ ∀ c, valid_call 2 c → ∃ h3 o3, Store.add_results_ h'' o'' c = Ok (h3, o3).
Proof.
  assert (Store.load_hyps store_align_ex hyps_ex = Ok after_call1) as H1
    by (vm_compute; reflexivity).
  assert (align_loaded 2 1 store_align_ex (Some align_ex) (Some align_room)) as H2.
  { split; [vm_compute; reflexivity|].
    apply mk_awf; try (vm_compute; lia); try (vm_compute; reflexivity).
    - simpl. repeat (constructor; [lia|]). constructor.
    - split; vm_compute; reflexivity. }
  assert (NoDup (long_cells hyps_ex (Some align_ex))) as H3.
  { exact (bool_decide_unpack (NoDup [0; 1; 2]%nat) I). }
  assert (Store.batched_hyps_to_hypotheses store_align_ex hyps_ex (Some align_ex)
          = Ok (store_align_ex, records_align_ex)) as H4 by (vm_compute; reflexivity).
  split; [exact (conj H1 (conj scenario1_reachable (conj H2 (conj H3 H4))))|].
  exact (conversion_returns_views Q Q_float 2 1 store_align_ex store_align_ex hyps_ex
           after_call1 (Some align_ex) (Some align_room) records_align_ex
           H1 scenario1_reachable H2 H3 H4).
Defined.

(** ** Frame confidence *)

(** C3: the code departs from the claim.  The confidence buffer is
    allocated with [dtype=torch.long], so the indexed assignment refuses a
    floating-point confidence tensor and nothing is stored; only an integer
    tensor is stored as it is. *)
Theorem float_confidence_not_stored :
  ∃ a a' : BatchedAlignments.t Q,
    BatchedAlignments.__init__ 1 1 1 true = Ok a
    ∧ BatchedAlignments.frame_confidence a = Some (Tensor [1; 1]%nat [0])
    ∧ apply_align a (mkAlignCall [0] (Tensor [1; 1]%nat [0%Q]) [0]
                       (Some (FloatTensor [(1 # 2)%Q])))
      = Raise RuntimeError
    ∧ apply_align a (mkAlignCall [0] (Tensor [1; 1]%nat [0%Q]) [0]
                       (Some (LongTensor [7])))
      = Ok a'
    ∧ BatchedAlignments.frame_confidence a' = Some (Tensor [1; 1]%nat [7]).
Proof. do 2 eexists. repeat split; reflexivity. Qed.

(** A session built without tracking has no confidence buffer, and keeps
    none whatever confidence the calls pass. *)
Lemma untracked_session_has_no_buffer (F : Type) (HF : FloatDtype F)
    (batch_size logits_dim init_length : Z) (s0 s : BatchedAlignments.t F)
    (cs : list (align_call F)) :
  BatchedAlignments.__init__ batch_size logits_dim init_length false = Ok s0 →
  foldl (λ r c, s ← r; apply_align s c) (Ok s0) cs = Ok s →
  BatchedAlignments.frame_confidence s = None.
Proof.
  intros Hinit. pose proof (align_init_untracked _ _ _ _ Hinit) as Hu.
  clear Hinit. revert s0 Hu. induction cs as [|c cs IH]; intros s0 Hu; simpl.
  - intros [= <-]. apply Hu.
  - destruct (apply_align s0 c) as [s1|e] eqn:Hs1.
    + apply IH. by eapply align_step_untracked.
    + intros Hf. exfalso. clear -Hf. induction cs as [|c' cs IH]; [discriminate|].
      simpl in Hf. by apply IH.
Qed.

(** With output vectors of width one the call that causes the growth
    returns: the second vector of item 0 is then written over the row of
    item 1, whose length is still zero. *)
Lemma logits_written_to_other_row :
  (a0 ← BatchedAlignments.__init__ 2 1 1 false; apply_align a0 align_call2) = Ok align_after1
  ∧ apply_align align_after1 align_call2 = Ok align_after2
  ∧ BatchedAlignments.lengths align_after2 = [2; 0]
  ∧ shape (BatchedAlignments.logits align_after2) = [2; 1; 2]%nat
  ∧ item2_vec (BatchedAlignments.logits align_after2) 0 0 = Ok [1%Q; 0%Q]
  ∧ item2_vec (BatchedAlignments.logits align_after2) 1 0 = Ok [1%Q; 1%Q].
Proof. repeat split; reflexivity. Qed.

(** ** Construction *)

(** C4 (as amended).  [BatchedHyps] and [BatchedAlignments] raise
    [ValueError] exactly when [batch_size <= 0] or [init_length <= 0];
    [logits_dim] is not validated by [BatchedAlignments] (a negative value
    makes [torch.zeros] raise [RuntimeError], zero is accepted); otherwise the
    object is built with zero buffers, zero lengths and scores, and
    [last_timestep] equal to -1. *)
Theorem construction_validation :
  (∀ (F : Type) (HF : FloatDtype F) (batch_size init_length : Z),
     BatchedHyps.__init__ (F:=F) batch_size init_length
     = if bool_decide (batch_size ≤ 0 ∨ init_length ≤ 0) then Raise ValueError
       else Ok (BatchedHyps.mk init_length
                  (replicate (Z.to_nat batch_size) 0)
                  (Tensor [Z.to_nat batch_size; Z.to_nat init_length]
                     (replicate (Z.to_nat batch_size * (Z.to_nat init_length * 1)) 0))
                  (Tensor [Z.to_nat batch_size; Z.to_nat init_length]
                     (replicate (Z.to_nat batch_size * (Z.to_nat init_length * 1)) 0))
                  (replicate (Z.to_nat batch_size) f_zero)
                  (replicate (Z.to_nat batch_size) 0)
                  (replicate (Z.to_nat batch_size) (-1))))
  ∧ (∀ (F : Type) (HF : FloatDtype F) (batch_size logits_dim init_length : Z) (track : bool),
       BatchedAlignments.__init__ (F:=F) batch_size logits_dim init_length track
       = if bool_decide (batch_size ≤ 0 ∨ init_length ≤ 0) then Raise ValueError
         else if bool_decide (logits_dim < 0) then Raise RuntimeError
         else Ok (BatchedAlignments.mk track init_length
                    (Tensor (Z.to_nat <$> [batch_size; init_length; logits_dim])
                       (replicate (numel (Z.to_nat <$> [batch_size; init_length; logits_dim]))
                          f_zero))
                    (Tensor (Z.to_nat <$> [batch_size; init_length])
                       (replicate (numel (Z.to_nat <$> [batch_size; init_length])) 0))
                    (replicate (Z.to_nat batch_size) 0)
                    (if track
                     then Some (Tensor (Z.to_nat <$> [batch_size; init_length])
                                  (replicate (numel (Z.to_nat <$> [batch_size; init_length])) 0))
                     else None))).
Proof.
  split.
  - intros F HF batch_size init_length. case_bool_decide as Hbad.
    + unfold BatchedHyps.__init__. repeat case_bool_decide; try done. lia.
    + apply init_Ok; lia.
  - intros F HF batch_size logits_dim init_length track. apply align_init_eq.
Qed.

(** C4, as stated, fails: a [logits_dim] of zero is not refused. *)
Lemma zero_logits_dim_accepted :
  BatchedAlignments.__init__ (F:=Q) 1 0 1 false
  = Ok (BatchedAlignments.mk false 1 (Tensor [1; 1; 0]%nat []) (Tensor [1; 1]%nat [0]) [0] None).
Proof. reflexivity. Qed.

(** ** When the buffers grow *)

(** C5 (as amended).  On a call with a non-empty [active_indices] that
    returns, the capacity has doubled exactly when the largest length over
    all batch items, active or not, had reached it; this holds for both
    classes. *)
Theorem growth_on_global_max :
  (∀ (F : Type) (HF : FloatDtype F) (s s' : BatchedHyps.t F) (c : hyps_call F),
     c_active c ≠ [] → apply_call s c = Ok s' →
     ∃ m, tensor_max (BatchedHyps.lengths s) = Ok m
       ∧ Forall (λ l, l ≤ m) (BatchedHyps.lengths s) ∧ m ∈ BatchedHyps.lengths s
       ∧ BatchedHyps._max_length s'
         = (if bool_decide (BatchedHyps._max_length s ≤ m)
            then BatchedHyps._max_length s * 2 else BatchedHyps._max_length s))
  ∧ (∀ (F : Type) (HF : FloatDtype F) (s s' : BatchedAlignments.t F) (c : align_call F),
       a_active c ≠ [] → apply_align s c = Ok s' →
       ∃ m, tensor_max (BatchedAlignments.lengths s) = Ok m
         ∧ Forall (λ l, l ≤ m) (BatchedAlignments.lengths s)
         ∧ m ∈ BatchedAlignments.lengths s
         ∧ BatchedAlignments._max_length s'
           = (if bool_decide (BatchedAlignments._max_length s ≤ m)
              then BatchedAlignments._max_length s * 2
              else BatchedAlignments._max_length s)).
Proof.
  split.
  - intros F HF s s' c Hne Hs'.
    destruct (add_results_capacity s s' c Hne Hs') as (m & Hm & Hmax).
    destruct (tensor_max_spec _ _ Hm). exists m. done.
  - intros F HF s s' c Hne Hs'.
    destruct (align_capacity s s' c Hne Hs') as (m & Hm & Hmax).
    destruct (tensor_max_spec _ _ Hm). exists m. done.
Qed.

Lemma growth_on_global_max_witness :
  ((c_active call2 ≠ [] ∧ apply_call after_call1 call2 = Ok after_call2)
   ∧ ∃ m, tensor_max (BatchedHyps.lengths after_call1) = Ok m
       ∧ Forall (λ l, l ≤ m) (BatchedHyps.lengths after_call1)
       ∧ m ∈ BatchedHyps.lengths after_call1
       ∧ BatchedHyps._max_length after_call2
         = (if bool_decide (BatchedHyps._max_length after_call1 ≤ m)
            then BatchedHyps._max_length after_call1 * 2
            else BatchedHyps._max_length after_call1))
  ∧ ((a_active align_call2 ≠ [] ∧ apply_align align_after1 align_call2 = Ok align_after2)
     ∧ ∃ m, tensor_max (BatchedAlignments.lengths align_after1) = Ok m
         ∧ Forall (λ l, l ≤ m) (BatchedAlignments.lengths align_after1)
         ∧ m ∈ BatchedAlignments.lengths align_after1
         ∧ BatchedAlignments._max_length align_after2
           = (if bool_decide (BatchedAlignments._max_length align_after1 ≤ m)
              then BatchedAlignments._max_length align_after1 * 2
              else BatchedAlignments._max_length align_after1)).
Proof.
  assert (c_active call2 ≠ []) as H1 by done.
  assert (apply_call after_call1 call2 = Ok after_call2) as H2 by reflexivity.
  assert (a_active align_call2 ≠ []) as H3 by done.
  assert (apply_align align_after1 align_call2 = Ok align_after2) as H4 by reflexivity.
  split.
  - split; [split; [exact H1|exact H2]|].
    exact (proj1 growth_on_global_max Q Q_float after_call1 after_call2 call2 H1 H2).
  - split; [split; [exact H3|exact H4]|].
    exact (proj2 growth_on_global_max Q Q_float align_after1 align_after2 align_call2 H3 H4).
Defined.

(** C5, as stated, fails: the only active item is empty, below the capacity
    of one, and the buffers are doubled all the same because the other item
    is full. *)
Lemma growth_for_inactive_item :
  ∃ s s' : BatchedHyps.t Q,
    scenario [call1] = Ok s
    ∧ BatchedHyps._max_length s = 1
    ∧ BatchedHyps.lengths s = [1; 0]
    ∧ index_select (BatchedHyps.lengths s) [1] = Ok [0]
    ∧ apply_call s (mkHypsCall [1] [4] [2] [1%Q]) = Ok s'
    ∧ BatchedHyps._max_length s' = 2
    ∧ shape (BatchedHyps.transcript s') = [2; 2]%nat.
Proof. do 2 eexists. repeat split; reflexivity. Qed.

(** ** Appending *)

(** C6.  From any object that the decoding loop can hold, a call that
    respects the caller contract returns, and for every entry
    [(b, label, t, d)] of the call the score of [b] is increased by [d], the
    label and the time index are stored at column [lengths[b]] of row [b],
    [last_timestep_lasts[b]] is incremented when [last_timestep[b]] equals
    [t] and set to one otherwise, [last_timestep[b]] becomes [t] and
    [lengths[b]] grows by one; the items that the call does not name keep
    all of this.  With a batch of two and an initial length of one, label 5
    at time 1 with score 1/2 for item 0 and then labels 2 and 4 at times 1
    and 2 with scores 1 for items 0 and 1 give lengths [[2, 1]], labels
    [[5, 2]] and [[4]], times [[1, 1]] and [[2]], scores [[3/2, 1]], last
    time steps [[1, 2]] and repeat counts [[2, 1]]. *)
Theorem add_results_per_item :
  (∀ (F : Type) (HF : FloatDtype F) (B : nat) (s : BatchedHyps.t F) (c : hyps_call F),
     reachable B s → valid_call B c →
     ∃ s', apply_call s c = Ok s'
       ∧ (∀ k b label t d, c_active c !! k = Some b → c_labels c !! k = Some label →
            c_times c !! k = Some t → c_scores c !! k = Some d →
            item_post s s' (Z.to_nat b) label t d)
       ∧ (∀ b, (b < B)%nat → Z.of_nat b ∉ c_active c → other_post s s' b))
  ∧ scenario [call1] = Ok after_call1
  ∧ scenario [call1; call2] = Ok after_call2
  ∧ BatchedHyps.lengths after_call2 = [2; 1]
  ∧ labels_of after_call2 0 = [5; 2]
  ∧ labels_of after_call2 1 = [4]
  ∧ times_of after_call2 0 = [1; 1]
  ∧ times_of after_call2 1 = [2]
  ∧ BatchedHyps.scores after_call2 = [(3 # 2)%Q; 1%Q]
  ∧ BatchedHyps.last_timestep after_call2 = [1; 2]
  ∧ BatchedHyps.last_timestep_lasts after_call2 = [2; 1].
Proof.
  split; [|repeat split; reflexivity].
  intros F HF B s c Hreach Hc.
  destruct (reachable_inv B s Hreach) as [Hwf _].
  destruct (apply_call_history B s c Hwf Hc) as (s' & Hs' & _ & Hact & Hoth).
  exists s'. done.
Qed.

Lemma add_results_per_item_witness :
  (reachable 2 after_call1 ∧ valid_call 2 call2)
  ∧ ∃ s', apply_call after_call1 call2 = Ok s'
      ∧ (∀ k b label t d, c_active call2 !! k = Some b → c_labels call2 !! k = Some label →
           c_times call2 !! k = Some t → c_scores call2 !! k = Some d →
           item_post after_call1 s' (Z.to_nat b) label t d)
      ∧ (∀ b, (b < 2)%nat → Z.of_nat b ∉ c_active call2 → other_post after_call1 s' b).
Proof.
  split; [split; [exact scenario1_reachable|exact valid_call2]|].
  exact (proj1 add_results_per_item Q Q_float 2%nat after_call1 call2
           scenario1_reachable valid_call2).
Defined.

(** ** Conversion *)

(** C7.  For an object that the decoding loop can hold, a conversion that
    returns gives one record per batch index, in the order of the indices;
    the record of [b] has the score [scores[b]], the labels
    [transcript[b, :lengths[b]]] and the time indices
    [timesteps[b, :lengths[b]]], both of length [lengths[b]] exactly.  The
    conversion without alignments always returns.  After the two calls of
    the test the records are [[5, 2]] with score 3/2 and times [[1, 1]], and
    [[4]] with score 1 and times [[2]]. *)
Theorem convert_trims_to_length :
  (∀ (F : Type) (HF : FloatDtype F) (B : nat) (s : BatchedHyps.t F)
     (al : option (BatchedAlignments.t F)) (recs : list (Hypothesis_ F)),
     reachable B s → batched_hyps_to_hypotheses s al = Ok recs →
     length recs = B
     ∧ ∀ b r, recs !! b = Some r →
         ∃ len, BatchedHyps.lengths s !! b = Some len
           ∧ BatchedHyps.scores s !! b = Some (score r)
           ∧ y_sequence r = row_prefix (BatchedHyps.transcript s) b (Z.to_nat len)
           ∧ timestep r = row_prefix (BatchedHyps.timesteps s) b (Z.to_nat len)
           ∧ length (y_sequence r) = Z.to_nat len
           ∧ length (timestep r) = Z.to_nat len)
  ∧ (∀ (F : Type) (HF : FloatDtype F) (B : nat) (s : BatchedHyps.t F),
       reachable B s → is_Ok (batched_hyps_to_hypotheses s None))
  ∧ (s ← scenario [call1; call2]; batched_hyps_to_hypotheses s None)
    = Ok records_after_call2.
Proof.
  split; [|split; [|reflexivity]].
  - intros F HF B s al recs Hreach Hrecs.
    destruct (reachable_inv B s Hreach) as [Hwf _].
    destruct (convert_records B s al recs Hwf Hrecs) as [Hlen Hall].
    split; [done|]. intros b r Hb.
    destruct (Hall b r Hb) as (Hsc & Hy & Ht & _).
    destruct (lookup_lt_is_Some_2 (BatchedHyps.lengths s) b) as [len Hl].
    { rewrite (wf_lengths B s Hwf), <- Hlen. by eapply lookup_lt_Some. }
    destruct (times_of_length B s b len Hwf Hl) as [Hl1 Hl2].
    exists len. unfold labels_of in Hy, Hl2. unfold times_of in Ht, Hl1.
    rewrite Hl in Hy, Ht, Hl1, Hl2. rewrite Hy, Ht. done.
  - intros F HF B s Hreach.
    destruct (reachable_inv B s Hreach) as [Hwf _]. by apply (convert_hyps_Ok B).
Qed.

Lemma convert_trims_to_length_witness :
  (reachable 2 after_call2
   ∧ batched_hyps_to_hypotheses after_call2 None = Ok records_after_call2)
  ∧ length records_after_call2 = 2%nat
  ∧ ∀ b r, records_after_call2 !! b = Some r →
      ∃ len, BatchedHyps.lengths after_call2 !! b = Some len
        ∧ BatchedHyps.scores after_call2 !! b = Some (score r)
        ∧ y_sequence r = row_prefix (BatchedHyps.transcript after_call2) b (Z.to_nat len)
        ∧ timestep r = row_prefix (BatchedHyps.timesteps after_call2) b (Z.to_nat len)
        ∧ length (y_sequence r) = Z.to_nat len
        ∧ length (timestep r) = Z.to_nat len.
Proof.
  assert (batched_hyps_to_hypotheses after_call2 None = Ok records_after_call2) as H
    by reflexivity.
  split; [split; [exact scenario2_reachable|exact H]|].
  exact (proj1 convert_trims_to_length Q Q_float 2%nat after_call2 None
           records_after_call2 scenario2_reachable H).
Defined.

(** ** Invariants of the stored time indices *)

(** C8.  After every prefix of a sequence of calls that respect the caller
    contract, started from a fresh object, every item [b] of the batch has
    its two counters, and [last_timestep_lasts[b]] is the number of trailing
    entries of [timesteps[b, :lengths[b]]] that equal its last entry; these
    entries equal [last_timestep[b]], and the entry before them, when there
    is one, differs. *)
Theorem repeat_count_invariant (F : Type) (HF : FloatDtype F)
    (batch_size init_length : Z) (s0 : BatchedHyps.t F) (cs : list (hyps_call F)) (n : nat) :
  BatchedHyps.__init__ batch_size init_length = Ok s0 →
  Forall (valid_call (Z.to_nat batch_size)) cs →
  ∃ s, run s0 (take n cs) = Ok s
    ∧ ∀ b, (b < Z.to_nat batch_size)%nat →
        ∃ lt ltl,
          BatchedHyps.last_timestep s !! b = Some lt
          ∧ BatchedHyps.last_timestep_lasts s !! b = Some ltl
          ∧ let p := times_of s b in
            ltl = Z.of_nat (trailing_run p)
            ∧ (trailing_run p ≤ length p)%nat
            ∧ Forall (λ t, t = lt) (drop (length p - trailing_run p) p)
            ∧ (∀ j y, S j = (length p - trailing_run p)%nat → p !! j = Some y → y ≠ lt).
Proof.
  intros Hinit Hcs.
  destruct (run_wf (Z.to_nat batch_size) s0 (take n cs)) as (s & Hs & _).
  { by eapply init_wf. }
  { by apply Forall_take. }
  exists s. split; [done|].
  assert (reachable (Z.to_nat batch_size) s) as Hreach.
  { exists batch_size, init_length, s0, (take n cs).
    split; [done|]. split; [done|]. split; [by apply Forall_take|done]. }
  destruct (reachable_inv _ _ Hreach) as [Hwf Hinv].
  intros b Hb.
  destruct (lookup_lt_is_Some_2 (BatchedHyps.last_timestep s) b) as [lt Hlt].
  { by rewrite (wf_last _ _ Hwf). }
  destruct (lookup_lt_is_Some_2 (BatchedHyps.last_timestep_lasts s) b) as [ltl Hltl].
  { by rewrite (wf_lasts _ _ Hwf). }
  exists lt, ltl. split; [done|]. split; [done|]. intros p.
  destruct (Hinv b Hb lt ltl Hlt Hltl) as [Hrun Hlast]. fold p in Hrun, Hlast.
  split; [done|]. split; [apply trailing_run_le|].
  destruct (decide (p = [])) as [Hnil|Hne].
  - rewrite Hnil. split; [done|]. intros j y _ Hy. done.
  - split.
    + apply trailing_run_block. by apply Hlast.
    + intros j y Hj Hy. eapply trailing_run_maximal; [by apply Hlast|done|done].
Qed.

Lemma repeat_count_invariant_witness :
  (BatchedHyps.__init__ 2 1 = Ok fresh_hyps ∧ Forall (valid_call 2) [call1; call2])
  ∧ ∃ s, run fresh_hyps (take 2 [call1; call2]) = Ok s
      ∧ ∀ b, (b < Z.to_nat 2)%nat →
          ∃ lt ltl,
            BatchedHyps.last_timestep s !! b = Some lt
            ∧ BatchedHyps.last_timestep_lasts s !! b = Some ltl
            ∧ let p := times_of s b in
              ltl = Z.of_nat (trailing_run p)
              ∧ (trailing_run p ≤ length p)%nat
              ∧ Forall (λ t, t = lt) (drop (length p - trailing_run p) p)
              ∧ (∀ j y, S j = (length p - trailing_run p)%nat → p !! j = Some y → y ≠ lt).
Proof.
  assert (BatchedHyps.__init__ 2 1 = Ok fresh_hyps) as H1 by reflexivity.
  assert (Forall (valid_call 2) [call1; call2]) as H2.
  { constructor; [exact valid_call1|]. constructor; [exact valid_call2|constructor]. }
  split; [split; [exact H1|exact H2]|].
  exact (repeat_count_invariant Q Q_float 2 1 fresh_hyps [call1; call2] 2 H1 H2).
Defined.

(** C9, as stated, fails: nothing compares a new time index with the stored
    ones, so a caller that goes back in time gets a decreasing sequence. *)
Lemma time_indices_can_decrease :
  ∃ s : BatchedHyps.t Q,
    Forall (valid_call 1) [mkHypsCall [0] [7] [5] [0%Q]; mkHypsCall [0] [8] [3] [0%Q]]
    ∧ (s0 ← BatchedHyps.__init__ 1 2;
       run s0 [mkHypsCall [0] [7] [5] [0%Q]; mkHypsCall [0] [8] [3] [0%Q]]) = Ok s
    ∧ times_of s 0 = [5; 3]
    ∧ ¬ nondecreasing (times_of s 0).
Proof.
  eexists. split; [|split; [reflexivity|split; [reflexivity|]]].
  - repeat constructor; simpl; try lia; set_solver.
  - intros Hmono. specialize (Hmono 0%nat 5 3 eq_refl eq_refl). lia.
Qed.

(** C9 (as amended).  When every call passes, for each item that already
    has an entry, a time index that is not before [last_timestep] of the
    item, the stored sequence [timesteps[b, :lengths[b]]] is non-decreasing
    after the calls. *)
Theorem time_indices_nondecreasing (F : Type) (HF : FloatDtype F)
    (batch_size init_length : Z) (s0 : BatchedHyps.t F) (cs : list (hyps_call F)) :
  BatchedHyps.__init__ batch_size init_length = Ok s0 →
  Forall (valid_call (Z.to_nat batch_size)) cs →
  ordered_run s0 cs = true →
  ∃ s, run s0 cs = Ok s ∧ ∀ b, nondecreasing (times_of s b).
Proof.
  intros Hinit Hcs Hord.
  pose proof (init_wf _ _ _ Hinit) as Hwf0.
  destruct (run_nondecreasing (Z.to_nat batch_size) s0 cs) as (s & Hs & Hmono); try done.
  - intros b _. by eapply init_repeat_inv.
  - intros b _. destruct (init_times_of _ _ _ b Hinit) as [-> _]. intros i x y Hx. done.
  - exists s. split; [done|]. intros b.
    destruct (run_wf _ _ _ Hwf0 Hcs) as (s' & Hs' & Hwf).
    assert (s' = s) as -> by congruence.
    destruct (decide (b < Z.to_nat batch_size)%nat) as [Hb|Hb]; [by apply Hmono|].
    unfold times_of. rewrite lookup_ge_None_2 by (rewrite (wf_lengths _ _ Hwf); lia).
    intros i x y Hx. done.
Qed.

Lemma time_indices_nondecreasing_witness :
  (BatchedHyps.__init__ 2 1 = Ok fresh_hyps
   ∧ Forall (valid_call 2) [call1; call2]
   ∧ ordered_run fresh_hyps [call1; call2] = true)
  ∧ ∃ s, run fresh_hyps [call1; call2] = Ok s ∧ ∀ b, nondecreasing (times_of s b).
Proof.
  assert (BatchedHyps.__init__ 2 1 = Ok fresh_hyps) as H1 by reflexivity.
  assert (Forall (valid_call 2) [call1; call2]) as H2.
  { constructor; [exact valid_call1|]. constructor; [exact valid_call2|constructor]. }
  assert (ordered_run fresh_hyps [call1; call2] = true) as H3 by reflexivity.
  split; [split; [exact H1|split; [exact H2|exact H3]]|].
  exact (time_indices_nondecreasing Q Q_float 2 1 fresh_hyps [call1; call2] H1 H2 H3).
Defined.

(** ** Bounds of the scatter writes *)

(** C10.  For an object that the decoding loop can hold, every length is
    between zero and the capacity, and for every further call that respects
    the caller contract the flat index computed for an active item [b],
    after the growth step, lies in row [b] of the transcript and timesteps
    buffers, hence inside them. *)
Theorem writes_stay_in_row (F : Type) (HF : FloatDtype F) (B : nat)
    (s : BatchedHyps.t F) :
  reachable B s →
  Forall (λ l, 0 ≤ l ≤ BatchedHyps._max_length s) (BatchedHyps.lengths s)
  ∧ ∀ c : hyps_call F, valid_call B c →
      ∃ s1 idx, BatchedHyps.grow_if_full s = Ok s1
        ∧ BatchedHyps.indices_to_use s1 (c_active c) = Ok idx
        ∧ length (data (BatchedHyps.transcript s1))
          = (B * Z.to_nat (BatchedHyps._max_length s1))%nat
        ∧ length (data (BatchedHyps.timesteps s1))
          = (B * Z.to_nat (BatchedHyps._max_length s1))%nat
        ∧ length idx = length (c_active c)
        ∧ ∀ k b i, c_active c !! k = Some b → idx !! k = Some i →
            b * BatchedHyps._max_length s1 ≤ i < (b + 1) * BatchedHyps._max_length s1
            ∧ 0 ≤ i < Z.of_nat B * BatchedHyps._max_length s1.
Proof.
  intros Hreach. destruct (reachable_inv B s Hreach) as [Hwf _].
  split; [apply (wf_bound B s Hwf)|].
  intros c Hc. by apply indices_in_row.
Qed.

Lemma writes_stay_in_row_witness :
  reachable 2 after_call2
  ∧ Forall (λ l, 0 ≤ l ≤ BatchedHyps._max_length after_call2)
      (BatchedHyps.lengths after_call2)
  ∧ ∀ c : hyps_call Q, valid_call 2 c →
      ∃ s1 idx, BatchedHyps.grow_if_full after_call2 = Ok s1
        ∧ BatchedHyps.indices_to_use s1 (c_active c) = Ok idx
        ∧ length (data (BatchedHyps.transcript s1))
          = (2 * Z.to_nat (BatchedHyps._max_length s1))%nat
        ∧ length (data (BatchedHyps.timesteps s1))
          = (2 * Z.to_nat (BatchedHyps._max_length s1))%nat
        ∧ length idx = length (c_active c)
        ∧ ∀ k b i, c_active c !! k = Some b → idx !! k = Some i →
            b * BatchedHyps._max_length s1 ≤ i < (b + 1) * BatchedHyps._max_length s1
            ∧ 0 ≤ i < Z.of_nat 2 * BatchedHyps._max_length s1.
Proof.
  split; [exact scenario2_reachable|].
  exact (writes_stay_in_row Q Q_float 2%nat after_call2 scenario2_reachable).
Defined.

(** * Further properties *)

(** ** is_prefix *)

Lemma is_prefix_loop_true (x pref : list Z) (indices : list nat) :
  is_prefix_loop x pref indices = true ↔ ∀ i, i ∈ indices → pref !! i = x !! i.
Proof.
  induction indices as [|i rest IH]; simpl.
  - split; [|done]. intros _ i Hi. by apply elem_of_nil in Hi.
  - case_bool_decide as Hne.
    + split; [done|]. intros Hall. exfalso. apply Hne, Hall. left.
    + rewrite IH. split.
      * intros Hall j Hj. apply elem_of_cons in Hj as [->|Hj]; [|by apply Hall].
        destruct (decide (pref !! i = x !! i)); [done|]. by exfalso.
      * intros Hall j Hj. apply Hall. by right.
Qed.

(** [is_prefix x pref] holds exactly when [x] is [pref] followed by at least
    one more label: [pref] is a proper prefix of [x]. *)
Theorem is_prefix_proper (x pref : list Z) :
  is_prefix x pref = true ↔ ∃ rest, rest ≠ [] ∧ x = pref ++ rest.
Proof.
  unfold is_prefix. case_bool_decide as Hlen.
  - split; [done|]. intros (rest & Hne & ->). rewrite length_app in Hlen.
    destruct rest; [done|]. simpl in Hlen. lia.
  - rewrite is_prefix_loop_true. split.
    + intros Hall. exists (drop (length pref) x). split.
      * intros Hnil. apply (f_equal length) in Hnil. rewrite length_drop in Hnil.
        simpl in Hnil. lia.
      * rewrite <- (take_drop (length pref) x) at 1. f_equal.
        apply list_eq. intros i. destruct (decide (i < length pref)%nat) as [Hi|Hi].
        -- rewrite lookup_take_lt by done. symmetry. apply Hall.
           apply elem_of_seq. lia.
        -- rewrite lookup_take_ge by lia. symmetry. apply lookup_ge_None. lia.
    + intros (rest & _ & ->) i Hi. apply elem_of_seq in Hi.
      rewrite lookup_app_l by lia. done.
Qed.

(** [is_prefix] is a strict order: no sequence is a prefix of itself, and
    the relation is asymmetric and transitive. *)
Theorem is_prefix_strict_order :
  (∀ x, is_prefix x x = false)
  ∧ (∀ x p, is_prefix x p = true → is_prefix p x = false)
  ∧ (∀ x p q, is_prefix x p = true → is_prefix p q = true → is_prefix x q = true).
Proof.
  split; [|split].
  - intros x. unfold is_prefix. by rewrite bool_decide_eq_true_2.
  - intros x p Hxp. apply is_prefix_proper in Hxp as (rest & Hne & ->).
    unfold is_prefix. rewrite bool_decide_eq_true_2; [done|].
    rewrite length_app. lia.
  - intros x p q Hxp Hpq.
    apply is_prefix_proper in Hxp as (r1 & Hne1 & ->).
    apply is_prefix_proper in Hpq as (r2 & Hne2 & ->).
    apply is_prefix_proper. exists (r2 ++ r1). split.
    + destruct r2; [done|]. done.
    + by rewrite <- app_assoc.
Qed.

Lemma is_prefix_strict_order_witness :
  (is_prefix [1; 2; 3] [1; 2] = true ∧ is_prefix [1; 2] [1] = true)
  ∧ is_prefix [1; 2] [1; 2; 3] = false
  ∧ is_prefix [1; 2; 3] [1] = true.
Proof.
  assert (is_prefix [1; 2; 3] [1; 2] = true) as H1 by reflexivity.
  assert (is_prefix [1; 2] [1] = true) as H2 by reflexivity.
  split; [split; [exact H1|exact H2]|]. split.
  - exact (proj1 (proj2 is_prefix_strict_order) [1; 2; 3] [1; 2] H1).
  - exact (proj2 (proj2 is_prefix_strict_order) [1; 2; 3] [1; 2] [1] H1 H2).
Defined.

(** Two prefixes of the same sequence are equal or one is a prefix of the
    other. *)
Theorem is_prefix_comparable (x p q : list Z) :
  is_prefix x p = true → is_prefix x q = true →
  p = q ∨ is_prefix p q = true ∨ is_prefix q p = true.
Proof.
  intros Hp Hq.
  apply is_prefix_proper in Hp as (r1 & Hne1 & Hx1).
  apply is_prefix_proper in Hq as (r2 & Hne2 & Hx2).
  assert (p = take (length p) x) as Hpt by (rewrite Hx1, take_app_length; done).
  assert (q = take (length q) x) as Hqt by (rewrite Hx2, take_app_length; done).
  destruct (decide (length p = length q)) as [Heq|Hneq].
  - left. rewrite Hpt, Hqt, Heq. done.
  - right. destruct (decide (length p < length q)%nat) as [Hlt|Hge].
    + right. apply is_prefix_proper. exists (drop (length p) q). split.
      * intros Hnil. apply (f_equal length) in Hnil. rewrite length_drop in Hnil.
        simpl in Hnil. lia.
      * rewrite <- (take_drop (length p) q) at 1. f_equal.
        rewrite Hqt, take_take, Nat.min_l by lia. done.
    + left. apply is_prefix_proper. exists (drop (length q) p). split.
      * intros Hnil. apply (f_equal length) in Hnil. rewrite length_drop in Hnil.
        simpl in Hnil. lia.
      * rewrite <- (take_drop (length q) p) at 1. f_equal.
        rewrite Hpt, take_take, Nat.min_l by lia. done.
Qed.

Lemma is_prefix_comparable_witness :
  (is_prefix [1; 2; 3] [1] = true ∧ is_prefix [1; 2; 3] [1; 2] = true)
  ∧ ([1] = [1; 2] ∨ is_prefix [1] [1; 2] = true ∨ is_prefix [1; 2] [1] = true).
Proof.
  assert (is_prefix [1; 2; 3] [1] = true) as H1 by reflexivity.
  assert (is_prefix [1; 2; 3] [1; 2] = true) as H2 by reflexivity.
  split; [split; [exact H1|exact H2]|].
  exact (is_prefix_comparable [1; 2; 3] [1] [1; 2] H1 H2).
Defined.

(** ** What the calls pass and what is stored *)

Lemma passed_notin {V} (b : Z) (idx : list Z) (vs : list V) :
  b ∉ idx → passed b idx vs = [].
Proof.
  unfold passed. revert vs. induction idx as [|a idx IH]; intros vs Hb; [done|].
  destruct vs as [|v vs]; [done|]. simpl.
  apply not_elem_of_cons in Hb as [Hne Hb].
  rewrite filter_cons_False by (simpl; congruence). by apply IH.
Qed.

Lemma passed_at {V} (b : Z) (idx : list Z) (vs : list V) (k : nat) (v : V) :
  NoDup idx → idx !! k = Some b → vs !! k = Some v → passed b idx vs = [v].
Proof.
  unfold passed. revert vs k. induction idx as [|a idx IH]; intros vs k Hnd Hk Hv.
  - rewrite lookup_nil in Hk. done.
  - destruct vs as [|v0 vs]; [rewrite lookup_nil in Hv; done|].
    apply NoDup_cons in Hnd as [Ha Hnd]. simpl.
    destruct k as [|k]; simpl in Hk, Hv.
    + injection Hk as ->. injection Hv as ->.
      rewrite filter_cons_True by done. simpl. f_equal.
      by apply (passed_notin b idx vs).
    + rewrite filter_cons_False.
      * by apply (IH vs k).
      * simpl. intros ->. apply Ha. by eapply list_elem_of_lookup_2.
Qed.

Section history_props.
Context {F : Type} {HF : FloatDtype F}.

Lemma passed_labels_snoc (b : Z) (cs : list (hyps_call F)) (c : hyps_call F) :
  passed_labels b (cs ++ [c]) = passed_labels b cs ++ passed b (c_active c) (c_labels c)
  ∧ passed_times b (cs ++ [c]) = passed_times b cs ++ passed b (c_active c) (c_times c)
  ∧ passed_scores b (cs ++ [c]) = passed_scores b cs ++ passed b (c_active c) (c_scores c).
Proof.
  unfold passed_labels, passed_times, passed_scores.
  rewrite !fmap_app, !concat_app. simpl. rewrite !app_nil_r. done.
Qed.

Lemma run_snoc (s : BatchedHyps.t F) (cs : list (hyps_call F)) (c : hyps_call F) :
  run s (cs ++ [c]) = (s' ← run s cs; apply_call s' c).
Proof.
  rewrite run_app. destruct (run s cs) as [s'|e]; [|done]. simpl.
  destruct (apply_call s' c); done.
Qed.

(** After any sequence of calls that respect the caller contract the
    object holds exactly what was passed, item by item. *)
Lemma run_stored_as_passed (batch_size init_length : Z) (s0 : BatchedHyps.t F)
    (cs : list (hyps_call F)) :
  BatchedHyps.__init__ batch_size init_length = Ok s0 →
  Forall (valid_call (Z.to_nat batch_size)) cs →
  ∃ s, run s0 cs = Ok s
    ∧ wf (Z.to_nat batch_size) s
    ∧ stored_as_passed (Z.to_nat batch_size) s cs.
Proof.
  intros Hinit. set (B := Z.to_nat batch_size).
  induction cs as [|c cs IH] using rev_ind; intros Hcs.
  - exists s0. split; [done|]. split; [by eapply init_wf|].
    intros b Hb. destruct (init_times_of _ _ _ b Hinit) as [-> ->].
    assert (0 < batch_size ∧ 0 < init_length) as [HB HL].
    { unfold BatchedHyps.__init__ in Hinit. repeat case_bool_decide; try discriminate. lia. }
    rewrite init_Ok in Hinit by done. injection Hinit as <-. simpl.
    fold B. rewrite !lookup_replicate_2 by done. done.
  - apply Forall_app in Hcs as [Hcs Hc]. apply Forall_inv in Hc.
    destruct (IH Hcs) as (s & Hs & Hwf & Hst).
    destruct (apply_call_history B s c Hwf Hc) as (s' & Hs' & Hwf' & Hact & Hoth).
    exists s'. split; [rewrite run_snoc, Hs; done|]. split; [done|].
    intros b Hb. destruct (Hst b Hb) as (Hlab & Htim & Hlen & Hsc).
    destruct (passed_labels_snoc (Z.of_nat b) cs c) as (-> & -> & ->).
    destruct (decide (Z.of_nat b ∈ c_active c)) as [Hin|Hout].
    + apply list_elem_of_lookup in Hin as [k Hk].
      destruct Hc as (Hnd & _ & Hl1 & Hl2 & Hl3).
      pose proof (lookup_lt_Some _ _ _ Hk) as Hklt.
      destruct (lookup_lt_is_Some_2 (c_labels c) k) as [label Hlabel]; [lia|].
      destruct (lookup_lt_is_Some_2 (c_times c) k) as [t Ht]; [lia|].
      destruct (lookup_lt_is_Some_2 (c_scores c) k) as [d Hd]; [lia|].
      pose proof (Hact _ _ _ _ _ Hk Hlabel Ht Hd) as Hip. rewrite Nat2Z.id in Hip.
      destruct Hip as [len sc lt ltl Hlen0 Hsc0 _ _ Hsc' _ _ _ _ Hlen' Hlabels Htimes].
      rewrite (passed_at _ _ _ k label Hnd Hk Hlabel).
      rewrite (passed_at _ _ _ k t Hnd Hk Ht).
      rewrite (passed_at _ _ _ k d Hnd Hk Hd).
      rewrite Hlabels, Htimes, Hlab, Htim. split; [done|]. split; [done|]. split.
      * rewrite Hlen', length_app. simpl.
        assert (len = Z.of_nat (length (passed_labels (Z.of_nat b) cs))) as -> by congruence.
        f_equal. lia.
      * rewrite Hsc', foldl_app. simpl. congruence.
    + destruct (Hoth b Hb Hout) as [Hl' Hs'' _ _ Hlabels Htimes].
      rewrite !passed_notin by done. rewrite !app_nil_r.
      rewrite Hlabels, Htimes, Hl', Hs''. done.
Qed.

Lemma lengths_grow (B : nat) (s s' : BatchedHyps.t F) (c : hyps_call F) (l : Z) :
  wf B s → valid_call B c → apply_call s c = Ok s' →
  l ∈ BatchedHyps.lengths s → ∃ l', l' ∈ BatchedHyps.lengths s' ∧ l ≤ l'.
Proof.
  intros Hwf Hc Hs' Hl. apply list_elem_of_lookup in Hl as [b Hb].
  destruct (apply_call_history B s c Hwf Hc) as (s'' & Hs'' & Hwf' & Hact & Hoth).
  assert (s'' = s') as -> by congruence.
  pose proof (lookup_lt_Some _ _ _ Hb) as Hlt. rewrite (wf_lengths B s Hwf) in Hlt.
  destruct (decide (Z.of_nat b ∈ c_active c)) as [Hin|Hout].
  - apply list_elem_of_lookup in Hin as [k Hk].
    destruct Hc as (Hnd & _ & Hl1 & Hl2 & Hl3).
    pose proof (lookup_lt_Some _ _ _ Hk) as Hklt.
    destruct (lookup_lt_is_Some_2 (c_labels c) k) as [label Hlabel]; [lia|].
    destruct (lookup_lt_is_Some_2 (c_times c) k) as [t Ht]; [lia|].
    destruct (lookup_lt_is_Some_2 (c_scores c) k) as [d Hd]; [lia|].
    pose proof (Hact _ _ _ _ _ Hk Hlabel Ht Hd) as Hip. rewrite Nat2Z.id in Hip.
    destruct Hip as [len sc lt ltl Hlen0 _ _ _ _ _ _ _ _ Hlen' _ _].
    exists (len + 1). split; [by eapply list_elem_of_lookup_2|].
    assert (len = l) by congruence. lia.
  - destruct (Hoth b Hlt Hout) as [Hl' _ _ _ _ _].
    exists l. split; [|lia]. apply (list_elem_of_lookup_2 _ b). congruence.
Qed.

Lemma step_capacity_tight (B : nat) (init_length : Z) (s s' : BatchedHyps.t F)
    (c : hyps_call F) :
  wf B s → capacity_tight init_length s → valid_call B c → apply_call s c = Ok s' →
  capacity_tight init_length s'.
Proof.
  intros Hwf [[k Hk] Htight] Hc Hs'.
  destruct (decide (c_active c = [])) as [Hnil|Hne].
  { rewrite (apply_call_empty s c Hnil) in Hs'. injection Hs' as <-. by split; [exists k|]. }
  destruct (add_results_capacity s s' c Hne Hs') as (m & Hm & Hcap).
  destruct (tensor_max_spec _ _ Hm) as [Hle Hin].
  pose proof (wf_bound B s Hwf) as Hbd. rewrite Forall_forall in Hbd.
  case_bool_decide as Hfull.
  - split.
    + exists (S k). rewrite Hcap, Hk, Nat2Z.inj_succ, Z.pow_succ_r by lia. lia.
    + right. destruct (lengths_grow B s s' c m Hwf Hc Hs' Hin) as (l' & Hl' & Hml').
      exists l'. split; [done|]. pose proof (Hbd m Hin). lia.
  - split; [exists k; congruence|].
    destruct Htight as [Heq|(l & Hl & Hbound)]; [left; congruence|].
    right. destruct (lengths_grow B s s' c l Hwf Hc Hs' Hl) as (l' & Hl' & Hll').
    exists l'. split; [done|]. lia.
Qed.

End history_props.

(** A sequence of calls that respect the caller contract, started from a
    fresh object, returns, and the object then holds for every item the
    labels and the time indices passed for it, in the order of the calls,
    their number as its length, and as its score the scores passed for it
    added one after the other to zero. *)
Theorem accumulator_holds_what_was_passed (F : Type) (HF : FloatDtype F)
    (batch_size init_length : Z) (s0 : BatchedHyps.t F) (cs : list (hyps_call F)) :
  BatchedHyps.__init__ batch_size init_length = Ok s0 →
  Forall (valid_call (Z.to_nat batch_size)) cs →
  ∃ s, run s0 cs = Ok s
    ∧ ∀ b, (b < Z.to_nat batch_size)%nat →
        labels_of s b = passed_labels (Z.of_nat b) cs
        ∧ times_of s b = passed_times (Z.of_nat b) cs
        ∧ BatchedHyps.lengths s !! b
          = Some (Z.of_nat (length (passed_labels (Z.of_nat b) cs)))
        ∧ BatchedHyps.scores s !! b
          = Some (foldl f_add f_zero (passed_scores (Z.of_nat b) cs)).
Proof.
  intros Hinit Hcs.
  destruct (run_stored_as_passed _ _ _ _ Hinit Hcs) as (s & Hs & _ & Hst).
  exists s. done.
Qed.

Lemma accumulator_holds_what_was_passed_witness :
  (BatchedHyps.__init__ 2 1 = Ok fresh_hyps ∧ Forall (valid_call 2) [call1; call2])
  ∧ ∃ s, run fresh_hyps [call1; call2] = Ok s
      ∧ ∀ b, (b < Z.to_nat 2)%nat →
          labels_of s b = passed_labels (Z.of_nat b) [call1; call2]
          ∧ times_of s b = passed_times (Z.of_nat b) [call1; call2]
          ∧ BatchedHyps.lengths s !! b
            = Some (Z.of_nat (length (passed_labels (Z.of_nat b) [call1; call2])))
          ∧ BatchedHyps.scores s !! b
            = Some (foldl f_add f_zero (passed_scores (Z.of_nat b) [call1; call2])).
Proof.
  assert (BatchedHyps.__init__ 2 1 = Ok fresh_hyps) as H1 by reflexivity.
  assert (Forall (valid_call 2) [call1; call2]) as H2.
  { constructor; [exact valid_call1|]. constructor; [exact valid_call2|constructor]. }
  split; [split; [exact H1|exact H2]|].
  exact (accumulator_holds_what_was_passed Q Q_float 2 1 fresh_hyps [call1; call2] H1 H2).
Defined.

(** Appending and converting is a round trip: after any sequence of calls
    that respect the caller contract the conversion returns one record per
    item whose labels and time indices are the ones passed for the item, in
    order, and whose score is the sum of the scores passed for it. *)
Theorem convert_returns_what_was_passed (F : Type) (HF : FloatDtype F)
    (batch_size init_length : Z) (s0 : BatchedHyps.t F) (cs : list (hyps_call F)) :
  BatchedHyps.__init__ batch_size init_length = Ok s0 →
  Forall (valid_call (Z.to_nat batch_size)) cs →
  ∃ recs, (s ← run s0 cs; batched_hyps_to_hypotheses s None) = Ok recs
    ∧ length recs = Z.to_nat batch_size
    ∧ ∀ b r, recs !! b = Some r →
        y_sequence r = passed_labels (Z.of_nat b) cs
        ∧ timestep r = passed_times (Z.of_nat b) cs
        ∧ score r = foldl f_add f_zero (passed_scores (Z.of_nat b) cs).
Proof.
  intros Hinit Hcs.
  destruct (run_stored_as_passed _ _ _ _ Hinit Hcs) as (s & Hs & Hwf & Hst).
  destruct (convert_hyps_Ok _ s Hwf) as [recs Hrecs].
  exists recs. rewrite Hs. split; [done|].
  destruct (convert_records _ s None recs Hwf Hrecs) as [Hlen Hall].
  split; [done|]. intros b r Hb.
  destruct (Hall b r Hb) as (Hsc & Hy & Ht & Hd).
  assert (b < Z.to_nat batch_size)%nat as Hlt by (rewrite <- Hlen; by eapply lookup_lt_Some).
  destruct (Hst b Hlt) as (Hlab & Htim & _ & Hscore).
  split; [congruence|]. split; congruence.
Qed.

Lemma convert_returns_what_was_passed_witness :
  (BatchedHyps.__init__ 2 1 = Ok fresh_hyps ∧ Forall (valid_call 2) [call1; call2])
  ∧ ∃ recs, (s ← run fresh_hyps [call1; call2]; batched_hyps_to_hypotheses s None) = Ok recs
      ∧ length recs = Z.to_nat 2
      ∧ ∀ b r, recs !! b = Some r →
          y_sequence r = passed_labels (Z.of_nat b) [call1; call2]
          ∧ timestep r = passed_times (Z.of_nat b) [call1; call2]
          ∧ score r = foldl f_add f_zero (passed_scores (Z.of_nat b) [call1; call2]).
Proof.
  assert (BatchedHyps.__init__ 2 1 = Ok fresh_hyps) as H1 by reflexivity.
  assert (Forall (valid_call 2) [call1; call2]) as H2.
  { constructor; [exact valid_call1|]. constructor; [exact valid_call2|constructor]. }
  split; [split; [exact H1|exact H2]|].
  exact (convert_returns_what_was_passed Q Q_float 2 1 fresh_hyps [call1; call2] H1 H2).
Defined.

(** The capacity is the initial length doubled some number of times, it is
    at least every length, and unless it still is the initial length it is at
    most twice the length of the longest item. *)
Theorem capacity_is_tight (F : Type) (HF : FloatDtype F)
    (batch_size init_length : Z) (s0 : BatchedHyps.t F) (cs : list (hyps_call F)) :
  BatchedHyps.__init__ batch_size init_length = Ok s0 →
  Forall (valid_call (Z.to_nat batch_size)) cs →
  ∃ s, run s0 cs = Ok s
    ∧ (∃ k : nat, BatchedHyps._max_length s = init_length * 2 ^ Z.of_nat k)
    ∧ Forall (λ l, 0 ≤ l ≤ BatchedHyps._max_length s) (BatchedHyps.lengths s)
    ∧ (BatchedHyps._max_length s = init_length
       ∨ ∃ l, l ∈ BatchedHyps.lengths s ∧ BatchedHyps._max_length s ≤ 2 * l).
Proof.
  intros Hinit Hcs.
  destruct (run_invariant (Z.to_nat batch_size) (capacity_tight init_length) s0 cs)
    as (s & Hs & Hwf & [Hpow Htight]); try done.
  - intros s1 c s2 Hwf1 Hc1 Hc Hs2. by apply (step_capacity_tight (Z.to_nat batch_size) init_length s1 s2 c).
  - by eapply init_wf.
  - assert (0 < batch_size ∧ 0 < init_length) as [HB HL].
    { unfold BatchedHyps.__init__ in Hinit. repeat case_bool_decide; try discriminate. lia. }
    rewrite init_Ok in Hinit by done. injection Hinit as <-.
    split; [exists 0%nat; simpl; lia|by left].
  - exists s. split; [done|]. split; [done|]. split; [apply (wf_bound _ s Hwf)|done].
Qed.

Lemma capacity_is_tight_witness :
  (BatchedHyps.__init__ 2 1 = Ok fresh_hyps ∧ Forall (valid_call 2) [call1; call2])
  ∧ ∃ s, run fresh_hyps [call1; call2] = Ok s
      ∧ (∃ k : nat, BatchedHyps._max_length s = 1 * 2 ^ Z.of_nat k)
      ∧ Forall (λ l, 0 ≤ l ≤ BatchedHyps._max_length s) (BatchedHyps.lengths s)
      ∧ (BatchedHyps._max_length s = 1
         ∨ ∃ l, l ∈ BatchedHyps.lengths s ∧ BatchedHyps._max_length s ≤ 2 * l).
Proof.
  assert (BatchedHyps.__init__ 2 1 = Ok fresh_hyps) as H1 by reflexivity.
  assert (Forall (valid_call 2) [call1; call2]) as H2.
  { constructor; [exact valid_call1|]. constructor; [exact valid_call2|constructor]. }
  split; [split; [exact H1|exact H2]|].
  exact (capacity_is_tight Q Q_float 2 1 fresh_hyps [call1; call2] H1 H2).
Defined.

(** ** Indices outside the batch and negative indices *)

Lemma norm_index_outside (n : nat) (i : Z) :
  ¬ in_signed_range n i → norm_index n i = Raise IndexError.
Proof.
  unfold in_signed_range, norm_index. intros Hi.
  rewrite !bool_decide_eq_false_2 by lia. done.
Qed.

Lemma item_cases {A} (l : list A) (i : Z) :
  is_Ok (item l i) ∨ item l i = Raise IndexError.
Proof.
  unfold item, norm_index. repeat case_bool_decide; simpl; try (by right);
    (destruct (l !! _) as [x|]; [left; by exists x|by right]).
Qed.

Lemma traverse_raise {A B} (f : A → result B) (e : exc) (l : list A) :
  Forall (λ x, is_Ok (f x) ∨ f x = Raise e) l →
  Exists (λ x, f x = Raise e) l →
  traverse f l = Raise e.
Proof.
  induction 1 as [|x l Hx Hl IH]; intros Hex; [by apply Exists_nil in Hex|].
  simpl. apply Exists_cons in Hex as [Hr|Hex]; [by rewrite Hr|].
  destruct Hx as [[y Hy] | Hy]; rewrite Hy; [|done]. simpl. by rewrite IH.
Qed.

Lemma index_select_outside {A} (l : list A) (idx : list Z) :
  Exists (λ i, ¬ in_signed_range (length l) i) idx →
  index_select l idx = Raise IndexError.
Proof.
  intros Hex. apply traverse_raise.
  - apply Forall_forall. intros i _. apply item_cases.
  - eapply Exists_impl; [exact Hex|]. intros i Hi. simpl in Hi.
    unfold item. by rewrite norm_index_outside.
Qed.

Lemma bind_cong {A B} (m m' : result A) (k k' : A → result B) :
  m = m' → (∀ x, m = Ok x → k x = k' x) → (m ≫= k) = (m' ≫= k').
Proof. intros <- Hk. destruct m as [x|e]; [by apply Hk|done]. Qed.

Lemma norm_index_wrap (n : nat) (a : Z) :
  in_signed_range n a → norm_index n (wrap_index n a) = norm_index n a.
Proof.
  unfold in_signed_range, wrap_index. intros Ha.
  destruct (decide (a < 0)) as [Hneg|Hpos].
  - rewrite (bool_decide_eq_true_2 (a < 0)) by done. unfold norm_index.
    rewrite (bool_decide_eq_true_2 (0 ≤ a + Z.of_nat n < Z.of_nat n)) by lia.
    rewrite (bool_decide_eq_false_2 (0 ≤ a < Z.of_nat n)) by lia.
    rewrite (bool_decide_eq_true_2 (- Z.of_nat n ≤ a < 0)) by lia. done.
  - by rewrite (bool_decide_eq_false_2 (a < 0)).
Qed.

Lemma traverse_fmap_ext {A B C} (f : A → result B) (g : C → result B) (h : C → A)
    (l : list C) :
  Forall (λ x, f (h x) = g x) l → traverse f (h <$> l) = traverse g l.
Proof.
  induction 1 as [|x l Hx _ IH]; [done|].
  rewrite fmap_cons. simpl. by rewrite Hx, IH.
Qed.

Lemma norm_indices_wrap (n : nat) (idx : list Z) :
  Forall (in_signed_range n) idx →
  norm_indices n (wrap_index n <$> idx) = norm_indices n idx.
Proof.
  intros Hidx. apply traverse_fmap_ext. eapply Forall_impl; [exact Hidx|].
  intros a Ha. by apply norm_index_wrap.
Qed.

Lemma index_select_wrap {A} (l : list A) (idx : list Z) :
  Forall (in_signed_range (length l)) idx →
  index_select l (wrap_index (length l) <$> idx) = index_select l idx.
Proof.
  intros Hidx. apply traverse_fmap_ext. eapply Forall_impl; [exact Hidx|].
  intros a Ha. unfold item. by rewrite norm_index_wrap.
Qed.

Lemma index_put_wrap {A} (l : list A) (idx : list Z) (v : list A) :
  Forall (in_signed_range (length l)) idx →
  index_put l (wrap_index (length l) <$> idx) v = index_put l idx v.
Proof.
  intros Hidx. unfold index_put. rewrite length_fmap, norm_indices_wrap by done. done.
Qed.

Lemma wrap_index_in_range (n : nat) (a : Z) :
  in_signed_range n a → in_range n (wrap_index n a).
Proof. unfold in_signed_range, wrap_index, in_range. case_bool_decide; lia. Qed.

Lemma index_select_elem_of {A} (l : list A) (idx : list Z) (cur : list A) :
  index_select l idx = Ok cur → Forall (λ x, x ∈ l) cur.
Proof.
  intros Hcur. apply traverse_Forall2 in Hcur.
  induction Hcur as [|i x idx cur Hi _ IH]; constructor; [|done].
  unfold item in Hi. apply bind_Ok_inv in Hi as (j & _ & Hi).
  destruct (l !! j) as [y|] eqn:Hy; [|done]. injection Hi as <-.
  by eapply list_elem_of_lookup_2.
Qed.

Lemma flat_index_wrap (B : nat) (M : Z) (act cur : list Z) :
  Forall (in_signed_range B) act → Forall (λ l, 0 ≤ l < M) cur →
  zip_with (λ a l, a * M + l) (wrap_index B <$> act) cur
  = wrap_index (B * Z.to_nat M) <$> zip_with (λ a l, a * M + l) act cur
  ∧ Forall (in_signed_range (B * Z.to_nat M)) (zip_with (λ a l, a * M + l) act cur).
Proof.
  intros Hact. revert cur. induction Hact as [|a act Ha _ IH]; intros cur Hcur; [done|].
  destruct Hcur as [|l cur Hl Hcur]; [done|].
  destruct (IH cur Hcur) as [IH1 Hall].
  unfold in_signed_range in Ha.
  assert (Z.of_nat (B * Z.to_nat M) = Z.of_nat B * M) as HBM by lia.
  rewrite fmap_cons. cbn [zip_with]. rewrite IH1, fmap_cons.
  split.
  - f_equal. unfold wrap_index. rewrite HBM.
    case_bool_decide as Hneg.
    + rewrite bool_decide_eq_true_2 by nia. lia.
    + rewrite bool_decide_eq_false_2 by nia. done.
  - constructor; [|done]. unfold in_signed_range. rewrite HBM. nia.
Qed.

Section index_props.
Context {F : Type} {HF : FloatDtype F}.

Lemma view_flat_index_put_wrap {A} (t : tensor A) (idx : list Z) (v : list A) :
  Forall (in_signed_range (length (data t))) idx →
  view_flat_index_put t (wrap_index (length (data t)) <$> idx) v
  = view_flat_index_put t idx v.
Proof. intros Hidx. unfold view_flat_index_put. by rewrite index_put_wrap. Qed.

Lemma add_results_wrap (B : nat) (s : BatchedHyps.t F) (c : hyps_call F) :
  wf B s → Forall (in_signed_range B) (c_active c) →
  apply_call s (wrap_call B c) = apply_call s c.
Proof.
  intros Hwf Hact. unfold apply_call, BatchedHyps.add_results_, wrap_call. simpl.
  rewrite length_fmap. case_bool_decide as Hemp; [done|].
  destruct (grow_if_full_spec B s Hwf)
    as (m & s1 & _ & -> & Hwf1 & _ & _ & _ & _ & _ & Hlt).
  rewrite !bind_Ok. cbn beta.
  pose proof (wf_lengths B s1 Hwf1) as E1. pose proof (wf_scores B s1 Hwf1) as E2.
  pose proof (wf_lasts B s1 Hwf1) as E3. pose proof (wf_last B s1 Hwf1) as E4.
  destruct (wf_transcript B s1 Hwf1) as [_ E5].
  destruct (wf_timesteps B s1 Hwf1) as [_ E6].
  assert (∀ {A} (l : list A), length l = B →
    index_select l (wrap_index B <$> c_active c) = index_select l (c_active c)) as Hsel.
  { intros A l <-. by apply index_select_wrap. }
  assert (∀ {A} (l v : list A), length l = B →
    index_put l (wrap_index B <$> c_active c) v = index_put l (c_active c) v) as Hput.
  { intros A l v <-. by apply index_put_wrap. }
  apply bind_cong; [by apply Hsel|intros cur _].
  apply bind_cong; [done|intros upd _].
  apply bind_cong; [by apply Hput|intros scores' _].
  unfold BatchedHyps.indices_to_use. rewrite Hsel by done.
  destruct (index_select (BatchedHyps.lengths s1) (c_active c)) as [lens|e] eqn:Hlens;
    [|done].
  rewrite !bind_Ok. cbn beta.
  assert (Forall (λ l, 0 ≤ l < BatchedHyps._max_length s1) lens) as Hbd.
  { apply index_select_elem_of in Hlens. rewrite Forall_forall in Hlens, Hlt |- *.
    intros l Hl. by apply Hlt, Hlens. }
  destruct (flat_index_wrap B (BatchedHyps._max_length s1) (c_active c) lens Hact Hbd)
    as [-> Hflat].
  assert (∀ (t : tensor Z) v,
    length (data t) = (B * Z.to_nat (BatchedHyps._max_length s1))%nat →
    view_flat_index_put t
      (wrap_index (B * Z.to_nat (BatchedHyps._max_length s1)) <$>
       zip_with (λ a l, a * BatchedHyps._max_length s1 + l) (c_active c) lens) v
    = view_flat_index_put t
        (zip_with (λ a l, a * BatchedHyps._max_length s1 + l) (c_active c) lens) v)
    as Hview.
  { intros t v Ht. rewrite <- Ht. apply view_flat_index_put_wrap. by rewrite Ht. }
  apply bind_cong; [by apply Hview|intros transcript' _].
  apply bind_cong; [by apply Hview|intros timesteps' _].
  apply bind_cong; [by apply Hsel|intros lt _].
  apply bind_cong; [done|intros same _].
  apply bind_cong; [by apply Hsel|intros ltl _].
  apply bind_cong; [done|intros lasts _].
  apply bind_cong; [by apply Hput|intros lasts' _].
  apply bind_cong; [by apply Hput|intros last' _].
  apply bind_cong; [done|intros len _].
  apply bind_cong; [by apply Hput|intros lengths' _].
  done.
Qed.

End index_props.

(** With the tensors on the CPU, where the bounds of an index tensor are
    checked on the host, an index outside [-batch_size, batch_size) among the
    active indices makes [add_results_] raise [IndexError], whatever the
    other arguments are. *)
Theorem index_outside_batch_raises (F : Type) (HF : FloatDtype F) (B : nat)
    (s : BatchedHyps.t F) (c : hyps_call F) :
  reachable B s →
  Exists (λ a, ¬ in_signed_range B a) (c_active c) →
  apply_call s c = Raise IndexError.
Proof.
  intros Hs Hex. apply reachable_inv in Hs as [Hwf _].
  unfold apply_call, BatchedHyps.add_results_.
  case_bool_decide as Hemp.
  { apply length_zero_iff_nil in Hemp. rewrite Hemp in Hex. by apply Exists_nil in Hex. }
  destruct (grow_if_full_spec B s Hwf)
    as (m & s1 & _ & -> & Hwf1 & _ & _ & _ & _ & _ & _).
  rewrite bind_Ok. cbn beta.
  rewrite (index_select_outside (BatchedHyps.scores s1)); [done|].
  by rewrite (wf_scores B s1 Hwf1).
Qed.

Lemma index_outside_batch_raises_witness :
  (reachable 2 after_call1 ∧ Exists (λ a, ¬ in_signed_range 2 a) (c_active call_outside))
  ∧ apply_call after_call1 call_outside = Raise IndexError.
Proof.
  assert (Exists (λ a, ¬ in_signed_range 2 a) (c_active call_outside)) as H.
  { apply Exists_cons_hd. unfold in_signed_range. lia. }
  split; [split; [exact scenario1_reachable|exact H]|].
  exact (index_outside_batch_raises Q Q_float 2 after_call1 call_outside
           scenario1_reachable H).
Defined.

(** Active indices in [-batch_size, 0) count from the end of the batch: a
    call that names distinct items by such indices does exactly what the
    call that names them by the indices plus [batch_size] does. *)
Theorem negative_indices_count_from_end (F : Type) (HF : FloatDtype F) (B : nat)
    (s : BatchedHyps.t F) (c : hyps_call F) :
  reachable B s →
  Forall (in_signed_range B) (c_active c) →
  NoDup (wrap_index B <$> c_active c) →
  apply_call s c = apply_call s (wrap_call B c).
Proof.
  intros Hs Hact _. apply reachable_inv in Hs as [Hwf _].
  symmetry. by apply add_results_wrap.
Qed.

Lemma negative_indices_count_from_end_witness :
  (reachable 2 after_call1
   ∧ Forall (in_signed_range 2) (c_active call_from_end)
   ∧ NoDup (wrap_index 2 <$> c_active call_from_end))
  ∧ apply_call after_call1 call_from_end = apply_call after_call1 (wrap_call 2 call_from_end).
Proof.
  assert (Forall (in_signed_range 2) (c_active call_from_end)) as H1.
  { exact (bool_decide_unpack (Forall (in_signed_range 2) (c_active call_from_end)) I). }
  assert (NoDup (wrap_index 2 <$> c_active call_from_end)) as H2.
  { exact (bool_decide_unpack (NoDup (wrap_index 2 <$> c_active call_from_end)) I). }
  split; [split; [exact scenario1_reachable|split; [exact H1|exact H2]]|].
  exact (negative_indices_count_from_end Q Q_float 2 after_call1 call_from_end
           scenario1_reachable H1 H2).
Defined.

(** ** select_k_expansions *)

#[global] Instance Q_order_laws : FloatOrderLaws Q.
Proof.
  split; unfold f_leb, f_ltb; simpl.
  - intros x y. rewrite !Qle_bool_iff.
    destruct (Qlt_le_dec x y) as [Hlt|Hle]; [left; by apply Qlt_le_weak|by right].
  - intros x y z. rewrite !Qle_bool_iff. apply Qle_trans.
  - done.
Qed.

Lemma Q_nonneg_margin (gamma : Q) : (0 <= gamma)%Q → nonneg_margin gamma.
Proof.
  intros Hg x. unfold f_leb, f_sub. simpl. apply Qle_bool_iff.
  rewrite <- (Qplus_0_r x) at 2. unfold Qminus. apply Qplus_le_r.
  apply (Qopp_le_compat 0 gamma) in Hg. exact Hg.
Qed.

Section expansions_props.
Context {F : Type} {HF : FloatDtype F} {HO : FloatOrder F}.

Lemma traverse_raise_at {A B} (f : A → result B) (e : exc) (l1 l2 : list A) (x : A) :
  Forall (λ y, is_Ok (f y)) l1 → f x = Raise e →
  traverse f (l1 ++ x :: l2) = Raise e.
Proof.
  intros Hl1 Hx. induction Hl1 as [|y l1 [z Hy] _ IH]; simpl.
  - by rewrite Hx.
  - by rewrite Hy, IH.
Qed.

Lemma max_by_score_nonempty (l : list (Z * F)) :
  l ≠ [] → is_Ok (max_by_score l).
Proof. destruct l as [|x l]; [done|]. intros _. by eexists. Qed.

Lemma scored_candidates_nil (hyp : Hypothesis_ F) (idxs : list Z) (logps : list F) :
  scored_candidates hyp idxs logps = [] ↔ idxs = [] ∨ logps = [].
Proof.
  unfold scored_candidates. destruct idxs as [|k idxs], logps as [|v logps]; simpl;
    split; try done; try (by left); try (by right). by intros [|].
Qed.

Lemma expansions_of_nonempty (topk_idxs : list (list Z)) (topk_logps : list (list F))
    (gamma : F) (i : nat) (hyp : Hypothesis_ F) (e : list (Z * F)) :
  expansions_of topk_idxs topk_logps gamma i hyp = Ok e → e ≠ [].
Proof.
  unfold expansions_of. intros He.
  apply bind_Ok_inv in He as (idxs & _ & He).
  apply bind_Ok_inv in He as (logps & _ & He).
  apply bind_Ok_inv in He as (best & _ & He).
  case_bool_decide as Hlen; injection He as <-; [|done].
  intros Hnil. rewrite Hnil in Hlen. simpl in Hlen. lia.
Qed.

Lemma expansions_of_Ok (topk_idxs : list (list Z)) (topk_logps : list (list F))
    (gamma : F) (i : nat) (hyp : Hypothesis_ F) (idxs : list Z) (logps : list F) :
  topk_idxs !! i = Some idxs → topk_logps !! i = Some logps →
  idxs ≠ [] → logps ≠ [] →
  is_Ok (expansions_of topk_idxs topk_logps gamma i hyp).
Proof.
  intros Hi Hl Hni Hnl. unfold expansions_of, tensor_row. rewrite Hi, Hl. simpl.
  destruct (max_by_score_nonempty (scored_candidates hyp idxs logps)) as [best ->].
  { rewrite scored_candidates_nil. by intros [|]. }
  simpl. case_bool_decide; by eexists.
Qed.

Lemma select_k_expansions_lookup (hyps : list (Hypothesis_ F))
    (topk_idxs : list (list Z)) (topk_logps : list (list F)) (gamma : F) (beta : Z)
    (ks : list (list (Z * F))) :
  select_k_expansions hyps topk_idxs topk_logps gamma beta = Ok ks →
  length ks = length hyps
  ∧ ∀ i e, ks !! i = Some e →
      ∃ hyp, hyps !! i = Some hyp
        ∧ expansions_of topk_idxs topk_logps gamma i hyp = Ok e.
Proof.
  unfold select_k_expansions. intros Hks. apply traverse_Forall2 in Hks.
  split.
  - apply Forall2_length in Hks. by rewrite length_imap in Hks.
  - intros i e He.
    destruct (Forall2_lookup_r _ _ _ _ _ Hks He) as ([j hyp] & Hp & Hexp).
    apply list_lookup_imap_Some in Hp as (hyp' & Hhyp & [= -> ->]).
    by exists hyp'.
Qed.

Context {HL : FloatOrderLaws F}.

Lemma f_leb_refl (x : F) : f_leb x x = true.
Proof. by destruct (f_leb_total x x). Qed.

Lemma f_ltb_true (x y : F) : f_ltb x y = true → f_leb x y = true.
Proof.
  rewrite f_ltb_leb. intros Hlt. apply negb_true_iff in Hlt.
  destruct (f_leb_total x y) as [|Hyx]; [done|congruence].
Qed.

Lemma f_ltb_false (x y : F) : f_ltb x y = false → f_leb y x = true.
Proof. rewrite f_ltb_leb. intros Hlt. by apply negb_false_iff in Hlt. Qed.

Lemma max_fold_spec (l : list (Z * F)) (x : Z * F) :
  let b := foldl (λ best y, if f_ltb best.2 y.2 then y else best) x l in
  b ∈ x :: l ∧ score_bound b (x :: l).
Proof.
  induction l as [|y l IH] using rev_ind; simpl.
  - split; [left|]. intros z Hz. apply list_elem_of_singleton in Hz as ->. apply f_leb_refl.
  - rewrite foldl_app. simpl. destruct IH as [Hin Hbd].
    set (b := foldl _ x l) in *.
    destruct (f_ltb b.2 y.2) eqn:Hlt.
    + split; [rewrite app_comm_cons; apply elem_of_app; right; left|].
      intros z Hz. rewrite app_comm_cons in Hz. apply elem_of_app in Hz as [Hz|Hz].
      * apply (f_leb_trans _ b.2); [by apply Hbd|by apply f_ltb_true].
      * apply list_elem_of_singleton in Hz as ->. apply f_leb_refl.
    + split; [rewrite app_comm_cons; apply elem_of_app; by left|].
      intros z Hz. rewrite app_comm_cons in Hz. apply elem_of_app in Hz as [Hz|Hz].
      * by apply Hbd.
      * apply list_elem_of_singleton in Hz as ->. by apply f_ltb_false.
Qed.

Lemma max_by_score_spec (l : list (Z * F)) (b : Z * F) :
  max_by_score l = Ok b → b ∈ l ∧ score_bound b l.
Proof.
  destruct l as [|x l]; [done|]. simpl. intros [= <-]. apply max_fold_spec.
Qed.

Lemma ascending_cons (x : Z * F) (l : list (Z * F)) :
  ascending (x :: l) ↔ (∀ y, y ∈ l → f_leb x.2 y.2 = true) ∧ ascending l.
Proof.
  split.
  - intros Hasc. split.
    + intros y Hy. apply list_elem_of_lookup in Hy as [j Hj].
      apply (Hasc 0%nat (S j)); [lia|done..].
    + intros i j a b Hij Ha Hb. apply (Hasc (S i) (S j)); [lia|done..].
  - intros [Hx Hasc] i j a b Hij Ha Hb.
    destruct i as [|i], j as [|j]; simpl in *; try lia.
    + injection Ha as <-. injection Hb as <-. apply f_leb_refl.
    + injection Ha as <-. apply Hx. by eapply list_elem_of_lookup_2.
    + apply (Hasc i j); [lia|done..].
Qed.

Lemma insert_by_score_perm (x : Z * F) (l : list (Z * F)) :
  insert_by_score x l ≡ₚ x :: l.
Proof.
  induction l as [|y l IH]; simpl; [done|].
  destruct (f_ltb x.2 y.2); [done|]. rewrite IH. apply Permutation_swap.
Qed.

Lemma insert_by_score_ascending (x : Z * F) (l : list (Z * F)) :
  ascending l → ascending (insert_by_score x l).
Proof.
  induction l as [|y l IH]; simpl; intros Hasc.
  - apply ascending_cons. split; [|done]. intros y Hy. by apply elem_of_nil in Hy.
  - destruct (f_ltb x.2 y.2) eqn:Hlt.
    + apply ascending_cons. split; [|done]. intros z Hz.
      apply ascending_cons in Hasc as [Hy _].
      apply elem_of_cons in Hz as [->|Hz]; [by apply f_ltb_true|].
      apply (f_leb_trans _ y.2); [by apply f_ltb_true|by apply Hy].
    + apply ascending_cons in Hasc as [Hy Hasc]. apply ascending_cons.
      split; [|by apply IH]. intros z Hz.
      rewrite insert_by_score_perm in Hz.
      apply elem_of_cons in Hz as [->|Hz]; [by apply f_ltb_false|by apply Hy].
Qed.

Lemma sorted_by_score_spec (l : list (Z * F)) :
  sorted_by_score l ≡ₚ l ∧ ascending (sorted_by_score l).
Proof.
  unfold sorted_by_score. induction l as [|x l [IHp IHa]] using rev_ind.
  - split; [done|]. intros i j x y _ Hx. done.
  - rewrite foldl_app. simpl. split.
    + rewrite insert_by_score_perm, IHp. by rewrite Permutation_cons_append.
    + by apply insert_by_score_ascending.
Qed.

Lemma expansions_of_spec (topk_idxs : list (list Z)) (topk_logps : list (list F))
    (gamma : F) (i : nat) (hyp : Hypothesis_ F) (e : list (Z * F)) :
  nonneg_margin gamma →
  expansions_of topk_idxs topk_logps gamma i hyp = Ok e →
  ∃ idxs logps best,
    topk_idxs !! i = Some idxs ∧ topk_logps !! i = Some logps
    ∧ max_by_score (scored_candidates hyp idxs logps) = Ok best
    ∧ best ∈ scored_candidates hyp idxs logps
    ∧ score_bound best (scored_candidates hyp idxs logps)
    ∧ e ≡ₚ List.filter (λ x, f_leb (f_sub best.2 gamma) x.2)
             (scored_candidates hyp idxs logps)
    ∧ ascending e
    ∧ best ∈ e.
Proof.
  intros Hg. unfold expansions_of, tensor_row. intros He.
  destruct (topk_idxs !! i) as [idxs|]; [|done].
  destruct (topk_logps !! i) as [logps|]; [|done]. simpl in He.
  destruct (max_by_score (scored_candidates hyp idxs logps)) as [best|] eqn:Hbest; [|done].
  simpl in He. destruct (max_by_score_spec _ _ Hbest) as [Hin Hbd].
  set (kept := List.filter _ _) in He.
  destruct (sorted_by_score_spec kept) as [Hperm Hasc].
  assert (best ∈ kept) as Hk.
  { apply list_elem_of_In, List.filter_In. split; [by apply list_elem_of_In|apply Hg]. }
  assert (best ∈ sorted_by_score kept) as Hs by (by rewrite Hperm).
  rewrite bool_decide_eq_true_2 in He.
  - injection He as <-. exists idxs, logps, best. done.
  - destruct (sorted_by_score kept); [by apply elem_of_nil in Hs|simpl; lia].
Qed.

End expansions_props.

(** When both tensors have a non-empty row for every hypothesis,
    [select_k_expansions] returns one list of expansions per hypothesis,
    none of them empty. *)
Theorem select_k_expansions_returns (F : Type) (HF : FloatDtype F) (HO : FloatOrder F)
    (hyps : list (Hypothesis_ F)) (topk_idxs : list (list Z)) (topk_logps : list (list F))
    (gamma : F) (beta : Z) :
  (∀ i, (i < length hyps)%nat →
     ∃ idxs logps, topk_idxs !! i = Some idxs ∧ topk_logps !! i = Some logps
       ∧ idxs ≠ [] ∧ logps ≠ []) →
  ∃ ks, select_k_expansions hyps topk_idxs topk_logps gamma beta = Ok ks
    ∧ length ks = length hyps
    ∧ Forall (λ e, e ≠ []) ks.
Proof.
  intros Hrows.
  destruct (traverse_is_Ok
    (λ p : nat * Hypothesis_ F, expansions_of topk_idxs topk_logps gamma p.1 p.2)
    (imap (λ i hyp, (i, hyp)) hyps)) as [ks Hks].
  { apply Forall_forall. intros [i hyp] Hp.
    apply list_elem_of_lookup in Hp as [j Hj].
    apply list_lookup_imap_Some in Hj as (hyp' & Hhyp & [= -> ->]).
    destruct (Hrows j) as (idxs & logps & Hi & Hl & Hni & Hnl);
      [by eapply lookup_lt_Some|].
    by apply (expansions_of_Ok _ _ _ _ _ idxs logps). }
  exists ks. split; [done|].
  destruct (select_k_expansions_lookup hyps topk_idxs topk_logps gamma beta ks Hks)
    as [Hlen Hall].
  split; [done|]. apply Forall_forall. intros e He.
  apply list_elem_of_lookup in He as [i Hi].
  destruct (Hall i e Hi) as (hyp & _ & Hexp).
  by eapply expansions_of_nonempty.
Qed.

Lemma select_k_expansions_returns_witness :
  (∀ i, (i < length beam_ex)%nat →
     ∃ idxs logps, topk_idxs_ex !! i = Some idxs ∧ topk_logps_ex !! i = Some logps
       ∧ idxs ≠ [] ∧ logps ≠ [])
  ∧ ∃ ks, select_k_expansions beam_ex topk_idxs_ex topk_logps_ex 1%Q 2 = Ok ks
      ∧ length ks = length beam_ex
      ∧ Forall (λ e, e ≠ []) ks.
Proof.
  assert (∀ i, (i < length beam_ex)%nat →
     ∃ idxs logps, topk_idxs_ex !! i = Some idxs ∧ topk_logps_ex !! i = Some logps
       ∧ idxs ≠ [] ∧ logps ≠ []) as H.
  { intros [|[|i]] Hi; simpl in Hi; [| |lia]; do 2 eexists;
      (split; [reflexivity|]; split; [reflexivity|]; split; discriminate). }
  split; [exact H|].
  exact (select_k_expansions_returns Q Q_float Q_order beam_ex topk_idxs_ex topk_logps_ex
           1%Q 2 H).
Defined.

(** The first hypothesis without a row in one of the tensors makes
    [select_k_expansions] raise [IndexError], and the first one whose row of
    candidates is empty makes it raise [ValueError], from [max]. *)
Theorem select_k_expansions_raises (F : Type) (HF : FloatDtype F) (HO : FloatOrder F)
    (hyps : list (Hypothesis_ F)) (topk_idxs : list (list Z)) (topk_logps : list (list F))
    (gamma : F) (beta : Z) (n : nat) :
  (n < length hyps)%nat →
  (∀ i, (i < n)%nat →
     ∃ idxs logps, topk_idxs !! i = Some idxs ∧ topk_logps !! i = Some logps
       ∧ idxs ≠ [] ∧ logps ≠ []) →
  (topk_idxs !! n = None ∨ topk_logps !! n = None →
   select_k_expansions hyps topk_idxs topk_logps gamma beta = Raise IndexError)
  ∧ (∀ idxs logps, topk_idxs !! n = Some idxs → topk_logps !! n = Some logps →
       idxs = [] ∨ logps = [] →
       select_k_expansions hyps topk_idxs topk_logps gamma beta = Raise ValueError).
Proof.
  intros Hn Hrows.
  destruct (lookup_lt_is_Some_2 hyps n Hn) as [hyp Hhyp].
  assert (∀ e, expansions_of topk_idxs topk_logps gamma n hyp = Raise e →
            select_k_expansions hyps topk_idxs topk_logps gamma beta = Raise e) as Hraise.
  { intros e He. unfold select_k_expansions.
    rewrite <- (take_drop_middle hyps n hyp Hhyp), imap_app. simpl.
    apply traverse_raise_at.
    - apply Forall_forall. intros [i h] Hp.
      apply list_elem_of_lookup in Hp as [j Hj].
      apply list_lookup_imap_Some in Hj as (h' & Hh & [= -> ->]).
      pose proof (lookup_lt_Some _ _ _ Hh) as Hj. rewrite length_take in Hj.
      destruct (Hrows j) as (idxs & logps & Hi & Hl & Hni & Hnl); [lia|].
      by apply (expansions_of_Ok _ _ _ _ _ idxs logps).
    - rewrite length_take, Nat.min_l, Nat.add_0_r by lia. done. }
  split.
  - intros Hnone. apply Hraise. unfold expansions_of, tensor_row.
    destruct Hnone as [->| Hl]; [done|].
    destruct (topk_idxs !! n); [|done]. simpl. by rewrite Hl.
  - intros idxs logps Hi Hl Hemp. apply Hraise. unfold expansions_of, tensor_row.
    rewrite Hi, Hl. simpl.
    apply (scored_candidates_nil hyp) in Hemp. by rewrite Hemp.
Qed.

Lemma select_k_expansions_raises_witness :
  ((1 < length beam_ex)%nat
   ∧ ∀ i, (i < 1)%nat →
       ∃ idxs logps, [[3; 7; 9]; []] !! i = Some idxs ∧ topk_logps_ex !! i = Some logps
         ∧ idxs ≠ [] ∧ logps ≠ [])
  ∧ ([[3; 7; 9]; []] !! 1%nat = None ∨ topk_logps_ex !! 1%nat = None →
     select_k_expansions beam_ex [[3; 7; 9]; []] topk_logps_ex 1%Q 2 = Raise IndexError)
  ∧ (∀ idxs logps, [[3; 7; 9]; []] !! 1%nat = Some idxs → topk_logps_ex !! 1%nat = Some logps →
       idxs = [] ∨ logps = [] →
       select_k_expansions beam_ex [[3; 7; 9]; []] topk_logps_ex 1%Q 2 = Raise ValueError).
Proof.
  assert (1 < length beam_ex)%nat as H1 by (simpl; lia).
  assert (∀ i, (i < 1)%nat →
       ∃ idxs logps, [[3; 7; 9]; []] !! i = Some idxs ∧ topk_logps_ex !! i = Some logps
         ∧ idxs ≠ [] ∧ logps ≠ []) as H2.
  { intros [|i] Hi; [|lia]. do 2 eexists.
    split; [reflexivity|]. split; [reflexivity|]. split; discriminate. }
  split; [split; [exact H1|exact H2]|].
  exact (select_k_expansions_raises Q Q_float Q_order beam_ex [[3; 7; 9]; []] topk_logps_ex
           1%Q 2 1%nat H1 H2).
Defined.

(** Pruning by value: for floats without NaN and a margin [gamma] that is
    not negative, the expansions returned for a hypothesis are exactly its
    candidates whose score is at least the best score minus [gamma], in
    ascending order of score, so that the best candidate is among them and
    no kept score is above it. *)
Theorem expansions_pruned_by_value (F : Type) (HF : FloatDtype F) (HO : FloatOrder F)
    (HL : FloatOrderLaws F)
    (hyps : list (Hypothesis_ F)) (topk_idxs : list (list Z)) (topk_logps : list (list F))
    (gamma : F) (beta : Z) (ks : list (list (Z * F))) (i : nat) (e : list (Z * F)) :
  nonneg_margin gamma →
  select_k_expansions hyps topk_idxs topk_logps gamma beta = Ok ks →
  ks !! i = Some e →
  ∃ hyp idxs logps best,
    hyps !! i = Some hyp ∧ topk_idxs !! i = Some idxs ∧ topk_logps !! i = Some logps
    ∧ max_by_score (scored_candidates hyp idxs logps) = Ok best
    ∧ score_bound best (scored_candidates hyp idxs logps)
    ∧ e ≡ₚ List.filter (λ x, f_leb (f_sub best.2 gamma) x.2)
             (scored_candidates hyp idxs logps)
    ∧ ascending e
    ∧ best ∈ e
    ∧ ∃ z, last e = Some z ∧ f_leb best.2 z.2 = true ∧ f_leb z.2 best.2 = true.
Proof.
  intros Hg Hks He.
  destruct (select_k_expansions_lookup hyps topk_idxs topk_logps gamma beta ks Hks)
    as [_ Hall].
  destruct (Hall i e He) as (hyp & Hhyp & Hexp).
  destruct (expansions_of_spec _ _ _ _ _ _ Hg Hexp)
    as (idxs & logps & best & Hi & Hl & Hbest & Hin & Hbd & Hperm & Hasc & Hbe).
  exists hyp, idxs, logps, best. do 8 (split; [done|]).
  destruct (last e) as [z|] eqn:Hz.
  - exists z. split; [done|].
    rewrite last_lookup in Hz.
    apply list_elem_of_lookup in Hbe as [j Hj].
    pose proof (lookup_lt_Some _ _ _ Hj) as Hlt. split.
    + apply (Hasc j (pred (length e))); [lia|done..].
    + apply Hbd. apply list_elem_of_lookup_2 in Hz. rewrite Hperm in Hz.
      apply list_elem_of_In, List.filter_In in Hz as [Hz _]. by apply list_elem_of_In.
  - apply last_None in Hz. rewrite Hz in Hbe. by apply elem_of_nil in Hbe.
Qed.

Lemma expansions_pruned_by_value_witness :
  (nonneg_margin 1%Q
   ∧ select_k_expansions beam_ex topk_idxs_ex topk_logps_ex 1%Q 2 = Ok k_expansions_ex
   ∧ k_expansions_ex !! 0%nat = Some [(9, (-2 # 1)%Q); (7, (-1 # 1)%Q)])
  ∧ ∃ hyp idxs logps best,
      beam_ex !! 0%nat = Some hyp ∧ topk_idxs_ex !! 0%nat = Some idxs
      ∧ topk_logps_ex !! 0%nat = Some logps
      ∧ max_by_score (scored_candidates hyp idxs logps) = Ok best
      ∧ score_bound best (scored_candidates hyp idxs logps)
      ∧ [(9, (-2 # 1)%Q); (7, (-1 # 1)%Q)]
        ≡ₚ List.filter (λ x, f_leb (f_sub best.2 1%Q) x.2) (scored_candidates hyp idxs logps)
      ∧ ascending [(9, (-2 # 1)%Q); (7, (-1 # 1)%Q)]
      ∧ best ∈ [(9, (-2 # 1)%Q); (7, (-1 # 1)%Q)]
      ∧ ∃ z, last [(9, (-2 # 1)%Q); (7, (-1 # 1)%Q)] = Some z
          ∧ f_leb best.2 z.2 = true ∧ f_leb z.2 best.2 = true.
Proof.
  assert (nonneg_margin 1%Q) as H1 by (apply Q_nonneg_margin; discriminate).
  assert (select_k_expansions beam_ex topk_idxs_ex topk_logps_ex 1%Q 2 = Ok k_expansions_ex)
    as H2 by reflexivity.
  assert (k_expansions_ex !! 0%nat = Some [(9, (-2 # 1)%Q); (7, (-1 # 1)%Q)]) as H3
    by reflexivity.
  split; [split; [exact H1|split; [exact H2|exact H3]]|].
  exact (expansions_pruned_by_value Q Q_float Q_order Q_order_laws beam_ex topk_idxs_ex
           topk_logps_ex 1%Q 2 k_expansions_ex 0%nat _ H1 H2 H3).
Defined.

(** ** Hypothesis.non_blank_frame_confidence *)

Section frame_confidence_props.
Context {F : Type}.

Lemma rnnt_loop_spec (fc : list (confidence_entry F)) (pre : list Z) (t_prev offset : Z)
    (ts : list Z) (r : list (confidence_entry F)) :
  last pre = Some t_prev → offset = Z.of_nat (trailing_run pre) - 1 →
  rnnt_loop fc t_prev offset ts = Ok r →
  length r = length ts
  ∧ ∀ k t, ts !! k = Some t →
      ∃ row x, item fc t = Ok (FrameList row)
        ∧ item row (Z.of_nat (trailing_run (pre ++ take (S k) ts)) - 1) = Ok x
        ∧ r !! k = Some (FrameFloat x).
Proof.
  revert pre t_prev offset r.
  induction ts as [|t ts IH]; intros pre t_prev offset r Hlast Hoff Hr.
  { simpl in Hr. injection Hr as <-. done. }
  simpl in Hr.
  set (st := if bool_decide (t ≠ t_prev) then (t, 0) else (t_prev, offset + 1)) in Hr.
  assert (st = (t, Z.of_nat (trailing_run (pre ++ [t])) - 1)) as Hst.
  { unfold st. rewrite trailing_run_snoc. case_bool_decide as Hne.
    - rewrite bool_decide_eq_false_2 by congruence. done.
    - assert (t = t_prev) as -> by (by destruct (decide (t = t_prev))).
      rewrite bool_decide_eq_true_2 by done. f_equal. lia. }
  rewrite Hst in Hr.
  apply bind_Ok_inv in Hr as (e & He & Hr).
  apply bind_Ok_inv in Hr as (x & Hx & Hr).
  apply bind_Ok_inv in Hr as (r' & Hr' & Hr). injection Hr as <-.
  destruct e as [y|row]; [done|].
  destruct (IH (pre ++ [t]) t (Z.of_nat (trailing_run (pre ++ [t])) - 1) r')
    as [Hlen Hall]; [by rewrite last_snoc|done|done|].
  split; [simpl; by rewrite Hlen|].
  intros [|k] t' Hk; simpl in Hk.
  - injection Hk as <-. exists row, x. done.
  - destruct (Hall k t' Hk) as (row' & x' & H1 & H2 & H3).
    exists row', x'. split; [done|]. split; [|done].
    rewrite <- H2. simpl. by rewrite cons_middle, app_assoc.
Qed.

Lemma time_indices_py_len (st : timestep_field) (ts : list Z) :
  time_indices st = Some ts → py_len st = 0%nat → ts = [].
Proof.
  destruct st as [l|d]; simpl.
  - intros [= ->]. apply length_zero_iff_nil.
  - intros Hd Hsize. apply map_size_empty_iff in Hsize. rewrite Hsize in Hd. done.
Qed.

End frame_confidence_props.

(** When the property returns, the field [timestep] holds a list of time
    indices; the result is empty when [frame_confidence] is [None] and has
    one entry per time index otherwise. *)
Theorem non_blank_frame_confidence_length (F : Type) (st : timestep_field)
    (fc : option (list (confidence_entry F))) (r : list (confidence_entry F)) :
  non_blank_frame_confidence st fc = Returns r →
  ∃ ts, time_indices st = Some ts
    ∧ match fc with
      | None => r = []
      | Some _ => length r = length ts
      end.
Proof.
  unfold non_blank_frame_confidence. fold (time_indices st).
  destruct (time_indices st) as [ts|] eqn:Hts; [|done].
  intros Hr. exists ts. split; [done|].
  destruct fc as [fc|]; [|by injection Hr as <-].
  case_bool_decide as Hlen.
  - destruct (existsb is_list fc).
    + destruct (rnnt_loop fc (-1) 0 ts) as [r'|e] eqn:Hloop; [|done].
      injection Hr as <-.
      by destruct (rnnt_loop_spec fc [-1] (-1) 0 ts r' eq_refl eq_refl Hloop).
    + destruct (traverse (item fc) ts) as [r'|e] eqn:Htr; [|done].
      injection Hr as <-. apply traverse_Forall2, Forall2_length in Htr. done.
  - injection Hr as <-.
    assert (py_len st = 0%nat) as H0 by (by destruct (decide (py_len st = 0%nat))).
    by rewrite (time_indices_py_len st ts Hts H0).
Qed.

Lemma non_blank_frame_confidence_length_witness :
  non_blank_frame_confidence (TimestepList [0; 1; 1]) (Some frames_ex)
  = Returns [FrameFloat (1 # 2)%Q; FrameFloat (1 # 3)%Q; FrameFloat (1 # 4)%Q]
  ∧ ∃ ts, time_indices (TimestepList [0; 1; 1]) = Some ts
      ∧ length [FrameFloat (1 # 2)%Q; FrameFloat (1 # 3)%Q; FrameFloat (1 # 4)%Q]
        = length ts.
Proof.
  split; [reflexivity|].
  exact (non_blank_frame_confidence_length Q (TimestepList [0; 1; 1]) (Some frames_ex) _
           eq_refl).
Defined.

(** In the RNNT branch, where some entry of [frame_confidence] is a list,
    the result for the [k]-th time index [t] is
    [frame_confidence[t][offset]], with [offset] the number of time indices
    just before it that are equal to it, counted as if the list of time
    indices were preceded by [-1]. *)
Theorem non_blank_frame_confidence_rnnt (F : Type) (st : timestep_field)
    (fc : list (confidence_entry F)) (r : list (confidence_entry F)) :
  existsb is_list fc = true →
  non_blank_frame_confidence st (Some fc) = Returns r →
  ∃ ts, time_indices st = Some ts
    ∧ ∀ k t, ts !! k = Some t →
        ∃ row x, item fc t = Ok (FrameList row)
          ∧ item row (Z.of_nat (trailing_run (-1 :: take (S k) ts)) - 1) = Ok x
          ∧ r !! k = Some (FrameFloat x).
Proof.
  intros Hany. unfold non_blank_frame_confidence. fold (time_indices st).
  destruct (time_indices st) as [ts|] eqn:Hts; [|done].
  intros Hr. exists ts. split; [done|].
  case_bool_decide as Hlen.
  - rewrite Hany in Hr.
    destruct (rnnt_loop fc (-1) 0 ts) as [r'|e] eqn:Hloop; [|done].
    injection Hr as <-.
    by destruct (rnnt_loop_spec fc [-1] (-1) 0 ts r' eq_refl eq_refl Hloop).
  - assert (py_len st = 0%nat) as H0 by (by destruct (decide (py_len st = 0%nat))).
    rewrite (time_indices_py_len st ts Hts H0). intros k t Hk. done.
Qed.

Lemma non_blank_frame_confidence_rnnt_witness :
  (existsb is_list frames_ex = true
   ∧ non_blank_frame_confidence (TimestepList [0; 1; 1]) (Some frames_ex)
     = Returns [FrameFloat (1 # 2)%Q; FrameFloat (1 # 3)%Q; FrameFloat (1 # 4)%Q])
  ∧ ∃ ts, time_indices (TimestepList [0; 1; 1]) = Some ts
      ∧ ∀ k t, ts !! k = Some t →
          ∃ row x, item frames_ex t = Ok (FrameList row)
            ∧ item row (Z.of_nat (trailing_run (-1 :: take (S k) ts)) - 1) = Ok x
            ∧ [FrameFloat (1 # 2)%Q; FrameFloat (1 # 3)%Q; FrameFloat (1 # 4)%Q] !! k
              = Some (FrameFloat x).
Proof.
  split; [split; reflexivity|].
  exact (non_blank_frame_confidence_rnnt Q (TimestepList [0; 1; 1]) frames_ex _
           eq_refl eq_refl).
Defined.

(** ** The alignments that the calls pass and the conversion returns *)

Section alignments_history_props.
Context {F : Type} {HF : FloatDtype F}.

Lemma passed_pairs_snoc (b : Z) (cs : list (align_call F)) (c : align_call F) :
  passed_pairs b (cs ++ [c])
  = passed_pairs b cs
    ++ passed b (a_active c)
         (zip (a_labels c)
              (rows_of (length (a_active c)) (last_dim (shape (a_logits c)))
                 (data (a_logits c)))).
Proof.
  unfold passed_pairs. rewrite fmap_app, concat_app. simpl. by rewrite app_nil_r.
Qed.

Lemma run_align_snoc (s : BatchedAlignments.t F) (cs : list (align_call F))
    (c : align_call F) :
  run_align s (cs ++ [c]) = (s' ← run_align s cs; apply_align s' c).
Proof.
  revert s. induction cs as [|c0 cs IH]; intros s; simpl.
  - by destruct (apply_align s c).
  - destruct (apply_align s c0) as [s1|e]; [|done]. simpl. apply IH.
Qed.

(** As long as there are no more calls than the initial length no item
    fills its row, the capacity stays what it was and the alignments hold
    what was passed. *)
Lemma run_align_stored (batch_size logits_dim init_length : Z) (track : bool)
    (s0 : BatchedAlignments.t F) (cs : list (align_call F)) :
  0 < logits_dim →
  BatchedAlignments.__init__ batch_size logits_dim init_length track = Ok s0 →
  Forall (valid_align (Z.to_nat batch_size) (Z.to_nat logits_dim)) cs →
  Z.of_nat (length cs) ≤ init_length →
  ∃ s, run_align s0 cs = Ok s
    ∧ awf (Z.to_nat batch_size) (Z.to_nat logits_dim) s
    ∧ BatchedAlignments._max_length s = init_length
    ∧ Forall (λ l, l ≤ Z.of_nat (length cs)) (BatchedAlignments.lengths s)
    ∧ stored_pairs (Z.to_nat batch_size) s cs.
Proof.
  intros HD Hinit. set (B := Z.to_nat batch_size). set (D := Z.to_nat logits_dim).
  destruct (align_init_awf _ _ _ _ _ HD Hinit) as (Hwf0 & HM0 & Hl0). fold B D in Hwf0.
  induction cs as [|c cs IH] using rev_ind; intros Hcs Hlen.
  - exists s0. split; [done|]. split; [done|]. split; [done|]. split.
    + rewrite Hl0. apply Forall_replicate. simpl. lia.
    + intros b Hb. split; [|intros j p Hj; done].
      rewrite Hl0. simpl. fold B. by rewrite lookup_replicate_2.
  - apply Forall_app in Hcs as [Hcs Hc]. apply Forall_inv in Hc.
    rewrite length_app in Hlen. simpl in Hlen.
    destruct (IH Hcs) as (s & Hs & Hwf & HM & Hle & Hst); [lia|].
    assert (has_room s) as Hroom.
    { unfold has_room. eapply Forall_impl; [exact Hle|]. intros l Hl. simpl in Hl. lia. }
    destruct (align_step B D s c Hwf Hroom Hc)
      as (s' & Hs' & Hwf' & HM' & Hact & Hoth & Hkept).
    exists s'. split; [rewrite run_align_snoc, Hs; done|].
    split; [done|]. split; [congruence|].
    destruct Hc as (Hnd & Hr & Hvs & Hvd & Hlab & Hconf).
    assert (last_dim (shape (a_logits c)) = D) as HDc by (by rewrite Hvs).
    assert (∀ b, (b < B)%nat →
      (∃ k len label, a_active c !! k = Some (Z.of_nat b)
         ∧ BatchedAlignments.lengths s !! b = Some len
         ∧ BatchedAlignments.lengths s' !! b = Some (len + 1)
         ∧ passed_pairs (Z.of_nat b) (cs ++ [c])
           = passed_pairs (Z.of_nat b) cs ++ [(label, row_at D (data (a_logits c)) k)]
         ∧ item2 (BatchedAlignments.labels s') (Z.of_nat b) len = Ok label
         ∧ item2_vec (BatchedAlignments.logits s') (Z.of_nat b) len
           = Ok (row_at D (data (a_logits c)) k)) ∨
      ((Z.of_nat b ∉ a_active c)
         ∧ BatchedAlignments.lengths s' !! b = BatchedAlignments.lengths s !! b
         ∧ passed_pairs (Z.of_nat b) (cs ++ [c]) = passed_pairs (Z.of_nat b) cs)) as Hcase.
    { intros b Hb. rewrite passed_pairs_snoc, HDc.
      destruct (decide (Z.of_nat b ∈ a_active c)) as [Hin|Hout].
      - left. apply list_elem_of_lookup in Hin as [k Hk].
        destruct (Hact k _ Hk) as (len & label & H1 & H2 & H3 & H4 & H5).
        rewrite Nat2Z.id in H1, H3.
        exists k, len, label. do 3 (split; [done|]). split; [|done].
        f_equal. apply (passed_at _ _ _ k); [done..|].
        rewrite lookup_zip_with, H2. simpl.
        rewrite rows_of_lookup by (by eapply lookup_lt_Some). done.
      - right. split; [done|]. split; [by apply Hoth|].
        rewrite passed_notin by done. by rewrite app_nil_r. }
    split.
    + apply Forall_lookup. intros b l Hb.
      assert (b < B)%nat as HbB.
      { rewrite <- (awf_lengths B D s' Hwf'). by eapply lookup_lt_Some. }
      rewrite Forall_lookup in Hle. rewrite length_app. simpl.
      destruct (Hcase b HbB) as [(k & len & label & _ & H1 & H2 & _)|(_ & H1 & _)].
      * specialize (Hle b len H1). assert (l = len + 1) by congruence. lia.
      * rewrite H1 in Hb. specialize (Hle b l Hb). lia.
    + intros b Hb. destruct (Hst b Hb) as [Hlb Hpairs].
      destruct (Hcase b Hb)
        as [(k & len & label & Hk & H1 & H2 & -> & H4 & H5)|(Hout & H1 & ->)].
      * assert (len = Z.of_nat (length (passed_pairs (Z.of_nat b) cs))) as Hlen_eq
          by congruence.
        split; [rewrite H2, length_app; simpl; f_equal; lia|].
        intros j p Hj.
        destruct (decide (j < length (passed_pairs (Z.of_nat b) cs))%nat) as [Hlt|Hge].
        -- rewrite lookup_app_l in Hj by done.
           assert (len ≤ Z.of_nat (length cs)) as Hlen_le.
           { rewrite Forall_lookup in Hle. by apply (Hle b). }
           destruct (Hkept b j len H1) as [E1 E2]; [lia|left; lia|].
           rewrite E1, E2. by apply Hpairs.
        -- rewrite lookup_app_r in Hj by lia.
           destruct (j - length (passed_pairs (Z.of_nat b) cs))%nat as [|n] eqn:Hn;
             [|done].
           simpl in Hj. injection Hj as <-. simpl.
           assert (Z.of_nat j = len) as -> by lia. done.
      * split; [congruence|]. intros j p Hj.
        pose proof (lookup_lt_Some _ _ _ Hj) as Hjlt.
        destruct (Hkept b j _ Hlb) as [E1 E2]; [|by right|].
        { rewrite Forall_lookup in Hle. specialize (Hle b _ Hlb). lia. }
        rewrite E1, E2. by apply Hpairs.
Qed.

Lemma hypothesis_at_aligned (B D : nat) (hs : BatchedHyps.t F)
    (al : BatchedAlignments.t F) (cs : list (align_call F)) (fc : option (tensor Z))
    (b : nat) :
  wf B hs → awf B D al → stored_pairs B al cs → (b < B)%nat →
  match fc with
  | Some c => wf_matrix B (Z.to_nat (BatchedAlignments._max_length al)) c
  | None => True
  end →
  ∃ r, hypothesis_at hs (Some (BatchedAlignments.lengths al))
         (Some (BatchedAlignments.labels al)) (Some (BatchedAlignments.logits al)) fc
         (Z.of_nat b) = Ok r
    ∧ alignments r = Some (passed_pairs (Z.of_nat b) cs).
Proof.
  intros Hwf Hawf Hst Hb Hfc. unfold hypothesis_at.
  assert (in_range B (Z.of_nat b)) as Hi by (unfold in_range; lia).
  destruct (lookup_lt_is_Some_2 (BatchedHyps.scores hs) b) as [sc Hsc].
  { by rewrite (wf_scores B hs Hwf). }
  destruct (lookup_lt_is_Some_2 (BatchedHyps.lengths hs) b) as [len Hlen].
  { by rewrite (wf_lengths B hs Hwf). }
  assert (0 ≤ len ≤ BatchedHyps._max_length hs) as Hbd.
  { pose proof (wf_bound B hs Hwf) as Hbd. rewrite Forall_forall in Hbd.
    apply Hbd. by eapply list_elem_of_lookup_2. }
  rewrite (item_in_range (BatchedHyps.scores hs) (Z.of_nat b) sc)
    by (lia || (rewrite Nat2Z.id; done)).
  ok_steps.
  rewrite (item_in_range (BatchedHyps.lengths hs) (Z.of_nat b) len)
    by (lia || (rewrite Nat2Z.id; done)).
  ok_steps.
  rewrite (row_slice_prefix B (Z.to_nat (BatchedHyps._max_length hs))
             (BatchedHyps.transcript hs))
    by (done || lia || apply (wf_transcript B hs Hwf)). ok_steps.
  rewrite (row_slice_prefix B (Z.to_nat (BatchedHyps._max_length hs))
             (BatchedHyps.timesteps hs))
    by (done || lia || apply (wf_timesteps B hs Hwf)). ok_steps.
  destruct (Hst b Hb) as [Hn Hpairs].
  set (pairs := passed_pairs (Z.of_nat b) cs) in *.
  unfold list_item.
  rewrite (item_in_range (BatchedAlignments.lengths al) (Z.of_nat b)
             (Z.of_nat (length pairs)))
    by (lia || (rewrite Nat2Z.id; done)).
  ok_steps.
  assert (traverse (λ time_i,
            l ← item2 (BatchedAlignments.labels al) (Z.of_nat b) time_i;
            v ← item2_vec (BatchedAlignments.logits al) (Z.of_nat b) time_i;
            Ok (l, v)) (range (Z.of_nat (length pairs))) = Ok pairs) as ->.
  { apply traverse_Forall2. apply Forall2_same_length_lookup_2.
    - unfold range. rewrite length_seqZ. lia.
    - intros j t p Ht Hp. unfold range in Ht. apply lookup_seqZ in Ht as [-> _].
      rewrite Z.add_0_l. destruct (Hpairs j p Hp) as [-> ->]. simpl. by destruct p. }
  ok_steps.
  destruct fc as [c|].
  - destruct Hfc as [Hc_s Hc_d]. unfold row_slice. rewrite Hc_s.
    rewrite norm_index_in_range by done. ok_steps. by eexists.
  - ok_steps. by eexists.
Qed.

Lemma convert_with_alignments (B D : nat) (hs : BatchedHyps.t F)
    (al : BatchedAlignments.t F) (cs : list (align_call F)) :
  wf B hs → awf B D al → stored_pairs B al cs →
  ∃ recs, batched_hyps_to_hypotheses hs (Some al) = Ok recs
    ∧ length recs = B
    ∧ ∀ b r, recs !! b = Some r → alignments r = Some (passed_pairs (Z.of_nat b) cs).
Proof.
  intros Hwf Hawf Hst. unfold batched_hyps_to_hypotheses. simpl.
  assert (∃ fc,
    (if BatchedAlignments.with_frame_confidence al
     then match BatchedAlignments.frame_confidence al with
          | Some c => Ok (Some c)
          | None => Raise AttributeError
          end
     else Ok None) = Ok fc
    ∧ match fc with
      | Some c => wf_matrix B (Z.to_nat (BatchedAlignments._max_length al)) c
      | None => True
      end) as (fc & -> & Hfc).
  { pose proof (awf_confidence B D al Hawf) as Hc.
    destruct (BatchedAlignments.with_frame_confidence al); [|by exists None].
    destruct (BatchedAlignments.frame_confidence al) as [c|]; [by exists (Some c)|done]. }
  ok_steps. rewrite (wf_scores B hs Hwf).
  set (f := hypothesis_at hs _ _ _ fc).
  destruct (traverse_is_Ok f (range (Z.of_nat B))) as [recs Hrecs].
  { apply Forall_forall. intros i Hi. unfold range in Hi. apply elem_of_seqZ in Hi.
    destruct (hypothesis_at_aligned B D hs al cs fc (Z.to_nat i)) as (r & Hr & _);
      [done..|lia|done|].
    rewrite Z2Nat.id in Hr by lia. by exists r. }
  exists recs. split; [done|].
  apply traverse_Forall2 in Hrecs.
  pose proof (Forall2_length _ _ _ Hrecs) as Hlen.
  unfold range in Hlen. rewrite length_seqZ, Nat2Z.id in Hlen.
  split; [done|]. intros b r Hb.
  destruct (Forall2_lookup_r _ _ _ _ _ Hrecs Hb) as (i & Hi & Hat).
  unfold range in Hi. apply lookup_seqZ in Hi as [-> Hlt]. rewrite Z.add_0_l in Hat.
  destruct (hypothesis_at_aligned B D hs al cs fc b) as (r' & Hr' & Hal);
    [done..|lia|done|].
  unfold f in Hat. congruence.
Qed.

End alignments_history_props.

(** Take alignments whose buffers have the shapes that the constructor
    gave them, for output vectors of a width [D > 0] ([awf]), and in which
    no item has filled its row ([has_room]), and a call with distinct
    in-range indices, an output tensor of shape [[n, D]] and [n] labels for
    its [n] indices, and a confidence that is absent or a [torch.long]
    tensor of [n] entries ([valid_align]; a float confidence is not
    covered).  Then [BatchedAlignments.add_results_] returns without growing
    the buffers, adds one to the length of each named item and stores its
    label and its output vector at the position of its old length; the
    lengths of the other items and all other positions of the labels and of
    the output vectors are kept. *)
Theorem alignments_stored_per_item (F : Type) (HF : FloatDtype F) (B D : nat)
    (s : BatchedAlignments.t F) (c : align_call F) :
  awf B D s → has_room s → valid_align B D c →
  ∃ s', apply_align s c = Ok s'
    ∧ BatchedAlignments._max_length s' = BatchedAlignments._max_length s
    ∧ (∀ k a, a_active c !! k = Some a →
         ∃ len label,
           BatchedAlignments.lengths s !! Z.to_nat a = Some len
           ∧ a_labels c !! k = Some label
           ∧ BatchedAlignments.lengths s' !! Z.to_nat a = Some (len + 1)
           ∧ item2 (BatchedAlignments.labels s') a len = Ok label
           ∧ item2_vec (BatchedAlignments.logits s') a len
             = Ok (row_at D (data (a_logits c)) k))
    ∧ (∀ b, Z.of_nat b ∉ a_active c →
         BatchedAlignments.lengths s' !! b = BatchedAlignments.lengths s !! b)
    ∧ (∀ b j len, BatchedAlignments.lengths s !! b = Some len →
         (j < Z.to_nat (BatchedAlignments._max_length s))%nat →
         Z.of_nat j ≠ len ∨ Z.of_nat b ∉ a_active c →
         item2 (BatchedAlignments.labels s') (Z.of_nat b) (Z.of_nat j)
         = item2 (BatchedAlignments.labels s) (Z.of_nat b) (Z.of_nat j)
         ∧ item2_vec (BatchedAlignments.logits s') (Z.of_nat b) (Z.of_nat j)
           = item2_vec (BatchedAlignments.logits s) (Z.of_nat b) (Z.of_nat j)).
Proof.
  intros Hwf Hroom Hc.
  destruct (align_step B D s c Hwf Hroom Hc) as (s' & Hs' & _ & HM & Hact & Hoth & Hkept).
  exists s'. done.
Qed.

Lemma alignments_stored_per_item_witness :
  (awf 1 2 fresh_align ∧ has_room fresh_align ∧ valid_align 1 2 align_call1)
  ∧ ∃ s', apply_align fresh_align align_call1 = Ok s'
      ∧ BatchedAlignments._max_length s' = BatchedAlignments._max_length fresh_align
      ∧ (∀ k a, a_active align_call1 !! k = Some a →
           ∃ len label,
             BatchedAlignments.lengths fresh_align !! Z.to_nat a = Some len
             ∧ a_labels align_call1 !! k = Some label
             ∧ BatchedAlignments.lengths s' !! Z.to_nat a = Some (len + 1)
             ∧ item2 (BatchedAlignments.labels s') a len = Ok label
             ∧ item2_vec (BatchedAlignments.logits s') a len
               = Ok (row_at 2 (data (a_logits align_call1)) k))
      ∧ (∀ b, Z.of_nat b ∉ a_active align_call1 →
           BatchedAlignments.lengths s' !! b = BatchedAlignments.lengths fresh_align !! b)
      ∧ (∀ b j len, BatchedAlignments.lengths fresh_align !! b = Some len →
           (j < Z.to_nat (BatchedAlignments._max_length fresh_align))%nat →
           Z.of_nat j ≠ len ∨ Z.of_nat b ∉ a_active align_call1 →
           item2 (BatchedAlignments.labels s') (Z.of_nat b) (Z.of_nat j)
           = item2 (BatchedAlignments.labels fresh_align) (Z.of_nat b) (Z.of_nat j)
           ∧ item2_vec (BatchedAlignments.logits s') (Z.of_nat b) (Z.of_nat j)
             = item2_vec (BatchedAlignments.logits fresh_align) (Z.of_nat b) (Z.of_nat j)).
Proof.
  assert (awf 1 2 fresh_align) as H1.
  { apply (align_init_awf 1 2 1 false fresh_align); [lia|reflexivity]. }
  assert (has_room fresh_align) as H2.
  { exact (bool_decide_unpack (has_room fresh_align) I). }
  assert (valid_align 1 2 align_call1) as H3.
  { exact (bool_decide_unpack (valid_align 1 2 align_call1) I). }
  split; [split; [exact H1|split; [exact H2|exact H3]]|].
  exact (alignments_stored_per_item Q Q_float 1 2 fresh_align align_call1 H1 H2 H3).
Defined.

(** A fresh session of alignments with output vectors of positive width
    takes as many calls as its initial length without growing, and the
    conversion then returns, for every item, the pairs of a label and an
    output vector that the calls passed for it, in the order of the calls. *)
Theorem alignments_returned_as_passed (F : Type) (HF : FloatDtype F)
    (batch_size logits_dim init_length : Z) (track : bool)
    (hs : BatchedHyps.t F) (a0 : BatchedAlignments.t F) (cs : list (align_call F)) :
  reachable (Z.to_nat batch_size) hs →
  0 < logits_dim →
  BatchedAlignments.__init__ batch_size logits_dim init_length track = Ok a0 →
  Forall (valid_align (Z.to_nat batch_size) (Z.to_nat logits_dim)) cs →
  Z.of_nat (length cs) ≤ init_length →
  ∃ al recs, run_align a0 cs = Ok al
    ∧ BatchedAlignments._max_length al = init_length
    ∧ batched_hyps_to_hypotheses hs (Some al) = Ok recs
    ∧ length recs = Z.to_nat batch_size
    ∧ ∀ b r, recs !! b = Some r →
        alignments r = Some (passed_pairs (Z.of_nat b) cs).
Proof.
  intros Hhs HD Hinit Hcs Hlen. apply reachable_inv in Hhs as [Hwf _].
  destruct (run_align_stored _ _ _ _ _ _ HD Hinit Hcs Hlen)
    as (al & Hal & Hawf & HM & _ & Hst).
  destruct (convert_with_alignments _ _ hs al cs Hwf Hawf Hst) as (recs & Hrecs & Hl & Hall).
  exists al, recs. done.
Qed.

Lemma alignments_returned_as_passed_witness :
  (reachable (Z.to_nat 1) fresh_one
   ∧ 0 < 2
   ∧ BatchedAlignments.__init__ 1 2 1 false = Ok fresh_align
   ∧ Forall (valid_align (Z.to_nat 1) (Z.to_nat 2)) [align_call1]
   ∧ Z.of_nat (length [align_call1]) ≤ 1)
  ∧ ∃ al recs, run_align fresh_align [align_call1] = Ok al
      ∧ BatchedAlignments._max_length al = 1
      ∧ batched_hyps_to_hypotheses fresh_one (Some al) = Ok recs
      ∧ length recs = Z.to_nat 1
      ∧ ∀ b r, recs !! b = Some r →
          alignments r = Some (passed_pairs (Z.of_nat b) [align_call1]).
Proof.
  assert (reachable (Z.to_nat 1) fresh_one) as H1.
  { exists 1, 1, fresh_one, []. split; [reflexivity|]. split; [reflexivity|].
    split; [constructor|reflexivity]. }
  assert (0 < 2) as H2 by lia.
  assert (BatchedAlignments.__init__ 1 2 1 false = Ok fresh_align) as H3 by reflexivity.
  assert (Forall (valid_align (Z.to_nat 1) (Z.to_nat 2)) [align_call1]) as H4.
  { constructor; [|constructor].
    exact (bool_decide_unpack (valid_align 1 2 align_call1) I). }
  assert (Z.of_nat (length [align_call1]) ≤ 1) as H5 by (simpl; lia).
  split; [split; [exact H1|split; [exact H2|split; [exact H3|split; [exact H4|exact H5]]]]|].
  exact (alignments_returned_as_passed Q Q_float 1 2 1 false fresh_one fresh_align
           [align_call1] H1 H2 H3 H4 H5).
Defined.

(** A session of alignments built with [logits_dim = 0], which the
    constructor accepts, cannot store anything: every call that names an item
    of the batch raises [RuntimeError], whatever is passed with it. *)
Theorem zero_width_session_stores_nothing (F : Type) (HF : FloatDtype F)
    (batch_size init_length : Z) (track : bool) (s0 : BatchedAlignments.t F)
    (c : align_call F) :
  BatchedAlignments.__init__ batch_size 0 init_length track = Ok s0 →
  a_active c ≠ [] →
  Forall (in_range (Z.to_nat batch_size)) (a_active c) →
  apply_align s0 c = Raise RuntimeError.
Proof.
  rewrite align_init_eq. case_bool_decide as Hsz; [done|].
  rewrite bool_decide_eq_false_2 by lia. intros [= <-] Hne Hr.
  unfold apply_align, BatchedAlignments.add_results_.
  rewrite bool_decide_eq_false_2 by (destruct (a_active c); [done|simpl; lia]).
  unfold BatchedAlignments.grow_if_full. simpl.
  destruct (tensor_max_nonempty (replicate (Z.to_nat batch_size) 0)) as [m Hm].
  { destruct (Z.to_nat batch_size) eqn:HB; [lia|done]. }
  rewrite Hm. simpl.
  destruct (tensor_max_spec _ _ Hm) as [_ Hin].
  apply elem_of_replicate in Hin as [-> _].
  rewrite bool_decide_eq_false_2 by lia. simpl.
  unfold BatchedAlignments.indices_to_use. simpl.
  destruct (index_select_in_range (replicate (Z.to_nat batch_size) 0) (a_active c))
    as (cur & -> & _); [by rewrite length_replicate|].
  simpl. unfold view_rows_index_put. simpl. done.
Qed.

Lemma zero_width_session_stores_nothing_witness :
  (BatchedAlignments.__init__ 2 0 1 false = Ok zero_width_align
   ∧ a_active align_call2 ≠ []
   ∧ Forall (in_range (Z.to_nat 2)) (a_active align_call2))
  ∧ apply_align zero_width_align align_call2 = Raise RuntimeError.
Proof.
  assert (BatchedAlignments.__init__ 2 0 1 false = Ok zero_width_align) as H1
    by reflexivity.
  assert (a_active align_call2 ≠ []) as H2 by discriminate.
  assert (Forall (in_range (Z.to_nat 2)) (a_active align_call2)) as H3.
  { exact (bool_decide_unpack (Forall (in_range (Z.to_nat 2)) (a_active align_call2)) I). }
  split; [split; [exact H1|split; [exact H2|exact H3]]|].
  exact (zero_width_session_stores_nothing Q Q_float 2 1 false zero_width_align align_call2
           H1 H2 H3).
Defined.

Lemma filter_none {A} (f : A → bool) (l : list A) :
  (∀ x, x ∈ l → f x = false) → List.filter f l = [].
Proof.
  induction l as [|x l IH]; intros Hf; [done|]. simpl.
  rewrite (Hf x) by left. apply IH. intros y Hy. apply Hf. by right.
Qed.

(** When the best score of a hypothesis does not reach its own threshold,
    that is when [best - gamma <= best] is false, as for a negative margin
    that the subtraction does not absorb, no candidate reaches the threshold
    and the expansions of the hypothesis are its best candidate alone: the
    first one of the highest score. *)
Theorem only_best_kept_below_threshold (F : Type) (HF : FloatDtype F)
    (HO : FloatOrder F) (HL : FloatOrderLaws F)
    (hyps : list (Hypothesis_ F)) (topk_idxs : list (list Z)) (topk_logps : list (list F))
    (gamma : F) (beta : Z) (ks : list (list (Z * F))) (i : nat) (e : list (Z * F))
    (hyp : Hypothesis_ F) (idxs : list Z) (logps : list F) (best : Z * F) :
  select_k_expansions hyps topk_idxs topk_logps gamma beta = Ok ks →
  ks !! i = Some e →
  hyps !! i = Some hyp → topk_idxs !! i = Some idxs → topk_logps !! i = Some logps →
  max_by_score (scored_candidates hyp idxs logps) = Ok best →
  f_leb (f_sub best.2 gamma) best.2 = false →
  e = [best].
Proof.
  intros Hks He Hhyp Hi Hl Hbest Hg.
  destruct (select_k_expansions_lookup hyps topk_idxs topk_logps gamma beta ks Hks)
    as [_ Hall].
  destruct (Hall i e He) as (hyp' & Hhyp' & Hexp).
  assert (hyp' = hyp) as -> by congruence.
  unfold expansions_of, tensor_row in Hexp. rewrite Hi, Hl in Hexp. simpl in Hexp.
  rewrite Hbest in Hexp. simpl in Hexp.
  destruct (max_by_score_spec _ _ Hbest) as [Hin Hbd].
  rewrite filter_none in Hexp.
  - simpl in Hexp. injection Hexp as <-. by destruct best.
  - intros x Hx. destruct (f_leb (f_sub best.2 gamma) x.2) eqn:Hle; [|done].
    rewrite <- Hg. symmetry.
    apply (f_leb_trans _ x.2); [done|by apply Hbd].
Qed.

Lemma only_best_kept_below_threshold_witness :
  (select_k_expansions beam_ex topk_idxs_ex topk_logps_ex (-1)%Q 2
   = Ok [[(7, (-1 # 1)%Q)]; [(1, (-2 # 1)%Q)]]
   ∧ [[(7, (-1 # 1)%Q)]; [(1, (-2 # 1)%Q)]] !! 1%nat = Some [(1, (-2 # 1)%Q)]
   ∧ beam_ex !! 1%nat = Some (mkHypothesis (-1)%Q [4] [0] None None None)
   ∧ topk_idxs_ex !! 1%nat = Some [1; 2; 8]
   ∧ topk_logps_ex !! 1%nat = Some [-1; -5; -1]%Q
   ∧ max_by_score (scored_candidates (mkHypothesis (-1)%Q [4] [0] None None None)
                     [1; 2; 8] [-1; -5; -1]%Q) = Ok (1, (-2 # 1)%Q)
   ∧ f_leb (f_sub (1, (-2 # 1)%Q).2 (-1)%Q) (1, (-2 # 1)%Q).2 = false)
  ∧ [(1, (-2 # 1)%Q)] = [(1, (-2 # 1)%Q)].
Proof.
  split; [repeat split; reflexivity|].
  exact (only_best_kept_below_threshold Q Q_float Q_order Q_order_laws beam_ex
           topk_idxs_ex topk_logps_ex (-1)%Q 2 _ 1%nat _ _ _ _ _
           eq_refl eq_refl eq_refl eq_refl eq_refl eq_refl eq_refl).
Defined.

Lemma broadcast_to_narrow {A} (n : nat) (v : list A) :
  length v ≠ n → (2 ≤ length v)%nat → broadcast_to n v = Raise RuntimeError.
Proof.
  intros Hne Hlen. unfold broadcast_to. rewrite bool_decide_eq_false_2 by done.
  destruct v as [|x [|y v]]; simpl in Hlen; [lia|lia|done].
Qed.

Lemma broadcast_rows_narrow {A} (n D W : nat) (v : tensor A) :
  (0 < n)%nat → (2 ≤ D)%nat → D ≠ W →
  shape v = [n; D] → length (data v) = (n * D)%nat →
  broadcast_rows n W v = Raise RuntimeError.
Proof.
  intros Hn HD HW Hs Hl. unfold broadcast_rows. rewrite Hs.
  destruct (decide (n = 1%nat)) as [->|Hn1].
  - assert (drop_ones [1%nat; D] = [D]) as ->.
    { simpl. destruct D as [|[|D]]; done || lia. }
    unfold stretch_row. rewrite broadcast_to_narrow by lia. done.
  - assert (drop_ones [n; D] = [n; D]) as ->.
    { simpl. destruct n as [|[|n]]; done. }
    destruct n as [|n]; [lia|]. simpl.
    unfold stretch_row. rewrite broadcast_to_narrow; [done| |].
    + rewrite length_take. nia.
    + rewrite length_take. nia.
Qed.

(** The call that has to grow the buffers of alignments with output
    vectors of width two or more raises [RuntimeError]: the buffer of the
    output vectors has grown in width, not in length, and the vectors passed
    no longer fit its rows. *)
Theorem growth_breaks_wide_alignments (F : Type) (HF : FloatDtype F) (B D : nat)
    (s : BatchedAlignments.t F) (c : align_call F) :
  awf B D s → row_full s → (2 ≤ D)%nat →
  valid_align B D c → a_active c ≠ [] →
  apply_align s c = Raise RuntimeError.
Proof.
  intros Hwf Hfull HD (Hnd & Hr & Hvs & Hvd & Hlab & Hconf) Hne.
  pose proof Hwf as [HB _ HM Hl Hbd Hls Hld _ Hfc].
  unfold apply_align, BatchedAlignments.add_results_.
  rewrite bool_decide_eq_false_2 by (destruct (a_active c); [done|simpl; lia]).
  destruct (tensor_max_nonempty (BatchedAlignments.lengths s)) as [m Hm].
  { intros Hnil. rewrite Hnil in Hl. simpl in Hl. lia. }
  unfold BatchedAlignments.grow_if_full. rewrite Hm. rewrite bind_Ok. cbn beta.
  destruct (tensor_max_spec _ _ Hm) as [Hle _].
  rewrite bool_decide_eq_true_2.
  2:{ unfold row_full in Hfull. apply Exists_exists in Hfull as (l & Hin & Hl').
      rewrite Forall_forall in Hle. specialize (Hle l Hin). lia. }
  unfold BatchedAlignments._allocate_more.
  assert (∃ fc', (if BatchedAlignments.with_frame_confidence s
                  then match BatchedAlignments.frame_confidence s with
                       | Some c0 => Ok (Some (torch_cat_last c0 (torch_zeros_like c0)))
                       | None => Raise TypeError
                       end
                  else Ok (BatchedAlignments.frame_confidence s)) = Ok fc')
    as [fc' ->].
  { destruct (BatchedAlignments.with_frame_confidence s); [|by eexists].
    destruct (BatchedAlignments.frame_confidence s); [by eexists|done]. }
  rewrite !bind_Ok. cbn beta.
  unfold BatchedAlignments.indices_to_use. simpl.
  destruct (index_select_in_range (BatchedAlignments.lengths s) (a_active c))
    as (lens & -> & Hlens2); [by rewrite Hl|].
  rewrite !bind_Ok. cbn beta.
  unfold view_rows_index_put, torch_cat_last. simpl. rewrite Hls. simpl.
  assert (∀ n1 n2 n3 : nat, last_dim [n1; n2; n3] = n3) as Hlast by done.
  rewrite !Hlast. rewrite bool_decide_eq_false_2 by lia.
  assert (length (zip_with (λ a l : Z, a * (BatchedAlignments._max_length s * 2) + l)
                    (a_active c) lens) = length (a_active c)) as ->.
  { rewrite length_zip_with, <- (Forall2_length _ _ _ Hlens2). lia. }
  rewrite (broadcast_rows_narrow _ D); [done| |done|lia|done|done].
  destruct (a_active c); [done|simpl; lia].
Qed.

Lemma growth_breaks_wide_alignments_witness :
  (awf 1 2 full_align ∧ row_full full_align ∧ (2 ≤ 2)%nat
   ∧ valid_align 1 2 align_call1 ∧ a_active align_call1 ≠ [])
  ∧ apply_align full_align align_call1 = Raise RuntimeError.
Proof.
  assert (awf 1 2 full_align) as H1.
  { destruct (align_step 1 2 fresh_align align_call1) as (s' & Hs' & Hwf' & _).
    - apply (align_init_awf 1 2 1 false fresh_align); [lia|reflexivity].
    - exact (bool_decide_unpack (has_room fresh_align) I).
    - exact (bool_decide_unpack (valid_align 1 2 align_call1) I).
    - assert (apply_align fresh_align align_call1 = Ok full_align) as E by reflexivity.
      rewrite E in Hs'. injection Hs' as <-. exact Hwf'. }
  assert (row_full full_align) as H2.
  { exact (bool_decide_unpack (row_full full_align) I). }
  assert (2 ≤ 2)%nat as H3 by lia.
  assert (valid_align 1 2 align_call1) as H4.
  { exact (bool_decide_unpack (valid_align 1 2 align_call1) I). }
  assert (a_active align_call1 ≠ []) as H5 by discriminate.
  split; [split; [exact H1|split; [exact H2|split; [exact H3|split; [exact H4|exact H5]]]]|].
  exact (growth_breaks_wide_alignments Q Q_float 1 2 full_align align_call1
           H1 H2 H3 H4 H5).
Defined.
